(** * AsyncIterator: a shallow embedding of [asynciterator.ts]

    The iterators of the library are objects that call each other through
    events and deferred tasks.  The embedding keeps that shape:

    - every iterator is a record in a heap, addressed by a reference;
    - closures (event listeners, [done] callbacks) are defunctionalised;
    - a call stack of pending calls and a queue of microtasks drive the
      execution, one call at a time ([step]), until both are empty ([run]).

    Finite JavaScript numbers are exact rationals at the interface of the
    library (where [Math.trunc] and [Number.isFinite] are applied) and
    integers afterwards.  The numbers of an [IntegerIterator], which the
    caller chooses, are added as doubles ([addD]); the counters of the
    library (lengths, offsets, limits, counts of pushed items) move by one
    and are exact, which differs from doubles only beyond 2^53. *)

From Stdlib Require Import ZArith QArith List Bool Lia.
From stdpp Require Import base option list gmap strings.
Import ListNotations.
Open Scope Z_scope.

(** ** Numbers *)

(** A JavaScript number as a caller may pass it. *)
Inductive number :=
| Finite (q : Q)
| Infinity
| NegInfinity
| NaN.

(** A number after [Number.isFinite(x) ? Math.trunc(x) : x]. *)
Inductive integer :=
| Int (z : Z)
| IInfinity
| INegInfinity
| INaN.

Definition Math_trunc (q : Q) : Z := Z.quot (Qnum q) (Zpos (Qden q)).

Definition Number_isFinite (x : number) : bool :=
  match x with Finite _ => true | _ => false end.

(** [Number.isFinite(x) ? Math.trunc(x) : x] *)
Definition truncIfFinite (x : number) : integer :=
  match x with
  | Finite q => Int (Math_trunc q)
  | Infinity => IInfinity
  | NegInfinity => INegInfinity
  | NaN => INaN
  end.

Definition isFiniteI (x : integer) : bool :=
  match x with Int _ => true | _ => false end.

(** [x + y] *)
Definition addI (x y : integer) : integer :=
  match x, y with
  | INaN, _ | _, INaN => INaN
  | Int a, Int b => Int (a + b)
  | IInfinity, INegInfinity | INegInfinity, IInfinity => INaN
  | IInfinity, _ | _, IInfinity => IInfinity
  | INegInfinity, _ | _, INegInfinity => INegInfinity
  end.

(** The double nearest to the integer [z], ties to the even significand:
    what an operation on doubles returns when its exact result is [z].  An
    integer of at most 53 bits is a double; a longer one loses its last [k]
    bits, and from 2^1024 on the result is infinite. *)
Definition round_double (z : Z) : integer :=
  let a := Z.abs z in
  let k := Z.log2 a - 52 in
  if k <=? 0 then Int z
  else
    let q := a / 2 ^ k in
    let r := a mod 2 ^ k in
    let half := 2 ^ (k - 1) in
    let q := if (half <? r) || ((r =? half) && Z.odd q) then q + 1 else q in
    if 2 ^ 1024 <=? q * 2 ^ k
    then (if z <? 0 then INegInfinity else IInfinity)
    else Int (Z.sgn z * (q * 2 ^ k)).

(** [x + y] on doubles that hold integers *)
Definition addD (x y : integer) : integer :=
  match x, y with
  | Int a, Int b => round_double (a + b)
  | _, _ => addI x y
  end.

(** [-x] *)
Definition negI (x : integer) : integer :=
  match x with
  | Int a => Int (- a)
  | IInfinity => INegInfinity
  | INegInfinity => IInfinity
  | INaN => INaN
  end.

(** [x - y] *)
Definition subI (x y : integer) : integer := addI x (negI y).

(** [x < y]; any comparison with [NaN] is false. *)
Definition ltI (x y : integer) : bool :=
  match x, y with
  | INaN, _ | _, INaN => false
  | Int a, Int b => a <? b
  | INegInfinity, INegInfinity => false
  | INegInfinity, _ => true
  | _, INegInfinity => false
  | IInfinity, _ => false
  | _, IInfinity => true
  end.

(** [x > y] *)
Definition gtI (x y : integer) : bool := ltI y x.

(** [x >= y] *)
Definition geI (x y : integer) : bool :=
  match x, y with
  | INaN, _ | _, INaN => false
  | Int a, Int b => b <=? a
  | IInfinity, _ => true
  | _, INegInfinity => true
  | _, _ => false
  end.

(** [x === y] on numbers *)
Definition eqI (x y : integer) : bool :=
  match x, y with
  | Int a, Int b => a =? b
  | IInfinity, IInfinity | INegInfinity, INegInfinity => true
  | _, _ => false
  end.

(** [Math.min(x, y)] and [Math.max(x, y)] *)
Definition minI (x y : integer) : integer :=
  match x, y with
  | INaN, _ | _, INaN => INaN
  | _, _ => if ltI y x then y else x
  end.

Definition maxI (x y : integer) : integer :=
  match x, y with
  | INaN, _ | _, INaN => INaN
  | _, _ => if ltI x y then y else x
  end.

Definition lengthZ {A} (l : list A) : Z := Z.of_nat (length l).

(** ** States *)

Definition INIT : Z := Z.shiftl 1 0.
Definition OPEN : Z := Z.shiftl 1 1.
Definition CLOSING : Z := Z.shiftl 1 2.
Definition CLOSED : Z := Z.shiftl 1 3.
Definition ENDED : Z := Z.shiftl 1 4.
Definition DESTROYED : Z := Z.shiftl 1 5.

(** ** Objects *)

Abbreviation Ref := nat.
Abbreviation Item := integer.
Abbreviation Error := string.

Inductive Event := ev_readable | ev_data | ev_end | ev_error | ev_newListener.

#[global] Instance Event_eq_dec : EqDecision Event.
Proof. solve_decision. Defined.

(** The argument an event is emitted with. *)
Inductive Arg :=
| no_arg
| arg_item (item : Item)
| arg_error (e : Error)
| arg_event (ev : Event).

(** The [done] callbacks that [BufferedIterator] hands to [_begin], [_read]
    and [_flush]; each is a closure over [this]. *)
Inductive Done :=
| init_done (self : Ref) (autoStart : bool)
| fillBuffer_done (self : Ref)
| completeClose_done (self : Ref).

#[global] Instance Done_eq_dec : EqDecision Done.
Proof. solve_decision. Defined.

(** The functions the library registers as event listeners, and the
    listeners of the program that uses the iterator ([consumer]), whose calls
    are recorded. *)
Inductive Listener :=
| waitForDataListener
| emitData
| destinationEmitError
| destinationCloseWhenDone
| destinationFillBuffer
| insert_push (self : Ref)
| insert_end (self inserter : Ref) (done : Done)
| consumer (id : nat).

#[global] Instance Listener_eq_dec : EqDecision Listener.
Proof. solve_decision. Defined.

(** [AsyncIterator]: the fields every iterator has.  [_events] is the
    listener table of the event emitter, in order of registration;
    [_destination] is the back link a transform iterator writes on its
    source. *)
Record Base := {
  _state : Z;
  _readable : bool;
  _events : list (Event * Listener);
  _destination : option Ref
}.

(** [BufferedIterator].  [doneCalled] and [neededItems] are the local
    variables of [_init] and [_fillBuffer] that their [done] closures
    capture. *)
Record Buffered := {
  _buffer : list Item;
  _maxBufferSize : integer;
  _reading : bool;
  _pushedCount : Z;
  doneCalled : bool;
  neededItems : integer
}.

(** [TransformIterator] *)
Record Transform := {
  _source : option Ref;
  _destroySource : bool;
  _optional : bool
}.

(** [SimpleTransformIterator]; the asynchronous [transform] option is not
    modelled, so [_transform] is always [null] here. *)
Record Simple := {
  _offset : Z;
  _limit : integer;
  _prepender : option Ref;
  _appender : option Ref;
  _filter : Item -> bool;
  _map : option (Item -> option Item)
}.

(** The classes.  [Subclass e] stands for a class of the program that
    extends [AsyncIterator] and overrides [_destroy] so that it calls back
    with [e]. *)
Inductive Kind :=
| AsyncIterator
| EmptyIterator
| Subclass (destroyError : option Error)
| ArrayIterator (buffer : option (list Item))
| IntegerIterator (next step last : integer)
| BufferedIterator (b : Buffered)
| TransformIterator (b : Buffered) (t : Transform)
| SimpleTransformIterator (b : Buffered) (t : Transform) (s : Simple).

Record Iter := { base : Base; kind : Kind }.

(** *** Field updates *)

Definition set_state (s : Z) (b : Base) : Base :=
  {| _state := s; _readable := _readable b; _events := _events b;
     _destination := _destination b |}.
Definition set__readable (r : bool) (b : Base) : Base :=
  {| _state := _state b; _readable := r; _events := _events b;
     _destination := _destination b |}.
Definition set_events (e : list (Event * Listener)) (b : Base) : Base :=
  {| _state := _state b; _readable := _readable b; _events := e;
     _destination := _destination b |}.
Definition set_destination (d : option Ref) (b : Base) : Base :=
  {| _state := _state b; _readable := _readable b; _events := _events b;
     _destination := d |}.

Definition set_buffer (l : list Item) (b : Buffered) : Buffered :=
  {| _buffer := l; _maxBufferSize := _maxBufferSize b; _reading := _reading b;
     _pushedCount := _pushedCount b; doneCalled := doneCalled b;
     neededItems := neededItems b |}.
Definition set__maxBufferSize (m : integer) (b : Buffered) : Buffered :=
  {| _buffer := _buffer b; _maxBufferSize := m; _reading := _reading b;
     _pushedCount := _pushedCount b; doneCalled := doneCalled b;
     neededItems := neededItems b |}.
Definition set_reading (r : bool) (b : Buffered) : Buffered :=
  {| _buffer := _buffer b; _maxBufferSize := _maxBufferSize b; _reading := r;
     _pushedCount := _pushedCount b; doneCalled := doneCalled b;
     neededItems := neededItems b |}.
Definition set_pushedCount (n : Z) (b : Buffered) : Buffered :=
  {| _buffer := _buffer b; _maxBufferSize := _maxBufferSize b;
     _reading := _reading b; _pushedCount := n; doneCalled := doneCalled b;
     neededItems := neededItems b |}.
Definition set_doneCalled (d : bool) (b : Buffered) : Buffered :=
  {| _buffer := _buffer b; _maxBufferSize := _maxBufferSize b;
     _reading := _reading b; _pushedCount := _pushedCount b; doneCalled := d;
     neededItems := neededItems b |}.
Definition set_neededItems (n : integer) (b : Buffered) : Buffered :=
  {| _buffer := _buffer b; _maxBufferSize := _maxBufferSize b;
     _reading := _reading b; _pushedCount := _pushedCount b;
     doneCalled := doneCalled b; neededItems := n |}.

Definition set_source_field (s : option Ref) (t : Transform) : Transform :=
  {| _source := s; _destroySource := _destroySource t; _optional := _optional t |}.

Definition set_offset (o : Z) (s : Simple) : Simple :=
  {| _offset := o; _limit := _limit s; _prepender := _prepender s;
     _appender := _appender s; _filter := _filter s; _map := _map s |}.
Definition set_limit (l : integer) (s : Simple) : Simple :=
  {| _offset := _offset s; _limit := l; _prepender := _prepender s;
     _appender := _appender s; _filter := _filter s; _map := _map s |}.
Definition set_prepender (p : option Ref) (s : Simple) : Simple :=
  {| _offset := _offset s; _limit := _limit s; _prepender := p;
     _appender := _appender s; _filter := _filter s; _map := _map s |}.
Definition set_appender (p : option Ref) (s : Simple) : Simple :=
  {| _offset := _offset s; _limit := _limit s; _prepender := _prepender s;
     _appender := p; _filter := _filter s; _map := _map s |}.

Definition on_base (f : Base -> Base) (it : Iter) : Iter :=
  {| base := f (base it); kind := kind it |}.

Definition on_array (f : option (list Item) -> option (list Item)) (it : Iter) : Iter :=
  {| base := base it;
     kind := match kind it with
             | ArrayIterator buffer => ArrayIterator (f buffer)
             | k => k
             end |}.

Definition on_integer (f : integer -> integer) (it : Iter) : Iter :=
  {| base := base it;
     kind := match kind it with
             | IntegerIterator next step last => IntegerIterator (f next) step last
             | k => k
             end |}.

Definition as_buffered (it : Iter) : option Buffered :=
  match kind it with
  | BufferedIterator b | TransformIterator b _ | SimpleTransformIterator b _ _ => Some b
  | _ => None
  end.

Definition on_buffered (f : Buffered -> Buffered) (it : Iter) : Iter :=
  {| base := base it;
     kind := match kind it with
             | BufferedIterator b => BufferedIterator (f b)
             | TransformIterator b t => TransformIterator (f b) t
             | SimpleTransformIterator b t s => SimpleTransformIterator (f b) t s
             | k => k
             end |}.

Definition as_transform (it : Iter) : option Transform :=
  match kind it with
  | TransformIterator _ t | SimpleTransformIterator _ t _ => Some t
  | _ => None
  end.

Definition on_transform (f : Transform -> Transform) (it : Iter) : Iter :=
  {| base := base it;
     kind := match kind it with
             | TransformIterator b t => TransformIterator b (f t)
             | SimpleTransformIterator b t s => SimpleTransformIterator b (f t) s
             | k => k
             end |}.

Definition as_simple (it : Iter) : option Simple :=
  match kind it with
  | SimpleTransformIterator _ _ s => Some s
  | _ => None
  end.

Definition on_simple (f : Simple -> Simple) (it : Iter) : Iter :=
  {| base := base it;
     kind := match kind it with
             | SimpleTransformIterator b t s => SimpleTransformIterator b t (f s)
             | k => k
             end |}.

(** *** The getters of [AsyncIterator] *)

Definition closed (b : Base) : bool := CLOSING <=? _state b.
Definition ended (b : Base) : bool := _state b =? ENDED.
Definition destroyed (b : Base) : bool := _state b =? DESTROYED.
Definition done (b : Base) : bool := ENDED <=? _state b.

(** ** The world: heap, microtask queue, observations *)

(** What an execution lets an observer see: the events emitted, the calls
    received by the listeners of the program, and the results of its [read]
    calls. *)
Inductive Obs :=
| emitted (r : Ref) (ev : Event) (a : Arg)
| received (id : nat) (this : Ref) (a : Arg)
| returned (r : Ref) (item : option Item).

(** The options of the constructors ([BufferedIteratorOptions],
    [TransformIteratorOptions], [TransformOptions]); [None] is an option
    left out.  [prepend] and [append] are an array or an iterator. *)
Record TransformOptions := {
  maxBufferSize : option number;
  autoStart : option bool;
  optional : bool;
  destroySource : option bool;
  offset : option number;
  limit : option number;
  filter_ : option (Item -> bool);
  map_ : option (Item -> option Item);
  prepend : option (list Item + Ref);
  append : option (list Item + Ref)
}.

Definition no_options : TransformOptions :=
  {| maxBufferSize := None; autoStart := None; optional := false;
     destroySource := None; offset := None; limit := None; filter_ := None;
     map_ := None; prepend := None; append := None |}.

(** A pending call: a method of the library applied to its receiver, or the
    rest of a method after a call that may run listeners (the [_k]
    constructors). *)
Inductive Cmd :=
(* the event emitter *)
| Emit (r : Ref) (ev : Event) (a : Arg)
| Call (l : Listener) (this : Ref) (a : Arg)
| On (r : Ref) (ev : Event) (l : Listener)
| On_k (r : Ref) (ev : Event) (l : Listener)
| AddSingleListener (r : Ref) (ev : Event) (l : Listener)
| RemoveListener (r : Ref) (ev : Event) (l : Listener)
(* AsyncIterator *)
| Read (r : Ref)
| Close (r : Ref)
| Destroy (r : Ref) (cause : option Error)
| Destroy_k (r : Ref) (cause error : option Error)
| End (r : Ref) (destroy : bool)
| AsyncIterator_end (r : Ref) (destroy : bool)
| AsyncIterator_end_k (r : Ref)
| Set_readable (r : Ref) (readable : bool)
| WaitForDataListener_k (r : Ref)
| EmitData_loop (r : Ref)
| EmitData_k (r : Ref)
(* BufferedIterator *)
| BufferedIterator_k (r : Ref) (autoStart : bool)
| Set_maxBufferSize (r : Ref) (v : number)
| Init (r : Ref) (autoStart : bool)
| Begin (r : Ref) (d : Done)
| Done_call (d : Done)
| Push (r : Ref) (item : Item)
| FillBuffer (r : Ref)
| FillBufferAsync (r : Ref)
| FillBufferAsync_task (r : Ref)
| CompleteClose (r : Ref)
| Flush (r : Ref) (d : Done)
| Read_ (r : Ref) (count : integer) (d : Done)
(* TransformIterator *)
| Set_source (r : Ref) (value : option Ref)
| ReadAndTransform (r : Ref) (count : integer) (d : Done)
| Next (r : Ref) (count : integer) (d : Done)
| CloseWhenDone (r : Ref)
(* SimpleTransformIterator *)
| SimpleTransformIterator_k (r : Ref) (options : TransformOptions)
| ReadAndTransformSimple (r : Ref) (count : integer) (d : Done)
| ReadAndTransformSimple_loop (r : Ref) (count : integer) (d : Done)
| Insert (r : Ref) (inserter : option Ref) (d : Done)
| Delete_prepender (r : Ref)
| Delete_appender (r : Ref)
(* constructors *)
| New_AsyncIterator
| New_Subclass (destroyError : option Error)
| New_EmptyIterator
| New_ArrayIterator (items : list Item)
| New_IntegerIterator (start step end_ : option number)
| New_BufferedIterator (options : TransformOptions)
| New_TransformIterator (source : option Ref) (options : TransformOptions)
| New_SimpleTransformIterator (source : option Ref) (options : TransformOptions)
(* an exception *)
| Throw (msg : string).

Record World := {
  heap : list Iter;
  microtasks : list Cmd;
  log : list Obs
}.

Definition empty_world : World := {| heap := []; microtasks := []; log := [] |}.

(** The object a dangling reference stands for; the library never follows
    one. *)
Definition null_iter : Iter :=
  {| base := {| _state := DESTROYED; _readable := false; _events := [];
                _destination := None |};
     kind := AsyncIterator |}.

Definition obj (r : Ref) (w : World) : Iter := default null_iter (heap w !! r).

Definition upd (r : Ref) (f : Iter -> Iter) (w : World) : World :=
  {| heap := alter f r (heap w); microtasks := microtasks w; log := log w |}.

Definition alloc (it : Iter) (w : World) : Ref * World :=
  (length (heap w),
   {| heap := heap w ++ [it]; microtasks := microtasks w; log := log w |}).

Definition queueMicrotask (task : Cmd) (w : World) : World :=
  {| heap := heap w; microtasks := microtasks w ++ [task]; log := log w |}.

Definition observe (o : Obs) (w : World) : World :=
  {| heap := heap w; microtasks := microtasks w; log := log w ++ [o] |}.

Definition the_buffered (r : Ref) (w : World) : Buffered :=
  default {| _buffer := []; _maxBufferSize := Int 4; _reading := true;
             _pushedCount := 0; doneCalled := false; neededItems := Int 0 |}
          (as_buffered (obj r w)).

Definition the_transform (r : Ref) (w : World) : Transform :=
  default {| _source := None; _destroySource := true; _optional := false |}
          (as_transform (obj r w)).

Definition the_simple (r : Ref) (w : World) : Simple :=
  default {| _offset := 0; _limit := IInfinity; _prepender := None;
             _appender := None; _filter := fun _ => true; _map := None |}
          (as_simple (obj r w)).

(** ** The event emitter

    Modelled from the spec: the event bus is Node's [events] module, which is
    not part of the sources; the spec describes it as a dispatcher that maps
    an event name to an ordered list of listeners, with add, remove, has,
    emission, and a [newListener] hook fired when a listener is attached.
    Of what Node adds to that, one rule matters to the library: [emit] of an
    [error] event throws its argument when no listener is registered for
    [error], instead of returning. *)

Definition listeners (ev : Event) (b : Base) : list Listener :=
  snd <$> filter (fun p => fst p = ev) (_events b).

(** [_hasListeners] *)
Definition _hasListeners (ev : Event) (b : Base) : bool :=
  match listeners ev b with [] => false | _ => true end.

Definition addListener (ev : Event) (l : Listener) (b : Base) : Base :=
  set_events (_events b ++ [(ev, l)]) b.

Fixpoint remove_first (p : Event * Listener) (es : list (Event * Listener)) :=
  match es with
  | [] => []
  | e :: es => if decide (e = p) then es else e :: remove_first p es
  end.

(** [removeListener] removes the most recently added instance. *)
Definition removeListener (ev : Event) (l : Listener) (b : Base) : Base :=
  set_events (rev (remove_first (ev, l) (rev (_events b)))) b.

Definition removeAllListeners (ev : Event) (b : Base) : Base :=
  set_events (filter (fun p => fst p ≠ ev) (_events b)) b.

(** What [emit('error', a)] throws when the emitter has no listener for
    [error]: the error it was given. *)
Definition unhandled (a : Arg) : string :=
  match a with
  | arg_error e => e
  | _ => "Unhandled error."
  end.

(** ** Methods that call no listener

    These run to their end without handing control to a listener, so they
    are functions on the world. *)

(** [set readable(readable)] *)
Definition readable_set (r : Ref) (readable : bool) (w : World) : World :=
  let b := base (obj r w) in
  let readable := readable && negb (done b) in
  if negb (Bool.eqb (_readable b) readable) then
    let w := upd r (on_base (set__readable readable)) w in
    if readable then queueMicrotask (Emit r ev_readable no_arg) w else w
  else w.

(** [_changeState(newState, eventAsync)]: whether the state was changed, the
    world after the change, and the synchronous [emit('end')] that the caller
    passes on when there is one. *)
Definition _changeState (r : Ref) (newState : Z) (eventAsync : bool) (w : World)
  : bool * World * list Cmd :=
  let valid := (_state (base (obj r w)) <? newState)
               && (_state (base (obj r w)) <? ENDED) in
  if valid then
    let w := upd r (on_base (set_state newState)) w in
    if newState =? ENDED then
      if negb eventAsync then (valid, w, [Emit r ev_end no_arg])
      else (valid, queueMicrotask (Emit r ev_end no_arg) w, [])
    else (valid, w, [])
  else (valid, w, []).

(** [_endAsync()] *)
Definition _endAsync (r : Ref) (w : World) : World :=
  queueMicrotask (End r false) w.

(** [AsyncIterator#close()]; a change to [CLOSED] emits nothing. *)
Definition AsyncIterator_close (r : Ref) (w : World) : World :=
  let '(valid, w, _) := _changeState r CLOSED false w in
  if valid then _endAsync r w else w.

(** [ArrayIterator#read()] *)
Definition ArrayIterator_read (r : Ref) (w : World) : option Item * World :=
  match kind (obj r w) with
  | ArrayIterator (Some buffer) =>
      let item := head buffer in
      let buffer := tail buffer in
      if (length buffer =? 0)%nat then
        (item, AsyncIterator_close r (upd r (on_array (fun _ => None)) w))
      else
        (item, upd r (on_array (fun _ => Some buffer)) w)
  | _ => (None, w)
  end.

(** [IntegerIterator#read()] *)
Definition IntegerIterator_read (r : Ref) (w : World) : option Item * World :=
  match kind (obj r w) with
  | IntegerIterator _next _step _last =>
      if closed (base (obj r w)) then (None, w)
      else
        let current := _next in
        let step := _step in
        let last := _last in
        let next := addD _next step in
        let w := upd r (on_integer (fun _ => next)) w in
        let w := if (if geI step (Int 0) then gtI next last else ltI next last)
                 then AsyncIterator_close r w else w in
        (Some current, w)
  | _ => (None, w)
  end.

(** [_fillBufferAsync()] *)
Definition _fillBufferAsync (r : Ref) (w : World) : World :=
  if negb (_reading (the_buffered r w)) then
    let w := upd r (on_buffered (set_reading true)) w in
    queueMicrotask (FillBufferAsync_task r) w
  else w.

(** [BufferedIterator#read()] *)
Definition BufferedIterator_read (r : Ref) (w : World) : option Item * World :=
  if done (base (obj r w)) then (None, w)
  else
    let buffer := _buffer (the_buffered r w) in
    let '(item, w) :=
      if negb (lengthZ buffer =? 0) then
        (head buffer, upd r (on_buffered (set_buffer (tail buffer))) w)
      else
        (None, readable_set r false w) in
    let buffer := _buffer (the_buffered r w) in
    let w :=
      if negb (_reading (the_buffered r w))
         && ltI (Int (lengthZ buffer)) (_maxBufferSize (the_buffered r w)) then
        if negb (closed (base (obj r w))) then _fillBufferAsync r w
        else if lengthZ buffer =? 0 then _endAsync r w
        else w
      else w in
    (item, w).

(** [read()], dispatched on the class of the receiver. *)
Definition read (r : Ref) (w : World) : option Item * World :=
  match kind (obj r w) with
  | AsyncIterator | EmptyIterator | Subclass _ => (None, w)
  | ArrayIterator _ => ArrayIterator_read r w
  | IntegerIterator _ _ _ => IntegerIterator_read r w
  | BufferedIterator _ | TransformIterator _ _ | SimpleTransformIterator _ _ _ =>
      BufferedIterator_read r w
  end.

(** [_push(item)] *)
Definition _push (r : Ref) (item : Item) (w : World) : World :=
  if negb (done (base (obj r w))) then
    let w := upd r (on_buffered (fun b => set_pushedCount (_pushedCount b + 1) b)) w in
    let w := upd r (on_buffered (fun b => set_buffer (_buffer b ++ [item]) b)) w in
    readable_set r true w
  else w.

(** The coercion of the [maxBufferSize] setter: only positive integers and
    infinity. *)
Definition coerce_maxBufferSize (maxBufferSize : number) : integer :=
  match maxBufferSize with
  | Infinity => IInfinity
  | _ =>
      if negb (Number_isFinite maxBufferSize) then Int 4
      else maxI (truncIfFinite maxBufferSize) (Int 1)
  end.

(** The object [new AsyncIterator(initialState)] builds, before the
    constructors of the subclasses run: [on('newListener',
    waitForDataListener)] finds no listener to notify. *)
Definition new_iter (initialState : Z) (k : Kind) : Iter :=
  {| base := {| _state := initialState; _readable := false;
                _events := [(ev_newListener, waitForDataListener)];
                _destination := None |};
     kind := k |}.

(** [new ArrayIterator(items)] *)
Definition new_ArrayIterator (items : list Item) (w : World) : Ref * World :=
  let '(r, w) := alloc (new_iter OPEN (ArrayIterator None)) w in
  if (length items =? 0)%nat then (r, AsyncIterator_close r w)
  else
    let w := upd r (on_array (fun _ => Some items)) w in
    (r, readable_set r true w).

(** [new IntegerIterator({ start = 0, step = 1, end })] *)
Definition new_IntegerIterator (start step end_ : option number) (w : World)
  : Ref * World :=
  let start := truncIfFinite (default (Finite 0) start) in
  let step := truncIfFinite (default (Finite 1) step) in
  let ascending := geI step (Int 0) in
  let direction := if ascending then IInfinity else INegInfinity in
  let end_ :=
    match end_ with
    | Some (Finite q) => Int (Math_trunc q)
    | Some e => if negb (eqI (truncIfFinite e) (negI direction)) then direction
                else truncIfFinite e
    | None => direction
    end in
  let '(r, w) := alloc (new_iter OPEN (IntegerIterator start step end_)) w in
  if negb (isFiniteI start) || (if ascending then gtI start end_ else ltI start end_)
  then (r, AsyncIterator_close r w)
  else (r, readable_set r true w).

(** The fields of a fresh [BufferedIterator]. *)
Definition new_buffered : Buffered :=
  {| _buffer := []; _maxBufferSize := Int 4; _reading := true;
     _pushedCount := 0; doneCalled := false; neededItems := Int 0 |}.

(** ** One call

    [step c w] runs the call [c] up to its first call that may run a
    listener (or to its end), and returns the calls that remain, to be run
    in order before the caller goes on. *)

Definition step_Call (l : Listener) (this : Ref) (a : Arg) (w : World)
  : World * list Cmd :=
  match l with
  | waitForDataListener =>
      match a with
      | arg_event ev_data =>
          (upd this (on_base (removeListener ev_newListener waitForDataListener)) w,
           [AddSingleListener this ev_readable emitData; WaitForDataListener_k this])
      | _ => (w, [])
      end
  | emitData => (w, [EmitData_loop this])
  | destinationEmitError =>
      match _destination (base (obj this w)) with
      | Some d => (w, [Emit d ev_error a])
      | None => (w, [Throw "TypeError: this._destination is undefined"])
      end
  | destinationCloseWhenDone =>
      match _destination (base (obj this w)) with
      | Some d => (w, [CloseWhenDone d])
      | None => (w, [Throw "TypeError: this._destination is undefined"])
      end
  | destinationFillBuffer =>
      match _destination (base (obj this w)) with
      | Some d => (w, [FillBuffer d])
      | None => (w, [Throw "TypeError: this._destination is undefined"])
      end
  | insert_push self =>
      match a with
      | arg_item item => (w, [Push self item])
      | _ => (w, [])
      end
  | insert_end self inserter d =>
      let w := upd inserter (on_base (removeListener ev_data (insert_push self))) w in
      let w := upd inserter (on_base (removeListener ev_end (insert_end self inserter d))) w in
      (w, [Done_call d])
  | consumer id => (observe (received id this a) w, [])
  end.

(** The [done] callbacks of [_init], [_fillBuffer] and [_completeClose]. *)
Definition step_Done (d : Done) (w : World) : World * list Cmd :=
  match d with
  | init_done self autoStart =>
      if doneCalled (the_buffered self w) then
        (w, [Throw "done callback called multiple times"])
      else
        let w := upd self (on_buffered (set_doneCalled true)) w in
        let w := upd self (on_buffered (set_reading false)) w in
        let '(_, w, k) := _changeState self OPEN false w in
        if autoStart then (_fillBufferAsync self w, k)
        else (readable_set self true w, k)
  | fillBuffer_done self =>
      if eqI (neededItems (the_buffered self w)) (Int 0) then
        (w, [Throw "done callback called multiple times"])
      else
        let w := upd self (on_buffered (set_neededItems (Int 0))) w in
        let w := upd self (on_buffered (set_reading false)) w in
        if closed (base (obj self w)) then (w, [CompleteClose self])
        else if negb (_pushedCount (the_buffered self w) =? 0) then
          let w := readable_set self true w in
          if ltI (Int (2 * lengthZ (_buffer (the_buffered self w))))
                 (_maxBufferSize (the_buffered self w))
          then (_fillBufferAsync self w, [])
          else (w, [])
        else (w, [])
  | completeClose_done self =>
      if negb (_reading (the_buffered self w)) then
        (w, [Throw "done callback called multiple times"])
      else
        let w := upd self (on_buffered (set_reading false)) w in
        if lengthZ (_buffer (the_buffered self w)) =? 0 then (_endAsync self w, [])
        else (w, [])
  end.

(** The options of [SimpleTransformIterator], read after [super(source,
    options)] has returned: first the transformation steps. *)
Definition SimpleTransformIterator_steps (r : Ref) (options : TransformOptions)
  (w : World) : World :=
  if match offset options with Some Infinity => true | _ => false end
     || match limit options with Some NegInfinity => true | _ => false end
  then upd r (on_simple (set_limit (Int 0))) w
  else
    let w := match offset options with
             | Some (Finite q) =>
                 upd r (on_simple (set_offset (Z.max (Math_trunc q) 0))) w
             | _ => w
             end in
    let w := match limit options with
             | Some (Finite q) =>
                 upd r (on_simple (set_limit (Int (Z.max (Math_trunc q) 0)))) w
             | _ => w
             end in
    let w := match filter_ options with
             | Some f => upd r (on_simple (fun s =>
                 {| _offset := _offset s; _limit := _limit s;
                    _prepender := _prepender s; _appender := _appender s;
                    _filter := f; _map := _map s |})) w
             | None => w
             end in
    match map_ options with
    | Some f => upd r (on_simple (fun s =>
        {| _offset := _offset s; _limit := _limit s;
           _prepender := _prepender s; _appender := _appender s;
           _filter := _filter s; _map := Some f |})) w
    | None => w
    end.

(** [isEventEmitter(items) ? items : fromArray(items)], stored with [set]
    when the option is given. *)
Definition SimpleTransformIterator_inserter (set : option Ref -> Simple -> Simple)
  (r : Ref) (items : option (list Item + Ref)) (w : World) : World :=
  match items with
  | Some (inl items) =>
      let '(p, w) := new_ArrayIterator items w in
      upd r (on_simple (set (Some p))) w
  | Some (inr p) => upd r (on_simple (set (Some p))) w
  | None => w
  end.

Definition SimpleTransformIterator_options (r : Ref) (options : TransformOptions)
  (w : World) : World :=
  let w := SimpleTransformIterator_steps r options w in
  let w := SimpleTransformIterator_inserter set_prepender r (prepend options) w in
  SimpleTransformIterator_inserter set_appender r (append options) w.

(** The calls that follow the allocation of a [BufferedIterator]: the
    [maxBufferSize] setter, then the deferred [_init]. *)
Definition BufferedIterator_constructor (r : Ref) (options : TransformOptions)
  : list Cmd :=
  [Set_maxBufferSize r (default (Finite 4) (maxBufferSize options));
   BufferedIterator_k r (default true (autoStart options))].

Definition new_transform (options : TransformOptions) : Transform :=
  {| _source := None;
     _destroySource := default true (destroySource options);
     _optional := optional options |}.

Definition new_simple : Simple :=
  {| _offset := 0; _limit := IInfinity; _prepender := None; _appender := None;
     _filter := fun _ => true; _map := None |}.

Definition step (c : Cmd) (w : World) : World * list Cmd :=
  match c with
  (* emit(ev, a): every listener registered for [ev], in order; an [error]
     that nobody listens to is thrown *)
  | Emit r ev a =>
      (observe (emitted r ev a) w,
       if bool_decide (ev = ev_error) && negb (_hasListeners ev_error (base (obj r w)))
       then [Throw (unhandled a)]
       else (fun l => Call l r a) <$> listeners ev (base (obj r w)))
  | Call l this a => step_Call l this a w
  (* on(ev, l): 'newListener' goes out before the listener is added *)
  | On r ev l =>
      if _hasListeners ev_newListener (base (obj r w)) then
        (w, [Emit r ev_newListener (arg_event ev); On_k r ev l])
      else (upd r (on_base (addListener ev l)) w, [])
  | On_k r ev l => (upd r (on_base (addListener ev l)) w, [])
  (* _addSingleListener(ev, l) *)
  | AddSingleListener r ev l =>
      if bool_decide (l ∈ listeners ev (base (obj r w))) then (w, [])
      else (w, [On r ev l])
  | RemoveListener r ev l => (upd r (on_base (removeListener ev l)) w, [])
  | Read r =>
      let '(item, w) := read r w in (observe (returned r item) w, [])
  (* close(): BufferedIterator overrides it *)
  | Close r =>
      match as_buffered (obj r w) with
      | Some b =>
          if negb (_reading b) then (w, [CompleteClose r])
          else let '(_, w, k) := _changeState r CLOSING false w in (w, k)
      | None => (AsyncIterator_close r w, [])
      end
  (* destroy(cause) and the _destroy of the class *)
  | Destroy r cause =>
      if negb (done (base (obj r w))) then
        match kind (obj r w) with
        | ArrayIterator _ =>
            (upd r (on_array (fun _ => None)) w, [Destroy_k r cause None])
        | BufferedIterator _ | TransformIterator _ _ | SimpleTransformIterator _ _ _ =>
            (upd r (on_buffered (set_buffer [])) w, [Destroy_k r cause None])
        | Subclass error => (w, [Destroy_k r cause error])
        | _ => (w, [Destroy_k r cause None])
        end
      else (w, [])
  (* the callback destroy passes to _destroy *)
  | Destroy_k r cause error =>
      let cause := match cause with Some c => Some c | None => error end in
      (w, match cause with
          | Some c => [Emit r ev_error (arg_error c); End r true]
          | None => [End r true]
          end)
  (* _end(destroy): TransformIterator overrides it *)
  | End r destroy =>
      match _source (the_transform r w) with
      | Some source =>
          let w := upd source (on_base (removeListener ev_end destinationCloseWhenDone)) w in
          let w := upd source (on_base (removeListener ev_error destinationEmitError)) w in
          let w := upd source (on_base (removeListener ev_readable destinationFillBuffer)) w in
          let w := upd source (on_base (set_destination None)) w in
          if _destroySource (the_transform r w)
          then (w, [Destroy source None; AsyncIterator_end r destroy])
          else (w, [AsyncIterator_end r destroy])
      | None => (w, [AsyncIterator_end r destroy])
      end
  (* AsyncIterator#_end(destroy) *)
  | AsyncIterator_end r destroy =>
      let '(valid, w, k) := _changeState r (if destroy then DESTROYED else ENDED) false w in
      if valid then (w, k ++ [AsyncIterator_end_k r]) else (w, k)
  | AsyncIterator_end_k r =>
      let w := upd r (on_base (set__readable false)) w in
      let w := upd r (on_base (removeAllListeners ev_readable)) w in
      let w := upd r (on_base (removeAllListeners ev_data)) w in
      let w := upd r (on_base (removeAllListeners ev_end)) w in
      (w, [])
  | Set_readable r readable => (readable_set r readable w, [])
  (* waitForDataListener, after _addSingleListener *)
  | WaitForDataListener_k r =>
      if _readable (base (obj r w))
      then (queueMicrotask (Call emitData r no_arg) w, [])
      else (w, [])
  (* emitData: the loop, then the switch back to on-demand mode *)
  | EmitData_loop r =>
      if _hasListeners ev_data (base (obj r w)) then
        match read r w with
        | (Some item, w) => (w, [Emit r ev_data (arg_item item); EmitData_loop r])
        | (None, w) => (w, [EmitData_k r])
        end
      else (w, [EmitData_k r])
  | EmitData_k r =>
      if negb (_hasListeners ev_data (base (obj r w))) && negb (done (base (obj r w)))
      then (upd r (on_base (removeListener ev_readable emitData)) w,
            [AddSingleListener r ev_newListener waitForDataListener])
      else (w, [])
  (* the end of the BufferedIterator constructor *)
  | BufferedIterator_k r autoStart => (queueMicrotask (Init r autoStart) w, [])
  (* set maxBufferSize(maxBufferSize) *)
  | Set_maxBufferSize r v =>
      let maxBufferSize := coerce_maxBufferSize v in
      if negb (eqI (_maxBufferSize (the_buffered r w)) maxBufferSize) then
        let w := upd r (on_buffered (set__maxBufferSize maxBufferSize)) w in
        if _state (base (obj r w)) =? OPEN then (w, [FillBuffer r])
        else (w, [])
      else (w, [])
  (* _init(autoStart) *)
  | Init r autoStart =>
      let w := upd r (on_buffered (set_doneCalled false)) w in
      let w := upd r (on_buffered (set_reading true)) w in
      (w, [Begin r (init_done r autoStart)])
  (* _begin(done): SimpleTransformIterator overrides it *)
  | Begin r d =>
      match as_simple (obj r w) with
      | Some s => (w, [Insert r (_prepender s) d; Delete_prepender r])
      | None => (w, [Done_call d])
      end
  | Done_call d => step_Done d w
  | Push r item => (_push r item w, [])
  (* _fillBuffer() *)
  | FillBuffer r =>
      if _reading (the_buffered r w) then (w, [])
      else if closed (base (obj r w)) then (w, [CompleteClose r])
      else
        let needed := minI (subI (_maxBufferSize (the_buffered r w))
                                 (Int (lengthZ (_buffer (the_buffered r w)))))
                           (Int 128) in
        let w := upd r (on_buffered (set_neededItems needed)) w in
        if gtI needed (Int 0) then
          let w := upd r (on_buffered (set_pushedCount 0)) w in
          let w := upd r (on_buffered (set_reading true)) w in
          (w, [Read_ r needed (fillBuffer_done r)])
        else (w, [])
  | FillBufferAsync r => (_fillBufferAsync r w, [])
  (* the task _fillBufferAsync queues *)
  | FillBufferAsync_task r =>
      (upd r (on_buffered (set_reading false)) w, [FillBuffer r])
  (* _completeClose() *)
  | CompleteClose r =>
      let '(valid, w, k) := _changeState r CLOSED false w in
      if valid then
        (upd r (on_buffered (set_reading true)) w,
         k ++ [Flush r (completeClose_done r)])
      else (w, k)
  (* _flush(done): SimpleTransformIterator overrides it *)
  | Flush r d =>
      match as_simple (obj r w) with
      | Some s => (w, [Insert r (_appender s) d; Delete_appender r])
      | None => (w, [Done_call d])
      end
  (* _read(count, done), by class *)
  | Read_ r count d =>
      match kind (obj r w) with
      | SimpleTransformIterator _ _ _ => (w, [ReadAndTransformSimple r count d])
      | TransformIterator _ _ => (w, [ReadAndTransform r count d])
      | _ => (w, [Done_call d])
      end
  (* set source(value), with _validateSource *)
  | Set_source r value =>
      if bool_decide (is_Some (_source (the_transform r w))) then
        (w, [Throw "The source cannot be changed after it has been set"])
      else
        match value with
        | None => (w, [Throw "Invalid source"])
        | Some source =>
            if bool_decide (is_Some (_destination (base (obj source w)))) then
              (w, [Throw "The source already has a destination"])
            else
              let w := upd r (on_transform (set_source_field (Some source))) w in
              let w := upd source (on_base (set_destination (Some r))) w in
              if ended (base (obj source w)) then (w, [Close r])
              else (w, [On source ev_end destinationCloseWhenDone;
                        On source ev_readable destinationFillBuffer;
                        On source ev_error destinationEmitError])
        end
  (* _readAndTransform(next, done), with the default _transform *)
  | ReadAndTransform r count d =>
      match _source (the_transform r w) with
      | Some source =>
          if negb (ended (base (obj source w))) then
            match read source w with
            | (Some item, w) =>
                if negb (_optional (the_transform r w)) then
                  (_push r item w, [Next r count d])
                else
                  let pushedCount := _pushedCount (the_buffered r w) in
                  let w := _push r item w in
                  let w := if pushedCount =? _pushedCount (the_buffered r w)
                           then _push r item w else w in
                  (w, [Next r count d])
            | (None, w) => (w, [Done_call d])
            end
          else (w, [Done_call d])
      | None => (w, [Done_call d])
      end
  (* the [next] closure of TransformIterator#_read *)
  | Next r count d =>
      if ltI (Int (_pushedCount (the_buffered r w))) count
         && negb (closed (base (obj r w)))
      then (queueMicrotask (ReadAndTransform r count d) w, [])
      else (w, [Done_call d])
  | CloseWhenDone r => (w, [Close r])
  | SimpleTransformIterator_k r options =>
      (SimpleTransformIterator_options r options w, [])
  (* _readAndTransformSimple(count, next, done), up to its loop *)
  | ReadAndTransformSimple r count d =>
      match _source (the_transform r w) with
      | Some source =>
          if ended (base (obj source w)) then (w, [Done_call d])
          else if eqI (_limit (the_simple r w)) (Int 0)
          then (w, [Close r; ReadAndTransformSimple_loop r count d])
          else (w, [ReadAndTransformSimple_loop r count d])
      | None => (w, [Done_call d])
      end
  (* one turn of the while loop of _readAndTransformSimple *)
  | ReadAndTransformSimple_loop r count d =>
      match _source (the_transform r w) with
      | Some source =>
          if negb (closed (base (obj r w)))
             && ltI (Int (_pushedCount (the_buffered r w))) count then
            match read source w with
            | (Some item, w) =>
                if negb (_filter (the_simple r w) item) then
                  (w, [ReadAndTransformSimple_loop r count d])
                else if negb (_offset (the_simple r w) =? 0) then
                  (upd r (on_simple (fun s => set_offset (_offset s - 1) s)) w,
                   [ReadAndTransformSimple_loop r count d])
                else
                  let mappedItem := match _map (the_simple r w) with
                                    | None => Some item
                                    | Some f => f item
                                    end in
                  let w := match mappedItem with
                           | None => if _optional (the_transform r w)
                                     then _push r item w else w
                           | Some mappedItem => _push r mappedItem w
                           end in
                  let w := upd r (on_simple (fun s => set_limit (subI (_limit s) (Int 1)) s)) w in
                  if eqI (_limit (the_simple r w)) (Int 0)
                  then (w, [Close r; ReadAndTransformSimple_loop r count d])
                  else (w, [ReadAndTransformSimple_loop r count d])
            | (None, w) => (w, [Done_call d])
            end
          else (w, [Done_call d])
      | None => (w, [Done_call d])
      end
  (* _insert(inserter, done) *)
  | Insert r inserter d =>
      match inserter with
      | Some i =>
          if ended (base (obj i w)) then (w, [Done_call d])
          else (w, [On i ev_data (insert_push r); On i ev_end (insert_end r i d)])
      | None => (w, [Done_call d])
      end
  | Delete_prepender r => (upd r (on_simple (set_prepender None)) w, [])
  | Delete_appender r => (upd r (on_simple (set_appender None)) w, [])
  (* constructors *)
  | New_AsyncIterator => (snd (alloc (new_iter OPEN AsyncIterator) w), [])
  | New_Subclass e => (snd (alloc (new_iter OPEN (Subclass e)) w), [])
  | New_EmptyIterator =>
      let '(r, w) := alloc (new_iter OPEN EmptyIterator) w in
      let '(_, w, k) := _changeState r ENDED true w in (w, k)
  | New_ArrayIterator items => (snd (new_ArrayIterator items w), [])
  | New_IntegerIterator start step end_ =>
      (snd (new_IntegerIterator start step end_ w), [])
  | New_BufferedIterator options =>
      let '(r, w) := alloc (new_iter INIT (BufferedIterator new_buffered)) w in
      (w, BufferedIterator_constructor r options)
  | New_TransformIterator source options =>
      let '(r, w) := alloc (new_iter INIT
                        (TransformIterator new_buffered (new_transform options))) w in
      (w, BufferedIterator_constructor r options
          ++ match source with Some s => [Set_source r (Some s)] | None => [] end)
  | New_SimpleTransformIterator source options =>
      let '(r, w) := alloc (new_iter INIT
                        (SimpleTransformIterator new_buffered (new_transform options)
                                                 new_simple)) w in
      (w, BufferedIterator_constructor r options
          ++ match source with Some s => [Set_source r (Some s)] | None => [] end
          ++ [SimpleTransformIterator_k r options])
  | Throw msg => (w, [Throw msg])
  end.

(** ** Calls and the event loop

    [call] runs a call stack to its end: what a synchronous call of the
    library does before it returns.  An exception is not caught anywhere in
    the library, so it unwinds the whole stack.  [run] is the event loop: the
    program, then one microtask after the other. *)

Inductive Outcome :=
| Returned (w : World)
| Threw (msg : string) (w : World).

Fixpoint call (fuel : nat) (stack : list Cmd) (w : World) : option Outcome :=
  match fuel with
  | O => None
  | S fuel =>
      match stack with
      | [] => Some (Returned w)
      | Throw msg :: _ => Some (Threw msg w)
      | c :: stack => let '(w, k) := step c w in call fuel (k ++ stack) w
      end
  end.

(** One move of the machine: the next call of the stack or, when the stack
    is empty, the next microtask. *)
Definition next (cfg : list Cmd * World) : option (list Cmd * World) :=
  match cfg with
  | (Throw _ :: _, _) => None
  | (c :: stack, w) => let '(w, k) := step c w in Some (k ++ stack, w)
  | ([], w) =>
      match microtasks w with
      | [] => None
      | task :: tasks =>
          Some ([task], {| heap := heap w; microtasks := tasks; log := log w |})
      end
  end.

(** The configuration after [n] moves, if the machine makes that many. *)
Fixpoint after (n : nat) (cfg : list Cmd * World) : option (list Cmd * World) :=
  match n with
  | O => Some cfg
  | S n => match next cfg with
           | Some cfg => after n cfg
           | None => None
           end
  end.

Definition dequeue (w : World) : World :=
  {| heap := heap w; microtasks := tail (microtasks w); log := log w |}.

Fixpoint run (fuel : nat) (stack : list Cmd) (w : World) : option Outcome :=
  match fuel with
  | O => None
  | S fuel =>
      match call fuel stack w with
      | Some (Returned w) =>
          match microtasks w with
          | [] => Some (Returned w)
          | task :: _ => run fuel [task] (dequeue w)
          end
      | o => o
      end
  end.

(** What the listener [id] of the program was called with, in order. *)
Definition received_by (id : nat) (l : list Obs) : list (Ref * Arg) :=
  omap (fun o => match o with
                 | received id' r a => if bool_decide (id' = id) then Some (r, a) else None
                 | _ => None
                 end) l.

Definition is_emitted (r : Ref) (ev : Event) (o : Obs) : bool :=
  match o with
  | emitted r' ev' _ => bool_decide (r' = r) && bool_decide (ev' = ev)
  | _ => false
  end.

Definition count_emitted (r : Ref) (ev : Event) (l : list Obs) : nat :=
  length (List.filter (is_emitted r ev) l).

(** * The property store of [AsyncIterator]

    [getProperty] and [setProperty] touch only [_properties],
    [_propertyCallbacks] and the microtask queue, so they are embedded on
    their own.  The callbacks passed to [getProperty] belong to the program;
    their calls are recorded. *)

Module Properties.

(** A property value; [undefined] is a value like any other. *)
Inductive value := undefined | val (z : Z).

Abbreviation Callback := nat.

(** The tasks the two methods defer. *)
Inductive Task :=
(* () => callback(properties[propertyName]) *)
| deliver (callback : Callback) (propertyName : string)
(* () => { for (const callback of callbacks) callback(value); } *)
| fire (callbacks : list Callback) (v : value)
(* the same closure when [callbacks] is not an array *)
| fire_not_iterable.

Record State := {
  _properties : option (gmap string value);
  _propertyCallbacks : option (gmap string (list Callback));
  tasks : list Task;
  called : list (Callback * value);
  uncaught : list string
}.

Definition new_state : State :=
  {| _properties := None; _propertyCallbacks := None; tasks := [];
     called := []; uncaught := [] |}.

(** [propertyName in {}]: the members that a plain object inherits from
    [Object.prototype]. *)
Definition Object_prototype : list string :=
  ["constructor"; "__defineGetter__"; "__defineSetter__"; "hasOwnProperty";
   "__lookupGetter__"; "__lookupSetter__"; "isPrototypeOf";
   "propertyIsEnumerable"; "toString"; "valueOf"; "__proto__";
   "toLocaleString"].

(** [getProperty(propertyName)], without a callback *)
Definition getProperty (propertyName : string) (s : State) : value :=
  match _properties s with
  | Some properties => default undefined (properties !! propertyName)
  | None => undefined
  end.

(** [getProperty(propertyName, callback)] *)
Definition getProperty_callback (propertyName : string) (callback : Callback)
  (s : State) : State :=
  match _properties s with
  | Some properties =>
      if bool_decide (is_Some (properties !! propertyName)) then
        {| _properties := _properties s;
           _propertyCallbacks := _propertyCallbacks s;
           tasks := tasks s ++ [deliver callback propertyName];
           called := called s; uncaught := uncaught s |}
      else
        let propertyCallbacks := default ∅ (_propertyCallbacks s) in
        {| _properties := _properties s;
           _propertyCallbacks :=
             Some match propertyCallbacks !! propertyName with
                  | Some callbacks =>
                      <[propertyName := callbacks ++ [callback]]> propertyCallbacks
                  | None => <[propertyName := [callback]]> propertyCallbacks
                  end;
           tasks := tasks s; called := called s; uncaught := uncaught s |}
  | None =>
      let propertyCallbacks := default ∅ (_propertyCallbacks s) in
      {| _properties := _properties s;
         _propertyCallbacks :=
           Some match propertyCallbacks !! propertyName with
                | Some callbacks =>
                    <[propertyName := callbacks ++ [callback]]> propertyCallbacks
                | None => <[propertyName := [callback]]> propertyCallbacks
                end;
         tasks := tasks s; called := called s; uncaught := uncaught s |}
  end.

(** [setProperty(propertyName, value)] *)
Definition setProperty (propertyName : string) (v : value) (s : State) : State :=
  let properties := <[propertyName := v]> (default ∅ (_properties s)) in
  match _propertyCallbacks s with
  | Some propertyCallbacks =>
      match propertyCallbacks !! propertyName with
      | Some callbacks =>
          let propertyCallbacks := delete propertyName propertyCallbacks in
          {| _properties := Some properties;
             _propertyCallbacks :=
               if bool_decide (propertyCallbacks = ∅) then None
               else Some propertyCallbacks;
             tasks := tasks s ++ [fire callbacks v];
             called := called s; uncaught := uncaught s |}
      | None =>
          {| _properties := Some properties;
             _propertyCallbacks := Some propertyCallbacks;
             tasks := tasks s; called := called s; uncaught := uncaught s |}
      end
  | None =>
      (* propertyCallbacks is [{}] *)
      {| _properties := Some properties;
         _propertyCallbacks := None;
         tasks := if bool_decide (propertyName ∈ Object_prototype)
                  then tasks s ++ [fire_not_iterable] else tasks s;
         called := called s; uncaught := uncaught s |}
  end.

(** One deferred task, run. *)
Definition run_task (t : Task) (s : State) : State :=
  match t with
  | deliver callback propertyName =>
      {| _properties := _properties s;
         _propertyCallbacks := _propertyCallbacks s;
         tasks := tasks s;
         called := called s ++ [(callback, getProperty propertyName s)];
         uncaught := uncaught s |}
  | fire callbacks v =>
      {| _properties := _properties s;
         _propertyCallbacks := _propertyCallbacks s;
         tasks := tasks s;
         called := called s ++ ((fun callback => (callback, v)) <$> callbacks);
         uncaught := uncaught s |}
  | fire_not_iterable =>
      {| _properties := _properties s;
         _propertyCallbacks := _propertyCallbacks s;
         tasks := tasks s; called := called s;
         uncaught := uncaught s ++ ["TypeError: callbacks is not iterable"] |}
  end.

(** The microtask queue, run until it is empty (no task adds a task). *)
Definition run_tasks (s : State) : State :=
  foldl (fun s t => run_task t s)
        {| _properties := _properties s;
           _propertyCallbacks := _propertyCallbacks s;
           tasks := []; called := called s; uncaught := uncaught s |}
        (tasks s).

(** The callbacks waiting for [propertyName], in order of registration. *)
Definition pending (propertyName : string) (s : State) : list Callback :=
  default [] (propertyCallbacks ← _propertyCallbacks s;
              propertyCallbacks !! propertyName).

End Properties.

(** * Clones and their shared history

    [ClonedIterator] and [HistoryReader], over a source that is given by its
    [read()], its [ended] getter, and what can happen to it between two
    calls of the clones.  The clones are driven by the program and by the
    events of the source; here any of these may come next ([Action]). *)

Module Clones.
Section Source.

Context {Src T : Type}.
(** [source.read()] and [source.ended] *)
Variable read_source : Src -> option T * Src.
Variable ended_source : Src -> bool.
(** The [k]-th thing that can happen to the source on its own. *)
Variable task_source : nat -> Src -> Src.

(** What an array of the history holds: an item of the source, or the hole
    that an assignment past the end of the array leaves. *)
Inductive element := hole | item (x : T).

(** [HistoryReader]; [_clones] holds the indices of the registered clones,
    or [None] for [null]. *)
Record HistoryReader := {
  _clones : option (list nat);
  _history : list element
}.

(** [ClonedIterator]: the fields its methods use, and what its [read()] has
    returned so far ([null] left out). *)
Record ClonedIterator := {
  _state : Z;
  _readable : bool;
  _readPosition : nat;
  returned : list element
}.

(** The source, its [_destination], and the clones made so far. *)
Record System := {
  source : Src;
  _destination : option HistoryReader;
  clones : list ClonedIterator
}.

Definition start (s : Src) : System :=
  {| source := s; _destination := None; clones := [] |}.

(** [new HistoryReader(source)] *)
Definition new_HistoryReader (s : Src) : HistoryReader :=
  {| _clones := if negb (ended_source s) then Some [] else None;
     _history := [] |}.

Definition the_history (sys : System) : HistoryReader :=
  default (new_HistoryReader (source sys)) (_destination sys).

Definition on_clone (i : nat) (f : ClonedIterator -> ClonedIterator) (sys : System)
  : System :=
  {| source := source sys; _destination := _destination sys;
     clones := alter f i (clones sys) |}.

Definition on_history (f : HistoryReader -> HistoryReader) (sys : System) : System :=
  {| source := source sys; _destination := Some (f (the_history sys));
     clones := clones sys |}.

(** [array[pos] = x]: past the end, the array is extended. *)
Definition array_set (pos : nat) (x : element) (array : list element) : list element :=
  if (pos <? length array)%nat then <[pos := x]> array
  else array ++ replicate (pos - length array) hole ++ [x].

(** [readAt(pos)] *)
Definition readAt (pos : nat) (sys : System) : option element * System :=
  let history := the_history sys in
  if (pos <? length (_history history))%nat then
    (_history history !! pos, sys)
  else if negb (ended_source (source sys)) then
    match read_source (source sys) with
    | (Some x, s) =>
        (Some (item x),
         {| source := s;
            _destination :=
              Some {| _clones := _clones history;
                      _history := array_set pos (item x) (_history history) |};
            clones := clones sys |})
    | (None, s) =>
        (None, {| source := s; _destination := _destination sys;
                  clones := clones sys |})
    end
  else (None, sys).

(** [endsAt(pos)] *)
Definition endsAt (pos : nat) (sys : System) : bool :=
  ended_source (source sys)
  && (length (_history (the_history sys)) =? pos)%nat.

(** [register(clone)] and [unregister(clone)] *)
Definition register (i : nat) (h : HistoryReader) : HistoryReader :=
  {| _clones := match _clones h with
                | Some cs => Some (cs ++ [i])
                | None => None
                end;
     _history := _history h |}.

Definition unregister (i : nat) (h : HistoryReader) : HistoryReader :=
  {| _clones := match _clones h with
                | Some cs => Some (filter (fun c => c <> i) cs)
                | None => None
                end;
     _history := _history h |}.

(** [set readable(readable)], without its event *)
Definition set_readable (readable : bool) (c : ClonedIterator) : ClonedIterator :=
  {| _state := _state c;
     _readable := readable && negb (ENDED <=? _state c);
     _readPosition := _readPosition c; returned := returned c |}.

(** [_changeState(newState)], without its event *)
Definition changeState (newState : Z) (c : ClonedIterator) : ClonedIterator :=
  if (_state c <? newState) && (_state c <? ENDED) then
    {| _state := newState; _readable := _readable c;
       _readPosition := _readPosition c; returned := returned c |}
  else c.

(** [close()], which for a clone is that of [AsyncIterator]; the [_end] it
    defers is the action [End_task] below. *)
Definition close (i : nat) (sys : System) : System :=
  on_clone i (changeState CLOSED) sys.

(** [AsyncIterator#_end(destroy)], without its events *)
Definition AsyncIterator_end (destroy : bool) (c : ClonedIterator) : ClonedIterator :=
  if (_state c <? ENDED) then
    {| _state := if destroy then DESTROYED else ENDED; _readable := false;
       _readPosition := _readPosition c; returned := returned c |}
  else c.

(** [_end(destroy)] *)
Definition _end (i : nat) (destroy : bool) (sys : System) : System :=
  let sys := match _destination sys with
             | Some h => on_history (unregister i) sys
             | None => sys
             end in
  on_clone i (AsyncIterator_end destroy) sys.

(** [source.clone()]: the constructor of [ClonedIterator] with its [source]
    setter.  A clone is never opened: its [_init] does nothing. *)
Definition clone (sys : System) : System :=
  let i := length (clones sys) in
  let sys := {| source := source sys;
                _destination := Some (the_history sys);
                clones := clones sys
                          ++ [{| _state := INIT; _readable := false;
                                 _readPosition := 0; returned := [] |}] |} in
  if endsAt 0 sys then close i sys
  else
    let sys := on_history (register i) sys in
    let '(x, sys) := readAt 0 sys in
    match x with
    | Some _ => on_clone i (set_readable true) sys
    | None => sys
    end.

Definition the_clone (i : nat) (sys : System) : ClonedIterator :=
  default {| _state := DESTROYED; _readable := false; _readPosition := 0;
             returned := [] |} (clones sys !! i).

(** [read()] of the clone [i], in its three steps: [readAt] at the position
    of the clone; the position moves on if there was an item, else the clone
    is no longer readable; the clone closes at the end of the source. *)
Definition advance (i : nat) (x : option element) (sys : System) : System :=
  match x with
  | Some x =>
      on_clone i (fun c =>
        {| _state := _state c; _readable := _readable c;
           _readPosition := S (_readPosition c);
           returned := returned c ++ [x] |}) sys
  | None => on_clone i (set_readable false) sys
  end.

Definition close_at_end (i : nat) (sys : System) : System :=
  if endsAt (_readPosition (the_clone i sys)) sys then close i sys else sys.

Definition read (i : nat) (sys : System) : option element * System :=
  if negb (ENDED <=? _state (the_clone i sys)) then
    let '(x, sys) := readAt (_readPosition (the_clone i sys)) sys in
    (x, close_at_end i (advance i x sys))
  else (None, sys).

(** What can happen next. *)
Inductive Action :=
| Clone                         (* the program calls source.clone() *)
| Read (i : nat)                (* the program, or emitData, calls read() *)
| Close (i : nat)               (* the program calls close() *)
| Destroy (i : nat)             (* the program calls destroy() *)
| End_task (i : nat)            (* the task deferred by close() runs *)
| Source_task (k : nat)         (* something happens to the source *)
| Source_readable               (* the source emits readable *)
| Source_end.                   (* the source emits end *)

Definition act (a : Action) (sys : System) : System :=
  match a with
  | Clone => clone sys
  | Read i => (read i sys).2
  | Close i => close i sys
  | Destroy i =>
      if negb (ENDED <=? _state (the_clone i sys)) then _end i true sys else sys
  | End_task i =>
      if CLOSING <=? _state (the_clone i sys) then _end i false sys else sys
  | Source_task k =>
      {| source := task_source k (source sys); _destination := _destination sys;
         clones := clones sys |}
  | Source_readable =>
      match _clones (the_history sys) with
      | Some cs => foldl (fun sys i => on_clone i (set_readable true) sys) sys cs
      | None => sys
      end
  | Source_end =>
      match _destination sys with
      | Some h =>
          match _clones h with
          | Some cs =>
              if ended_source (source sys) then
                on_history (fun h => {| _clones := None; _history := _history h |})
                  (foldl (fun sys i =>
                            if (_readPosition (the_clone i sys)
                                =? length (_history (the_history sys)))%nat
                            then close i sys else sys) sys cs)
              else sys
          | None => sys
          end
      | None => sys
      end
  end.

Definition acts (l : list Action) (sys : System) : System :=
  foldl (fun sys a => act a sys) sys l.

(** The clone has read the source to its end. *)
Definition complete (i : nat) (sys : System) : Prop :=
  (i < length (clones sys))%nat
  /\ endsAt (_readPosition (the_clone i sys)) sys = true.

End Source.
End Clones.

(** * Rows of transform iterators

    [skip], [take] and [range] each put a [SimpleTransformIterator] on top
    of an iterator.  The iterators of such a row call each other by
    [read()], [ended] and [destroy()] only, and everything else happens in
    deferred tasks and in the listeners of the source's events.  Here an
    iterator is therefore given by these three and by what can happen to it
    on its own ([Action]), any of which may come next. *)

Module Pipelines.

(** [x + y], [x - y] and [Math.max(x, y)] on the numbers of a caller *)
Definition addN (x y : number) : number :=
  match x, y with
  | NaN, _ | _, NaN => NaN
  | Finite a, Finite b => Finite (a + b)
  | Infinity, NegInfinity | NegInfinity, Infinity => NaN
  | Infinity, _ | _, Infinity => Infinity
  | NegInfinity, _ | _, NegInfinity => NegInfinity
  end.

Definition negN (x : number) : number :=
  match x with
  | Finite a => Finite (- a)
  | Infinity => NegInfinity
  | NegInfinity => Infinity
  | NaN => NaN
  end.

Definition subN (x y : number) : number := addN x (negN y).

Definition ltN (x y : number) : bool :=
  match x, y with
  | NaN, _ | _, NaN => false
  | Finite a, Finite b => negb (Qle_bool b a)
  | NegInfinity, NegInfinity => false
  | NegInfinity, _ => true
  | _, NegInfinity => false
  | Infinity, _ => false
  | _, Infinity => true
  end.

Definition Math_max (x y : number) : number :=
  match x, y with
  | NaN, _ | _, NaN => NaN
  | _, _ => if ltN x y then y else x
  end.

(** What an iterator is to the one that reads from it. *)
Record Source {T : Type} := {
  state : Type;
  read : state -> option T * state;
  ended : state -> bool;
  destroy : state -> state;
  Action : Type;
  act : Action -> state -> state
}.
Arguments Source : clear implicits.

(** ** [IntegerIterator] *)

Module Integers.

Record IntegerIterator := {
  _state : Z;
  _next : integer;
  _step : integer;
  _last : integer
}.

Definition closed (it : IntegerIterator) : bool := CLOSING <=? _state it.
Definition ended (it : IntegerIterator) : bool := _state it =? ENDED.
Definition done (it : IntegerIterator) : bool := ENDED <=? _state it.

(** [_changeState(newState)], without its event *)
Definition _changeState (newState : Z) (it : IntegerIterator) : IntegerIterator :=
  if (_state it <? newState) && (_state it <? ENDED) then
    {| _state := newState; _next := _next it; _step := _step it;
       _last := _last it |}
  else it.

(** [close()]; the [_end] it defers is [End_task] below. *)
Definition close (it : IntegerIterator) : IntegerIterator := _changeState CLOSED it.

(** [new IntegerIterator({ start = 0, step = 1, end })] *)
Definition new_IntegerIterator (start step end_ : option number) : IntegerIterator :=
  let start := truncIfFinite (default (Finite 0) start) in
  let step := truncIfFinite (default (Finite 1) step) in
  let ascending := geI step (Int 0) in
  let direction := if ascending then IInfinity else INegInfinity in
  let end_ :=
    match end_ with
    | Some (Finite q) => Int (Math_trunc q)
    | Some e => if negb (eqI (truncIfFinite e) (negI direction)) then direction
                else truncIfFinite e
    | None => direction
    end in
  let it := {| _state := OPEN; _next := start; _step := step; _last := end_ |} in
  if negb (isFiniteI start) || (if ascending then gtI start end_ else ltI start end_)
  then close it
  else it.

(** [read()] *)
Definition read (it : IntegerIterator) : option Item * IntegerIterator :=
  if closed it then (None, it)
  else
    let current := _next it in
    let step := _step it in
    let last := _last it in
    let next := addD (_next it) step in
    let it := {| _state := _state it; _next := next; _step := _step it;
                 _last := _last it |} in
    let it := if (if geI step (Int 0) then gtI next last else ltI next last)
              then close it else it in
    (Some current, it).

(** [_end(destroy)] and [destroy()], without their events *)
Definition _end (destroy : bool) (it : IntegerIterator) : IntegerIterator :=
  _changeState (if destroy then DESTROYED else ENDED) it.

Definition destroy (it : IntegerIterator) : IntegerIterator :=
  if negb (done it) then _end true it else it.

(** The task that [close()] defers runs once the iterator is closed. *)
Inductive Action := End_task.

Definition act (a : Action) (it : IntegerIterator) : IntegerIterator :=
  match a with
  | End_task => if closed it then _end false it else it
  end.

Definition source : Source Item :=
  {| state := IntegerIterator; Pipelines.read := read; Pipelines.ended := ended;
     Pipelines.destroy := destroy; Pipelines.Action := Action;
     Pipelines.act := act |}.

(** The item that the [k]-th next [read()] returns. *)
Fixpoint rest (it : IntegerIterator) (k : nat) : option Item :=
  match k with
  | O => fst (read it)
  | S k => match fst (read it) with
           | Some _ => rest (snd (read it)) k
           | None => None
           end
  end.

End Integers.

(** ** [SimpleTransformIterator] with an offset and a limit

    [skip], [take] and [range] give no filter, map, transformation, or items
    to prepend or append: the filter accepts every item, [_read] calls
    [done] before it returns, and [_begin] and [_flush] insert nothing. *)

Record Options := {
  maxBufferSize : option number;
  autoStart : option bool;
  destroySource : option bool;
  offset : option number;
  limit : option number
}.

Section Transform.

Context {T : Type}.
Variable X : Source T.

(** The fields of the iterator, and the [autoStart] that the task of its
    constructor holds. *)
Record SimpleTransformIterator := {
  _state : Z;
  _buffer : list T;
  _maxBufferSize : integer;
  _reading : bool;
  _pushedCount : Z;
  _source : state X;
  _destroySource : bool;
  _offset : Z;
  _limit : integer;
  _autoStart : bool
}.

Definition set_state (s : Z) (it : SimpleTransformIterator) :=
  {| _state := s; _buffer := _buffer it; _maxBufferSize := _maxBufferSize it;
     _reading := _reading it; _pushedCount := _pushedCount it;
     _source := _source it; _destroySource := _destroySource it;
     _offset := _offset it; _limit := _limit it; _autoStart := _autoStart it |}.

Definition set_buffer (b : list T) (it : SimpleTransformIterator) :=
  {| _state := _state it; _buffer := b; _maxBufferSize := _maxBufferSize it;
     _reading := _reading it; _pushedCount := _pushedCount it;
     _source := _source it; _destroySource := _destroySource it;
     _offset := _offset it; _limit := _limit it; _autoStart := _autoStart it |}.

Definition set_reading (r : bool) (it : SimpleTransformIterator) :=
  {| _state := _state it; _buffer := _buffer it;
     _maxBufferSize := _maxBufferSize it;
     _reading := r; _pushedCount := _pushedCount it;
     _source := _source it; _destroySource := _destroySource it;
     _offset := _offset it; _limit := _limit it; _autoStart := _autoStart it |}.

Definition set_pushedCount (n : Z) (it : SimpleTransformIterator) :=
  {| _state := _state it; _buffer := _buffer it;
     _maxBufferSize := _maxBufferSize it;
     _reading := _reading it; _pushedCount := n;
     _source := _source it; _destroySource := _destroySource it;
     _offset := _offset it; _limit := _limit it; _autoStart := _autoStart it |}.

Definition set_source (s : state X) (it : SimpleTransformIterator) :=
  {| _state := _state it; _buffer := _buffer it;
     _maxBufferSize := _maxBufferSize it;
     _reading := _reading it; _pushedCount := _pushedCount it;
     _source := s; _destroySource := _destroySource it;
     _offset := _offset it; _limit := _limit it; _autoStart := _autoStart it |}.

Definition set_offset (n : Z) (it : SimpleTransformIterator) :=
  {| _state := _state it; _buffer := _buffer it;
     _maxBufferSize := _maxBufferSize it;
     _reading := _reading it; _pushedCount := _pushedCount it;
     _source := _source it; _destroySource := _destroySource it;
     _offset := n; _limit := _limit it; _autoStart := _autoStart it |}.

Definition set_limit (n : integer) (it : SimpleTransformIterator) :=
  {| _state := _state it; _buffer := _buffer it;
     _maxBufferSize := _maxBufferSize it;
     _reading := _reading it; _pushedCount := _pushedCount it;
     _source := _source it; _destroySource := _destroySource it;
     _offset := _offset it; _limit := n; _autoStart := _autoStart it |}.

Definition closed (it : SimpleTransformIterator) : bool := CLOSING <=? _state it.
Definition stage_ended (it : SimpleTransformIterator) : bool := _state it =? ENDED.
Definition done (it : SimpleTransformIterator) : bool := ENDED <=? _state it.

(** [_changeState(newState)], without its event *)
Definition _changeState (newState : Z) (it : SimpleTransformIterator)
  : bool * SimpleTransformIterator :=
  let valid := (_state it <? newState) && (_state it <? ENDED) in
  (valid, if valid then set_state newState it else it).

(** [_push(item)] *)
Definition _push (item : T) (it : SimpleTransformIterator) : SimpleTransformIterator :=
  if negb (done it) then
    set_buffer (_buffer it ++ [item]) (set_pushedCount (_pushedCount it + 1) it)
  else it.

(** [_fillBufferAsync()]; its task is [FillBuffer_task] below. *)
Definition _fillBufferAsync (it : SimpleTransformIterator) : SimpleTransformIterator :=
  if negb (_reading it) then set_reading true it else it.

(** [_completeClose()]: [_flush] has nothing to insert and calls [done] at
    once.  The [_endAsync()] of an empty buffer is [End_task] below. *)
Definition _completeClose (it : SimpleTransformIterator) : SimpleTransformIterator :=
  let '(valid, it) := _changeState CLOSED it in
  if valid then set_reading false (set_reading true it) else it.

(** [close()] *)
Definition close (it : SimpleTransformIterator) : SimpleTransformIterator :=
  if negb (_reading it) then _completeClose it
  else snd (_changeState CLOSING it).

(** The loop of [_readAndTransformSimple]; an iteration either lowers the
    offset or pushes an item, so [loop_fuel] iterations are enough. *)
Fixpoint loop (fuel : nat) (count : integer) (it : SimpleTransformIterator)
  : SimpleTransformIterator :=
  match fuel with
  | O => it
  | S fuel =>
      if negb (closed it) && ltI (Int (_pushedCount it)) count then
        match read X (_source it) with
        | (Some item, s) =>
            let it := set_source s it in
            if negb (_offset it =? 0) then
              loop fuel count (set_offset (_offset it - 1) it)
            else
              let it := _push item it in
              let it := set_limit (subI (_limit it) (Int 1)) it in
              let it := if eqI (_limit it) (Int 0) then close it else it in
              loop fuel count it
        | (None, s) => set_source s it
        end
      else it
  end.

Definition loop_fuel (count : integer) (it : SimpleTransformIterator) : nat :=
  match count with
  | Int c => S (Z.to_nat (_offset it + (c - _pushedCount it)))
  | _ => O
  end.

(** [_readAndTransformSimple(count, next, done)], up to its call of [done] *)
Definition _readAndTransformSimple (count : integer) (it : SimpleTransformIterator)
  : SimpleTransformIterator :=
  if ended X (_source it) then it
  else
    let it := if eqI (_limit it) (Int 0) then close it else it in
    loop (loop_fuel count it) count it.

(** [_fillBuffer()], with the [done] callback of its [_read] *)
Definition fillBuffer_done (it : SimpleTransformIterator) : SimpleTransformIterator :=
  let it := set_reading false it in
  if closed it then _completeClose it
  else if negb (_pushedCount it =? 0) then
    if ltI (Int (2 * lengthZ (_buffer it))) (_maxBufferSize it)
    then _fillBufferAsync it
    else it
  else it.

Definition _fillBuffer (it : SimpleTransformIterator) : SimpleTransformIterator :=
  if _reading it then it
  else if closed it then _completeClose it
  else
    let neededItems :=
      minI (subI (_maxBufferSize it) (Int (lengthZ (_buffer it)))) (Int 128) in
    if gtI neededItems (Int 0) then
      let it := set_pushedCount 0 it in
      let it := set_reading true it in
      fillBuffer_done (_readAndTransformSimple neededItems it)
    else it.

(** [read()], which is that of [BufferedIterator] *)
Definition stage_read (it : SimpleTransformIterator)
  : option T * SimpleTransformIterator :=
  if done it then (None, it)
  else
    let item := head (_buffer it) in
    let it := set_buffer (tail (_buffer it)) it in
    let it :=
      if negb (_reading it) && ltI (Int (lengthZ (_buffer it))) (_maxBufferSize it)
      then if negb (closed it) then _fillBufferAsync it else it
      else it in
    (item, it).

(** [_init(autoStart)]: [_begin] has nothing to insert and calls [done] at
    once. *)
Definition _init (it : SimpleTransformIterator) : SimpleTransformIterator :=
  let it := set_reading true it in
  let it := set_reading false it in
  let it := snd (_changeState OPEN it) in
  if _autoStart it then _fillBufferAsync it else it.

(** [_end(destroy)] of [TransformIterator], without the events *)
Definition _end (destroy_ : bool) (it : SimpleTransformIterator)
  : SimpleTransformIterator :=
  let it := if _destroySource it then set_source (destroy X (_source it)) it
            else it in
  snd (_changeState (if destroy_ then DESTROYED else ENDED) it).

(** [destroy()]: [_destroy] empties the buffer. *)
Definition stage_destroy (it : SimpleTransformIterator) : SimpleTransformIterator :=
  if negb (done it) then _end true (set_buffer [] it) else it.

(** What can happen to the iterator on its own: the task of its constructor,
    the task of [_fillBufferAsync], the [readable] and [end] events of its
    source, the task of [_endAsync], which is only queued when the iterator
    is closed and its buffer empty, and whatever happens to its source. *)
Inductive StageAction :=
| Init
| FillBuffer_task
| Source_readable
| Source_end
| End_task
| Source_action (a : Action X).

Definition stage_act (a : StageAction) (it : SimpleTransformIterator)
  : SimpleTransformIterator :=
  match a with
  | Init => _init it
  | FillBuffer_task => _fillBuffer (set_reading false it)
  | Source_readable => _fillBuffer it
  | Source_end => if ended X (_source it) then close it else it
  | End_task =>
      if closed it && (lengthZ (_buffer it) =? 0) then _end false it else it
  | Source_action a => set_source (act X a (_source it)) it
  end.

(** The transformation steps that the constructor takes from its options. *)
Definition SimpleTransformIterator_steps (options : Options)
  (it : SimpleTransformIterator) : SimpleTransformIterator :=
  if match offset options with Some Infinity => true | _ => false end
     || match limit options with Some NegInfinity => true | _ => false end
  then set_limit (Int 0) it
  else
    let it := match offset options with
              | Some (Finite q) => set_offset (Z.max (Math_trunc q) 0) it
              | _ => it
              end in
    match limit options with
    | Some (Finite q) => set_limit (Int (Z.max (Math_trunc q) 0)) it
    | _ => it
    end.

(** [new SimpleTransformIterator(source, options)] *)
Definition transform (options : Options) (source : state X)
  : SimpleTransformIterator :=
  let it :=
    {| _state := INIT; _buffer := [];
       _maxBufferSize :=
         coerce_maxBufferSize (default (Finite 4) (maxBufferSize options));
       _reading := true; _pushedCount := 0; _source := source;
       _destroySource :=
         match destroySource options with Some false => false | _ => true end;
       _offset := 0; _limit := IInfinity;
       _autoStart := default true (autoStart options) |} in
  let it := if ended X source then close it else it in
  SimpleTransformIterator_steps options it.

(** [skip(offset)], [take(limit)] and [range(start, end)] *)
Definition skip (offset : number) (source : state X) : SimpleTransformIterator :=
  transform {| maxBufferSize := None; autoStart := None; destroySource := None;
               offset := Some offset; limit := None |} source.

Definition take (limit : number) (source : state X) : SimpleTransformIterator :=
  transform {| maxBufferSize := None; autoStart := None; destroySource := None;
               offset := None; limit := Some limit |} source.

Definition range (start end_ : number) (source : state X) : SimpleTransformIterator :=
  transform {| maxBufferSize := None; autoStart := None; destroySource := None;
               offset := Some start;
               limit := Some (Math_max (addN (subN end_ start) (Finite 1))
                                       (Finite 0)) |} source.

(** The transform iterator as the source of the next one. *)
Definition stage : Source T :=
  {| state := SimpleTransformIterator; read := stage_read; ended := stage_ended;
     destroy := stage_destroy; Action := StageAction; act := stage_act |}.

End Transform.

Arguments Init {T X}.
Arguments FillBuffer_task {T X}.
Arguments Source_readable {T X}.
Arguments Source_end {T X}.
Arguments End_task {T X}.
Arguments Source_action {T X} a.

(** ** The program that reads from an iterator

    It calls [read()] (as the [data] listener machinery does for it), and
    between two calls anything may happen to the iterator. *)
Section Consumer.

Context {T : Type}.
Variable X : Source T.

Inductive Move :=
| Read
| Act (a : Action X).

(** The iterator and the items read so far, [null] left out. *)
Definition move (c : state X * list T) (m : Move) : state X * list T :=
  match m with
  | Read =>
      match read X (fst c) with
      | (Some item, x) => (x, snd c ++ [item])
      | (None, x) => (x, snd c)
      end
  | Act a => (act X a (fst c), snd c)
  end.

Definition moves (l : list Move) (x : state X) : state X * list T :=
  fold_left move l (x, []).

End Consumer.

Arguments Read {T X}.
Arguments Act {T X} a.

(** ** The sequence an iterator stands for

    [rest x k] is the item that the [k]-th next successful [read()] of the
    iterator in state [x] returns, whatever happens in between; [valid] is
    what the states of the iterator keep true. *)
Record Delivers {T : Type} (X : Source T) := {
  valid : state X -> Prop;
  rest : state X -> nat -> option T;
  read_valid x : valid x -> valid (snd (read X x));
  act_valid a x : valid x -> valid (act X a x);
  destroy_valid x : valid x -> valid (destroy X x);
  read_item x v :
    valid x -> fst (read X x) = Some v ->
    rest x O = Some v /\ forall k, rest (snd (read X x)) k = rest x (S k);
  read_null x :
    valid x -> fst (read X x) = None ->
    forall k, rest (snd (read X x)) k = rest x k;
  act_rest a x : valid x -> forall k, rest (act X a x) k = rest x k;
  ended_rest x : valid x -> ended X x = true -> rest x O = None;
  rest_closed x k : valid x -> rest x k = None -> rest x (S k) = None
}.
Arguments valid {T X} _ _.
Arguments rest {T X} _ _ _.

Section Sequence.

Context {T : Type} {X : Source T}.
Variable D : Delivers X.

(** What the source still gives to the transform iterator, after the offset
    and up to the limit. *)
Definition upcoming (it : SimpleTransformIterator X) (k : nat) : option T :=
  if closed X it then None
  else
    match _limit X it with
    | Int n =>
        if Z.of_nat k <? n then rest D (_source X it) (Z.to_nat (_offset X it) + k)
        else None
    | IInfinity => rest D (_source X it) (Z.to_nat (_offset X it) + k)
    | _ => None
    end.

(** The items of a list, and then those of a sequence. *)
Definition followed_by (l : list T) (f : nat -> option T) (k : nat) : option T :=
  match l !! k with
  | Some item => Some item
  | None => f (k - length l)%nat
  end.

(** The buffer first, then what is still to come. *)
Definition stage_rest (it : SimpleTransformIterator X) (k : nat) : option T :=
  if done X it then None
  else followed_by (_buffer X it) (upcoming it) k.

Definition stage_valid (it : SimpleTransformIterator X) : Prop :=
  valid D (_source X it)
  /\ 0 <= _offset X it
  /\ match _limit X it with
     | Int n => 0 <= n
     | IInfinity => True
     | _ => False
     end.

End Sequence.

(** ** Iterators that go on

    What happens to an iterator on its own brings it, sooner or later, to a
    state in which [read()] returns an item or the iterator has ended;
    [alive] is what the states of an iterator that has not been destroyed
    keep true. *)
Definition acts {T : Type} (X : Source T) (l : list (Action X)) (x : state X)
  : state X :=
  fold_left (fun x a => act X a x) l x.

Record Live {T : Type} {X : Source T} (D : Delivers X) := {
  alive : state X -> Prop;
  read_alive x : valid D x -> alive x -> alive (snd (read X x));
  act_alive a x : valid D x -> alive x -> alive (act X a x);
  progress x :
    valid D x -> alive x ->
    exists l, fst (read X (acts X l x)) <> None \/ ended X (acts X l x) = true
}.
Arguments alive {T X D} _ _.

Section Alive.

Context {T : Type} {X : Source T} {D : Delivers X}.
Variable L : Live D.

(** A transform iterator that has not been destroyed; its source is of no
    concern once the iterator is closed. *)
Definition stage_alive (it : SimpleTransformIterator X) : Prop :=
  _state X it <= ENDED
  /\ (closed X it = false -> alive L (_source X it))
  /\ match _maxBufferSize X it with
     | Int n => 1 <= n
     | IInfinity => True
     | _ => False
     end.

End Alive.

End Pipelines.

(** * More iterators to read from *)

Module Sources.
Import Pipelines.

(** An iterator together with the number of items that its [read()] has
    returned so far. *)
Definition counted {T : Type} (X : Source T) : Source T :=
  {| state := state X * nat;
     read := fun c =>
       let '(item, x) := read X (fst c) in
       (item, (x, match item with Some _ => S (snd c) | None => snd c end));
     ended := fun c => ended X (fst c);
     destroy := fun c => (destroy X (fst c), snd c);
     Action := Action X;
     act := fun a c => (act X a (fst c), snd c) |}.

(** ** [SingletonIterator]

    An item is [Some x]; [None] is [null]. *)
Module Singleton.
Section Items.

Context {T : Type}.

Record SingletonIterator := {
  _state : Z;
  _item : option T
}.

Definition closed (it : SingletonIterator) : bool := CLOSING <=? _state it.
Definition ended (it : SingletonIterator) : bool := _state it =? ENDED.
Definition destroyed (it : SingletonIterator) : bool := _state it =? DESTROYED.
Definition done (it : SingletonIterator) : bool := ENDED <=? _state it.

(** [_changeState(newState)], without its event *)
Definition _changeState (newState : Z) (it : SingletonIterator) : SingletonIterator :=
  if (_state it <? newState) && (_state it <? ENDED) then
    {| _state := newState; _item := _item it |}
  else it.

(** [close()]; the [_end] it defers is [End_task] below. *)
Definition close (it : SingletonIterator) : SingletonIterator :=
  _changeState CLOSED it.

(** [new SingletonIterator(item)] *)
Definition new_SingletonIterator (item : option T) : SingletonIterator :=
  let it := {| _state := OPEN; _item := item |} in
  match item with
  | None => close it
  | Some _ => it
  end.

(** [read()] *)
Definition read (it : SingletonIterator) : option T * SingletonIterator :=
  let item := _item it in
  (item, close {| _state := _state it; _item := None |}).

(** [_end(destroy)] and [destroy()], without their events; [_destroy] is
    not overridden. *)
Definition _end (destroy : bool) (it : SingletonIterator) : SingletonIterator :=
  _changeState (if destroy then DESTROYED else ENDED) it.

Definition destroy (it : SingletonIterator) : SingletonIterator :=
  if negb (done it) then _end true it else it.

(** The task that [close()] defers runs once the iterator is closed. *)
Inductive Action := End_task.

Definition act (a : Action) (it : SingletonIterator) : SingletonIterator :=
  match a with
  | End_task => if closed it then _end false it else it
  end.

Definition source : Source T :=
  {| state := SingletonIterator; Pipelines.read := read;
     Pipelines.ended := ended; Pipelines.destroy := destroy;
     Pipelines.Action := Action; Pipelines.act := act |}.

(** The item that the [k]-th next [read()] returns. *)
Definition rest (it : SingletonIterator) (k : nat) : option T :=
  match k with
  | O => _item it
  | S _ => None
  end.

End Items.
Arguments SingletonIterator : clear implicits.
Arguments source : clear implicits.
End Singleton.

End Sources.

(** * [SimpleTransformIterator] with a filter and a mapping

    [transform], [map] and [filter] put a [SimpleTransformIterator] on top
    of an iterator; with a filter, the loop of [_readAndTransformSimple]
    goes on for as long as the source gives items that the filter rejects,
    so the loop, and what calls it, may not return: [fuel] bounds the turns
    of one loop, and [None] is a loop that has not ended within it. *)

Module Mapping.
Import Pipelines.

(** An iterator together with the items that its [read()] has returned so
    far. *)
Definition logged {T : Type} (X : Source T) : Source T :=
  {| state := state X * list T;
     read := fun c =>
       let '(item, x) := read X (fst c) in
       (item, (x, match item with Some v => snd c ++ [v] | None => snd c end));
     ended := fun c => ended X (fst c);
     destroy := fun c => (destroy X (fst c), snd c);
     Action := Action X;
     act := fun a c => (act X a (fst c), snd c) |}.

(** The options of [transform]: those of the iterator with an offset and a
    limit, and [optional], [filter] and [map]; a mapping returns [None] for
    [null]. *)
Record TransformOptions {T : Type} := {
  options : Options;
  optional : bool;
  filter : option (T -> bool);
  map : option (T -> option T)
}.
Arguments TransformOptions : clear implicits.

Section Mapped.

Context {T : Type}.
Variable X : Source T.

(** The fields of the iterator: those of the iterator with an offset and a
    limit, and [_optional], [_filter] and [_map]. *)
Record MappedIterator := {
  buffered : SimpleTransformIterator X;
  _optional : bool;
  _filter : T -> bool;
  _map : option (T -> option T)
}.

Definition on_buffered (f : SimpleTransformIterator X -> SimpleTransformIterator X)
  (it : MappedIterator) : MappedIterator :=
  {| buffered := f (buffered it); _optional := _optional it;
     _filter := _filter it; _map := _map it |}.

(** The loop of [_readAndTransformSimple] *)
Fixpoint loop (fuel : nat) (count : integer) (it : MappedIterator)
  : option MappedIterator :=
  match fuel with
  | O => None
  | S fuel =>
      if negb (closed X (buffered it))
         && ltI (Int (_pushedCount X (buffered it))) count then
        match read X (_source X (buffered it)) with
        | (Some item, s) =>
            let it := on_buffered (set_source X s) it in
            if negb (_filter it item) then loop fuel count it
            else if negb (_offset X (buffered it) =? 0) then
              loop fuel count
                (on_buffered (fun b => set_offset X (_offset X b - 1) b) it)
            else
              let mappedItem := match _map it with
                                | None => Some item
                                | Some f => f item
                                end in
              let it := match mappedItem with
                        | None => if _optional it
                                  then on_buffered (_push X item) it else it
                        | Some mappedItem => on_buffered (_push X mappedItem) it
                        end in
              let it := on_buffered
                          (fun b => set_limit X (subI (_limit X b) (Int 1)) b) it in
              let it := if eqI (_limit X (buffered it)) (Int 0)
                        then on_buffered (close X) it else it in
              loop fuel count it
        | (None, s) => Some (on_buffered (set_source X s) it)
        end
      else Some it
  end.

(** [_readAndTransformSimple(count, next, done)], up to its call of [done] *)
Definition _readAndTransformSimple (fuel : nat) (count : integer)
  (it : MappedIterator) : option MappedIterator :=
  if ended X (_source X (buffered it)) then Some it
  else
    let it := if eqI (_limit X (buffered it)) (Int 0)
              then on_buffered (close X) it else it in
    loop fuel count it.

(** [_fillBuffer()], with the [done] callback of its [_read] *)
Definition _fillBuffer (fuel : nat) (it : MappedIterator) : option MappedIterator :=
  if _reading X (buffered it) then Some it
  else if closed X (buffered it) then Some (on_buffered (_completeClose X) it)
  else
    let neededItems :=
      minI (subI (_maxBufferSize X (buffered it))
                 (Int (lengthZ (_buffer X (buffered it))))) (Int 128) in
    if gtI neededItems (Int 0) then
      let it := on_buffered (set_pushedCount X 0) it in
      let it := on_buffered (set_reading X true) it in
      on_buffered (fillBuffer_done X) <$> _readAndTransformSimple fuel neededItems it
    else Some it.

(** [read()], which is that of [BufferedIterator] *)
Definition mapped_read (it : MappedIterator) : option T * MappedIterator :=
  let '(item, b) := stage_read X (buffered it) in
  (item, {| buffered := b; _optional := _optional it; _filter := _filter it;
            _map := _map it |}).

(** What can happen to the iterator on its own, as for the iterator with an
    offset and a limit. *)
Definition mapped_act (fuel : nat) (a : StageAction X) (it : MappedIterator)
  : option MappedIterator :=
  match a with
  | Init => Some (on_buffered (_init X) it)
  | FillBuffer_task => _fillBuffer fuel (on_buffered (set_reading X false) it)
  | Source_readable => _fillBuffer fuel it
  | Source_end => Some (on_buffered (stage_act X Source_end) it)
  | End_task => Some (on_buffered (stage_act X End_task) it)
  | Source_action a => Some (on_buffered (stage_act X (Source_action a)) it)
  end.

(** [new SimpleTransformIterator(source, options)]: the filter and the
    mapping are not taken from the options when the bounds are
    unreachable. *)
Definition transform (o : TransformOptions T) (source : state X) : MappedIterator :=
  let unreachable :=
    match offset (options o) with Some Infinity => true | _ => false end
    || match limit (options o) with Some NegInfinity => true | _ => false end in
  {| buffered := Pipelines.transform X (options o) source;
     _optional := optional o;
     _filter := if unreachable then fun _ => true
                else default (fun _ => true) (filter o);
     _map := if unreachable then None else map o |}.

Definition no_options : Options :=
  {| maxBufferSize := None; autoStart := None; destroySource := None;
     offset := None; limit := None |}.

(** [map(f)] and [filter(f)] *)
Definition map_ (f : T -> option T) (source : state X) : MappedIterator :=
  transform {| options := no_options; optional := false; filter := None;
               map := Some f |} source.

Definition filter_ (f : T -> bool) (source : state X) : MappedIterator :=
  transform {| options := no_options; optional := false; filter := Some f;
               map := None |} source.

(** The program that reads from the iterator, as far as the loops return. *)
Definition mapped_move (fuel : nat) (c : option (MappedIterator * list T))
  (m : Move (stage X)) : option (MappedIterator * list T) :=
  match c with
  | Some (it, out) =>
      match m with
      | Read =>
          match mapped_read it with
          | (Some item, it) => Some (it, out ++ [item])
          | (None, it) => Some (it, out)
          end
      | Act a =>
          match mapped_act fuel a it with
          | Some it => Some (it, out)
          | None => None
          end
      end
  | None => None
  end.

Definition mapped_moves (fuel : nat) (l : list (Move (stage X)))
  (it : MappedIterator) : option (MappedIterator * list T) :=
  fold_left (mapped_move fuel) l (Some (it, [])).

End Mapped.

End Mapping.

(** * [TransformIterator]

    [wrap(source)] is a [TransformIterator] whose [_transform] is the
    default one, which pushes the item as it is.  Its [_read] takes one item
    from the source and defers the next turn to a task. *)

Module Wrapping.
Import Pipelines Mapping.

(** The options of [TransformIterator] *)
Record TransformIteratorOptions := {
  maxBufferSize : option number;
  autoStart : option bool;
  optional : bool;
  destroySource : option bool
}.

Section Wrapped.

Context {T : Type}.
Variable X : Source T.

(** The fields of [BufferedIterator] and [TransformIterator] are kept in the
    record of the iterator with an offset and a limit, whose [_offset] and
    [_limit] have no use here; [deferred] is the [count] of a [_read] whose
    next [_readAndTransform] waits in a task. *)
Record TransformIterator := {
  buffered : SimpleTransformIterator X;
  _optional : bool;
  deferred : option integer
}.

Definition on_buffered (f : SimpleTransformIterator X -> SimpleTransformIterator X)
  (it : TransformIterator) : TransformIterator :=
  {| buffered := f (buffered it); _optional := _optional it;
     deferred := deferred it |}.

Definition set_deferred (count : option integer) (it : TransformIterator)
  : TransformIterator :=
  {| buffered := buffered it; _optional := _optional it; deferred := count |}.

(** The [done] callback that [_fillBuffer] passes to [_read] *)
Definition done_reading (it : TransformIterator) : TransformIterator :=
  on_buffered (fillBuffer_done X) it.

(** The [next] closure of [_read]: another turn in a task, or [done] *)
Definition next (count : integer) (it : TransformIterator) : TransformIterator :=
  if ltI (Int (_pushedCount X (buffered it))) count
     && negb (closed X (buffered it))
  then set_deferred (Some count) it
  else done_reading it.

(** [_readAndTransform(next, done)], with the [_transform] that pushes the
    item and the [_optionalTransform] around it *)
Definition _readAndTransform (count : integer) (it : TransformIterator)
  : TransformIterator :=
  if negb (ended X (_source X (buffered it))) then
    match read X (_source X (buffered it)) with
    | (Some item, s) =>
        let it := on_buffered (set_source X s) it in
        if negb (_optional it) then
          next count (on_buffered (_push X item) it)
        else
          let pushedCount := _pushedCount X (buffered it) in
          let it := on_buffered (_push X item) it in
          let it := if pushedCount =? _pushedCount X (buffered it)
                    then on_buffered (_push X item) it else it in
          next count it
    | (None, s) => done_reading (on_buffered (set_source X s) it)
    end
  else done_reading it.

(** [_fillBuffer()] *)
Definition _fillBuffer (it : TransformIterator) : TransformIterator :=
  if _reading X (buffered it) then it
  else if closed X (buffered it) then on_buffered (_completeClose X) it
  else
    let neededItems :=
      minI (subI (_maxBufferSize X (buffered it))
                 (Int (lengthZ (_buffer X (buffered it))))) (Int 128) in
    if gtI neededItems (Int 0) then
      let it := on_buffered (set_pushedCount X 0) it in
      let it := on_buffered (set_reading X true) it in
      _readAndTransform neededItems it
    else it.

(** [read()], which is that of [BufferedIterator] *)
Definition wrapped_read (it : TransformIterator) : option T * TransformIterator :=
  let '(item, b) := stage_read X (buffered it) in
  (item, {| buffered := b; _optional := _optional it; deferred := deferred it |}).

(** What can happen to the iterator on its own: what can happen to the
    iterator with an offset and a limit, and the task of [next]. *)
Inductive WrappedAction :=
| Buffered_action (a : StageAction X)
| Next_task.

Definition wrapped_act (a : WrappedAction) (it : TransformIterator)
  : TransformIterator :=
  match a with
  | Buffered_action Init => on_buffered (_init X) it
  | Buffered_action FillBuffer_task =>
      _fillBuffer (on_buffered (set_reading X false) it)
  | Buffered_action Source_readable => _fillBuffer it
  | Buffered_action a => on_buffered (stage_act X a) it
  | Next_task =>
      match deferred it with
      | Some count => _readAndTransform count (set_deferred None it)
      | None => it
      end
  end.

(** [new TransformIterator(source, options)] *)
Definition new_TransformIterator (options : TransformIteratorOptions)
  (source : state X) : TransformIterator :=
  let b :=
    {| _state := INIT; _buffer := [];
       _maxBufferSize :=
         coerce_maxBufferSize (default (Finite 4) (maxBufferSize options));
       _reading := true; _pushedCount := 0; _source := source;
       _destroySource :=
         match destroySource options with Some false => false | _ => true end;
       _offset := 0; _limit := IInfinity;
       _autoStart := default true (autoStart options) |} in
  {| buffered := if ended X source then close X b else b;
     _optional := optional options; deferred := None |}.

(** [wrap(source, options)] *)
Definition wrap (options : TransformIteratorOptions) (source : state X)
  : TransformIterator :=
  new_TransformIterator options source.

(** The iterator as a source of others; [destroy()] is that of the
    iterator with an offset and a limit. *)
Definition wrapped : Source T :=
  {| state := TransformIterator; read := wrapped_read;
     ended := fun it => stage_ended X (buffered it);
     destroy := on_buffered (stage_destroy X);
     Action := WrappedAction; act := wrapped_act |}.

End Wrapped.

End Wrapping.

(** * Programs that get and set properties

    A program calls [getProperty(name, callback)] and [setProperty(name,
    value)] in some order; when it returns, the deferred tasks run, and the
    program may go on from there. *)

Module PropertyStore.
Import Properties.

Inductive Op :=
| Get (propertyName : string) (callback : Callback)
| Set_ (propertyName : string) (v : value).

Definition exec_op (s : State) (op : Op) : State :=
  match op with
  | Get propertyName callback => getProperty_callback propertyName callback s
  | Set_ propertyName v => setProperty propertyName v s
  end.

(** The calls of one turn of the event loop, and then its microtasks. *)
Definition turn (s : State) (ops : list Op) : State :=
  run_tasks (foldl exec_op s ops).

Definition program (turns : list (list Op)) (s : State) : State :=
  foldl turn s turns.

(** [copy[name] = v] on the plain object [copy], given by its own
    properties.  On a plain object the name [__proto__] is the accessor that
    [Object.prototype] defines: assigning to it adds no property, and as the
    values here are no objects, its setter leaves the prototype alone too. *)
Definition assign (name : string) (v : value) (copy : gmap string value)
  : gmap string value :=
  if bool_decide (name = "__proto__") then copy else <[name := v]> copy.

(** [getProperties()]: the own properties of the copy it returns.
    [_properties] has no prototype, so [for ... in] goes through the
    properties that were set and nothing else; the order does not matter to
    the copy. *)
Definition getProperties (s : State) : gmap string value :=
  map_fold assign ∅ (default ∅ (_properties s)).

(** [setProperties(properties)]; the pairs of [properties] come in the order
    in which [for ... in] enumerates them. *)
Definition setProperties (properties : list (string * value)) (s : State) : State :=
  foldl (fun s p => setProperty (fst p) (snd p) s) s properties.

End PropertyStore.

(** * Properties of the embedding *)

(** ** Scenario: offset, limit, prepend and append together *)

(** [fromArray([1,2,3]).transform({offset: 1, limit: 1, prepend: [9],
    append: [8]})], with the program listening to [data] and [end]. *)
Definition scenario_options : TransformOptions :=
  {| maxBufferSize := None; autoStart := None; optional := false;
     destroySource := None;
     offset := Some (Finite 1); limit := Some (Finite 1);
     filter_ := None; map_ := None;
     prepend := Some (inl [Int 9]); append := Some (inl [Int 8]) |}.

Definition scenario : list Cmd :=
  [New_ArrayIterator [Int 1; Int 2; Int 3];
   New_SimpleTransformIterator (Some 0%nat) scenario_options;
   On 1%nat ev_data (consumer 0);
   On 1%nat ev_end (consumer 0)].

(** C4: the pipeline [fromArray([1,2,3]).transform({offset:1, limit:1,
    prepend:[9], append:[8]})] runs to quiescence, and its listener has then
    received exactly the items 9, 2, 8, in that order, followed by [end]; the
    iterator is in the ENDED state. *)
Theorem transform_offset_limit_prepend_append :
  exists w,
    run 200 scenario empty_world = Some (Returned w)
    /\ received_by 0 (log w)
       = [(1%nat, arg_item (Int 9)); (1%nat, arg_item (Int 2));
          (1%nat, arg_item (Int 8)); (1%nat, no_arg)]
    /\ count_emitted 1%nat ev_end (log w) = 1%nat
    /\ _state (base (obj 1%nat w)) = ENDED
    /\ microtasks w = [].
Proof.
  eexists. split; [vm_compute; reflexivity|].
  repeat split.
Qed.

(** ** How a call changes the world

    Most calls are [quiet]: they keep the objects of the heap in their
    classes, move states forward only, and neither emit [end] nor defer its
    emission, and they enter no terminal state.  The exceptions are the
    emission of [end] itself, the [_end] of [AsyncIterator], and the
    constructor of [EmptyIterator]. *)

Definition state_of (r : Ref) (w : World) : Z := _state (base (obj r w)).

Definition allocated (r : Ref) (w : World) : Prop := (r < length (heap w))%nat.

#[global] Instance allocated_dec r w : Decision (allocated r w).
Proof. unfold allocated. apply _. Defined.

(** The class of an object, without the values of its fields. *)
Definition class_of (k : Kind) : Kind :=
  match k with
  | AsyncIterator => AsyncIterator
  | EmptyIterator => EmptyIterator
  | Subclass e => Subclass e
  | ArrayIterator _ => ArrayIterator None
  | IntegerIterator _ _ _ => IntegerIterator INaN INaN INaN
  | BufferedIterator _ => BufferedIterator new_buffered
  | TransformIterator _ _ => TransformIterator new_buffered (new_transform no_options)
  | SimpleTransformIterator _ _ _ =>
      SimpleTransformIterator new_buffered (new_transform no_options) new_simple
  end.

Definition emit_end (c : Cmd) : bool :=
  match c with Emit _ ev_end _ => true | _ => false end.

Definition end_obs (o : Obs) : bool :=
  match o with emitted _ ev_end _ => true | _ => false end.

Definition no_emit_end (k : list Cmd) : Prop :=
  forallb (fun c => negb (emit_end c)) k = true.

Definition no_end_obs (l : list Obs) : Prop :=
  forallb (fun o => negb (end_obs o)) l = true.

(** A forward move of the state that does not enter a terminal state. *)
Definition moves (s s' : Z) : Prop :=
  s < s' /\ s < ENDED /\ (s' = OPEN \/ s' = CLOSING \/ s' = CLOSED).

Definition born (s' : Z) : Prop :=
  s' = INIT \/ s' = OPEN \/ s' = CLOSING \/ s' = CLOSED.

Record quiet (w w' : World) : Prop := {
  quiet_heap : (length (heap w) <= length (heap w'))%nat;
  quiet_class : forall r, allocated r w ->
      class_of (kind (obj r w')) = class_of (kind (obj r w));
  quiet_state : forall r, allocated r w ->
      state_of r w' = state_of r w \/ moves (state_of r w) (state_of r w');
  quiet_born : forall r, ~ allocated r w -> allocated r w' -> born (state_of r w');
  quiet_tasks : exists m, microtasks w' = microtasks w ++ m /\ no_emit_end m;
  quiet_log : exists l, log w' = log w ++ l /\ no_end_obs l
}.

(** Field updates that touch neither the state nor the class. *)
Definition inert (f : Iter -> Iter) : Prop :=
  forall it, _state (base (f it)) = _state (base it)
             /\ class_of (kind (f it)) = class_of (kind it).

Lemma inert_on_base (g : Base -> Base) :
  (forall b, _state (g b) = _state b) -> inert (on_base g).
Proof. intros H it. split; [apply H | reflexivity]. Qed.

Lemma inert_on_buffered g : inert (on_buffered g).
Proof. intros [b k]. split; [reflexivity | destruct k; reflexivity]. Qed.

Lemma inert_on_transform g : inert (on_transform g).
Proof. intros [b k]. split; [reflexivity | destruct k; reflexivity]. Qed.

Lemma inert_on_simple g : inert (on_simple g).
Proof. intros [b k]. split; [reflexivity | destruct k; reflexivity]. Qed.

Lemma inert_on_array g : inert (on_array g).
Proof. intros [b k]. split; [reflexivity | destruct k; reflexivity]. Qed.

Lemma inert_on_integer g : inert (on_integer g).
Proof. intros [b k]. split; [reflexivity | destruct k; reflexivity]. Qed.

Create HintDb quiet discriminated.

#[local] Hint Resolve inert_on_buffered inert_on_transform inert_on_simple
  inert_on_array inert_on_integer : quiet.

Lemma inert_set__readable v : inert (on_base (set__readable v)).
Proof. apply inert_on_base. reflexivity. Qed.

Lemma inert_set_destination v : inert (on_base (set_destination v)).
Proof. apply inert_on_base. reflexivity. Qed.

Lemma inert_addListener ev l : inert (on_base (addListener ev l)).
Proof. apply inert_on_base. reflexivity. Qed.

Lemma inert_removeListener ev l : inert (on_base (removeListener ev l)).
Proof. apply inert_on_base. reflexivity. Qed.

Lemma inert_removeAllListeners ev : inert (on_base (removeAllListeners ev)).
Proof. apply inert_on_base. reflexivity. Qed.

#[local] Hint Resolve inert_set__readable inert_set_destination inert_addListener
  inert_removeListener inert_removeAllListeners : quiet.

(** *** Reading the heap after an update *)

Lemma obj_allocated r w : allocated r w -> heap w !! r = Some (obj r w).
Proof.
  intros H. unfold obj.
  destruct (lookup_lt_is_Some_2 (heap w) r H) as [it ->]. reflexivity.
Qed.

Lemma obj_unallocated r w : ~ allocated r w -> obj r w = null_iter.
Proof.
  intros H. unfold obj. rewrite lookup_ge_None_2; [reflexivity|].
  unfold allocated in H. lia.
Qed.

Lemma obj_upd_ne r r' f w : r <> r' -> obj r' (upd r f w) = obj r' w.
Proof. intros H. unfold obj, upd; simpl. by rewrite list_lookup_alter_ne. Qed.

Lemma obj_upd_eq r f w : allocated r w -> obj r (upd r f w) = f (obj r w).
Proof.
  intros H. unfold obj at 1, upd; simpl.
  rewrite list_lookup_alter_eq, (obj_allocated _ _ H). reflexivity.
Qed.

Lemma allocated_upd r r' f w : allocated r' (upd r f w) <-> allocated r' w.
Proof. unfold allocated, upd; simpl. by rewrite length_alter. Qed.

Lemma state_of_upd_inert r r' f w :
  inert f -> state_of r' (upd r f w) = state_of r' w.
Proof.
  intros Hf. unfold state_of.
  destruct (decide (r = r')) as [<-|Hne]; [|by rewrite obj_upd_ne].
  destruct (decide (allocated r w)) as [Ha|Hn].
  - rewrite obj_upd_eq by done. apply Hf.
  - rewrite !obj_unallocated; [done..|]. by rewrite allocated_upd.
Qed.

Lemma state_of_upd_inert' r r' f w :
  inert f -> _state (base (obj r' (upd r f w))) = _state (base (obj r' w)).
Proof. apply state_of_upd_inert. Qed.

Lemma class_of_upd_inert r r' f w :
  inert f -> class_of (kind (obj r' (upd r f w))) = class_of (kind (obj r' w)).
Proof.
  intros Hf.
  destruct (decide (r = r')) as [<-|Hne]; [|by rewrite obj_upd_ne].
  destruct (decide (allocated r w)) as [Ha|Hn].
  - rewrite obj_upd_eq by done. apply Hf.
  - rewrite !obj_unallocated; [done..|]. by rewrite allocated_upd.
Qed.

(** *** [quiet] is a preorder, and the primitive changes are quiet *)

Lemma quiet_refl w : quiet w w.
Proof.
  split; try (intros; auto; fail).
  - intros r Hn Ha. contradiction.
  - exists []. by rewrite app_nil_r.
  - exists []. by rewrite app_nil_r.
Qed.

Lemma no_emit_end_app k1 k2 : no_emit_end k1 -> no_emit_end k2 -> no_emit_end (k1 ++ k2).
Proof. unfold no_emit_end. rewrite forallb_app. by intros -> ->. Qed.

Lemma no_end_obs_app k1 k2 : no_end_obs k1 -> no_end_obs k2 -> no_end_obs (k1 ++ k2).
Proof. unfold no_end_obs. rewrite forallb_app. by intros -> ->. Qed.

Lemma moves_trans s1 s2 s3 : moves s1 s2 -> moves s2 s3 -> moves s1 s3.
Proof. unfold moves. intros (?&?&?) (?&?&?). repeat split; [lia|lia|done]. Qed.

Lemma born_moves s s' : born s -> moves s s' -> born s'.
Proof. unfold born, moves. intros ? (?&?&?). tauto. Qed.

Lemma quiet_trans w1 w2 w3 : quiet w1 w2 -> quiet w2 w3 -> quiet w1 w3.
Proof.
  intros [h1 c1 s1 b1 (m1&t1&n1) (l1&g1&o1)] [h2 c2 s2 b2 (m2&t2&n2) (l2&g2&o2)].
  assert (Hal : forall r, allocated r w1 -> allocated r w2)
    by (unfold allocated in *; intros; lia).
  split.
  - lia.
  - intros r Ha. rewrite c2 by auto. auto.
  - intros r Ha. destruct (s1 r Ha) as [e1|e1], (s2 r (Hal r Ha)) as [e2|e2].
    + left. congruence.
    + right. by rewrite <- e1.
    + right. by rewrite e2.
    + right. eapply moves_trans; eauto.
  - intros r Hn Ha. destruct (decide (allocated r w2)) as [Ha2|Hn2].
    + destruct (s2 r Ha2) as [e|e].
      * rewrite e. auto.
      * eapply born_moves; eauto.
    + auto.
  - exists (m1 ++ m2). rewrite t2, t1, app_assoc. split; [done|].
    by apply no_emit_end_app.
  - exists (l1 ++ l2). rewrite g2, g1, app_assoc. split; [done|].
    by apply no_end_obs_app.
Qed.

Lemma quiet_upd r f w : inert f -> quiet w (upd r f w).
Proof.
  intros Hf. split.
  - unfold upd; simpl. by rewrite length_alter.
  - intros r' _. by apply class_of_upd_inert.
  - intros r' _. left. by apply state_of_upd_inert.
  - intros r' Hn Ha. apply allocated_upd in Ha. contradiction.
  - exists []. by rewrite app_nil_r.
  - exists []. by rewrite app_nil_r.
Qed.

Lemma quiet_queueMicrotask task w : emit_end task = false -> quiet w (queueMicrotask task w).
Proof.
  intros Ht. split; try (intros; auto; fail).
  - intros r Hn Ha. contradiction.
  - exists [task]. split; [done|]. unfold no_emit_end. simpl. by rewrite Ht.
  - exists []. by rewrite app_nil_r.
Qed.

Lemma quiet_observe o w : end_obs o = false -> quiet w (observe o w).
Proof.
  intros Ht. split; try (intros; auto; fail).
  - intros r Hn Ha. contradiction.
  - exists []. by rewrite app_nil_r.
  - exists [o]. split; [done|]. unfold no_end_obs. simpl. by rewrite Ht.
Qed.

Lemma obj_alloc_old it w r : allocated r w -> obj r (snd (alloc it w)) = obj r w.
Proof. intros H. unfold obj, alloc; simpl. by rewrite lookup_app_l. Qed.

Lemma obj_alloc_new it w : obj (fst (alloc it w)) (snd (alloc it w)) = it.
Proof.
  unfold obj, alloc; simpl. rewrite lookup_app_r by lia.
  by rewrite Nat.sub_diag.
Qed.

Lemma quiet_alloc it w :
  born (_state (base it)) -> quiet w (snd (alloc it w)).
Proof.
  intros Hb. split.
  - unfold alloc; simpl. rewrite length_app. lia.
  - intros r Ha. by rewrite obj_alloc_old.
  - intros r Ha. left. unfold state_of. by rewrite obj_alloc_old.
  - intros r Hn Ha. unfold allocated, alloc in *; simpl in *.
    rewrite length_app in Ha; simpl in Ha.
    assert (r = length (heap w)) as -> by lia.
    unfold state_of. pose proof (obj_alloc_new it w) as E. simpl in E. by rewrite E.
  - exists []. by rewrite app_nil_r.
  - exists []. by rewrite app_nil_r.
Qed.

(** *** [_changeState] *)

Lemma state_of_set_state r n w :
  allocated r w -> state_of r (upd r (on_base (set_state n)) w) = n.
Proof. intros H. unfold state_of. by rewrite obj_upd_eq. Qed.

Lemma state_of_set_state_ne r r' n w :
  r <> r' -> state_of r' (upd r (on_base (set_state n)) w) = state_of r' w.
Proof. intros H. unfold state_of. by rewrite obj_upd_ne. Qed.

Lemma class_of_set_state r r' n w :
  class_of (kind (obj r' (upd r (on_base (set_state n)) w)))
  = class_of (kind (obj r' w)).
Proof.
  destruct (decide (r = r')) as [<-|Hne]; [|by rewrite obj_upd_ne].
  destruct (decide (allocated r w)) as [Ha|Hn].
  - by rewrite obj_upd_eq.
  - rewrite !obj_unallocated; [done..|]. by rewrite allocated_upd.
Qed.

(** A valid change is a change of an allocated object: the state of a
    dangling reference reads as DESTROYED. *)
Lemma valid_allocated r n w :
  (state_of r w <? n) && (state_of r w <? ENDED) = true -> allocated r w.
Proof.
  intros H. destruct (decide (allocated r w)) as [|Hn]; [done|].
  unfold state_of in H. rewrite (obj_unallocated _ _ Hn) in H.
  apply andb_true_iff in H as [_ H]. vm_compute in H. discriminate.
Qed.

Lemma quiet_set_state r n w :
  (state_of r w <? n) && (state_of r w <? ENDED) = true ->
  n = OPEN \/ n = CLOSING \/ n = CLOSED ->
  quiet w (upd r (on_base (set_state n)) w).
Proof.
  intros Hv Hn. pose proof (valid_allocated _ _ _ Hv) as Ha.
  apply andb_true_iff in Hv as [H1 H2]. apply Z.ltb_lt in H1, H2.
  split.
  - unfold upd; simpl. by rewrite length_alter.
  - intros r' _. apply class_of_set_state.
  - intros r' _. destruct (decide (r = r')) as [<-|Hne].
    + right. rewrite state_of_set_state by done. by repeat split.
    + left. by apply state_of_set_state_ne.
  - intros r' Hna Ha'. apply allocated_upd in Ha'. contradiction.
  - exists []. by rewrite app_nil_r.
  - exists []. by rewrite app_nil_r.
Qed.

Lemma quiet__changeState r n a w :
  n = OPEN \/ n = CLOSING \/ n = CLOSED ->
  quiet w (snd (fst (_changeState r n a w))) /\ snd (_changeState r n a w) = [].
Proof.
  intros Hn. unfold _changeState. fold (state_of r w).
  destruct (andb (state_of r w <? n) (state_of r w <? ENDED)) eqn:Hv.
  - assert ((n =? ENDED) = false) as ->.
    { apply Z.eqb_neq. destruct Hn as [->|[->| ->]]; by vm_compute. }
    split; [|done]. by apply quiet_set_state.
  - split; [apply quiet_refl | done].
Qed.

(** *** The methods that call no listener are quiet *)

Ltac quiet_changeState :=
  match goal with
  | |- context [_changeState ?r ?n ?a ?x] =>
      let H1 := fresh "Hq" in
      let H2 := fresh "Hk" in
      destruct (quiet__changeState r n a x) as [H1 H2];
      [ first [ by left | by (right; left) | by (right; right) ] | ];
      destruct (_changeState r n a x) as [[? ?] ?]; simpl in H1, H2;
      try subst
  end.

Ltac quiet_base :=
  first
    [ assumption
    | apply quiet_refl
    | apply quiet_upd; solve [eauto with quiet]
    | apply quiet_queueMicrotask; reflexivity
    | apply quiet_observe; reflexivity ].

Lemma quiet_after w x y : quiet w x -> quiet x y -> quiet w y.
Proof. apply quiet_trans. Qed.

Ltac quiet_go :=
  lazymatch goal with
  | |- quiet ?w ?w => apply quiet_refl
  | H : quiet ?w ?x |- quiet ?w ?x => exact H
  | H : quiet ?y ?x |- quiet ?w ?x => apply (quiet_after w y); [quiet_go | exact H]
  | |- quiet ?w (upd ?r ?f ?x) =>
      apply (quiet_after w x); [quiet_go | apply quiet_upd; solve [eauto with quiet]]
  | |- quiet ?w (queueMicrotask ?t ?x) =>
      apply (quiet_after w x); [quiet_go | apply quiet_queueMicrotask; reflexivity]
  | |- quiet ?w (observe ?o ?x) =>
      apply (quiet_after w x); [quiet_go | apply quiet_observe; reflexivity]
  | |- quiet ?w (if ?b then _ else _) => destruct b eqn:?; quiet_go
  | |- quiet ?w (match ?o with Some _ => _ | None => _ end) =>
      destruct o eqn:?; quiet_go
  | |- quiet ?w (match ?o with inl _ => _ | inr _ => _ end) =>
      destruct o eqn:?; quiet_go
  | |- quiet ?w (?f ?r ?x) =>
      apply (quiet_after w x); [quiet_go | solve [eauto with quiet]]
  | |- quiet ?w (?f ?r ?a ?x) =>
      apply (quiet_after w x); [quiet_go | solve [eauto with quiet]]
  end.

Lemma quiet_readable_set r readable w : quiet w (readable_set r readable w).
Proof. unfold readable_set. quiet_go. Qed.
#[local] Hint Resolve quiet_readable_set : quiet.

Lemma quiet__endAsync r w : quiet w (_endAsync r w).
Proof. unfold _endAsync. quiet_go. Qed.
#[local] Hint Resolve quiet__endAsync : quiet.

Lemma quiet_AsyncIterator_close r w : quiet w (AsyncIterator_close r w).
Proof. unfold AsyncIterator_close. quiet_changeState. quiet_go. Qed.
#[local] Hint Resolve quiet_AsyncIterator_close : quiet.

Lemma quiet__fillBufferAsync r w : quiet w (_fillBufferAsync r w).
Proof. unfold _fillBufferAsync. quiet_go. Qed.
#[local] Hint Resolve quiet__fillBufferAsync : quiet.

Lemma quiet__push r item w : quiet w (_push r item w).
Proof. unfold _push. quiet_go. Qed.
#[local] Hint Resolve quiet__push : quiet.

Lemma quiet_ArrayIterator_read r w : quiet w (ArrayIterator_read r w).2.
Proof.
  unfold ArrayIterator_read.
  destruct (kind (obj r w)) as [| | | [buffer|] | | | |]; simpl; try apply quiet_refl.
  destruct (length (tail buffer) =? 0)%nat; simpl; quiet_go.
Qed.

Lemma quiet_IntegerIterator_read r w : quiet w (IntegerIterator_read r w).2.
Proof.
  unfold IntegerIterator_read.
  destruct (kind (obj r w)); simpl; try apply quiet_refl.
  destruct (closed _); simpl; [apply quiet_refl|]. quiet_go.
Qed.

Lemma quiet_BufferedIterator_read r w : quiet w (BufferedIterator_read r w).2.
Proof.
  unfold BufferedIterator_read.
  destruct (done _); simpl; [apply quiet_refl|].
  destruct (negb (lengthZ _ =? 0)); simpl; quiet_go.
Qed.

Lemma quiet_read r w : quiet w (read r w).2.
Proof.
  unfold read. destruct (kind (obj r w));
    auto using quiet_refl, quiet_ArrayIterator_read, quiet_IntegerIterator_read,
      quiet_BufferedIterator_read.
Qed.

Lemma alloc_fst it w : (alloc it w).1 = length (heap w).
Proof. reflexivity. Qed.

Lemma quiet_new_ArrayIterator items w : quiet w (new_ArrayIterator items w).2.
Proof.
  unfold new_ArrayIterator.
  pose proof (quiet_alloc (new_iter OPEN (ArrayIterator None)) w) as Hq.
  destruct (alloc _ w) as [r w1]. simpl in Hq.
  specialize (Hq ltac:(right; by left)).
  destruct (length items =? 0)%nat; simpl; quiet_go.
Qed.

Lemma quiet_new_IntegerIterator start step end_ w :
  quiet w (new_IntegerIterator start step end_ w).2.
Proof.
  unfold new_IntegerIterator. cbv zeta.
  match goal with |- context [alloc ?it w] =>
    pose proof (quiet_alloc it w ltac:(right; by left)) as Hq;
    destruct (alloc it w) as [r w1] end.
  simpl in Hq.
  match goal with |- context [if ?b then _ else _] => destruct b end; simpl; quiet_go.
Qed.

Lemma quiet_SimpleTransformIterator_steps r options w :
  quiet w (SimpleTransformIterator_steps r options w).
Proof.
  unfold SimpleTransformIterator_steps. destruct (_ || _).
  - quiet_go.
  - destruct (offset options) as [[]|], (limit options) as [[]|],
      (filter_ options), (map_ options); quiet_go.
Qed.

Lemma quiet_SimpleTransformIterator_inserter set r items w :
  quiet w (SimpleTransformIterator_inserter set r items w).
Proof.
  unfold SimpleTransformIterator_inserter.
  destruct items as [[items|p]|]; try quiet_go.
  pose proof (quiet_new_ArrayIterator items w) as Hn.
  destruct (new_ArrayIterator items w) as [p w']. simpl in Hn.
  apply (quiet_after _ w'); [done|]. apply quiet_upd; eauto with quiet.
Qed.

Lemma quiet_SimpleTransformIterator_options r options w :
  quiet w (SimpleTransformIterator_options r options w).
Proof.
  unfold SimpleTransformIterator_options.
  eapply quiet_trans; [apply quiet_SimpleTransformIterator_steps|].
  eapply quiet_trans; apply quiet_SimpleTransformIterator_inserter.
Qed.

(** *** Every call but three is quiet *)

Definition regular (c : Cmd) : Prop :=
  match c with
  | Emit _ ev_end _ | AsyncIterator_end _ _ | New_EmptyIterator => False
  | _ => True
  end.

Lemma no_emit_end_Calls (ls : list Listener) r a :
  no_emit_end ((fun l => Call l r a) <$> ls).
Proof. induction ls; [done|]. unfold no_emit_end in *. simpl. done. Qed.

Ltac quiet_read :=
  match goal with
  | |- context [read ?r ?x] =>
      let H := fresh "Hread" in
      pose proof (quiet_read r x) as H;
      destruct (read r x) as [[?|] ?]; simpl in H
  end.

Ltac quiet_alloc :=
  match goal with
  | |- context [alloc ?it ?x] =>
      let H := fresh "Halloc" in
      pose proof (quiet_alloc it x) as H;
      destruct (alloc it x) as [? ?]; simpl in H;
      specialize (H ltac:(first [by left | by (right; left)]))
  end.

Ltac step_split :=
  repeat match goal with
    | |- context [if ?b then _ else _] => destruct b eqn:?
    | |- context [match ?o with Some _ => _ | None => _ end] => destruct o eqn:?
    | |- context [match kind ?o with _ => _ end] => destruct (kind o) eqn:?
    end.

Ltac step_done :=
  simpl fst; simpl snd; split; [quiet_go | try reflexivity].

Lemma step_Call_quiet l this a w :
  quiet w (step_Call l this a w).1 /\ no_emit_end (step_Call l this a w).2.
Proof.
  destruct l; unfold step_Call.
  - destruct a as [| | |[]]; step_done.
  - step_done.
  - step_split; step_done.
  - step_split; step_done.
  - step_split; step_done.
  - destruct a; step_done.
  - step_done.
  - step_done.
Qed.

Lemma step_Done_quiet d w :
  quiet w (step_Done d w).1 /\ no_emit_end (step_Done d w).2.
Proof.
  destruct d; unfold step_Done.
  - destruct (doneCalled _); [step_done|].
    quiet_changeState. step_split; step_done.
  - step_split; step_done.
  - step_split; step_done.
Qed.

Lemma step_quiet c w :
  regular c -> quiet w (step c w).1 /\ no_emit_end (step c w).2.
Proof.
  intros Hreg.
  destruct c; try contradiction; unfold step; cbv beta iota.
  all: try apply step_Call_quiet.
  all: try apply step_Done_quiet.
  all: try (step_split; step_done; fail).
  all: try (quiet_changeState; step_split; step_done; fail).
  all: try (quiet_read; step_split; step_done; fail).
  all: try (quiet_alloc; step_done; fail).
  - (* Emit *)
    simpl. split.
    + apply quiet_observe. by destruct ev.
    + destruct (_ && _); [done | apply no_emit_end_Calls].
  - (* ReadAndTransform *)
    destruct (_source _); [|step_done].
    destruct (negb _); [|step_done].
    quiet_read; step_split; step_done.
  - (* SimpleTransformIterator_k *)
    split; [apply quiet_SimpleTransformIterator_options | done].
  - (* ReadAndTransformSimple_loop *)
    destruct (_source _); [|step_done].
    destruct (_ && _); [|step_done].
    quiet_read; [|step_done].
    destruct (negb _); [step_done|].
    destruct (negb _); [step_done|].
    match goal with |- context [eqI _ (Int 0)] => destruct (eqI _ (Int 0)) end.
    all: simpl fst; simpl snd; split; [|reflexivity].
    all: apply (quiet_after _ _ _ Hread).
    all: destruct (_map _) as [f|]; [destruct (f i)|]; quiet_go.
  - (* New_ArrayIterator *)
    split; [apply quiet_new_ArrayIterator | done].
  - (* New_IntegerIterator *)
    split; [apply quiet_new_IntegerIterator | done].
  - (* New_TransformIterator *)
    quiet_alloc. split; [done|]. by destruct source.
  - (* New_SimpleTransformIterator *)
    quiet_alloc. split; [done|]. by destruct source.
Qed.

(** *** The three calls that are not quiet *)

Lemma state_numbers :
  INIT = 1 /\ OPEN = 2 /\ CLOSING = 4 /\ CLOSED = 8 /\ ENDED = 16 /\ DESTROYED = 32.
Proof. by vm_compute. Qed.

Lemma step_AsyncIterator_end r destroy w :
  step (AsyncIterator_end r destroy) w =
  if state_of r w <? ENDED then
    (upd r (on_base (set_state (if destroy then DESTROYED else ENDED))) w,
     (if destroy then [] else [Emit r ev_end no_arg]) ++ [AsyncIterator_end_k r])
  else (w, []).
Proof.
  unfold step, _changeState. fold (state_of r w).
  destruct state_numbers as (_&_&_&_&He&Hd).
  destruct (state_of r w <? ENDED) eqn:Hlt.
  - apply Z.ltb_lt in Hlt.
    destruct destroy.
    + assert ((state_of r w <? DESTROYED) = true) as -> by (apply Z.ltb_lt; lia).
      by rewrite Hd.
    + assert ((state_of r w <? ENDED) = true) as -> by (apply Z.ltb_lt; lia).
      by rewrite Z.eqb_refl.
  - by rewrite andb_false_r.
Qed.

Lemma step_New_EmptyIterator w :
  step New_EmptyIterator w =
  (queueMicrotask (Emit (length (heap w)) ev_end no_arg)
     (upd (length (heap w)) (on_base (set_state ENDED))
        (alloc (new_iter OPEN EmptyIterator) w).2), []).
Proof.
  unfold step, _changeState. simpl.
  pose proof (obj_alloc_new (new_iter OPEN EmptyIterator) w) as E. simpl in E.
  rewrite E. reflexivity.
Qed.

Lemma regular_not_emit_end c : regular c -> emit_end c = false.
Proof. destruct c; try done. by destruct ev. Qed.

#[global] Instance regular_dec c : Decision (regular c).
Proof. destruct c; try (left; exact I); try (right; intros []).
  destruct ev; try (left; exact I); right; intros []. Defined.

(** *** States move forward only *)

(** What a state may do between two moments of an execution: stay, or move
    forward from a state below ENDED to one of the later states. *)
Definition forward (s s' : Z) : Prop :=
  s' = s
  \/ (s < s' /\ s < ENDED
      /\ (s' = OPEN \/ s' = CLOSING \/ s' = CLOSED \/ s' = ENDED \/ s' = DESTROYED)).

Lemma forward_trans s1 s2 s3 : forward s1 s2 -> forward s2 s3 -> forward s1 s3.
Proof.
  unfold forward. intros [->|(?&?&?)] [->|(?&?&?)]; auto.
  right. repeat split; [lia|lia|done].
Qed.

Lemma moves_forward s s' : moves s s' -> forward s s'.
Proof. unfold moves, forward. intros (?&?&?). right. tauto. Qed.

Lemma step_forward c w r :
  allocated r w ->
  allocated r (step c w).1 /\ forward (state_of r w) (state_of r (step c w).1).
Proof.
  intros Ha.
  destruct (decide (regular c)) as [Hreg|Hspecial].
  - destruct (step_quiet c w Hreg) as [[Hh _ Hs _ _ _] _]. split.
    + unfold allocated in *. lia.
    + destruct (Hs r Ha) as [->|Hm]; [by left | by apply moves_forward].
  - destruct c; try (exfalso; apply Hspecial; exact I).
    + (* Emit *)
      destruct ev; try (exfalso; apply Hspecial; exact I).
      simpl. split; [done | by left].
    + (* AsyncIterator_end *)
      rewrite step_AsyncIterator_end.
      destruct (state_of r0 w <? ENDED) eqn:Hlt; simpl; [|split; [done | by left]].
      split; [by apply allocated_upd|].
      destruct (decide (r0 = r)) as [->|Hne].
      * rewrite state_of_set_state by done. apply Z.ltb_lt in Hlt.
        right. destruct state_numbers as (_&_&_&_&He&Hd).
        destruct destroy; repeat split; try lia; auto.
      * left. by apply state_of_set_state_ne.
    + (* New_EmptyIterator *)
      rewrite step_New_EmptyIterator. simpl fst.
      assert (Hne : length (heap w) <> r) by (unfold allocated in Ha; lia).
      split.
      * unfold allocated, queueMicrotask, upd in *; simpl.
        rewrite length_alter, length_app. lia.
      * left. unfold state_of, queueMicrotask; simpl.
        change (obj r {| heap := ?h; microtasks := _; log := ?l |})
          with (obj r {| heap := h; microtasks := microtasks w; log := l |}).
        unfold obj; simpl. rewrite list_lookup_alter_ne by done.
        by rewrite lookup_app_l.
Qed.


Lemma next_forward cfg cfg' r :
  next cfg = Some cfg' -> allocated r cfg.2 ->
  allocated r cfg'.2 /\ forward (state_of r cfg.2) (state_of r cfg'.2).
Proof.
  destruct cfg as [[|c stack] w]; simpl.
  - destruct (microtasks w); [done|]. intros [= <-] Ha. split; [done | by left].
  - intros H Ha.
    assert (Some ((step c w).2 ++ stack, (step c w).1) = Some cfg') as [= <-].
    { destruct c; try (destruct (step _ w); exact H). discriminate. }
    by apply step_forward.
Qed.

Lemma after_forward n cfg cfg' r :
  after n cfg = Some cfg' -> allocated r cfg.2 ->
  allocated r cfg'.2 /\ forward (state_of r cfg.2) (state_of r cfg'.2).
Proof.
  revert cfg. induction n as [|n IH]; intros cfg; simpl.
  - intros [= <-] Ha. split; [done | by left].
  - destruct (next cfg) as [cfg1|] eqn:E; [|done]. intros H Ha.
    destruct (next_forward _ _ r E Ha) as [Ha1 Hf1].
    destruct (IH _ H Ha1) as [Ha2 Hf2].
    split; [done|]. eapply forward_trans; eauto.
Qed.

(** C1: [_changeState(newState)] changes the state and reports success if
    and only if [newState] is strictly greater than the current state and
    the current state is strictly below ENDED; otherwise it changes nothing.
    Consequently, between any two moments of any execution the state of an
    iterator either is the same or has moved strictly forward, from a state
    below ENDED, to one of OPEN, CLOSING, CLOSED, ENDED, DESTROYED; and once
    ENDED or DESTROYED is reached the state never changes again. *)
Theorem changeState_forward_only :
  (forall r newState eventAsync w,
      ((_changeState r newState eventAsync w).1.1 = true
       <-> state_of r w < newState /\ state_of r w < ENDED)
      /\ ((_changeState r newState eventAsync w).1.1 = true ->
          state_of r (_changeState r newState eventAsync w).1.2 = newState)
      /\ ((_changeState r newState eventAsync w).1.1 = false ->
          (_changeState r newState eventAsync w).1.2 = w))
  /\ (forall n cfg cfg' r,
         after n cfg = Some cfg' -> allocated r cfg.2 ->
         forward (state_of r cfg.2) (state_of r cfg'.2))
  /\ (forall n cfg cfg' r,
         after n cfg = Some cfg' -> allocated r cfg.2 ->
         ENDED <= state_of r cfg.2 ->
         state_of r cfg'.2 = state_of r cfg.2).
Proof.
  split; [|split].
  - intros r newState eventAsync w. unfold _changeState. fold (state_of r w).
    destruct (andb (state_of r w <? newState) (state_of r w <? ENDED)) eqn:Hv.
    + pose proof (valid_allocated _ _ _ Hv) as Ha.
      apply andb_true_iff in Hv as [H1 H2]. apply Z.ltb_lt in H1, H2.
      assert (forall w', (if newState =? ENDED
                then if negb eventAsync
                     then (true, w', [Emit r ev_end no_arg])
                     else (true, queueMicrotask (Emit r ev_end no_arg) w', [])
                else (true, w', [])).1.1 = true) as Hb
        by (intros; destruct (newState =? ENDED), eventAsync; reflexivity).
      split; [|split].
      * rewrite Hb. tauto.
      * intros _. destruct (newState =? ENDED), eventAsync; simpl;
          by apply state_of_set_state.
      * rewrite Hb. discriminate.
    + simpl. split; [|split]; try done.
      split; [discriminate|]. intros [H1 H2].
      apply andb_false_iff in Hv as [Hv|Hv]; apply Z.ltb_ge in Hv; lia.
  - intros n cfg cfg' r H Ha. by destruct (after_forward _ _ _ r H Ha).
  - intros n cfg cfg' r H Ha He.
    destruct (after_forward _ _ _ r H Ha) as [_ [E|(_&Hlt&_)]]; [done | lia].
Qed.

(** An iterator that is destroyed: OPEN, then DESTROYED. *)
Definition destroyed_example : list Cmd * World :=
  ([Destroy 0%nat None], (step New_AsyncIterator empty_world).1).

Lemma changeState_forward_only_witness :
  exists cfg',
    after 5 destroyed_example = Some cfg'
    /\ state_of 0%nat destroyed_example.2 = OPEN
    /\ state_of 0%nat cfg'.2 = DESTROYED
    /\ forward (state_of 0%nat destroyed_example.2) (state_of 0%nat cfg'.2).
Proof.
  eexists. split; [vm_compute; reflexivity|].
  split; [reflexivity|]. split; [reflexivity|].
  apply (proj1 (proj2 changeState_forward_only) 5%nat destroyed_example _ 0%nat).
  - vm_compute. reflexivity.
  - vm_compute. lia.
Defined.

(** ** The [end] event *)

Definition is_emit_end (r : Ref) (c : Cmd) : bool :=
  match c with
  | Emit r' ev_end _ => bool_decide (r' = r)
  | _ => false
  end.

(** The emissions of [end] by [r] that are under way: on the call stack or
    among the microtasks. *)
Definition pending (r : Ref) (k : list Cmd) : nat :=
  length (List.filter (is_emit_end r) k).

(** The emissions of [end] by [r], made or under way. *)
Definition ends (r : Ref) (cfg : list Cmd * World) : nat :=
  (count_emitted r ev_end (log cfg.2) + pending r cfg.1
   + pending r (microtasks cfg.2))%nat.

(** There is one emission of [end], made or under way, exactly for the
    iterators in the ENDED state. *)
Definition end_balanced (cfg : list Cmd * World) : Prop :=
  forall r, ends r cfg = if state_of r cfg.2 =? ENDED then 1%nat else 0%nat.

Lemma pending_app r k1 k2 : pending r (k1 ++ k2) = (pending r k1 + pending r k2)%nat.
Proof. unfold pending. by rewrite List.filter_app, length_app. Qed.

Lemma pending_no_emit_end r k : no_emit_end k -> pending r k = 0%nat.
Proof.
  unfold no_emit_end, pending. induction k as [|c k IH]; [done|]. simpl.
  intros H. apply andb_true_iff in H as [Hc Hk].
  assert (is_emit_end r c = false) as ->.
  { destruct c; try done. destruct ev; try done. }
  auto.
Qed.

Lemma pending_Emit_end r r' a :
  pending r [Emit r' ev_end a] = if bool_decide (r' = r) then 1%nat else 0%nat.
Proof. unfold pending. simpl. by destruct (bool_decide (r' = r)). Qed.

Lemma pending_Emit_end_cons r r' a k :
  pending r (Emit r' ev_end a :: k)
  = ((if bool_decide (r' = r) then 1 else 0) + pending r k)%nat.
Proof. unfold pending. simpl. by destruct (bool_decide (r' = r)). Qed.

Lemma count_emitted_app r ev l1 l2 :
  count_emitted r ev (l1 ++ l2) = (count_emitted r ev l1 + count_emitted r ev l2)%nat.
Proof. unfold count_emitted. by rewrite List.filter_app, length_app. Qed.

Lemma count_no_end_obs r l : no_end_obs l -> count_emitted r ev_end l = 0%nat.
Proof.
  unfold no_end_obs, count_emitted. induction l as [|o l IH]; [done|]. simpl.
  intros H. apply andb_true_iff in H as [Ho Hl].
  assert (is_emitted r ev_end o = false) as ->.
  { destruct o; try done. destruct ev; try done; simpl;
      by rewrite andb_false_r. }
  auto.
Qed.

Lemma ended_quiet r w w' :
  quiet w w' ->
  (state_of r w' =? ENDED) = (state_of r w =? ENDED).
Proof.
  intros [Hh _ Hs Hb _ _].
  destruct state_numbers as (Hi&Ho&Hc1&Hc2&He&Hd).
  destruct (decide (allocated r w)) as [Ha|Hn].
  - destruct (Hs r Ha) as [->|(H1&H2&H3)]; [done|].
    rewrite (proj2 (Z.eqb_neq (state_of r w) ENDED)) by lia.
    apply Z.eqb_neq. lia.
  - assert (state_of r w = DESTROYED) as ->
      by (unfold state_of; by rewrite obj_unallocated).
    destruct (decide (allocated r w')) as [Ha'|Hn'].
    + pose proof (Hb r Hn Ha') as Hborn. unfold born in Hborn.
      rewrite (proj2 (Z.eqb_neq DESTROYED ENDED)) by lia.
      apply Z.eqb_neq. lia.
    + unfold state_of. by rewrite obj_unallocated.
Qed.

Lemma step_balanced c stack w :
  end_balanced (c :: stack, w) ->
  end_balanced ((step c w).2 ++ stack, (step c w).1).
Proof.
  intros Hbal r. specialize (Hbal r). unfold ends in *. simpl in *.
  destruct (decide (regular c)) as [Hreg|Hspecial].
  - destruct (step_quiet c w Hreg) as [Hq Hk].
    rewrite (ended_quiet r _ _ Hq), <- Hbal.
    destruct Hq as [_ _ _ _ (m&->&Hm) (l&->&Hl)].
    rewrite count_emitted_app, !pending_app.
    rewrite (count_no_end_obs _ _ Hl), (pending_no_emit_end _ _ Hm),
      (pending_no_emit_end _ _ Hk).
    change (c :: stack) with ([c] ++ stack). rewrite pending_app.
    rewrite (pending_no_emit_end r [c]); [lia|].
    unfold no_emit_end. simpl. by rewrite regular_not_emit_end.
  - destruct c; try (exfalso; apply Hspecial; exact I).
    + (* Emit r0 ev_end a *)
      destruct ev; try (exfalso; apply Hspecial; exact I).
      simpl. rewrite count_emitted_app, pending_app.
      rewrite (pending_no_emit_end _ _ (no_emit_end_Calls _ r0 a)).
      change (state_of r (observe _ w)) with (state_of r w). rewrite <- Hbal.
      rewrite pending_Emit_end_cons. unfold count_emitted at 2. simpl.
      destruct (bool_decide (r0 = r)); simpl; lia.
    + (* AsyncIterator_end r0 destroy *)
      rewrite step_AsyncIterator_end.
      change (AsyncIterator_end r0 destroy :: stack)
        with ([AsyncIterator_end r0 destroy] ++ stack) in Hbal.
      rewrite pending_app in Hbal. simpl in Hbal.
      destruct (state_of r0 w <? ENDED) eqn:Hlt; simpl; [|done].
      pose proof Hlt as Hlt'. apply Z.ltb_lt in Hlt'.
      assert (Ha : allocated r0 w).
      { apply (valid_allocated r0 ENDED). by rewrite Hlt. }
      rewrite pending_app.
      destruct state_numbers as (_&_&_&_&He&Hd).
      destruct (decide (r0 = r)) as [->|Hne].
      * rewrite state_of_set_state by done.
        rewrite (proj2 (Z.eqb_neq (state_of r w) ENDED)) in Hbal by lia.
        destruct destroy; simpl.
        -- rewrite ?(proj2 (Z.eqb_neq DESTROYED ENDED)) by lia. lia.
        -- rewrite ?Z.eqb_refl. rewrite pending_Emit_end_cons.
           rewrite bool_decide_true by done. simpl. lia.
      * rewrite state_of_set_state_ne by done. rewrite <- Hbal.
        destruct destroy; simpl; [lia|].
        rewrite pending_Emit_end_cons.
        rewrite bool_decide_false by done. simpl. lia.
    + (* New_EmptyIterator *)
      rewrite step_New_EmptyIterator. simpl.
      rewrite pending_app.
      change (New_EmptyIterator :: stack) with ([New_EmptyIterator] ++ stack) in Hbal.
      rewrite pending_app in Hbal. simpl in Hbal.
      destruct state_numbers as (_&Ho&_&_&He&Hd).
      set (w1 := (alloc (new_iter OPEN EmptyIterator) w).2).
      assert (Hnew : allocated (length (heap w)) w1).
      { unfold allocated, w1, alloc. simpl. rewrite length_app. simpl. lia. }
      change (state_of r (queueMicrotask ?t ?x)) with (state_of r x).
      destruct (decide (length (heap w) = r)) as [<-|Hne].
      * fold w1. rewrite state_of_set_state by done. rewrite Z.eqb_refl.
        assert (state_of (length (heap w)) w = DESTROYED) as Hs.
        { unfold state_of. rewrite obj_unallocated; [done|].
          unfold allocated. lia. }
        rewrite Hs, (proj2 (Z.eqb_neq DESTROYED ENDED)) in Hbal by lia.
        rewrite pending_Emit_end, bool_decide_true by done. lia.
      * fold w1. rewrite state_of_set_state_ne by done.
        change (state_of r _) with (state_of r w1) at 1.
        assert (state_of r w1 = state_of r w) as ->.
        { unfold state_of, w1.
          destruct (decide (allocated r w)) as [Ha|Hn].
          - by rewrite obj_alloc_old.
          - rewrite !obj_unallocated; [done..|].
            unfold allocated, alloc in *. simpl. rewrite length_app. simpl. lia. }
        rewrite <- Hbal.
        rewrite pending_Emit_end, bool_decide_false by done. lia.
Qed.

Lemma next_balanced cfg cfg' :
  end_balanced cfg -> next cfg = Some cfg' -> end_balanced cfg'.
Proof.
  destruct cfg as [[|c stack] w]; simpl.
  - destruct (microtasks w) as [|task tasks] eqn:E; [done|].
    intros Hbal [= <-] r. specialize (Hbal r). unfold ends in *. simpl in *.
    rewrite E in Hbal. change (task :: tasks) with ([task] ++ tasks) in Hbal.
    rewrite pending_app in Hbal.
    change (state_of r {| heap := heap w; microtasks := tasks; log := log w |})
      with (state_of r w).
    rewrite <- Hbal. change (pending r []) with 0%nat. lia.
  - intros Hbal H.
    assert (Some ((step c w).2 ++ stack, (step c w).1) = Some cfg') as [= <-].
    { destruct c; try (destruct (step _ w); exact H). discriminate. }
    by apply step_balanced.
Qed.

Lemma after_balanced n cfg cfg' :
  end_balanced cfg -> after n cfg = Some cfg' -> end_balanced cfg'.
Proof.
  revert cfg. induction n as [|n IH]; intros cfg Hbal; simpl.
  - by intros [= <-].
  - destruct (next cfg) as [cfg1|] eqn:E; [|done].
    apply IH. by eapply next_balanced.
Qed.

Lemma start_balanced program :
  no_emit_end program -> end_balanced (program, empty_world).
Proof.
  intros H r. unfold ends. cbn [fst snd].
  rewrite (pending_no_emit_end _ _ H).
  assert (state_of r empty_world = DESTROYED) as ->.
  { unfold state_of. rewrite obj_unallocated; [done|].
    unfold allocated. simpl. lia. }
  reflexivity.
Qed.

(** C2: in every execution of a program that does not itself call
    [emit('end')], at every moment and for every iterator: [end] has been
    emitted at most once; there is exactly one emission of [end], made or
    under way, if the iterator is in the ENDED state and none otherwise, so
    that the emission belongs to the transition into ENDED; and an iterator
    in the DESTROYED state has emitted no [end]. *)
Theorem end_emitted_at_most_once n program cfg' r :
  no_emit_end program ->
  after n (program, empty_world) = Some cfg' ->
  (count_emitted r ev_end (log cfg'.2) <= 1)%nat
  /\ ends r cfg' = (if state_of r cfg'.2 =? ENDED then 1%nat else 0%nat)
  /\ (state_of r cfg'.2 = DESTROYED -> count_emitted r ev_end (log cfg'.2) = 0%nat).
Proof.
  intros Hp Ha.
  pose proof (after_balanced _ _ _ (start_balanced _ Hp) Ha r) as Hbal.
  split; [|split; [done|]].
  - unfold ends in Hbal. destruct (state_of r cfg'.2 =? ENDED); lia.
  - intros Hd. rewrite Hd in Hbal. unfold ends in Hbal.
    destruct state_numbers as (_&_&_&_&He&Hd').
    rewrite (proj2 (Z.eqb_neq DESTROYED ENDED)) in Hbal by lia. lia.
Qed.

Lemma end_emitted_at_most_once_witness :
  exists cfg',
    after 141 (scenario, empty_world) = Some cfg'
    /\ state_of 0%nat cfg'.2 = DESTROYED
    /\ state_of 1%nat cfg'.2 = ENDED
    /\ count_emitted 0%nat ev_end (log cfg'.2) = 0%nat
    /\ (count_emitted 1%nat ev_end (log cfg'.2) <= 1)%nat.
Proof.
  eexists. split; [vm_compute; reflexivity|].
  split; [reflexivity|]. split; [reflexivity|]. split.
  - apply (end_emitted_at_most_once 141 scenario _ 0%nat);
      [reflexivity | vm_compute; reflexivity | reflexivity].
  - apply (end_emitted_at_most_once 141 scenario _ 1%nat);
      [reflexivity | vm_compute; reflexivity].
Defined.

(** ** [_push] and [read] on a finished [BufferedIterator] *)

(** C5: for a [BufferedIterator] in a done state (ENDED or DESTROYED),
    [_push(item)] changes nothing, neither the buffer nor any other part of
    the world, and throws nothing; and [read()] returns [null], also without
    any change. *)
Theorem push_and_read_when_done r item w :
  is_Some (as_buffered (obj r w)) ->
  done (base (obj r w)) = true ->
  _push r item w = w
  /\ step (Push r item) w = (w, [])
  /\ read r w = (None, w)
  /\ step (Read r) w = (observe (returned r None) w, []).
Proof.
  intros Hb Hd.
  assert (Hp : _push r item w = w) by (unfold _push; by rewrite Hd).
  assert (Hr : read r w = (None, w)).
  { unfold read, as_buffered in *. destruct (kind (obj r w)); try by destruct Hb.
    all: unfold BufferedIterator_read; by rewrite Hd. }
  repeat split; try done.
  - simpl. by rewrite Hp.
  - simpl. by rewrite Hr.
Qed.

(** A [BufferedIterator] that was destroyed. *)
Definition destroyed_buffered : list Cmd :=
  [New_BufferedIterator no_options; Destroy 0%nat None].

Lemma push_and_read_when_done_witness :
  exists w,
    run 20 destroyed_buffered empty_world = Some (Returned w)
    /\ state_of 0%nat w = DESTROYED
    /\ _push 0%nat (Int 7) w = w
    /\ read 0%nat w = (None, w).
Proof.
  eexists. split; [vm_compute; reflexivity|]. split; [reflexivity|].
  match goal with |- _ ?r ?i ?w = _ /\ _ =>
    destruct (push_and_read_when_done r i w) as (H1 & _ & H3 & _) end.
  - vm_compute. eauto.
  - reflexivity.
  - split; [exact H1 | exact H3].
Defined.

(** ** The [maxBufferSize] setter *)

Lemma Math_trunc_nonneg q :
  (0 <= Qnum q)%Z ->
  (Math_trunc q * Zpos (Qden q) <= Qnum q < (Math_trunc q + 1) * Zpos (Qden q))%Z.
Proof.
  intros H. unfold Math_trunc.
  pose proof (Z.quot_rem' (Qnum q) (Zpos (Qden q))) as E.
  pose proof (Z.rem_bound_pos (Qnum q) (Zpos (Qden q)) H ltac:(lia)) as B.
  nia.
Qed.

Lemma Math_trunc_nonpos q :
  (Qnum q <= 0)%Z ->
  ((Math_trunc q - 1) * Zpos (Qden q) < Qnum q <= Math_trunc q * Zpos (Qden q))%Z.
Proof.
  intros H. unfold Math_trunc.
  pose proof (Z.quot_rem' (Qnum q) (Zpos (Qden q))) as E.
  pose proof (Z.rem_bound_pos_neg (Qnum q) (Zpos (Qden q)) ltac:(lia) H) as B.
  nia.
Qed.

(** C10: the [maxBufferSize] setter keeps [Infinity]; turns any other
    non-finite value into 4; truncates a finite value towards zero (the
    result is the integer of largest magnitude that does not pass the
    value) and raises it to 1 at least.  The field ends up with the coerced
    value, nothing else changes, and [_fillBuffer()] is the next call exactly
    when the coerced value differs from the current one and the state is
    OPEN. *)
Theorem maxBufferSize_setter :
  coerce_maxBufferSize Infinity = IInfinity
  /\ coerce_maxBufferSize NaN = Int 4
  /\ coerce_maxBufferSize NegInfinity = Int 4
  /\ (forall q, coerce_maxBufferSize (Finite q) = Int (Z.max (Math_trunc q) 1)
                /\ (0 <= q -> inject_Z (Math_trunc q) <= q < inject_Z (Math_trunc q + 1))%Q
                /\ (q <= 0 -> inject_Z (Math_trunc q - 1) < q <= inject_Z (Math_trunc q))%Q)
  /\ (forall r v w,
        let current := _maxBufferSize (the_buffered r w) in
        let coerced := coerce_maxBufferSize v in
        step (Set_maxBufferSize r v) w =
        if eqI current coerced then (w, [])
        else (upd r (on_buffered (set__maxBufferSize coerced)) w,
              if state_of r w =? OPEN then [FillBuffer r] else []))
  /\ (forall r v w,
        is_Some (as_buffered (obj r w)) -> allocated r w ->
        _maxBufferSize (the_buffered r (step (Set_maxBufferSize r v) w).1)
        = coerce_maxBufferSize v).
Proof.
  split; [done|]. split; [done|]. split; [done|]. split; [|split].
  - intros q. split; [|split].
    + unfold coerce_maxBufferSize, maxI, truncIfFinite, ltI. simpl.
      destruct (Z.ltb_spec (Math_trunc q) 1); f_equal; lia.
    + intros H. unfold Qle, Qlt, inject_Z in *. simpl in *.
      pose proof (Math_trunc_nonneg q ltac:(lia)). lia.
    + intros H. unfold Qle, Qlt, inject_Z in *. simpl in *.
      pose proof (Math_trunc_nonpos q ltac:(lia)). lia.
  - intros r v w current coerced. unfold step. fold current coerced.
    destruct (eqI current coerced); simpl; [done|].
    unfold state_of. rewrite state_of_upd_inert' by eauto with quiet.
    by destruct (_ =? OPEN).
  - intros r v w Hb Ha. unfold step.
    set (current := _maxBufferSize (the_buffered r w)).
    set (coerced := coerce_maxBufferSize v).
    destruct (eqI current coerced) eqn:E; simpl.
    + subst current. destruct (_maxBufferSize (the_buffered r w)), coerced;
        try discriminate; try done.
      simpl in E. apply Z.eqb_eq in E. by subst.
    + assert (Hw : the_buffered r (upd r (on_buffered (set__maxBufferSize coerced)) w)
                   = set__maxBufferSize coerced (the_buffered r w)).
      { unfold the_buffered. rewrite obj_upd_eq by done.
        destruct Hb as [b Hb]. unfold as_buffered, on_buffered in *. simpl.
        destruct (kind (obj r w)); try discriminate; by inversion Hb. }
      destruct (_ =? OPEN); simpl; by rewrite Hw.
Qed.

(** An open [BufferedIterator] whose [maxBufferSize] is set to 2.7. *)
Definition open_buffered : list Cmd := [New_BufferedIterator no_options].

Lemma maxBufferSize_setter_witness :
  exists w,
    run 20 open_buffered empty_world = Some (Returned w)
    /\ state_of 0%nat w = OPEN
    /\ (step (Set_maxBufferSize 0%nat (Finite (27 # 10))) w).2 = [FillBuffer 0%nat]
    /\ _maxBufferSize (the_buffered 0%nat
                         (step (Set_maxBufferSize 0%nat (Finite (27 # 10))) w).1)
       = Int 2.
Proof.
  eexists. split; [vm_compute; reflexivity|]. split; [reflexivity|].
  split; [reflexivity|].
  match goal with |- _ (the_buffered ?r (step (Set_maxBufferSize _ ?v) ?w).1) = _ =>
    rewrite (proj2 (proj2 (proj2 (proj2 (proj2 maxBufferSize_setter)))) r v w) end.
  - reflexivity.
  - vm_compute. eauto.
  - vm_compute. lia.
Defined.

(** ** Synchronous calls *)

Definition world_of (o : Outcome) : World :=
  match o with Returned w | Threw _ w => w end.

Lemma throw_or_not c : (exists msg, c = Throw msg) \/ (forall msg, c <> Throw msg).
Proof. destruct c; try (right; discriminate). left. eauto. Qed.

Lemma call_step fuel c stack w :
  (forall msg, c <> Throw msg) ->
  call (S fuel) (c :: stack) w = call fuel ((step c w).2 ++ stack) (step c w).1.
Proof.
  intros H. simpl. destruct c; try (by destruct (step _ w)).
  by destruct (H msg).
Qed.

Lemma call_mono fuel fuel' stack w o :
  call fuel stack w = Some o -> (fuel <= fuel')%nat -> call fuel' stack w = Some o.
Proof.
  revert fuel' stack w. induction fuel as [|fuel IH]; intros fuel' stack w; [done|].
  intros H Hle. destruct fuel' as [|fuel']; [lia|].
  destruct stack as [|c stack]; [done|].
  destruct (throw_or_not c) as [[msg ->]|Hn]; [done|].
  rewrite call_step in * by done.
  apply IH; [done | lia].
Qed.

Lemma call_app_inv fuel s1 s2 w w' :
  call fuel (s1 ++ s2) w = Some (Returned w') ->
  exists w1, call fuel s1 w = Some (Returned w1)
             /\ call fuel s2 w1 = Some (Returned w').
Proof.
  revert s1 w. induction fuel as [|fuel IH]; intros s1 w; [done|].
  destruct s1 as [|c s1].
  - intros H. exists w. by split.
  - destruct (throw_or_not c) as [[msg ->]|Hn]; [done|].
    rewrite <- app_comm_cons.
    rewrite !call_step by done.
    rewrite app_assoc. intros H. destruct (IH _ _ H) as (w1 & H1 & H2).
    exists w1. split; [done|]. eapply call_mono; [done | lia].
Qed.

Lemma call_app f1 f2 s1 s2 w w1 o :
  call f1 s1 w = Some (Returned w1) ->
  call f2 s2 w1 = Some o ->
  call (f1 + f2) (s1 ++ s2) w = Some o.
Proof.
  revert s1 w. induction f1 as [|f1 IH]; intros s1 w; [done|].
  destruct s1 as [|c s1].
  - intros [= <-] H. eapply call_mono; [done | lia].
  - destruct (throw_or_not c) as [[msg ->]|Hn]; [done|].
    rewrite <- app_comm_cons. change (S f1 + f2)%nat with (S (f1 + f2)).
    rewrite !call_step by done.
    rewrite app_assoc. apply IH.
Qed.

(** What every call preserves: the objects stay, in their classes; their
    states move forward only; the log grows. *)
Record evolves (w w' : World) : Prop := {
  evolves_allocated : forall r, allocated r w -> allocated r w';
  evolves_class : forall r, allocated r w ->
      class_of (kind (obj r w')) = class_of (kind (obj r w));
  evolves_state : forall r, allocated r w -> forward (state_of r w) (state_of r w');
  evolves_log : exists l, log w' = log w ++ l
}.

Lemma evolves_refl w : evolves w w.
Proof.
  split; auto.
  - intros. by left.
  - exists []. by rewrite app_nil_r.
Qed.

Lemma evolves_trans w1 w2 w3 : evolves w1 w2 -> evolves w2 w3 -> evolves w1 w3.
Proof.
  intros [a1 c1 s1 (l1 & e1)] [a2 c2 s2 (l2 & e2)]. split.
  - auto.
  - intros r Ha. rewrite c2 by auto. auto.
  - intros r Ha. eapply forward_trans; eauto.
  - exists (l1 ++ l2). by rewrite e2, e1, app_assoc.
Qed.

Lemma quiet_evolves w w' : quiet w w' -> evolves w w'.
Proof.
  intros [Hh Hc Hs _ _ (l & Hl & _)]. split.
  - unfold allocated. intros. lia.
  - done.
  - intros r Ha. destruct (Hs r Ha) as [->|Hm]; [by left | by apply moves_forward].
  - by exists l.
Qed.

Lemma step_evolves c w : evolves w (step c w).1.
Proof.
  destruct (decide (regular c)) as [Hreg|Hspecial].
  { apply quiet_evolves. by apply step_quiet. }
  split.
  - intros r Ha. by apply step_forward.
  - intros r Ha. destruct c; try (exfalso; apply Hspecial; exact I).
    + destruct ev; try (exfalso; apply Hspecial; exact I). done.
    + rewrite step_AsyncIterator_end. destruct (_ <? _); [|done].
      apply class_of_set_state.
    + rewrite step_New_EmptyIterator. cbn [fst].
      change (obj r (queueMicrotask ?t ?x)) with (obj r x).
      rewrite class_of_set_state.
      by rewrite (obj_alloc_old (new_iter OPEN EmptyIterator) w r Ha).
  - intros r Ha. by apply step_forward.
  - destruct c; try (exfalso; apply Hspecial; exact I).
    + destruct ev; try (exfalso; apply Hspecial; exact I). simpl. eauto.
    + rewrite step_AsyncIterator_end. destruct (_ <? _); simpl;
        exists []; by rewrite app_nil_r.
    + rewrite step_New_EmptyIterator. simpl. exists []. by rewrite app_nil_r.
Qed.

Lemma call_evolves fuel stack w o :
  call fuel stack w = Some o -> evolves w (world_of o).
Proof.
  revert stack w. induction fuel as [|fuel IH]; intros stack w; [done|].
  destruct stack as [|c stack].
  - intros [= <-]. apply evolves_refl.
  - destruct (throw_or_not c) as [[msg ->]|Hn].
    + intros [= <-]. apply evolves_refl.
    + rewrite call_step by done.
      intros H. eapply evolves_trans; [apply step_evolves | by eapply IH].
Qed.

Lemma run_evolves fuel stack w o :
  run fuel stack w = Some o -> evolves w (world_of o).
Proof.
  revert stack w. induction fuel as [|fuel IH]; intros stack w; [done|].
  simpl. destruct (call fuel stack w) as [[w1|msg w1]|] eqn:E; [| |done].
  - pose proof (call_evolves _ _ _ _ E) as H1. cbn [world_of] in H1.
    destruct (microtasks w1) as [|task tasks] eqn:Em.
    + intros [= <-]. done.
    + intros H. eapply evolves_trans; [done|].
      eapply evolves_trans; [|by eapply IH].
      split; try done.
      * intros r _. by left.
      * exists []. by rewrite app_nil_r.
  - intros [= <-]. by apply (call_evolves _ _ _ _ E).
Qed.

(** ** Listeners are released at the end *)

(** The iterator has no listener for [readable], [data] or [end]. *)
Definition released (r : Ref) (w : World) : Prop :=
  listeners ev_readable (base (obj r w)) = []
  /\ listeners ev_data (base (obj r w)) = []
  /\ listeners ev_end (base (obj r w)) = [].

Lemma listeners_removeAll_same ev b :
  listeners ev (removeAllListeners ev b) = [].
Proof.
  unfold listeners, removeAllListeners. simpl.
  induction (_events b) as [|p es IH]; [done|].
  rewrite filter_cons. case_decide; [|done].
  rewrite filter_cons. case_decide; [congruence | done].
Qed.

Lemma listeners_removeAll_none ev ev' b :
  listeners ev b = [] -> listeners ev (removeAllListeners ev' b) = [].
Proof.
  unfold listeners, removeAllListeners. simpl.
  induction (_events b) as [|p es IH]; [done|].
  rewrite filter_cons. case_decide.
  - discriminate.
  - intros Hl. rewrite filter_cons. case_decide; [|auto].
    rewrite filter_cons. case_decide; [congruence | auto].
Qed.

Lemma step_AsyncIterator_end_k_released r w :
  released r (step (AsyncIterator_end_k r) w).1
  /\ _readable (base (obj r (step (AsyncIterator_end_k r) w).1)) = false.
Proof.
  simpl. unfold released. destruct (decide (allocated r w)) as [Ha|Hn].
  - assert (forall f x, allocated r x -> allocated r (upd r f x)) as Hu
      by (intros; by apply allocated_upd).
    rewrite !obj_upd_eq by auto. simpl.
    split; [|done]. repeat split.
    + do 2 apply listeners_removeAll_none. apply listeners_removeAll_same.
    + apply listeners_removeAll_none. apply listeners_removeAll_same.
    + apply listeners_removeAll_same.
  - rewrite obj_unallocated by (by rewrite !allocated_upd). done.
Qed.

Lemma state_of_AsyncIterator_end_k r r' w :
  state_of r' (step (AsyncIterator_end_k r) w).1 = state_of r' w.
Proof. simpl. by rewrite !state_of_upd_inert by eauto with quiet. Qed.

Lemma call_AsyncIterator_end fuel r destroy w w' :
  state_of r w < ENDED ->
  call fuel [AsyncIterator_end r destroy] w = Some (Returned w') ->
  state_of r w' = (if destroy then DESTROYED else ENDED)
  /\ released r w'
  /\ _readable (base (obj r w')) = false.
Proof.
  intros Hlt H. destruct fuel as [|fuel]; [done|].
  rewrite call_step in H by done. rewrite step_AsyncIterator_end in H.
  pose proof Hlt as Hlt'. apply Z.ltb_lt in Hlt'. rewrite Hlt' in H. simpl in H.
  rewrite app_nil_r in H.
  apply call_app_inv in H as (w2 & H1 & H2).
  destruct fuel as [|fuel]; [done|]. rewrite call_step in H2 by done.
  destruct fuel as [|fuel]; [done|].
  assert (w' = (step (AsyncIterator_end_k r) w2).1) as ->
    by (simpl in H2; by injection H2).
  pose proof (step_AsyncIterator_end_k_released r w2) as [Hrel Hread].
  split; [|done].
  rewrite (state_of_AsyncIterator_end_k r r w2).
  assert (Ha : allocated r w) by (apply (valid_allocated r ENDED); by rewrite Hlt').
  set (T := if destroy then DESTROYED else ENDED) in *.
  assert (Ha1 : allocated r (upd r (on_base (set_state T)) w)) by by apply allocated_upd.
  destruct (call_evolves _ _ _ _ H1) as [_ _ Hs _].
  specialize (Hs r Ha1). rewrite state_of_set_state in Hs by done.
  cbn [world_of] in Hs.
  destruct state_numbers as (_&_&_&_&He&Hd).
  destruct Hs as [->|(_&Hc&_)]; [done|].
  subst T. destruct destroy; lia.
Qed.

(** ** [destroy] and the error of the cleanup *)

Lemma class_Subclass k e : class_of k = Subclass e -> k = Subclass e.
Proof. by destruct k. Qed.

(** [emit('error', e)] on an iterator without a listener for [error]
    throws [e]; what is left of the calling method is not run. *)
Lemma emit_error_unheard r e stack w fuel :
  listeners ev_error (base (obj r w)) = [] ->
  call (S (S fuel)) (Emit r ev_error (arg_error e) :: stack) w
  = Some (Threw e (observe (emitted r ev_error (arg_error e)) w)).
Proof.
  intros Hl. rewrite call_step by done. unfold step, _hasListeners.
  change (obj r (observe _ w)) with (obj r w). by rewrite Hl.
Qed.

(** [emit('error', e)] returns only if somebody listens to [error]. *)
Lemma emit_error_heard r e stack w fuel w' :
  call fuel (Emit r ev_error (arg_error e) :: stack) w = Some (Returned w') ->
  listeners ev_error (base (obj r w)) <> [].
Proof.
  intros H Hl. destruct fuel as [|[|fuel]]; [done| |].
  - rewrite call_step in H by done. done.
  - by rewrite (emit_error_unheard r e stack w fuel Hl) in H.
Qed.

(** C9, as the code has it: for an iterator that is not done and whose
    [_destroy] calls back with an error [e], [destroy()] without a cause
    calls [emit('error', e)], once, and then [_end(true)].  When nobody
    listens to [error], that [emit] throws [e]: [destroy()] does not return,
    [_end(true)] is not reached, and the iterator is left as it was, in a
    state that is not DESTROYED.  When [emit] returns, somebody listens to
    [error]; if the listeners have not ended the iterator themselves, the
    call of [destroy()] then returns with the iterator in the DESTROYED
    state, and between the call and its return the log shows the emission of
    [error] with [e], followed by what its listeners did. *)
Theorem destroy_emits_cleanup_error r e w :
  kind (obj r w) = Subclass (Some e) ->
  done (base (obj r w)) = false ->
  (step (Destroy r None) w = (w, [Destroy_k r None (Some e)])
   /\ step (Destroy_k r None (Some e)) w
      = (w, [Emit r ev_error (arg_error e); End r true]))
  /\ (listeners ev_error (base (obj r w)) = [] ->
      forall fuel, (4 <= fuel)%nat ->
        exists w',
          call fuel [Destroy r None] w = Some (Threw e w')
          /\ heap w' = heap w
          /\ microtasks w' = microtasks w
          /\ log w' = log w ++ [emitted r ev_error (arg_error e)]
          /\ state_of r w' = state_of r w
          /\ state_of r w' < ENDED)
  /\ (forall f1 w1,
        call f1 [Emit r ev_error (arg_error e)] w = Some (Returned w1) ->
        done (base (obj r w1)) = false ->
        listeners ev_error (base (obj r w)) <> []
        /\ exists fuel w' l,
            call fuel [Destroy r None] w = Some (Returned w')
            /\ state_of r w' = DESTROYED
            /\ log w1 = log w ++ emitted r ev_error (arg_error e) :: l
            /\ log w' = log w1).
Proof.
  intros Hk Hd.
  assert (Hs0 : step (Destroy r None) w = (w, [Destroy_k r None (Some e)])).
  { unfold step. by rewrite Hd, Hk. }
  split; [by split|]. split.
  { intros Hl fuel Hf. exists (observe (emitted r ev_error (arg_error e)) w).
    split; [|repeat split; unfold done in Hd; by apply Z.leb_gt in Hd].
    destruct fuel as [|[|[|[|fuel]]]]; try lia.
    rewrite call_step by done. rewrite Hs0. cbn [fst snd app].
    rewrite call_step by done. cbn [step fst snd app].
    by apply emit_error_unheard. }
  intros f1 w1 H1 Hd1.
  split; [by apply (emit_error_heard r e [] w f1 w1)|].
  assert (Ha : allocated r w).
  { destruct (decide (allocated r w)) as [|Hn]; [done|].
    by rewrite (obj_unallocated _ _ Hn) in Hk. }
  pose proof (call_evolves _ _ _ _ H1) as [Hal Hcl _ _]. cbn [world_of] in *.
  specialize (Hal r Ha). specialize (Hcl r Ha).
  rewrite Hk in Hcl. apply class_Subclass in Hcl.
  assert (Hlt : state_of r w1 < ENDED).
  { unfold done in Hd1. apply Z.leb_gt in Hd1. done. }
  (* the call of _end(true) after the listeners *)
  set (w2 := upd r (on_base (set_state DESTROYED)) w1).
  set (w' := (step (AsyncIterator_end_k r) w2).1).
  assert (H2 : call 4 [End r true] w1 = Some (Returned w')).
  { rewrite call_step by done.
    assert (step (End r true) w1 = (w1, [AsyncIterator_end r true])) as ->.
    { unfold step, the_transform, as_transform. by rewrite Hcl. }
    cbn [fst snd app]. rewrite call_step by done.
    rewrite step_AsyncIterator_end. apply Z.ltb_lt in Hlt. rewrite Hlt.
    cbn [fst snd app]. rewrite call_step by done. reflexivity. }
  (* the log of the emission *)
  assert (Hlog : exists l, log w1 = log w ++ emitted r ev_error (arg_error e) :: l).
  { destruct f1 as [|f1]; [done|]. rewrite call_step in H1 by done.
    apply call_evolves in H1 as [_ _ _ (l & Hl)]. exists l.
    cbn [world_of] in Hl. rewrite Hl. simpl. by rewrite <- app_assoc. }
  destruct Hlog as (l & Hlog).
  exists (S (S (f1 + 4))), w', l. split; [|split; [|split]].
  - rewrite call_step by done. rewrite Hs0. cbn [fst snd app].
    rewrite call_step by done. cbn [step fst snd app].
    apply (call_app f1 4 [Emit r ev_error (arg_error e)] [End r true] w w1); done.
  - subst w' w2. rewrite state_of_AsyncIterator_end_k.
    by apply state_of_set_state.
  - done.
  - reflexivity.
Qed.

(** An iterator whose [_destroy] fails, with a listener for [error]. *)
Definition failing_destroy : list Cmd :=
  [New_Subclass (Some "cleanup failed"); On 0%nat ev_error (consumer 0)].

Lemma destroy_emits_cleanup_error_witness :
  exists w w1,
    run 20 failing_destroy empty_world = Some (Returned w)
    /\ call 3 [Emit 0%nat ev_error (arg_error "cleanup failed")] w = Some (Returned w1)
    /\ log w1 = log w ++ [emitted 0%nat ev_error (arg_error "cleanup failed");
                          received 0 0%nat (arg_error "cleanup failed")]
    /\ exists fuel w' l,
        call fuel [Destroy 0%nat None] w = Some (Returned w')
        /\ state_of 0%nat w' = DESTROYED
        /\ log w1 = log w ++ emitted 0%nat ev_error (arg_error "cleanup failed") :: l
        /\ log w' = log w1.
Proof.
  eexists. eexists. split; [vm_compute; reflexivity|].
  split; [vm_compute; reflexivity|]. split; [reflexivity|].
  match goal with |- exists fuel w'' l, call fuel [Destroy ?r None] ?w = _ /\ _ =>
    refine (proj2 (proj2 (proj2 (destroy_emits_cleanup_error r "cleanup failed" w
                                   _ _)) 3%nat _ _ _)) end.
  - reflexivity.
  - reflexivity.
  - vm_compute. reflexivity.
  - reflexivity.
Defined.

(** The same iterator without a listener: [destroy()] throws the error of
    the cleanup and leaves the iterator OPEN, so it is never DESTROYED by
    that call. *)
Lemma destroy_without_error_listener_throws :
  exists w w',
    run 20 [New_Subclass (Some "cleanup failed")] empty_world = Some (Returned w)
    /\ kind (obj 0%nat w) = Subclass (Some "cleanup failed")
    /\ done (base (obj 0%nat w)) = false
    /\ call 20 [Destroy 0%nat None] w = Some (Threw "cleanup failed" w')
    /\ log w' = [emitted 0%nat ev_error (arg_error "cleanup failed")]
    /\ state_of 0%nat w' = OPEN
    /\ state_of 0%nat w' <> DESTROYED
    /\ (forall fuel w'', call fuel [Destroy 0%nat None] w <> Some (Returned w'')).
Proof.
  eexists. eexists. split; [vm_compute; reflexivity|].
  split; [reflexivity|]. split; [reflexivity|].
  match goal with |- call 20 ?s ?w = _ /\ _ =>
    assert (call 20 s w
            = Some (Threw "cleanup failed"
                      (observe (emitted 0%nat ev_error (arg_error "cleanup failed")) w)))
      as T by (vm_compute; reflexivity) end.
  split; [exact T|]. split; [reflexivity|]. split; [reflexivity|].
  split; [by vm_compute|].
  intros fuel w'' H.
  apply (call_mono _ (fuel + 20)) in H; [|lia].
  apply (call_mono _ (fuel + 20)) in T; [|lia].
  rewrite T in H. discriminate H.
Qed.

(** ** Pending property callbacks *)

Module PropertyFacts.
Import Properties.

Definition unset (propertyName : string) (s : State) : Prop :=
  match _properties s with
  | Some properties => properties !! propertyName = None
  | None => True
  end.

Lemma pending_getProperty_callback propertyName callback s :
  unset propertyName s ->
  pending propertyName (getProperty_callback propertyName callback s)
  = pending propertyName s ++ [callback]
  /\ (forall other, other <> propertyName ->
        pending other (getProperty_callback propertyName callback s)
        = pending other s)
  /\ tasks (getProperty_callback propertyName callback s) = tasks s
  /\ called (getProperty_callback propertyName callback s) = called s
  /\ _properties (getProperty_callback propertyName callback s) = _properties s.
Proof.
  intros Hu. unfold unset, getProperty_callback, pending in *.
  destruct (_properties s) as [properties|].
  - rewrite Hu. rewrite bool_decide_false by (by intros [? ?]). simpl.
    destruct (_propertyCallbacks s) as [m|]; simpl.
    + destruct (m !! propertyName) eqn:E; simpl.
      * rewrite lookup_insert_eq. repeat split; try done.
        intros other Hne. by rewrite lookup_insert_ne.
      * rewrite lookup_insert_eq. repeat split; try done.
        intros other Hne. by rewrite lookup_insert_ne.
    + rewrite lookup_empty, lookup_insert_eq. repeat split; try done.
      intros other Hne. by rewrite lookup_insert_ne, lookup_empty.
  - simpl. destruct (_propertyCallbacks s) as [m|]; simpl.
    + destruct (m !! propertyName) eqn:E; simpl.
      * rewrite lookup_insert_eq. repeat split; try done.
        intros other Hne. by rewrite lookup_insert_ne.
      * rewrite lookup_insert_eq. repeat split; try done.
        intros other Hne. by rewrite lookup_insert_ne.
    + rewrite lookup_empty, lookup_insert_eq. repeat split; try done.
      intros other Hne. by rewrite lookup_insert_ne, lookup_empty.
Qed.

(** Registering the callbacks [cbs] one after the other. *)
Definition register (propertyName : string) (cbs : list Callback) (s : State) : State :=
  foldl (fun s callback => getProperty_callback propertyName callback s) s cbs.

Lemma register_pending propertyName cbs s :
  unset propertyName s ->
  pending propertyName (register propertyName cbs s) = pending propertyName s ++ cbs
  /\ (forall other, other <> propertyName ->
        pending other (register propertyName cbs s) = pending other s)
  /\ tasks (register propertyName cbs s) = tasks s
  /\ called (register propertyName cbs s) = called s
  /\ unset propertyName (register propertyName cbs s).
Proof.
  revert s. induction cbs as [|c cbs IH]; intros s Hu.
  - simpl. rewrite app_nil_r. repeat split; done.
  - simpl. destruct (pending_getProperty_callback propertyName c s Hu)
      as (H1 & H2 & H3 & H4 & H5).
    assert (Hu' : unset propertyName (getProperty_callback propertyName c s))
      by (unfold unset in *; by rewrite H5).
    destruct (IH _ Hu') as (I1 & I2 & I3 & I4 & I5).
    unfold register in *.
    rewrite I1, H1, I3, H3, I4, H4, <- app_assoc. repeat split; try done.
    intros other Hne. by rewrite I2, H2.
Qed.

Lemma pending_Some s m propertyName callbacks :
  _propertyCallbacks s = Some m -> m !! propertyName = Some callbacks ->
  pending propertyName s = callbacks.
Proof. intros H1 H2. unfold pending. rewrite H1. simpl. by rewrite H2. Qed.

(** C6: when [setProperty(name, value)] is called while callbacks are
    pending for [name], they are detached (none is pending for [name]
    afterwards); nothing is called before [setProperty] returns; one task is
    deferred, and that task calls each of the pending callbacks once with
    [value], in the order of their registration; the callbacks pending for
    other names stay pending (the same statement, at their name, says that
    they fire when that name is set).  Registration with
    [getProperty(name, callback)], while [name] is not set, appends to the
    callbacks pending for [name] and touches no other name. *)
Theorem setProperty_fires_pending propertyName v s m callbacks :
  _propertyCallbacks s = Some m ->
  m !! propertyName = Some callbacks ->
  pending propertyName s = callbacks
  /\ pending propertyName (setProperty propertyName v s) = []
  /\ called (setProperty propertyName v s) = called s
  /\ tasks (setProperty propertyName v s) = tasks s ++ [fire callbacks v]
  /\ (forall s0, called (run_task (fire callbacks v) s0)
                 = called s0 ++ ((fun callback => (callback, v)) <$> callbacks))
  /\ (forall other, other <> propertyName ->
        pending other (setProperty propertyName v s) = pending other s)
  /\ getProperty propertyName (setProperty propertyName v s) = v
  /\ (forall s0 name cbs, unset name s0 ->
        pending name (register name cbs s0) = pending name s0 ++ cbs
        /\ (forall other, other <> name ->
              pending other (register name cbs s0) = pending other s0)).
Proof.
  intros Hm Hc. split; [by eapply pending_Some|].
  unfold setProperty. rewrite Hm, Hc. simpl.
  split; [|split; [done|split; [done|split; [done|split; [|split]]]]].
  - unfold pending. simpl. case_bool_decide as E; simpl; [done|].
    by rewrite lookup_delete_eq.
  - intros other Hne. unfold pending. rewrite Hm. simpl.
    case_bool_decide as E; simpl.
    + rewrite <- (lookup_delete_ne m propertyName other) by done.
      by rewrite E, lookup_empty.
    + by rewrite lookup_delete_ne.
  - unfold getProperty. simpl. by rewrite lookup_insert_eq.
  - intros s0 name cbs Hu.
    destruct (register_pending name cbs s0 Hu) as (H1 & H2 & _). by split.
Qed.

(** Three callbacks wait for ["a"] and one for ["b"]; ["a"] is set. *)
Definition waiting : State :=
  getProperty_callback "b" 10%nat (register "a" [1; 2; 3]%nat new_state).

Lemma setProperty_fires_pending_witness :
  pending "a" waiting = [1; 2; 3]%nat
  /\ called (run_tasks (setProperty "a" (val 5) waiting))
     = [(1, val 5); (2, val 5); (3, val 5)]%nat
  /\ pending "b" (setProperty "a" (val 5) waiting) = [10%nat]
  /\ tasks (setProperty "a" (val 5) waiting) = [fire [1; 2; 3]%nat (val 5)].
Proof.
  destruct (setProperty_fires_pending "a" (val 5) waiting
              (default ∅ (_propertyCallbacks waiting)) [1; 2; 3]%nat)
    as (H1 & _ & _ & H4 & _ & H6 & _).
  - vm_compute. reflexivity.
  - vm_compute. reflexivity.
  - split; [exact H1|]. split; [vm_compute; reflexivity|].
    split; [|exact H4].
    rewrite (H6 "b"); [vm_compute; reflexivity | discriminate].
Defined.

End PropertyFacts.

(** ** Clones emit the history of the source *)

Module CloneFacts.
Import Clones.

Section Source.

Context {Src T : Type}.
Variable read_source : Src -> option T * Src.
Variable ended_source : Src -> bool.
Variable task_source : nat -> Src -> Src.

(** An ended source stays ended (the ENDED state is final). *)
Hypothesis ended_stable :
  forall k s, ended_source s = true -> ended_source (task_source k s) = true.

#[local] Abbreviation System := (@System Src T).
#[local] Abbreviation the_history := (the_history ended_source).
#[local] Abbreviation readAt := (readAt read_source ended_source).
#[local] Abbreviation endsAt := (endsAt ended_source).
#[local] Abbreviation read := (read read_source ended_source).
#[local] Abbreviation advance := (@advance Src T).
#[local] Abbreviation clone := (clone read_source ended_source).
#[local] Abbreviation act := (act read_source ended_source task_source).
#[local] Abbreviation acts := (acts read_source ended_source task_source).
#[local] Abbreviation complete := (complete ended_source).

Definition history (sys : System) : list (@element T) := _history (the_history sys).

(** Every clone has returned the history up to its position. *)
Definition replayed (sys : System) : Prop :=
  forall i c, clones sys !! i = Some c ->
    (_readPosition c <= length (history sys))%nat
    /\ returned c = take (_readPosition c) (history sys).

Definition keeps (f : @ClonedIterator T -> @ClonedIterator T) : Prop :=
  forall c, _readPosition (f c) = _readPosition c /\ returned (f c) = returned c.

Lemma keeps_set_readable b : keeps (set_readable b).
Proof. by intros c. Qed.

Lemma keeps_changeState n : keeps (changeState n).
Proof. intros c. unfold changeState. by destruct (_ && _). Qed.

Lemma history_on_clone i f (sys : System) : history (on_clone i f sys) = history sys.
Proof. reflexivity. Qed.

Lemma the_clone_on_clone_keeps i j f (sys : System) :
  keeps f ->
  _readPosition (the_clone j (on_clone i f sys)) = _readPosition (the_clone j sys)
  /\ returned (the_clone j (on_clone i f sys)) = returned (the_clone j sys).
Proof.
  intros Hf. unfold the_clone, on_clone. simpl.
  destruct (decide (i = j)) as [<-|Hne].
  - rewrite list_lookup_alter_eq. destruct (clones sys !! i); simpl; [apply Hf | done].
  - by rewrite list_lookup_alter_ne.
Qed.

Lemma replayed_on_clone i f (sys : System) :
  keeps f -> replayed sys -> replayed (on_clone i f sys).
Proof.
  intros Hf Hr j c. unfold on_clone. simpl. rewrite list_lookup_alter.
  case_decide as E.
  - subst. destruct (clones sys !! j) as [c0|] eqn:Ec; [|done].
    simpl. intros [= <-]. destruct (Hf c0) as [-> ->]. by apply (Hr j).
  - apply Hr.
Qed.

Lemma replayed_foldl_on_clone f (cs : list nat) (sys : System) :
  keeps f -> replayed sys ->
  replayed (foldl (fun sys i => on_clone i f sys) sys cs).
Proof.
  intros Hf. revert sys. induction cs as [|c cs IH]; intros sys Hr; [done|].
  simpl. apply IH. by apply replayed_on_clone.
Qed.

Lemma history_on_history f (sys : System) :
  (forall h, _history (f h) = _history h) ->
  history (on_history ended_source f sys) = history sys.
Proof. intros H. unfold history. simpl. apply H. Qed.

Lemma replayed_on_history f (sys : System) :
  (forall h, _history (f h) = _history h) ->
  replayed sys -> replayed (on_history ended_source f sys).
Proof.
  intros H Hr i c Hc. rewrite history_on_history by done. by apply (Hr i).
Qed.

Lemma array_set_end (x : @element T) l : array_set (length l) x l = l ++ [x].
Proof.
  unfold array_set. rewrite (proj2 (Nat.ltb_ge _ _)) by lia.
  by rewrite Nat.sub_diag.
Qed.

(** [readAt] within the history, or at its end: the history stays or grows
    by the item read, and the clones are not touched. *)
Lemma readAt_spec pos (sys : System) :
  (pos <= length (history sys))%nat ->
  clones (readAt pos sys).2 = clones sys
  /\ ((pos < length (history sys))%nat
      /\ (readAt pos sys).1 = history sys !! pos
      /\ (readAt pos sys).2 = sys
      \/ pos = length (history sys)
         /\ (exists x, (readAt pos sys).1 = Some x
                       /\ history (readAt pos sys).2 = history sys ++ [x]
                       /\ ended_source (source sys) = false)
      \/ pos = length (history sys)
         /\ (readAt pos sys).1 = None
         /\ history (readAt pos sys).2 = history sys).
Proof.
  intros Hle. unfold Clones.readAt. fold (the_history sys). fold (history sys).
  destruct (pos <? length (history sys))%nat eqn:Hlt.
  { apply Nat.ltb_lt in Hlt. split; [done|]. left. by repeat split. }
  apply Nat.ltb_ge in Hlt.
  assert (pos = length (history sys)) as -> by lia.
  destruct (ended_source (source sys)) eqn:He; simpl.
  { split; [done|]. right. right. by repeat split. }
  destruct (read_source (source sys)) as [[x|] s]; simpl.
  - split; [done|]. right. left. split; [done|]. exists (item x).
    split; [done|]. split; [|done]. unfold history at 1. simpl.
    apply array_set_end.
  - split; [done|]. right. right. split; [done|]. split; [done|].
    unfold history, the_history. simpl. unfold Clones.the_history. simpl.
    destruct (_destination sys); [done|]. simpl. unfold new_HistoryReader. done.
Qed.

Lemma replayed_grow (sys sys' : System) x :
  clones sys' = clones sys -> history sys' = history sys ++ [x] ->
  replayed sys -> replayed sys'.
Proof.
  intros Hc Hh Hr i c Hi. rewrite Hc in Hi. destruct (Hr i c Hi) as [Hle Hret].
  rewrite Hh, length_app. split; [lia|].
  by rewrite take_app_le.
Qed.

Lemma replayed_same (sys sys' : System) :
  clones sys' = clones sys -> history sys' = history sys ->
  replayed sys -> replayed sys'.
Proof. intros Hc Hh Hr i c Hi. rewrite Hc in Hi. rewrite Hh. by apply (Hr i). Qed.

Lemma replayed_readAt pos (sys : System) :
  (pos <= length (history sys))%nat -> replayed sys -> replayed (readAt pos sys).2.
Proof.
  intros Hle Hr. destruct (readAt_spec pos sys Hle) as [Hc [(_&_&->)|[(_&x&_&Hh&_)|(_&_&Hh)]]].
  - done.
  - by eapply replayed_grow.
  - by eapply replayed_same.
Qed.

Lemma the_clone_position i (sys : System) :
  replayed sys -> (_readPosition (the_clone i sys) <= length (history sys))%nat
                  /\ returned (the_clone i sys)
                     = take (_readPosition (the_clone i sys)) (history sys).
Proof.
  intros Hr. unfold the_clone. destruct (clones sys !! i) as [c|] eqn:E; simpl.
  - by apply (Hr i).
  - split; [lia | done].
Qed.

Lemma keeps_end destroy : keeps (Clones.AsyncIterator_end destroy).
Proof. intros c. unfold Clones.AsyncIterator_end. by destruct (_ <? _). Qed.

Lemma replayed_close i (sys : System) : replayed sys -> replayed (close i sys).
Proof. apply replayed_on_clone, keeps_changeState. Qed.

Lemma replayed_end i destroy (sys : System) :
  replayed sys -> replayed (_end ended_source i destroy sys).
Proof.
  intros Hr. unfold _end. apply replayed_on_clone; [apply keeps_end|].
  destruct (_destination sys); [|done].
  apply replayed_on_history; [|done]. by intros [].
Qed.

Lemma replayed_advance i (sys : System) :
  replayed (readAt (_readPosition (the_clone i sys)) sys).2 ->
  replayed sys ->
  replayed (advance i (readAt (_readPosition (the_clone i sys)) sys).1
              (readAt (_readPosition (the_clone i sys)) sys).2).
Proof.
  intros Hr1 Hr.
  destruct (the_clone_position i sys Hr) as [Hle Hret].
  destruct (readAt_spec _ sys Hle) as [Hc Hcases].
  destruct (readAt (_readPosition (the_clone i sys)) sys) as [x sys1] eqn:E.
  cbn [fst snd] in *. unfold advance.
  destruct x as [x|]; [|apply replayed_on_clone; [apply keeps_set_readable | done]].
  intros j c Hj. rewrite history_on_clone. revert Hj.
  unfold on_clone. simpl. rewrite list_lookup_alter.
  case_decide as Ej; [|apply (Hr1 j)].
  subst j. destruct (clones sys1 !! i) as [c0|] eqn:Ec; [|done].
  simpl. intros [= <-]. simpl.
  assert (Hc0 : the_clone i sys = c0).
  { unfold the_clone. by rewrite <- Hc, Ec. }
  rewrite Hc0 in *.
  destruct Hcases as [(Hlt&Hx&->)|[(Hpos&y&Hy&Hh&_)|(_&Hn&_)]]; [| |done].
  - split; [lia|]. rewrite Hret. symmetry. by apply take_S_r.
  - injection Hy as <-. rewrite Hh, length_app. simpl. split; [lia|].
    rewrite Hret, Hpos, firstn_all.
    replace (S (length (history sys))) with (length (history sys ++ [x]))
      by (rewrite length_app; simpl; lia).
    by rewrite firstn_all.
Qed.

Lemma replayed_close_at_end i (sys : System) :
  replayed sys -> replayed (close_at_end ended_source i sys).
Proof.
  intros Hr. unfold close_at_end. destruct (endsAt _ sys); [by apply replayed_close | done].
Qed.

Lemma replayed_read i (sys : System) : replayed sys -> replayed (read i sys).2.
Proof.
  intros Hr. unfold Clones.read.
  destruct (negb _); [|done].
  destruct (the_clone_position i sys Hr) as [Hle Hret].
  pose proof (replayed_readAt _ _ Hle Hr) as Hr1.
  pose proof (replayed_advance i sys Hr1 Hr) as Hr2.
  destruct (readAt (_readPosition (the_clone i sys)) sys) as [x sys1].
  cbn [fst snd] in *. by apply replayed_close_at_end.
Qed.

Lemma replayed_clone (sys : System) : replayed sys -> replayed (clone sys).
Proof.
  intros Hr. unfold Clones.clone.
  set (sys0 := {| source := source sys; _destination := Some (the_history sys);
                  clones := _ |}).
  assert (Hr0 : replayed sys0).
  { intros j c. subst sys0. simpl. intros Hj.
    change (history _) with (history sys).
    apply lookup_app_Some in Hj as [Hj|[_ Hj]]; [by apply (Hr j)|].
    apply list_lookup_singleton_Some in Hj as [_ <-]. simpl. split; [lia|done]. }
  clearbody sys0. cbv zeta.
  destruct (endsAt 0 sys0); [by apply replayed_close|].
  assert (Hr1 : replayed (on_history ended_source (register (length (clones sys))) sys0)).
  { apply replayed_on_history; [|done]. by intros []. }
  pose proof (replayed_readAt 0 _ ltac:(lia) Hr1) as Hr2.
  destruct (readAt 0 _) as [[x|] sys2]; simpl in *; [|done].
  apply replayed_on_clone; [apply keeps_set_readable | done].
Qed.

Lemma replayed_act a (sys : System) : replayed sys -> replayed (act a sys).
Proof.
  intros Hr. destruct a; simpl.
  - by apply replayed_clone.
  - by apply replayed_read.
  - by apply replayed_close.
  - destruct (negb _); [by apply replayed_end | done].
  - destruct (_ <=? _); [by apply replayed_end | done].
  - intros j c Hj. specialize (Hr j c Hj). revert Hr.
    unfold history, Clones.the_history. simpl. by destruct (_destination sys).
  - destruct (_clones _); [|done].
    apply replayed_foldl_on_clone; [apply keeps_set_readable | done].
  - destruct (_destination sys) as [h|] eqn:Ed; [|done].
    destruct (_clones h) as [cs|]; [|done].
    destruct (ended_source (source sys)); [|done].
    apply replayed_on_history; [by intros []|].
    clear Ed. revert sys Hr. induction cs as [|c cs IH]; intros sys Hr; [done|].
    simpl. apply IH. destruct (_ =? _)%nat; [by apply replayed_close | done].
Qed.

Lemma replayed_acts l (sys : System) : replayed sys -> replayed (acts l sys).
Proof.
  revert sys. induction l as [|a l IH]; intros sys Hr; [done|].
  simpl. apply IH. by apply replayed_act.
Qed.

Lemma replayed_start s : replayed (start s).
Proof. intros i c Hc. simpl in Hc. by rewrite lookup_nil in Hc. Qed.

(** *** Once the source has ended, the history is final *)

Definition same_reads (i : nat) (sys sys' : System) : Prop :=
  _readPosition (the_clone i sys') = _readPosition (the_clone i sys)
  /\ returned (the_clone i sys') = returned (the_clone i sys).

Lemma same_reads_refl i (sys : System) : same_reads i sys sys.
Proof. by split. Qed.

Lemma same_reads_trans i (s1 s2 s3 : System) :
  same_reads i s1 s2 -> same_reads i s2 s3 -> same_reads i s1 s3.
Proof. intros [p1 q1] [p2 q2]. split; congruence. Qed.

Record frozen (sys sys' : System) : Prop := {
  frozen_ended : ended_source (source sys') = true;
  frozen_history : history sys' = history sys;
  frozen_clones : (length (clones sys) <= length (clones sys'))%nat
}.

Lemma frozen_refl (sys : System) : ended_source (source sys) = true -> frozen sys sys.
Proof. intros H. by split. Qed.

Lemma frozen_trans (s1 s2 s3 : System) : frozen s1 s2 -> frozen s2 s3 -> frozen s1 s3.
Proof.
  intros [e1 h1 c1] [e2 h2 c2]. split; [done | congruence | lia].
Qed.

Lemma frozen_on_clone i f (sys : System) :
  ended_source (source sys) = true -> frozen sys (on_clone i f sys).
Proof.
  intros He. split; try done. unfold on_clone. simpl. by rewrite length_alter.
Qed.

Lemma frozen_on_history f (sys : System) :
  ended_source (source sys) = true ->
  (forall h, _history (f h) = _history h) ->
  frozen sys (on_history ended_source f sys).
Proof. intros He Hf. split; try done. by apply history_on_history. Qed.

Lemma frozen_end i destroy (sys : System) :
  ended_source (source sys) = true -> frozen sys (_end ended_source i destroy sys).
Proof.
  intros He. unfold _end.
  destruct (_destination sys).
  - apply (frozen_trans _ (on_history ended_source (unregister i) sys)).
    + apply frozen_on_history; [done | by intros []].
    + by apply frozen_on_clone.
  - by apply frozen_on_clone.
Qed.

Lemma same_reads_on_clone_keeps i j f (sys : System) :
  keeps f -> same_reads i sys (on_clone j f sys).
Proof. intros Hf. by apply the_clone_on_clone_keeps. Qed.

Lemma same_reads_on_clone_ne i j f (sys : System) :
  i <> j -> same_reads i sys (on_clone j f sys).
Proof.
  intros Hne. unfold same_reads, the_clone, on_clone. simpl.
  by rewrite list_lookup_alter_ne.
Qed.

Lemma same_reads_on_history i f (sys : System) :
  same_reads i sys (on_history ended_source f sys).
Proof. by split. Qed.

Lemma same_reads_end i j destroy (sys : System) :
  same_reads i sys (_end ended_source j destroy sys).
Proof.
  unfold _end. destruct (_destination sys).
  - apply (same_reads_trans _ _ (on_history ended_source (unregister j) sys)).
    + apply same_reads_on_history.
    + apply same_reads_on_clone_keeps, keeps_end.
  - apply same_reads_on_clone_keeps, keeps_end.
Qed.

(** [readAt] on an ended source reads the history only. *)
Lemma readAt_ended pos (sys : System) :
  ended_source (source sys) = true ->
  (pos <= length (history sys))%nat ->
  (readAt pos sys).2 = sys
  /\ (readAt pos sys).1 = history sys !! pos.
Proof.
  intros He Hle. unfold Clones.readAt. fold (the_history sys). fold (history sys).
  destruct (pos <? length (history sys))%nat eqn:Hlt; [done|].
  apply Nat.ltb_ge in Hlt. rewrite He. simpl. split; [done|].
  symmetry. apply lookup_ge_None. lia.
Qed.

Lemma frozen_close_at_end i (sys : System) :
  ended_source (source sys) = true -> frozen sys (close_at_end ended_source i sys).
Proof.
  intros He. unfold close_at_end. destruct (endsAt _ sys);
    [by apply frozen_on_clone | by apply frozen_refl].
Qed.

Lemma same_reads_close_at_end i j (sys : System) :
  same_reads i sys (close_at_end ended_source j sys).
Proof.
  unfold close_at_end. destruct (endsAt _ sys); [|apply same_reads_refl].
  apply same_reads_on_clone_keeps, keeps_changeState.
Qed.

Lemma frozen_advance i x (sys : System) :
  ended_source (source sys) = true -> frozen sys (advance i x sys).
Proof. intros He. unfold Clones.advance. destruct x; by apply frozen_on_clone. Qed.

Lemma read_ended i (sys : System) :
  ended_source (source sys) = true -> replayed sys ->
  (read i sys).2 = sys
  \/ (read i sys).2
     = close_at_end ended_source i
         (advance i (history sys !! _readPosition (the_clone i sys)) sys).
Proof.
  intros He Hr. unfold Clones.read. destruct (negb _); [|by left].
  destruct (the_clone_position i sys Hr) as [Hle Hret].
  destruct (readAt_ended _ sys He Hle) as [E1 E2].
  destruct (readAt (_readPosition (the_clone i sys)) sys) as [x sys1].
  cbn [fst snd] in *. subst sys1 x. by right.
Qed.

Lemma frozen_read i (sys : System) :
  ended_source (source sys) = true -> replayed sys -> frozen sys (read i sys).2.
Proof.
  intros He Hr. destruct (read_ended i sys He Hr) as [->| ->]; [by apply frozen_refl|].
  eapply frozen_trans; [by apply frozen_advance|].
  apply frozen_close_at_end. by apply frozen_advance.
Qed.

Lemma frozen_clone (sys : System) :
  ended_source (source sys) = true -> replayed sys -> frozen sys (clone sys).
Proof.
  intros He Hr. unfold Clones.clone.
  set (sys0 := {| source := source sys; _destination := Some (the_history sys);
                  clones := _ |}).
  assert (Hf0 : frozen sys sys0).
  { split; try done. subst sys0. simpl. rewrite length_app. lia. }
  assert (He0 : ended_source (source sys0) = true) by done.
  clearbody sys0. cbv zeta.
  destruct (endsAt 0 sys0).
  { eapply frozen_trans; [done | by apply frozen_on_clone]. }
  set (sys1 := on_history ended_source (register (length (clones sys))) sys0).
  assert (Hf1 : frozen sys sys1).
  { eapply frozen_trans; [done|]. apply frozen_on_history; [done | by intros []]. }
  destruct (readAt_ended 0 sys1 ltac:(done) ltac:(lia)) as [E1 E2].
  destruct (readAt 0 sys1) as [[x|] sys2]; cbn [fst snd] in *; subst sys2; [|done].
  eapply frozen_trans; [done | by apply frozen_on_clone].
Qed.

Lemma frozen_foldl_close (cs : list nat) (sys : System) :
  ended_source (source sys) = true ->
  frozen sys
    (foldl (fun sys i =>
              if (_readPosition (the_clone i sys)
                  =? length (_history (the_history sys)))%nat
              then close i sys else sys) sys cs).
Proof.
  revert sys. induction cs as [|c cs IH]; intros sys He; [by apply frozen_refl|].
  simpl. destruct (_ =? _)%nat; [|by apply IH].
  eapply frozen_trans; [by apply (frozen_on_clone c)|]. by apply IH.
Qed.

Lemma frozen_foldl_on_clone f (cs : list nat) (sys : System) :
  ended_source (source sys) = true ->
  frozen sys (foldl (fun sys i => on_clone i f sys) sys cs).
Proof.
  revert sys. induction cs as [|c cs IH]; intros sys He; [by apply frozen_refl|].
  simpl. eapply frozen_trans; [by apply (frozen_on_clone c)|]. by apply IH.
Qed.

Lemma frozen_act a (sys : System) :
  ended_source (source sys) = true -> replayed sys -> frozen sys (act a sys).
Proof.
  intros He Hr. destruct a; simpl.
  - by apply frozen_clone.
  - by apply frozen_read.
  - by apply frozen_on_clone.
  - destruct (negb _); [by apply frozen_end | by apply frozen_refl].
  - destruct (_ <=? _); [by apply frozen_end | by apply frozen_refl].
  - split; simpl; [by apply ended_stable | | done].
    unfold history, Clones.the_history. simpl. by destruct (_destination sys).
  - destruct (_clones _); [|by apply frozen_refl]. by apply frozen_foldl_on_clone.
  - destruct (_destination sys) as [h|] eqn:Ed; [|by apply frozen_refl].
    destruct (_clones h) as [cs|]; [|by apply frozen_refl].
    rewrite He. eapply frozen_trans; [by apply frozen_foldl_close|].
    apply frozen_on_history; [|by intros []].
    by destruct (frozen_foldl_close cs sys He).
Qed.

Lemma complete_spec i (sys : System) :
  complete i sys <->
  (i < length (clones sys))%nat
  /\ ended_source (source sys) = true
  /\ _readPosition (the_clone i sys) = length (history sys).
Proof.
  unfold Clones.complete, Clones.endsAt. fold (the_history sys). fold (history sys).
  rewrite andb_true_iff, Nat.eqb_eq. intuition congruence.
Qed.

Lemma same_reads_foldl_keeps i (g : System -> nat -> System) (cs : list nat)
  (sys : System) :
  (forall sys j, same_reads i sys (g sys j)) ->
  same_reads i sys (foldl g sys cs).
Proof.
  intros Hg. revert sys. induction cs as [|c cs IH]; intros sys; [apply same_reads_refl|].
  simpl. eapply same_reads_trans; [apply Hg | apply IH].
Qed.

Lemma same_reads_clone i (sys : System) :
  ended_source (source sys) = true ->
  (i < length (clones sys))%nat -> same_reads i sys (clone sys).
Proof.
  intros He Hi. unfold Clones.clone.
  set (sys0 := {| source := source sys; _destination := Some (the_history sys);
                  clones := _ |}).
  assert (H0 : same_reads i sys sys0).
  { unfold same_reads, the_clone. subst sys0. simpl. by rewrite lookup_app_l. }
  assert (He0 : ended_source (source sys0) = true) by done.
  clearbody sys0. cbv zeta.
  destruct (endsAt 0 sys0).
  { eapply same_reads_trans; [done|].
    apply same_reads_on_clone_keeps, keeps_changeState. }
  set (sys1 := on_history ended_source (register (length (clones sys))) sys0).
  assert (H1 : same_reads i sys sys1).
  { eapply same_reads_trans; [done | apply same_reads_on_history]. }
  destruct (readAt_ended 0 sys1 ltac:(done) ltac:(lia)) as [E1 E2].
  destruct (readAt 0 sys1) as [[x|] sys2]; cbn [fst snd] in *; subst sys2; [|done].
  eapply same_reads_trans; [done|].
  apply same_reads_on_clone_keeps, keeps_set_readable.
Qed.

Lemma same_reads_act a i (sys : System) :
  complete i sys -> replayed sys -> same_reads i sys (act a sys).
Proof.
  intros Hc Hr. apply complete_spec in Hc as (Hi & He & Hpos).
  destruct a; simpl.
  - by apply same_reads_clone.
  - destruct (read_ended i0 sys He Hr) as [->| ->]; [apply same_reads_refl|].
    eapply same_reads_trans; [|apply same_reads_close_at_end].
    unfold Clones.advance.
    destruct (decide (i = i0)) as [<-|Hne].
    + rewrite Hpos, (lookup_ge_None_2 (history sys)) by lia.
      apply same_reads_on_clone_keeps, keeps_set_readable.
    + destruct (_ !! _); by apply same_reads_on_clone_ne.
  - apply same_reads_on_clone_keeps, keeps_changeState.
  - destruct (negb _); [apply same_reads_end | apply same_reads_refl].
  - destruct (_ <=? _); [apply same_reads_end | apply same_reads_refl].
  - by split.
  - destruct (_clones _); [|apply same_reads_refl].
    apply same_reads_foldl_keeps. intros sys' j.
    apply same_reads_on_clone_keeps, keeps_set_readable.
  - destruct (_destination sys) as [h|] eqn:Ed; [|apply same_reads_refl].
    destruct (_clones h) as [cs|]; [|apply same_reads_refl].
    rewrite He. eapply same_reads_trans; [|apply same_reads_on_history].
    apply same_reads_foldl_keeps. intros sys' j.
    destruct (_ =? _)%nat; [|apply same_reads_refl].
    apply same_reads_on_clone_keeps, keeps_changeState.
Qed.

Lemma complete_acts l i (sys : System) :
  complete i sys -> replayed sys ->
  complete i (acts l sys) /\ same_reads i sys (acts l sys)
  /\ history (acts l sys) = history sys.
Proof.
  revert sys. induction l as [|a l IH]; intros sys Hc Hr.
  { split; [done|]. split; [apply same_reads_refl | done]. }
  simpl.
  pose proof (same_reads_act a i sys Hc Hr) as Hs.
  pose proof Hc as Hc'. apply complete_spec in Hc' as (Hi & He & Hpos).
  destruct (frozen_act a sys He Hr) as [Fe Fh Fc].
  assert (Hc1 : complete i (act a sys)).
  { apply complete_spec. destruct Hs as [Hp _]. split; [lia|]. split; [done|].
    by rewrite Hp, Fh. }
  destruct (IH _ Hc1 (replayed_act a sys Hr)) as (I1 & I2 & I3).
  split; [done|]. split; [by eapply same_reads_trans | congruence].
Qed.

Lemma complete_returned i (sys : System) :
  complete i sys -> replayed sys -> returned (the_clone i sys) = history sys.
Proof.
  intros Hc Hr. apply complete_spec in Hc as (Hi & He & Hpos).
  destruct (the_clone_position i sys Hr) as [_ ->]. by rewrite Hpos, firstn_all.
Qed.

Lemma clone_starts_at_0 (sys : System) :
  _readPosition (the_clone (length (clones sys)) (clone sys)) = 0%nat
  /\ returned (the_clone (length (clones sys)) (clone sys)) = [].
Proof.
  unfold Clones.clone.
  set (sys0 := {| source := source sys; _destination := Some (the_history sys);
                  clones := _ |}).
  set (n := length (clones sys)).
  assert (H0 : _readPosition (the_clone n sys0) = 0%nat
               /\ returned (the_clone n sys0) = []).
  { unfold the_clone. subst sys0 n. simpl. rewrite lookup_app_r by lia.
    by rewrite Nat.sub_diag. }
  assert (Hh0 : history sys0 = history sys) by done.
  clearbody sys0. cbv zeta.
  destruct (endsAt 0 sys0).
  { unfold close.
    destruct (the_clone_on_clone_keeps n n (changeState CLOSED) sys0
                (keeps_changeState CLOSED)) as [-> ->]. done. }
  set (sys1 := on_history ended_source (register n) sys0).
  assert (H1 : _readPosition (the_clone n sys1) = 0%nat
               /\ returned (the_clone n sys1) = []) by done.
  assert (Hc : clones (readAt 0 sys1).2 = clones sys1)
    by (apply readAt_spec; lia).
  destruct (readAt 0 sys1) as [[x|] sys2]; cbn [fst snd] in *.
  - destruct (the_clone_on_clone_keeps n n (set_readable true) sys2
                (keeps_set_readable true)) as [-> ->].
    unfold the_clone in *. by rewrite Hc.
  - unfold the_clone in *. by rewrite Hc.
Qed.

(** C3: in every execution with clones of one source, (a) what a clone has
    returned is always the history of the source from position 0 up to the
    position of the clone, so a clone created after the source was read
    through other clones starts at position 0 (b) and its reads inside the
    history return the items of the history, without touching the source;
    (c) a clone that has read the source to its end has returned the whole
    history, which no longer changes; so two clones that are read to
    completion, at the same moment or one later than the other, have
    returned the same sequence of items. *)
Theorem clones_return_the_same_sequence s l :
  let sys := acts l (start s) in
  (forall i c, clones sys !! i = Some c ->
      returned c = take (_readPosition c) (history sys))
  /\ (_readPosition (the_clone (length (clones sys)) (clone sys)) = 0%nat
      /\ returned (the_clone (length (clones sys)) (clone sys)) = [])
  /\ (forall i, (_readPosition (the_clone i sys) < length (history sys))%nat ->
        _state (the_clone i sys) < ENDED ->
        (read i sys).1 = history sys !! _readPosition (the_clone i sys)
        /\ source (read i sys).2 = source sys
        /\ history (read i sys).2 = history sys)
  /\ (forall l' i j,
        complete i sys -> complete j (acts l' sys) ->
        returned (the_clone i sys) = history sys
        /\ returned (the_clone i (acts l' sys)) = returned (the_clone i sys)
        /\ returned (the_clone j (acts l' sys)) = returned (the_clone i sys)).
Proof.
  intros sys.
  assert (Hr : replayed sys) by apply replayed_acts, replayed_start.
  split; [|split; [|split]].
  - intros i c Hc. by apply (Hr i).
  - apply clone_starts_at_0.
  - intros i Hlt Hs. unfold Clones.read.
    rewrite (proj2 (Z.leb_gt _ _)) by done. simpl.
    destruct (readAt_spec (_readPosition (the_clone i sys)) sys ltac:(lia))
      as [_ [(_&E1&E2)|[(E&_)|(E&_)]]]; try lia.
    destruct (readAt _ sys) as [x sys1]. cbn [fst snd] in *. subst sys1.
    split; [done|].
    unfold close_at_end, Clones.advance.
    destruct (endsAt _ _), x; done.
  - intros l' i j Hi Hj.
    destruct (complete_acts l' i sys Hi Hr) as (Hi' & [_ Hret] & Hh).
    split; [by apply complete_returned|]. split; [done|].
    rewrite (complete_returned j _ Hj) by by apply replayed_acts.
    rewrite Hh. symmetry. by apply complete_returned.
Qed.

End Source.

End CloneFacts.

(** *** Two clones of [fromArray([1, 2, 3])] *)

(** The source is the [ArrayIterator] at reference 0 of a world of the
    machine; between the reads of the clones its microtasks run. *)
Definition array_source : World :=
  (step (New_ArrayIterator [Int 1; Int 2; Int 3]) empty_world).1.

Definition array_source_read (w : World) : option integer * World := read 0%nat w.

Definition array_source_ended (w : World) : bool := ended (base (obj 0%nat w)).

Definition array_source_task (k : nat) (w : World) : World :=
  match run 100 [] w with
  | Some o => world_of o
  | None => w
  end.

Lemma array_source_ended_stable k w :
  array_source_ended w = true -> array_source_ended (array_source_task k w) = true.
Proof.
  unfold array_source_ended, array_source_task, ended. intros H.
  destruct (run 100 [] w) as [o|] eqn:E; [|done].
  apply run_evolves in E as [_ _ Hs _].
  apply Z.eqb_eq in H.
  assert (Ha : allocated 0%nat w).
  { destruct (decide (allocated 0%nat w)) as [|Hn]; [done|].
    rewrite (obj_unallocated _ _ Hn) in H. by vm_compute in H. }
  specialize (Hs 0%nat Ha). unfold state_of in Hs. rewrite H in Hs.
  apply Z.eqb_eq. destruct Hs as [->|(_ & Hlt & _)]; [done | lia].
Qed.

(** A first clone reads two items, a second clone is made and reads one;
    the first clone reads the last item and the source ends.  Later the
    second clone reads the rest. *)
Definition first_reader : list Clones.Action :=
  [Clones.Clone; Clones.Read 0; Clones.Read 0; Clones.Clone; Clones.Read 1;
   Clones.Read 0; Clones.Source_task 0; Clones.Source_end]%nat.

Definition second_reader : list Clones.Action :=
  [Clones.Read 1; Clones.End_task 0; Clones.Read 1]%nat.

Lemma clones_return_the_same_sequence_witness :
  let acts := Clones.acts array_source_read array_source_ended array_source_task in
  let sys := acts first_reader (Clones.start array_source) in
  Clones.returned (Clones.the_clone 0 sys)
  = [Clones.item (Int 1); Clones.item (Int 2); Clones.item (Int 3)]
  /\ Clones.returned (Clones.the_clone 1 sys) = [Clones.item (Int 1)]
  /\ Clones.returned (Clones.the_clone 1 (acts second_reader sys))
     = Clones.returned (Clones.the_clone 0 sys).
Proof.
  intros acts sys. split; [vm_compute; reflexivity|]. split; [vm_compute; reflexivity|].
  apply (proj2 (proj2 (proj2
           (CloneFacts.clones_return_the_same_sequence
              array_source_read array_source_ended array_source_task
              array_source_ended_stable array_source first_reader)))
           second_reader 0%nat 1%nat).
  - split; [vm_compute; lia | vm_compute; reflexivity].
  - split; [vm_compute; lia | vm_compute; reflexivity].
Defined.

(** ** The sequence of a row of transform iterators *)

Module PipelineFacts.
Import Pipelines.

(** Comparisons of states, as inequalities between numbers. *)
Ltac order_in H :=
  first [ apply Z.leb_le in H | apply Z.leb_gt in H
        | apply Z.ltb_lt in H | apply Z.ltb_ge in H
        | apply Z.eqb_eq in H | apply Z.eqb_neq in H ].

Ltac order_of c := let E := fresh "E" in destruct c eqn:E; order_in E.

Ltac states :=
  repeat match goal with
  | H : (_ <=? _) = _ |- _ => order_in H
  | H : (_ <? _) = _ |- _ => order_in H
  | H : (_ =? _) = _ |- _ => order_in H
  | |- context [?x <=? ?y] => order_of (x <=? y)
  | |- context [?x <? ?y] => order_of (x <? y)
  | |- context [?x =? ?y] => order_of (x =? y)
  end;
  destruct state_numbers as (? & ? & ? & ? & ? & ?);
  simpl in *; try done; try lia.

(** *** Integer ranges *)

Module IntegerFacts.
Import Integers.

Lemma changeState_closed s it :
  closed it = true -> closed (_changeState s it) = true.
Proof.
  unfold _changeState, closed. destruct (_ && _) eqn:E; [|done].
  simpl. intros H. states.
Qed.

Lemma read_closed it : closed it = true -> read it = (None, it).
Proof. unfold read. by intros ->. Qed.

Lemma rest_of_closed it k : closed it = true -> rest it k = None.
Proof. intros H. destruct k; simpl; by rewrite read_closed. Qed.

Lemma read_none it : fst (read it) = None -> snd (read it) = it.
Proof. unfold read. by destruct (closed it). Qed.

Lemma rest_stays_none it k : rest it k = None -> rest it (S k) = None.
Proof.
  revert it. induction k as [|k IH]; intros it H.
  - simpl in *. by rewrite H.
  - change (rest it (S (S k)))
      with (match fst (read it) with
            | Some _ => rest (snd (read it)) (S k)
            | None => None
            end).
    simpl in H. destruct (fst (read it)); [by apply IH | done].
Qed.

Lemma act_rest_same a it k : rest (act a it) k = rest it k.
Proof.
  destruct a. simpl. destruct (closed it) eqn:E; [|done].
  rewrite (rest_of_closed it k E), (rest_of_closed (_end false it) k); [done|].
  by apply changeState_closed.
Qed.

Lemma ended_closed it : ended it = true -> closed it = true.
Proof. unfold ended, closed. intros H. states. Qed.

(** An integer range delivers the items that its [read()] returns in a
    row. *)
Lemma read_item_rest (it : IntegerIterator) v :
  fst (read it) = Some v ->
  rest it O = Some v /\ forall k, rest (snd (read it)) k = rest it (S k).
Proof. intros H. split; [done|]. intros k. simpl. by rewrite H. Qed.

Lemma read_null_rest (it : IntegerIterator) :
  fst (read it) = None -> forall k, rest (snd (read it)) k = rest it k.
Proof. intros H k. by rewrite read_none. Qed.

(** An integer range delivers the items that its [read()] returns in a
    row. *)
Definition delivers : Delivers source :=
  @Build_Delivers Item source (fun _ => True) rest
    (fun _ _ => I) (fun _ _ _ => I) (fun _ _ => I)
    (fun x v _ => read_item_rest x v)
    (fun x _ => read_null_rest x)
    (fun a x _ => act_rest_same a x)
    (fun x _ H => rest_of_closed x O (ended_closed x H))
    (fun x k _ => rest_stays_none x k).

End IntegerFacts.

(** *** A transform iterator keeps the sequence of its source *)

Section Stage.

Context {T : Type} {X : Source T}.
Variable D : Delivers X.

#[local] Abbreviation Stage := (SimpleTransformIterator X).
#[local] Abbreviation _state := (_state X).
#[local] Abbreviation _buffer := (_buffer X).
#[local] Abbreviation _source := (_source X).
#[local] Abbreviation _offset := (_offset X).
#[local] Abbreviation _limit := (_limit X).
#[local] Abbreviation _reading := (_reading X).
#[local] Abbreviation closed := (closed X).
#[local] Abbreviation done := (done X).
#[local] Abbreviation close := (close X).
#[local] Abbreviation _completeClose := (_completeClose X).
#[local] Abbreviation _changeState := (_changeState X).
#[local] Abbreviation _fillBufferAsync := (_fillBufferAsync X).
#[local] Abbreviation _fillBuffer := (_fillBuffer X).
#[local] Abbreviation fillBuffer_done := (fillBuffer_done X).
#[local] Abbreviation _readAndTransformSimple := (_readAndTransformSimple X).
#[local] Abbreviation loop := (loop X).
#[local] Abbreviation _push := (_push X).
#[local] Abbreviation _init := (_init X).
#[local] Abbreviation _end := (_end X).
#[local] Abbreviation upcoming := (upcoming D).
#[local] Abbreviation stage_rest := (stage_rest D).
#[local] Abbreviation stage_valid := (stage_valid D).

(** [it'] is [it] as far as the sequence goes. *)
Record alike (it it' : Stage) : Prop := {
  alike_done : done it' = done it;
  alike_closed : closed it' = closed it;
  alike_buffer : _buffer it' = _buffer it;
  alike_offset : _offset it' = _offset it;
  alike_limit : _limit it' = _limit it;
  alike_valid : valid D (_source it) -> valid D (_source it');
  alike_source : forall k, rest D (_source it') k = rest D (_source it) k
}.

(** [it'] is [it], closed. *)
Record closes (it it' : Stage) : Prop := {
  closes_done : done it' = done it;
  closes_closed : closed it' = true;
  closes_buffer : _buffer it' = _buffer it;
  closes_offset : _offset it' = _offset it;
  closes_limit : _limit it' = _limit it;
  closes_source : _source it' = _source it
}.

(** [it'] stands for the same sequence as [it]. *)
Definition keeps (it it' : Stage) : Prop :=
  stage_valid it' /\ forall k, stage_rest it' k = stage_rest it k.

Lemma keeps_refl it : stage_valid it -> keeps it it.
Proof. by split. Qed.

Lemma keeps_trans it1 it2 it3 : keeps it1 it2 -> keeps it2 it3 -> keeps it1 it3.
Proof.
  intros [_ H1] [V H2]. split; [done|]. intros k. by rewrite H2.
Qed.

Lemma alike_refl it : alike it it.
Proof. by split. Qed.

Lemma alike_trans it1 it2 it3 : alike it1 it2 -> alike it2 it3 -> alike it1 it3.
Proof.
  intros [] []. split; first [congruence | by auto | intros k; etrans; eauto].
Qed.

Lemma alike_upcoming it it' k : alike it it' -> upcoming it' k = upcoming it k.
Proof.
  intros []. unfold Pipelines.upcoming.
  rewrite alike_closed0, alike_limit0, alike_offset0.
  destruct (closed it); [done|].
  destruct (_limit it); try done.
  by destruct (_ <? _).
Qed.

Lemma alike_keeps it it' : stage_valid it -> alike it it' -> keeps it it'.
Proof.
  intros (V & O & L) A. split.
  - destruct A. unfold Pipelines.stage_valid.
    rewrite alike_offset0, alike_limit0. auto.
  - intros k. unfold Pipelines.stage_rest, followed_by.
    rewrite (alike_done _ _ A), (alike_buffer _ _ A).
    destruct (done it); [done|].
    destruct (_ !! _); [done|]. by apply alike_upcoming.
Qed.

Lemma closed_upcoming it k : closed it = true -> upcoming it k = None.
Proof. unfold Pipelines.upcoming. by intros ->. Qed.

Lemma closes_keeps it it' :
  stage_valid it -> closes it it' -> (forall k, upcoming it k = None) ->
  keeps it it'.
Proof.
  intros (V & O & L) C U. split.
  - destruct C. unfold Pipelines.stage_valid.
    rewrite closes_offset0, closes_limit0, closes_source0. auto.
  - intros k. unfold Pipelines.stage_rest, followed_by.
    rewrite (closes_done _ _ C), (closes_buffer _ _ C).
    destruct (done it); [done|].
    destruct (_ !! _); [done|].
    rewrite U. apply closed_upcoming, C.
Qed.

Lemma done_closed it : done it = true -> closed it = true.
Proof. unfold Pipelines.done, Pipelines.closed. intros H. states. Qed.

Lemma _completeClose_closes it : closes it (_completeClose it).
Proof.
  unfold Pipelines._completeClose, Pipelines._changeState.
  destruct (_ && _) eqn:E.
  - split; try done. unfold Pipelines.done; simpl.
    apply andb_true_iff in E as [E1 E2]. states.
  - split; try done. apply andb_false_iff in E.
    unfold Pipelines.closed. destruct E as [E|E]; states.
Qed.

Lemma close_closes it : closes it (close it).
Proof.
  unfold Pipelines.close. destruct (negb _); [apply _completeClose_closes|].
  unfold Pipelines._changeState.
  destruct (_ && _) eqn:E; simpl.
  - split; try done. unfold Pipelines.done; simpl.
    apply andb_true_iff in E as [E1 E2]. states.
  - split; try done. apply andb_false_iff in E.
    unfold Pipelines.closed. destruct E as [E|E]; states.
Qed.

Lemma closes_alike it it' : closed it = true -> closes it it' -> alike it it'.
Proof.
  intros H []. split; try done; try congruence; by rewrite closes_source0.
Qed.

Lemma _fillBufferAsync_alike it : alike it (_fillBufferAsync it).
Proof. unfold Pipelines._fillBufferAsync. by destruct (negb _). Qed.

Lemma rest_none_from x j k :
  valid D x -> rest D x j = None -> (j <= k)%nat -> rest D x k = None.
Proof.
  intros V H. induction 1 as [|k _ IH]; [done|]. by apply (rest_closed X D).
Qed.

Lemma followed_by_ext (l : list T) f g k :
  (forall j, f j = g j) -> followed_by l f k = followed_by l g k.
Proof. intros H. unfold followed_by. by destruct (_ !! _). Qed.

Lemma followed_by_snoc (l : list T) v f k :
  followed_by (l ++ [v]) f k
  = followed_by l (fun j => match j with O => Some v | S j => f j end) k.
Proof.
  unfold followed_by. destruct (decide (k < length l)%nat) as [Hk|Hk].
  - rewrite lookup_app_l by done.
    destruct (lookup_lt_is_Some_2 l k Hk) as [x ->]. done.
  - rewrite lookup_app_r by lia. rewrite (lookup_ge_None_2 l k) by lia.
    destruct (k - length l)%nat as [|j] eqn:E; simpl; [done|].
    f_equal. rewrite length_app. simpl. lia.
Qed.

Lemma not_closed_not_done it : closed it = false -> done it = false.
Proof.
  intros H. destruct (done it) eqn:E; [|done].
  apply done_closed in E. congruence.
Qed.

(** An iteration of the loop that skips an item. *)
Lemma skip_keeps it item s :
  stage_valid it -> closed it = false ->
  read X (_source it) = (Some item, s) -> _offset it <> 0 ->
  keeps it (set_offset X (_offset it - 1) (set_source X s it)).
Proof.
  intros (V & O & L) C R N.
  destruct (read_item X D (_source it) item V) as [R0 RS]; [by rewrite R|].
  pose proof (read_valid X D _ V) as V'. rewrite R in RS, V'. simpl in RS, V'.
  split.
  - split; [done|]. split; [simpl; lia | done].
  - intros k. unfold Pipelines.stage_rest.
    change (done (set_offset X (_offset it - 1) (set_source X s it)))
      with (done it).
    destruct (done it); [done|]. apply followed_by_ext. intros j.
    unfold Pipelines.upcoming.
    change (closed (set_offset X (_offset it - 1) (set_source X s it)))
      with (closed it).
    rewrite C. simpl.
    replace (Z.to_nat (_offset it) + j)%nat
      with (S (Z.to_nat (_offset it - 1) + j)) by lia.
    rewrite <- RS. done.
Qed.

(** An iteration of the loop that pushes an item, and closes the iterator
    if that was the last one. *)
Definition pushed (item : T) (s : state X) (it : Stage) : Stage :=
  let it := set_source X s it in
  let it := _push item it in
  let it := set_limit X (subI (_limit it) (Int 1)) it in
  if eqI (_limit it) (Int 0) then close it else it.

Lemma push_keeps it item s :
  stage_valid it -> closed it = false -> _limit it <> Int 0 ->
  read X (_source it) = (Some item, s) -> _offset it = 0 ->
  keeps it (pushed item s it)
  /\ (closed (pushed item s it) = true \/ _limit (pushed item s it) <> Int 0).
Proof.
  intros (V & O & L) C N R Z0.
  destruct (read_item X D (_source it) item V) as [R0 RS]; [by rewrite R|].
  pose proof (read_valid X D _ V) as V'. rewrite R in RS, V'. simpl in RS, V'.
  pose proof (not_closed_not_done it C) as Dn.
  unfold pushed, Pipelines._push.
  change (done (set_source X s it)) with (done it). rewrite Dn. simpl.
  set (it3 := set_limit X _ _).
  assert (F3 : done it3 = false /\ closed it3 = false
               /\ _buffer it3 = _buffer it ++ [item]
               /\ _offset it3 = 0 /\ _source it3 = s
               /\ _limit it3 = subI (_limit it) (Int 1)).
  { by repeat split. }
  destruct F3 as (D3 & C3 & B3 & O3 & S3 & L3).
  assert (U : forall it4,
    done it4 = false -> _buffer it4 = _buffer it ++ [item] ->
    (forall j, upcoming it (S j) = upcoming it4 j) ->
    forall k, stage_rest it4 k = stage_rest it k).
  { intros it4 D4 B4 U4 k. unfold Pipelines.stage_rest.
    rewrite D4, Dn, B4, followed_by_snoc. apply followed_by_ext.
    intros [|j]; [|by rewrite U4].
    unfold Pipelines.upcoming. rewrite C, Z0. simpl. rewrite R0.
    destruct (_limit it) as [n| | |]; try done.
    assert (n <> 0) by congruence.
    destruct (Z.ltb_spec (Z.of_nat 0) n); [done | lia]. }
  clearbody it3.
  destruct (_limit it) as [n| | |] eqn:EL; try done.
  - assert (n <> 0) by congruence.
    simpl in L3 |- *.
    destruct (Z.eqb_spec (n + - (1)) 0) as [E1|E1].
    + pose proof (close_closes it3) as [].
      split; [|by left]. split.
      * split; [by rewrite closes_source0, S3|].
        rewrite closes_offset0, closes_limit0, O3, L3. split; lia.
      * apply U; [congruence | congruence |].
        intros j. rewrite (closed_upcoming (close it3)) by done.
        unfold Pipelines.upcoming. rewrite C, EL.
        destruct (Z.ltb_spec (Z.of_nat (S j)) n); [lia | done].
    + split; [|right; rewrite L3; congruence].
      split.
      * split; [by rewrite S3|]. rewrite O3, L3. split; lia.
      * apply U; [done | done |].
        intros j. unfold Pipelines.upcoming.
        rewrite C, C3, EL, L3, O3, S3, Z0. simpl.
        destruct (Z.ltb_spec (Z.of_nat (S j)) n),
                 (Z.ltb_spec (Z.of_nat j) (n + - (1))); try lia; [|done].
        by rewrite RS.
  - simpl in L3 |- *. split; [|right; by rewrite L3].
    split.
    + split; [by rewrite S3|]. by rewrite O3, L3.
    + apply U; [done | done |].
      intros j. unfold Pipelines.upcoming.
      rewrite C, C3, EL, L3, O3, S3, Z0. simpl. by rewrite RS.
Qed.

Lemma loop_S fuel count it :
  loop (S fuel) count it
  = if negb (closed it) && ltI (Int (_pushedCount X it)) count then
      match read X (_source it) with
      | (Some item, s) =>
          if negb (_offset it =? 0) then
            loop fuel count (set_offset X (_offset it - 1) (set_source X s it))
          else loop fuel count (pushed item s it)
      | (None, s) => set_source X s it
      end
    else it.
Proof. done. Qed.

Lemma loop_keeps fuel count it :
  stage_valid it -> closed it = true \/ _limit it <> Int 0 ->
  keeps it (loop fuel count it).
Proof.
  revert it. induction fuel as [|fuel IH]; intros it V N;
    [by apply keeps_refl|].
  rewrite loop_S.
  destruct (closed it) eqn:C; cbn [negb andb]; [by apply keeps_refl|].
  destruct N as [|N]; [done|].
  destruct (ltI _ _); [|by apply keeps_refl].
  destruct (read X (_source it)) as [[item|] s] eqn:R.
  - destruct (Z.eqb_spec (_offset it) 0) as [Z0|Z0]; simpl.
    + destruct (push_keeps it item s V C N R Z0) as [K N'].
      eapply keeps_trans; [exact K|]. apply IH; [apply K | exact N'].
    + pose proof (skip_keeps it item s V C R Z0) as K.
      eapply keeps_trans; [exact K|]. apply IH; [apply K | by right].
  - apply alike_keeps; [done|]. destruct V as (V & _).
    split; try done; simpl.
    + intros _. pose proof (read_valid X D _ V) as V'. by rewrite R in V'.
    + intros k. pose proof (read_null X D (_source it) V) as E.
      rewrite R in E. by apply E.
Qed.

(** The loop ends by itself within [loop_fuel] iterations: more fuel does
    not change what it does. *)
Lemma pushed_count item s it :
  closed it = false ->
  _pushedCount X (pushed item s it) = _pushedCount X it + 1
  /\ _offset (pushed item s it) = _offset it.
Proof.
  intros C. pose proof (not_closed_not_done it C) as Dn.
  unfold pushed, Pipelines._push.
  change (done (set_source X s it)) with (done it). rewrite Dn. simpl.
  set (it3 := set_limit X _ _).
  destruct (eqI _ _); [|done].
  unfold Pipelines.close, Pipelines._completeClose, Pipelines._changeState.
  destruct (negb _); destruct (_ && _); done.
Qed.

Lemma loop_fuel_enough fuel extra c it :
  0 <= _offset it -> (loop_fuel X (Int c) it <= fuel)%nat ->
  loop (fuel + extra) (Int c) it = loop fuel (Int c) it.
Proof.
  revert it. induction fuel as [|fuel IH]; intros it O F;
    [simpl in F; lia|].
  change (S fuel + extra)%nat with (S (fuel + extra)). rewrite !loop_S.
  destruct (closed it) eqn:C; cbn [negb andb ltI]; [done|].
  destruct (Z.ltb_spec (_pushedCount X it) c) as [P|P]; [|done].
  destruct (read X (_source it)) as [[item|] s]; [|done].
  unfold loop_fuel in F.
  destruct (Z.eqb_spec (_offset it) 0) as [Z0|Z0]; simpl.
  - destruct (pushed_count item s it C) as [E1 E2].
    apply IH; [lia|]. unfold loop_fuel. rewrite E1, E2. lia.
  - apply IH; simpl; [lia|]. unfold loop_fuel. simpl. lia.
Qed.

Lemma eqI_Int_0 x : eqI x (Int 0) = false -> x <> Int 0.
Proof. intros H ->. done. Qed.

Lemma limit_0_upcoming it k : _limit it = Int 0 -> upcoming it k = None.
Proof.
  intros H. unfold Pipelines.upcoming. rewrite H.
  destruct (closed it); [done|].
  destruct (Z.ltb_spec (Z.of_nat k) 0); [lia | done].
Qed.

Lemma _readAndTransformSimple_keeps count it :
  stage_valid it -> keeps it (_readAndTransformSimple count it).
Proof.
  intros V. unfold Pipelines._readAndTransformSimple.
  destruct (ended X _); [by apply keeps_refl|].
  destruct (eqI (_limit it) (Int 0)) eqn:E.
  - assert (_limit it = Int 0) as L.
    { destruct (_limit it); try done. simpl in E. apply Z.eqb_eq in E.
      by subst. }
    assert (keeps it (close it)) as K.
    { apply closes_keeps; auto using close_closes, limit_0_upcoming. }
    eapply keeps_trans; [exact K|].
    apply loop_keeps; [apply K|]. left. apply close_closes.
  - apply loop_keeps; [done|]. right. by apply eqI_Int_0.
Qed.

Lemma closed_keeps it it' :
  stage_valid it -> closed it = true -> closes it it' -> keeps it it'.
Proof. intros V C Cl. apply alike_keeps; auto using closes_alike. Qed.

Lemma fillBuffer_done_keeps it :
  stage_valid it -> keeps it (fillBuffer_done it).
Proof.
  intros V. unfold Pipelines.fillBuffer_done.
  change (Pipelines.closed X (set_reading X false it)) with (closed it).
  destruct (closed it) eqn:C.
  - apply closed_keeps; [done | done |].
    destruct (_completeClose_closes (set_reading X false it)). by split.
  - apply alike_keeps; [done|].
    destruct (negb _); [|done].
    destruct (ltI _ _); [|done].
    apply (alike_trans _ (set_reading X false it)); [done|].
    apply _fillBufferAsync_alike.
Qed.

Lemma _fillBuffer_keeps it : stage_valid it -> keeps it (_fillBuffer it).
Proof.
  intros V. unfold Pipelines._fillBuffer.
  destruct (_reading it); [by apply keeps_refl|].
  destruct (closed it) eqn:C.
  - apply closed_keeps; auto using _completeClose_closes.
  - destruct (gtI _ _); [|by apply keeps_refl].
    set (it1 := set_reading X true _).
    assert (keeps it it1) as K1 by by apply alike_keeps.
    eapply keeps_trans; [exact K1|].
    eapply keeps_trans; [apply _readAndTransformSimple_keeps, K1|].
    apply fillBuffer_done_keeps.
    by apply _readAndTransformSimple_keeps, K1.
Qed.

Lemma _init_alike it : alike it (_init it).
Proof.
  unfold Pipelines._init.
  set (it1 := snd _).
  assert (alike it it1) as A.
  { unfold it1, Pipelines._changeState.
    destruct (_ && _) eqn:E; simpl; [|done].
    apply andb_true_iff in E as [E1 E2]. simpl in E1, E2.
    split; try done; unfold Pipelines.done, Pipelines.closed; simpl; states. }
  destruct (_autoStart X it1); [|done].
  eapply alike_trans; [exact A | apply _fillBufferAsync_alike].
Qed.

Lemma _end_done destroy_ it : done (_end destroy_ it) = true.
Proof.
  unfold Pipelines._end, Pipelines._changeState, Pipelines.done.
  destruct (_destroySource X it); simpl;
    destruct (Z.ltb_spec (_state it) (if destroy_ then DESTROYED else ENDED));
    destruct (Z.ltb_spec (_state it) ENDED); simpl; destruct destroy_; states.
Qed.

Lemma _end_valid destroy_ it : stage_valid it -> stage_valid (_end destroy_ it).
Proof.
  intros (V & O & L).
  unfold Pipelines._end, Pipelines._changeState.
  destruct (_destroySource X it); simpl; destruct (_ && _); split; try done.
  all: by apply (destroy_valid X D).
Qed.

Lemma done_rest it k : done it = true -> stage_rest it k = None.
Proof. unfold Pipelines.stage_rest. by intros ->. Qed.

Lemma closed_empty_rest it k :
  closed it = true -> _buffer it = [] -> stage_rest it k = None.
Proof.
  intros C B. unfold Pipelines.stage_rest, followed_by. rewrite B.
  destruct (done it); [done|]. rewrite lookup_nil. by apply closed_upcoming.
Qed.

Lemma stage_act_keeps a it : stage_valid it -> keeps it (stage_act X a it).
Proof.
  intros V. destruct a; simpl.
  - apply alike_keeps; [done | apply _init_alike].
  - eapply keeps_trans; [by apply (alike_keeps it (set_reading X false it))|].
    by apply _fillBuffer_keeps.
  - by apply _fillBuffer_keeps.
  - destruct (ended X (_source it)) eqn:E; [|by apply keeps_refl].
    apply closes_keeps; [done | apply close_closes |].
    intros k. unfold Pipelines.upcoming. destruct V as (V & _).
    pose proof (ended_rest X D _ V E) as R0.
    assert (forall j, rest D (_source it) j = None) as R.
    { intros j. apply (rest_none_from _ O); [done | done | lia]. }
    destruct (closed it); [done|].
    destruct (_limit it); try done. by destruct (_ <? _).
  - destruct (closed it) eqn:C; [|by apply keeps_refl].
    destruct (Z.eqb_spec (lengthZ (_buffer it)) 0) as [B|B]; simpl;
      [|by apply keeps_refl].
    split; [by apply _end_valid|]. intros k.
    rewrite done_rest by apply _end_done.
    symmetry. apply closed_empty_rest; [done|].
    destruct (_buffer it); [done|]. unfold lengthZ in B. simpl in B. lia.
  - apply alike_keeps; [done|]. destruct V as (V & _).
    split; try done; simpl.
    + intros _. by apply (act_valid X D).
    + by apply (act_rest X D).
Qed.

Lemma stage_read_valid it : stage_valid it -> stage_valid (snd (stage_read X it)).
Proof.
  intros V. unfold stage_read. destruct (done it); [done|]. simpl.
  set (it1 := set_buffer X _ it).
  assert (stage_valid it1) as V1 by done.
  destruct (_ && _); [|done].
  destruct (negb _); [|done].
  apply (alike_keeps it1); [done | apply _fillBufferAsync_alike].
Qed.

Lemma stage_read_fields it :
  done it = false ->
  fst (stage_read X it) = head (_buffer it)
  /\ alike (set_buffer X (tail (_buffer it)) it) (snd (stage_read X it)).
Proof.
  intros Dn. unfold stage_read. rewrite Dn. simpl. split; [done|].
  destruct (_ && _); [|done].
  destruct (negb _); [|done].
  apply _fillBufferAsync_alike.
Qed.

Lemma upcoming_stays_none it k :
  stage_valid it -> upcoming it k = None -> upcoming it (S k) = None.
Proof.
  intros (V & _). unfold Pipelines.upcoming.
  destruct (closed it); [done|].
  destruct (_limit it) as [n| | |]; try done.
  - destruct (Z.ltb_spec (Z.of_nat k) n), (Z.ltb_spec (Z.of_nat (S k)) n);
      try done; try lia.
    rewrite Nat.add_succ_r. by apply (rest_closed X D).
  - rewrite Nat.add_succ_r. by apply (rest_closed X D).
Qed.

Lemma stage_rest_stays_none it k :
  stage_valid it -> stage_rest it k = None -> stage_rest it (S k) = None.
Proof.
  intros V. unfold Pipelines.stage_rest, followed_by.
  destruct (done it); [done|].
  destruct (_buffer it !! k) eqn:E; [done|].
  apply lookup_ge_None in E.
  rewrite (lookup_ge_None_2 _ (S k)) by lia.
  replace (S k - length (_buffer it))%nat with (S (k - length (_buffer it)))
    by lia.
  by apply upcoming_stays_none.
Qed.

Lemma stage_read_item it v :
  stage_valid it -> fst (stage_read X it) = Some v ->
  stage_rest it O = Some v
  /\ forall k, stage_rest (snd (stage_read X it)) k = stage_rest it (S k).
Proof.
  intros V H. destruct (done it) eqn:Dn.
  { unfold stage_read in H. by rewrite Dn in H. }
  destruct (stage_read_fields it Dn) as [F A]. rewrite F in H.
  destruct (_buffer it) as [|x b] eqn:B; [done|]. simpl in H.
  injection H as ->. split.
  - unfold Pipelines.stage_rest, followed_by. by rewrite Dn, B.
  - intros k.
    assert (stage_valid (set_buffer X (tail (v :: b)) it)) as V1 by done.
    destruct (alike_keeps _ _ V1 A) as [_ ->].
    unfold Pipelines.stage_rest, followed_by.
    change (done (set_buffer X (tail (v :: b)) it)) with (done it).
    rewrite Dn, B. simpl. destruct (b !! k); [done|].
    unfold Pipelines.upcoming. simpl. done.
Qed.

Lemma stage_read_null it :
  stage_valid it -> fst (stage_read X it) = None ->
  forall k, stage_rest (snd (stage_read X it)) k = stage_rest it k.
Proof.
  intros V H k. destruct (done it) eqn:Dn.
  { unfold stage_read. by rewrite Dn. }
  destruct (stage_read_fields it Dn) as [F A]. rewrite F in H.
  destruct (_buffer it) as [|x b] eqn:B; [|done].
  assert (stage_valid (set_buffer X (tail []) it)) as V1 by done.
  destruct (alike_keeps _ _ V1 A) as [_ ->].
  unfold Pipelines.stage_rest, followed_by.
  change (done (set_buffer X (tail []) it)) with (done it).
  rewrite Dn, B. simpl. unfold Pipelines.upcoming. done.
Qed.

Lemma stage_destroy_valid it : stage_valid it -> stage_valid (stage_destroy X it).
Proof.
  intros V. unfold stage_destroy. destruct (negb _); [|done].
  by apply _end_valid.
Qed.

Lemma stage_ended_rest it : stage_ended X it = true -> stage_rest it O = None.
Proof.
  intros H. apply done_rest. unfold stage_ended in H. unfold Pipelines.done.
  states.
Qed.

(** A transform iterator on a source that delivers a sequence delivers one
    too: the items in its buffer and then those of the source, after the
    offset and up to the limit. *)
Definition stage_delivers : Delivers (stage X) :=
  @Build_Delivers T (stage X) stage_valid stage_rest
    stage_read_valid
    (fun a it V => proj1 (stage_act_keeps a it V))
    stage_destroy_valid
    stage_read_item
    stage_read_null
    (fun a it V => proj2 (stage_act_keeps a it V))
    (fun it _ => stage_ended_rest it)
    (fun it k => stage_rest_stays_none it k).

End Stage.

(** *** What a program reads from an iterator *)

Section Consumer.

Context {T : Type} {X : Source T}.
Variable D : Delivers X.

Lemma fold_moves l x out :
  valid D x ->
  let c := fold_left (move X) l (x, out) in
  valid D (fst c)
  /\ exists new,
       snd c = out ++ new
       /\ (forall i v, new !! i = Some v -> rest D x i = Some v)
       /\ (forall k, rest D (fst c) k = rest D x (length new + k)).
Proof.
  revert x out. induction l as [|m l IH]; intros x out V; simpl.
  { split; [done|]. exists []. rewrite app_nil_r. by repeat split. }
  destruct m as [|a]; simpl.
  - pose proof (read_valid X D x V) as V'.
    destruct (read X x) as [[v|] x'] eqn:R; simpl in V'.
    + destruct (read_item X D x v V) as [R0 RS]; [by rewrite R|].
      rewrite R in RS. simpl in RS.
      destruct (IH x' (out ++ [v]) V') as (V2 & new & E & H1 & H2).
      split; [done|]. exists (v :: new). split; [by rewrite E, <- app_assoc|].
      split.
      * intros [|i] w; simpl; [congruence|]. intros H. rewrite <- RS. auto.
      * intros k. rewrite H2. apply RS.
    + pose proof (read_null X D x V) as RN. rewrite R in RN. simpl in RN.
      destruct (IH x' out V') as (V2 & new & E & H1 & H2).
      split; [done|]. exists new. split; [done|]. split.
      * intros i w H. rewrite <- RN by done. auto.
      * intros k. rewrite H2. by apply RN.
  - pose proof (act_valid X D a x V) as V'.
    destruct (IH (act X a x) out V') as (V2 & new & E & H1 & H2).
    split; [done|]. exists new. split; [done|]. split.
    + intros i w H. rewrite <- (act_rest X D a x V). auto.
    + intros k. rewrite H2. by apply (act_rest X D).
Qed.

(** The items read are the first ones of the sequence, and they are all of
    them once the iterator has ended. *)
Lemma moves_read l x :
  valid D x ->
  (forall i v, snd (moves X l x) !! i = Some v -> rest D x i = Some v)
  /\ (ended X (fst (moves X l x)) = true ->
      rest D x (length (snd (moves X l x))) = None).
Proof.
  intros V. unfold moves.
  destruct (fold_moves l x [] V) as (V' & new & E & H1 & H2).
  simpl in E. rewrite E. split; [done|].
  intros H. apply (ended_rest X D) in H; [|done].
  rewrite H2 in H. by rewrite Nat.add_0_r in H.
Qed.

End Consumer.

Lemma same_sequence {T : Type} (f : nat -> option T) (l1 l2 : list T) :
  (forall i v, l1 !! i = Some v -> f i = Some v) -> f (length l1) = None ->
  (forall i v, l2 !! i = Some v -> f i = Some v) -> f (length l2) = None ->
  l1 = l2.
Proof.
  intros H1 E1 H2 E2.
  assert (length l1 = length l2) as L.
  { destruct (Nat.lt_trichotomy (length l1) (length l2)) as [H|[H|H]];
      [|done|].
    - destruct (lookup_lt_is_Some_2 l2 _ H) as [v Hv].
      apply H2 in Hv. congruence.
    - destruct (lookup_lt_is_Some_2 l1 _ H) as [v Hv].
      apply H1 in Hv. congruence. }
  apply list_eq. intros i.
  destruct (l1 !! i) as [v|] eqn:E.
  - apply lookup_lt_Some in E as Hi. rewrite L in Hi.
    destruct (lookup_lt_is_Some_2 l2 _ Hi) as [w Hw].
    rewrite Hw. apply H1 in E. apply H2 in Hw. congruence.
  - apply lookup_ge_None in E. rewrite L in E.
    symmetry. by apply lookup_ge_None.
Qed.

(** *** The sequences of [skip], [take] and [range] *)

Section Operators.

Context {T : Type} {X : Source T}.
Variable D : Delivers X.

(** The options without the transformation steps. *)
Definition plain (options : Options) : Options :=
  {| maxBufferSize := maxBufferSize options; autoStart := autoStart options;
     destroySource := destroySource options; offset := None; limit := None |}.

Lemma transform_steps options x :
  transform X options x
  = SimpleTransformIterator_steps X options (transform X (plain options) x).
Proof. done. Qed.

Lemma plain_fields options x :
  let it := transform X (plain options) x in
  _buffer X it = [] /\ _source X it = x /\ done X it = false
  /\ _offset X it = 0 /\ _limit X it = IInfinity
  /\ (closed X it = true -> ended X x = true).
Proof.
  unfold transform. simpl. destruct (ended X x); [|by repeat split].
  match goal with |- context [close X ?i] => destruct (close_closes i) end.
  by repeat split.
Qed.

(** A new transform iterator stands for the sequence of its source after
    [_offset] items and up to [_limit] items. *)
Lemma transform_rest options x k :
  valid D x ->
  let it := transform X options x in
  stage_valid D it
  /\ stage_rest D it k
     = match _limit X it with
       | Int n =>
           if Z.of_nat k <? n then rest D x (Z.to_nat (_offset X it) + k)
           else None
       | IInfinity => rest D x (Z.to_nat (_offset X it) + k)
       | _ => None
       end.
Proof.
  intros V. rewrite transform_steps.
  destruct (plain_fields options x) as (B & Sx & Dn & Of & L & C).
  set (it1 := transform X (plain options) x) in *. clearbody it1.
  assert (closed X it1 = true -> forall j, rest D x j = None) as N.
  { intros H j. apply (rest_none_from D x 0%nat); [done | | lia].
    apply (ended_rest X D); auto. }
  assert (forall it,
    _state X it = _state X it1 -> _buffer X it = [] -> _source X it = x ->
    0 <= _offset X it ->
    match _limit X it with Int n => 0 <= n | IInfinity => True | _ => False end ->
    stage_valid D it
    /\ stage_rest D it k
       = match _limit X it with
         | Int n =>
             if Z.of_nat k <? n then rest D x (Z.to_nat (_offset X it) + k)
             else None
         | IInfinity => rest D x (Z.to_nat (_offset X it) + k)
         | _ => None
         end) as G.
  { intros it Hs Hb Hx Ho Hl. split; [by rewrite <- Hx in V|].
    unfold Pipelines.stage_rest, followed_by, Pipelines.upcoming,
      Pipelines.done, Pipelines.closed.
    rewrite Hs, Hb, Hx. fold (done X it1). fold (closed X it1).
    rewrite Dn, lookup_nil. simpl. rewrite Nat.sub_0_r.
    destruct (closed X it1) eqn:E; [|done].
    destruct (_limit X it); try done; rewrite N by done; [|done].
    by destruct (_ <? _). }
  unfold SimpleTransformIterator_steps.
  destruct (offset options) as [[q| | |]|], (limit options) as [[q'| | |]|];
    simpl; apply G; simpl; rewrite ?Of, ?L; try done; lia.
Qed.

Lemma Math_trunc_inject_Z z : Math_trunc (inject_Z z) = z.
Proof. unfold Math_trunc. simpl. apply Z.quot_1_r. Qed.

Lemma skip_rest m x k :
  0 <= m -> valid D x ->
  stage_valid D (skip X (Finite (inject_Z m)) x)
  /\ stage_rest D (skip X (Finite (inject_Z m)) x) k
     = rest D x (Z.to_nat m + k).
Proof.
  intros Hm V. destruct (transform_rest
    {| maxBufferSize := None; autoStart := None; destroySource := None;
       offset := Some (Finite (inject_Z m)); limit := None |} x k V) as [V' R].
  split; [done|]. unfold skip. rewrite R, transform_steps.
  destruct (plain_fields
    {| maxBufferSize := None; autoStart := None; destroySource := None;
       offset := Some (Finite (inject_Z m)); limit := None |} x)
    as (_ & _ & _ & _ & L & _).
  unfold SimpleTransformIterator_steps. simpl. simpl in L. rewrite L.
  rewrite Math_trunc_inject_Z. by rewrite Z.max_l.
Qed.

Lemma take_rest n x k :
  0 <= n -> valid D x ->
  stage_valid D (take X (Finite (inject_Z n)) x)
  /\ stage_rest D (take X (Finite (inject_Z n)) x) k
     = if Z.of_nat k <? n then rest D x k else None.
Proof.
  intros Hn V. destruct (transform_rest
    {| maxBufferSize := None; autoStart := None; destroySource := None;
       offset := None; limit := Some (Finite (inject_Z n)) |} x k V) as [V' R].
  split; [done|]. unfold take. rewrite R, transform_steps.
  destruct (plain_fields
    {| maxBufferSize := None; autoStart := None; destroySource := None;
       offset := None; limit := Some (Finite (inject_Z n)) |} x)
    as (_ & _ & _ & Of & _ & _).
  unfold SimpleTransformIterator_steps. simpl. simpl in Of. rewrite Of.
  rewrite Math_trunc_inject_Z. by rewrite Z.max_l.
Qed.

(** [Math.max(end - start + 1, 0)] for [end = start + n - 1] *)
Lemma range_limit m n :
  0 <= n ->
  Math_max (addN (subN (Finite (inject_Z (m + n - 1))) (Finite (inject_Z m)))
                 (Finite 1)) (Finite 0)
  = Finite (inject_Z (m + n - 1) + - inject_Z m + 1).
Proof.
  intros Hn. unfold Math_max, subN, addN, negN, ltN.
  destruct (Qle_bool 0 _) eqn:E; [done|].
  assert (Qle_bool 0 (inject_Z (m + n - 1) + - inject_Z m + 1) = true) as E';
    [|congruence].
  apply Qle_bool_iff. unfold Qle. simpl. lia.
Qed.

Lemma range_rest m n x k :
  0 <= m -> 0 <= n -> valid D x ->
  stage_valid D (range X (Finite (inject_Z m)) (Finite (inject_Z (m + n - 1))) x)
  /\ stage_rest D
       (range X (Finite (inject_Z m)) (Finite (inject_Z (m + n - 1))) x) k
     = if Z.of_nat k <? n then rest D x (Z.to_nat m + k) else None.
Proof.
  intros Hm Hn V. unfold range. rewrite range_limit by done.
  set (options := {| maxBufferSize := None; limit := _ |}).
  destruct (transform_rest options x k V) as [V' R].
  split; [done|]. rewrite R, transform_steps.
  unfold SimpleTransformIterator_steps. simpl.
  rewrite Math_trunc_inject_Z, (Z.max_l m) by done.
  assert (Math_trunc (inject_Z (m + n - 1) + - inject_Z m + 1) = n) as ->.
  { unfold Math_trunc. simpl. rewrite Z.quot_1_r. lia. }
  by rewrite Z.max_l.
Qed.

End Operators.

(** *** Iterators that have not been destroyed go on *)

Module IntegerLive.
Import Integers.

Definition alive (it : IntegerIterator) : Prop := _state it <= ENDED.

Lemma changeState_keeps_alive s it :
  s <= ENDED -> alive it -> alive (_changeState s it).
Proof.
  unfold alive, _changeState. intros Hs A. by destruct (_ && _).
Qed.

Lemma read_alive (it : IntegerIterator) : alive it -> alive (snd (read it)).
Proof.
  intros A. unfold read. destruct (closed it); [done|]. simpl.
  destruct (if geI _ _ then _ else _); [|done].
  apply changeState_keeps_alive; [|done]. states.
Qed.

Lemma act_alive a (it : IntegerIterator) : alive it -> alive (act a it).
Proof.
  intros A. destruct a. simpl. destruct (closed it); [|done].
  by apply changeState_keeps_alive.
Qed.

Lemma progress (it : IntegerIterator) :
  alive it ->
  exists l, fst (read (acts source l it)) <> None
            \/ ended (acts source l it) = true.
Proof.
  intros A. destruct (closed it) eqn:C.
  - exists [End_task]. right. simpl. rewrite C.
    unfold ended, _end, _changeState. unfold alive in A.
    destruct (Z.ltb_spec (_state it) ENDED); simpl; states.
  - exists []. left. simpl. unfold read. by rewrite C.
Qed.

(** A closed range ends with its next task; an open one has an item to
    give. *)
Definition live : Live IntegerFacts.delivers :=
  @Build_Live Item source IntegerFacts.delivers alive
    (fun x _ => read_alive x) (fun a x _ => act_alive a x)
    (fun x _ => progress x).

End IntegerLive.

Section StageLive.

Context {T : Type} {X : Source T} {D : Delivers X}.
Variable L : Live D.

#[local] Abbreviation Stage := (SimpleTransformIterator X).
#[local] Abbreviation _state := (_state X).
#[local] Abbreviation _buffer := (_buffer X).
#[local] Abbreviation _source := (_source X).
#[local] Abbreviation _offset := (_offset X).
#[local] Abbreviation _limit := (_limit X).
#[local] Abbreviation _maxBufferSize := (_maxBufferSize X).
#[local] Abbreviation closed := (closed X).
#[local] Abbreviation done := (done X).
#[local] Abbreviation close := (close X).
#[local] Abbreviation _completeClose := (_completeClose X).
#[local] Abbreviation _changeState := (_changeState X).
#[local] Abbreviation _fillBufferAsync := (_fillBufferAsync X).
#[local] Abbreviation _fillBuffer := (_fillBuffer X).
#[local] Abbreviation fillBuffer_done := (fillBuffer_done X).
#[local] Abbreviation _readAndTransformSimple := (_readAndTransformSimple X).
#[local] Abbreviation loop := (loop X).
#[local] Abbreviation _init := (_init X).
#[local] Abbreviation _end := (_end X).
#[local] Abbreviation stage_valid := (stage_valid D).
#[local] Abbreviation stage_alive := (stage_alive L).

Lemma changeState_alive s it :
  s <= ENDED -> stage_alive it -> stage_alive (snd (_changeState s it)).
Proof.
  intros Hs (A1 & A2 & A3). unfold Pipelines._changeState.
  destruct (_ && _) eqn:E; simpl; [|done].
  split; [done|]. split; [|done]. intros C. apply A2.
  apply andb_true_iff in E as [E1 E2].
  unfold Pipelines.closed in *. simpl in C. states.
Qed.

Lemma set_reading_alive b it : stage_alive it -> stage_alive (set_reading X b it).
Proof. done. Qed.

Lemma _completeClose_alive it : stage_alive it -> stage_alive (_completeClose it).
Proof.
  intros A. unfold Pipelines._completeClose.
  assert (CLOSED <= ENDED) as Hs by states.
  pose proof (changeState_alive CLOSED it Hs A) as A'.
  unfold Pipelines._changeState in *. by destruct (_ && _).
Qed.

Lemma close_alive it : stage_alive it -> stage_alive (close it).
Proof.
  intros A. unfold Pipelines.close.
  destruct (negb _); [by apply _completeClose_alive|].
  apply changeState_alive; [states | done].
Qed.

Lemma _fillBufferAsync_alive it :
  stage_alive it -> stage_alive (_fillBufferAsync it).
Proof. unfold Pipelines._fillBufferAsync. by destruct (negb _). Qed.

Lemma pushed_alive it item s :
  stage_valid it -> stage_alive it ->
  read X (_source it) = (Some item, s) ->
  stage_alive (pushed item s it).
Proof.
  intros (V & _) (A1 & A2 & A3) R. unfold pushed.
  set (it3 := set_limit X _ _).
  assert (stage_alive it3) as A.
  { unfold it3, Pipelines._push. destruct (negb _); simpl.
    all: split; [done|]; split; [|done].
    all: intros C; pose proof (read_alive D L _ V (A2 C)) as A'.
    all: by rewrite R in A'. }
  destruct (eqI _ _); [by apply close_alive | done].
Qed.

Lemma loop_alive fuel count it :
  stage_valid it -> closed it = true \/ _limit it <> Int 0 ->
  stage_alive it -> stage_alive (loop fuel count it).
Proof.
  revert it. induction fuel as [|fuel IH]; intros it V N A; [done|].
  rewrite loop_S.
  destruct (closed it) eqn:C; cbn [negb andb]; [done|].
  destruct N as [|N]; [done|].
  destruct (ltI _ _); [|done].
  destruct (read X (_source it)) as [[item|] s] eqn:R.
  - destruct (Z.eqb_spec (_offset it) 0) as [Z0|Z0]; simpl.
    + destruct (push_keeps D it item s V C N R Z0) as [K N'].
      apply IH; [apply K | exact N' | by apply pushed_alive].
    + apply IH; [by apply (skip_keeps D it item s) | by right |].
      destruct V as (V & _), A as (A1 & A2 & A3).
      split; [done|]. split; [|done]. intros _.
      pose proof (read_alive D L _ V (A2 C)) as A'. by rewrite R in A'.
  - destruct V as (V & ? & ?), A as (A1 & A2 & A3).
    split; [done|]. split; [|done]. intros _.
    pose proof (read_alive D L _ V (A2 C)) as A'. by rewrite R in A'.
Qed.

Lemma _readAndTransformSimple_alive count it :
  stage_valid it -> stage_alive it ->
  stage_alive (_readAndTransformSimple count it).
Proof.
  intros V A. unfold Pipelines._readAndTransformSimple.
  destruct (ended X _); [done|].
  destruct (eqI (_limit it) (Int 0)) eqn:E.
  - assert (_limit it = Int 0) as E0.
    { destruct (_limit it); try done. simpl in E. apply Z.eqb_eq in E.
      by subst. }
    apply loop_alive; [| left; apply close_closes | by apply close_alive].
    apply (closes_keeps D it); auto using close_closes, limit_0_upcoming.
  - apply loop_alive; [done | right; by apply eqI_Int_0 | done].
Qed.

Lemma fillBuffer_done_alive it :
  stage_alive it -> stage_alive (fillBuffer_done it).
Proof.
  intros A. unfold Pipelines.fillBuffer_done.
  destruct (Pipelines.closed _ _); [by apply _completeClose_alive|].
  destruct (negb _); [|done].
  destruct (ltI _ _); [|done]. by apply _fillBufferAsync_alive.
Qed.

Lemma _fillBuffer_alive it :
  stage_valid it -> stage_alive it -> stage_alive (_fillBuffer it).
Proof.
  intros V A. unfold Pipelines._fillBuffer.
  destruct (Pipelines._reading _ _); [done|].
  destruct (closed it); [by apply _completeClose_alive|].
  destruct (gtI _ _); [|done].
  apply fillBuffer_done_alive. by apply _readAndTransformSimple_alive.
Qed.

Lemma _init_alive it : stage_alive it -> stage_alive (_init it).
Proof.
  intros A. unfold Pipelines._init.
  assert (stage_alive (snd (_changeState OPEN
            (set_reading X false (set_reading X true it))))) as A'.
  { apply changeState_alive; [states | done]. }
  destruct (_autoStart X _); [by apply _fillBufferAsync_alive | done].
Qed.

Lemma _end_alive it : stage_alive it -> stage_alive (_end false it).
Proof.
  intros (A1 & A2 & A3).
  pose proof (_end_done false it) as Dn. apply done_closed in Dn.
  split; [|split].
  - unfold Pipelines._end, Pipelines._changeState.
    destruct (_destroySource X it); simpl; by destruct (_ && _).
  - by rewrite Dn.
  - unfold Pipelines._end, Pipelines._changeState.
    destruct (_destroySource X it); simpl; by destruct (_ && _).
Qed.

Lemma stage_act_alive a it :
  stage_valid it -> stage_alive it -> stage_alive (stage_act X a it).
Proof.
  intros V A. destruct a; simpl.
  - by apply _init_alive.
  - by apply _fillBuffer_alive.
  - by apply _fillBuffer_alive.
  - destruct (ended X _); [by apply close_alive | done].
  - destruct (_ && _); [by apply _end_alive | done].
  - destruct V as (V & _), A as (A1 & A2 & A3).
    split; [done|]. split; [|done]. intros C.
    apply (act_alive D L); auto.
Qed.

Lemma stage_read_alive it :
  stage_alive it -> stage_alive (snd (stage_read X it)).
Proof.
  intros A. unfold stage_read. destruct (done it); [done|]. simpl.
  destruct (_ && _); [|done].
  destruct (negb _); [|done]. by apply _fillBufferAsync_alive.
Qed.

(** **** What the loop leaves *)

Lemma pushed_shape item s it :
  closed it = false ->
  _buffer (pushed item s it) = _buffer it ++ [item]
  /\ done (pushed item s it) = false
  /\ _offset (pushed item s it) = _offset it.
Proof.
  intros C. pose proof (not_closed_not_done it C) as Dn.
  unfold pushed, Pipelines._push.
  change (Pipelines.done X (set_source X s it)) with (done it).
  rewrite Dn. simpl.
  set (it3 := set_limit X _ _).
  destruct (eqI _ _); [|done].
  destruct (close_closes it3) as [].
  by rewrite closes_buffer0, closes_done0, closes_offset0.
Qed.

Lemma loop_shape fuel count it :
  done it = false ->
  done (loop fuel count it) = false
  /\ _offset (loop fuel count it) <= _offset it
  /\ (_buffer it <> [] -> _buffer (loop fuel count it) <> [])
  /\ (_buffer (loop fuel count it) = [] -> closed it = false ->
      closed (loop fuel count it) = false).
Proof.
  revert it. induction fuel as [|fuel IH]; intros it Dn;
    [by repeat split|].
  rewrite loop_S.
  destruct (closed it) eqn:C; cbn [negb andb]; [by repeat split|].
  destruct (ltI _ _); [|by repeat split].
  destruct (read X (_source it)) as [[item|] s] eqn:R; [|by repeat split].
  destruct (Z.eqb_spec (_offset it) 0) as [Z0|Z0]; simpl.
  - destruct (pushed_shape item s it C) as (B & Dn' & O).
    destruct (IH (pushed item s it) Dn') as (H1 & H2 & H3 & H4).
    assert (_buffer (pushed item s it) <> []) as NE.
    { rewrite B. by destruct (_buffer it). }
    split; [done|]. split; [lia|]. split; [auto|].
    intros E. by apply H3 in NE.
  - set (it2 := set_offset X _ _).
    destruct (IH it2 Dn) as (H1 & H2 & H3 & H4).
    split; [done|]. split; [simpl in H2; lia|]. split; [done|].
    intros E _. by apply H4.
Qed.

Lemma loop_closed fuel count it : closed it = true -> loop fuel count it = it.
Proof. intros C. destruct fuel; [done|]. rewrite loop_S. by rewrite C. Qed.

Lemma fillBuffer_done_shape it :
  done (fillBuffer_done it) = done it
  /\ _buffer (fillBuffer_done it) = _buffer it
  /\ _offset (fillBuffer_done it) = _offset it
  /\ closed (fillBuffer_done it) = closed it.
Proof.
  unfold Pipelines.fillBuffer_done.
  change (Pipelines.closed X (set_reading X false it)) with (closed it).
  destruct (closed it) eqn:C.
  - destruct (_completeClose_closes (set_reading X false it)) as [].
    by rewrite closes_done0, closes_buffer0, closes_offset0, closes_closed0.
  - destruct (negb _); [|done].
    destruct (ltI _ _); [|done].
    unfold Pipelines._fillBufferAsync. by destruct (negb _).
Qed.

(** The number of items that [_fillBuffer] asks for when the buffer is
    empty. *)
Lemma neededItems_empty max :
  match max with Int n => 1 <= n | IInfinity => True | _ => False end ->
  exists c, 1 <= c /\ minI (subI max (Int (lengthZ (@nil T)))) (Int 128) = Int c.
Proof.
  destruct max as [n| | |]; try done; intros H.
  - unfold lengthZ. simpl.
    match goal with |- context [128 <? ?a] => destruct (Z.ltb_spec 128 a) end.
    + exists 128. by split.
    + eexists. split; [|done]. lia.
  - exists 128. by split.
Qed.

(** Filling the empty buffer of an open iterator whose source has an item
    to give: an item is pushed, or the limit closes the iterator, or the
    offset goes down. *)
Lemma fill_progress it :
  stage_valid it -> stage_alive it -> closed it = false -> _buffer it = [] ->
  fst (read X (_source it)) <> None ->
  done (stage_act X FillBuffer_task it) = false
  /\ (_buffer (stage_act X FillBuffer_task it) <> []
      \/ closed (stage_act X FillBuffer_task it) = true
      \/ _offset (stage_act X FillBuffer_task it) < _offset it).
Proof.
  intros V A C B R.
  pose proof (not_closed_not_done it C) as Dn.
  destruct A as (A1 & A2 & A3).
  destruct (neededItems_empty _ A3) as (c & Hc & Ec).
  unfold stage_act, Pipelines._fillBuffer.
  change (Pipelines._reading X (set_reading X false it)) with false.
  change (Pipelines.closed X (set_reading X false it)) with (closed it).
  change (Pipelines._buffer X (set_reading X false it)) with (_buffer it).
  change (Pipelines._maxBufferSize X (set_reading X false it))
    with (_maxBufferSize it).
  rewrite C, B, Ec. cbn [gtI ltI].
  destruct (Z.ltb_spec 0 c); [|lia].
  set (it1 := set_reading X true _).
  destruct (fillBuffer_done_shape (_readAndTransformSimple (Int c) it1))
    as (-> & -> & -> & ->).
  assert (ended X (_source it) = false) as E.
  { destruct (ended X (_source it)) eqn:E; [|done].
    destruct V as (V & _). apply (ended_rest X D) in E; [|done].
    destruct (fst (read X (_source it))) as [v|] eqn:R'; [|done].
    apply (read_item X D) in R' as [R' _]; [|done]. congruence. }
  unfold Pipelines._readAndTransformSimple.
  change (Pipelines._source X it1) with (_source it). rewrite E.
  change (Pipelines._limit X it1) with (_limit it).
  destruct (eqI (_limit it) (Int 0)).
  - destruct (close_closes it1) as [].
    rewrite loop_closed by done.
    split; [by rewrite closes_done0 | by right; left].
  - unfold loop_fuel. rewrite loop_S.
    change (Pipelines.closed X it1) with (closed it). rewrite C.
    change (Pipelines._pushedCount X it1) with 0. cbn [negb andb ltI].
    destruct (Z.ltb_spec 0 c); [|lia].
    change (Pipelines._source X it1) with (_source it).
    destruct (read X (_source it)) as [[item|] s]; [|done].
    change (Pipelines._offset X it1) with (_offset it).
    destruct (Z.eqb_spec (_offset it) 0) as [Z0|Z0]; simpl.
    + destruct (pushed_shape item s it1 C) as (B' & Dn' & O').
      destruct (loop_shape
        (Z.to_nat (_offset it + (c - 0))) (Int c) (pushed item s it1) Dn')
        as (H1 & _ & H3 & _).
      split; [done|]. left. apply H3. rewrite B'.
      by destruct (Pipelines._buffer X it1).
    + set (it2 := set_offset X _ _).
      destruct (loop_shape (Z.to_nat (_offset it + (c - 0))) (Int c) it2 Dn)
        as (H1 & H2 & _ & _).
      split; [done|]. right; right. simpl in H2. lia.
Qed.

Lemma _end_ended it : _state it <= ENDED -> stage_ended X (_end false it) = true.
Proof.
  intros A. unfold Pipelines._end, Pipelines._changeState, stage_ended.
  destruct (_destroySource X it); simpl;
    destruct (Z.ltb_spec (_state it) ENDED); simpl; states.
Qed.

Lemma acts_app {S : Source T} (l l' : list (Action S)) x :
  acts S (l ++ l') x = acts S l' (acts S l x).
Proof. apply fold_left_app. Qed.

Lemma acts_source l it :
  acts (stage X) (map Source_action l) it
  = set_source X (acts X l (_source it)) it.
Proof.
  revert it. induction l as [|a l IH]; intros it; [by destruct it|].
  change (acts (stage X) (map Source_action (a :: l)) it)
    with (acts (stage X) (map Source_action l)
            (stage_act X (Source_action a) it)).
  by rewrite IH.
Qed.

Lemma acts_valid_alive l x :
  valid D x -> alive L x -> valid D (acts X l x) /\ alive L (acts X l x).
Proof.
  revert x. induction l as [|a l IH]; intros x V A; [done|].
  apply IH; [by apply (act_valid X D) | by apply (act_alive D L)].
Qed.

Lemma acts_rest l x k : valid D x -> rest D (acts X l x) k = rest D x k.
Proof.
  revert x. induction l as [|a l IH]; intros x V; [done|].
  change (acts X (a :: l) x) with (acts X l (act X a x)).
  rewrite IH by by apply (act_valid X D).
  by apply (act_rest X D).
Qed.

(** An iterator with an item in its buffer, or closed. *)
Lemma ready it :
  stage_alive it ->
  done it = true \/ _buffer it <> [] \/ closed it = true ->
  exists l, fst (stage_read X (acts (stage X) l it)) <> None
            \/ stage_ended X (acts (stage X) l it) = true.
Proof.
  intros (A1 & A2 & A3) H. destruct (done it) eqn:Dn.
  { exists []. right. simpl. unfold stage_ended.
    unfold Pipelines.done in Dn. states. }
  destruct (_buffer it) as [|x b] eqn:B.
  - destruct H as [|[|C]]; try done.
    exists [End_task]. right. simpl. rewrite C, B. simpl.
    by apply _end_ended.
  - exists []. left. simpl.
    destruct (stage_read_fields D it Dn) as [-> _]. by rewrite B.
Qed.

Lemma stage_progress n it :
  (Z.to_nat (_offset it) < n)%nat -> stage_valid it -> stage_alive it ->
  exists l, fst (stage_read X (acts (stage X) l it)) <> None
            \/ stage_ended X (acts (stage X) l it) = true.
Proof.
  revert it. induction n as [|n IH]; intros it Hn V A; [lia|].
  destruct (done it) eqn:Dn; [apply ready; auto|].
  destruct (_buffer it) as [|x b] eqn:B;
    [|apply ready; [done|]; right; left; by rewrite B].
  destruct (closed it) eqn:C; [apply ready; auto|].
  destruct V as (V & VO & VL), A as (A1 & A2 & A3).
  destruct (progress D L (_source it) V (A2 C)) as (ls & P).
  destruct (acts_valid_alive ls _ V (A2 C)) as [V' A'].
  set (it1 := set_source X (acts X ls (_source it)) it).
  assert (stage_valid it1) as V1 by done.
  assert (stage_alive it1) as Al1 by done.
  destruct P as [P|P].
  - pose proof (fill_progress it1 V1 Al1 C B P) as (Dn2 & H).
    pose proof (stage_act_keeps D FillBuffer_task it1 V1) as [V2 _].
    pose proof (stage_act_alive FillBuffer_task it1 V1 Al1) as Al2.
    set (it2 := stage_act X FillBuffer_task it1) in *.
    assert (exists l, fst (stage_read X (acts (stage X) l it2)) <> None
                      \/ stage_ended X (acts (stage X) l it2) = true)
      as [l Hl].
    { destruct H as [H|[H|H]]; [apply ready; auto | apply ready; auto |].
      apply IH; [|done|done].
      destruct V2 as (_ & VO2 & _). change (Pipelines._offset X it1)
        with (_offset it) in H. lia. }
    exists (map Source_action ls ++ FillBuffer_task :: l).
    by rewrite (acts_app (S := stage X) (map Source_action ls)), acts_source.
  - exists (map Source_action ls ++ [Source_end; End_task]). right.
    rewrite (acts_app (S := stage X) (map Source_action ls)), acts_source.
    fold it1. simpl.
    change (Pipelines._source X it1) with (acts X ls (_source it)).
    rewrite P.
    destruct (close_closes it1) as [].
    rewrite closes_closed0, closes_buffer0.
    change (Pipelines._buffer X it1) with (_buffer it). rewrite B. simpl.
    apply _end_ended. by apply close_alive.
Qed.

(** A transform iterator on a source that goes on goes on too. *)
Definition stage_live : Live (stage_delivers D) :=
  @Build_Live T (stage X) (stage_delivers D) stage_alive
    (fun it _ => stage_read_alive it)
    stage_act_alive
    (fun it V A => stage_progress (S (Z.to_nat (_offset it))) it
                     (Nat.lt_succ_diag_r _) V A).

End StageLive.

Section Completion.

Context {T : Type} {X : Source T} {D : Delivers X}.
Variable L : Live D.

Lemma moves_valid_alive l x out :
  valid D x -> alive L x ->
  valid D (fst (fold_left (move X) l (x, out)))
  /\ alive L (fst (fold_left (move X) l (x, out))).
Proof.
  revert x out. induction l as [|m l IH]; intros x out V A; [done|].
  simpl. destruct m as [|a]; simpl.
  - pose proof (read_valid X D x V) as V'.
    pose proof (read_alive D L x V A) as A'.
    destruct (read X x) as [[v|] x']; by apply IH.
  - apply IH; [by apply (act_valid X D) | by apply (act_alive D L)].
Qed.

Lemma moves_acts l x out :
  fold_left (move X) (map Act l) (x, out) = (acts X l x, out).
Proof.
  revert x. induction l as [|a l IH]; intros x; [done|]. simpl. apply IH.
Qed.

(** An iterator that goes on and has at most [K] items left can be read to
    its end. *)
Lemma can_end K x out :
  valid D x -> alive L x -> rest D x K = None ->
  exists l, ended X (fst (fold_left (move X) l (x, out))) = true.
Proof.
  revert x out. induction K as [|K IH]; intros x out V A R.
  - destruct (progress D L x V A) as (la & [P|P]).
    + destruct (acts_valid_alive L la x V A) as [V' _].
      destruct (fst (read X (acts X la x))) as [v|] eqn:E; [|done].
      apply (read_item X D) in E as [E _]; [|done].
      rewrite acts_rest in E by done. congruence.
    + exists (map Act la). by rewrite moves_acts.
  - destruct (progress D L x V A) as (la & [P|P]).
    + destruct (acts_valid_alive L la x V A) as [V' A'].
      destruct (read X (acts X la x)) as [[v|] x'] eqn:E; [|done].
      destruct (read_item X D _ v V') as [_ RS]; [by rewrite E|].
      pose proof (read_valid X D _ V') as V2.
      pose proof (read_alive D L _ V' A') as A2.
      rewrite E in RS, V2, A2. simpl in RS, V2, A2.
      destruct (IH x' (out ++ [v]) V2 A2) as [l Hl].
      { rewrite RS, acts_rest by done. done. }
      exists (map Act la ++ Read :: l).
      rewrite fold_left_app, moves_acts. simpl. by rewrite E.
    + exists (map Act la). by rewrite moves_acts.
Qed.

(** Wherever the program is, it can go on until the iterator has ended. *)
Lemma can_complete K l x :
  valid D x -> alive L x -> rest D x K = None ->
  exists l', ended X (fst (moves X (l ++ l') x)) = true.
Proof.
  intros V A R. unfold moves.
  destruct (fold_moves D l x [] V) as (V' & new & _ & _ & H).
  destruct (moves_valid_alive l x [] V A) as [_ A'].
  destruct (fold_left (move X) l (x, [])) as [x1 out1] eqn:E.
  simpl in *.
  destruct (can_end K x1 out1 V' A') as [l' Hl].
  { rewrite H. apply (rest_none_from D x K); [done | done | lia]. }
  exists l'. by rewrite fold_left_app, E.
Qed.

End Completion.

Lemma coerce_maxBufferSize_positive x :
  match coerce_maxBufferSize x with
  | Int n => 1 <= n
  | IInfinity => True
  | _ => False
  end.
Proof.
  destruct x as [q| | |]; try done. simpl.
  destruct (Z.ltb_spec (Math_trunc q) 1); lia.
Qed.

Lemma transform_alive {T : Type} {X : Source T} {D : Delivers X} (L : Live D)
  options x :
  alive L x -> stage_alive L (transform X options x).
Proof.
  intros A. rewrite transform_steps.
  assert (stage_alive L (transform X (plain options) x)) as A1.
  { unfold transform. simpl.
    match goal with |- context [close X ?i] => assert (stage_alive L i) as A0 end.
    { split; [simpl; states|]. split; [done|].
      apply coerce_maxBufferSize_positive. }
    destruct (ended X x); [by apply close_alive | done]. }
  unfold SimpleTransformIterator_steps.
  destruct (_ || _); [done|].
  destruct (offset options) as [[]|], (limit options) as [[]|]; done.
Qed.

Lemma new_IntegerIterator_alive start step end_ :
  IntegerLive.alive (Integers.new_IntegerIterator start step end_).
Proof.
  unfold Integers.new_IntegerIterator. cbv zeta.
  destruct (_ || _); [apply IntegerLive.changeState_keeps_alive|];
    unfold IntegerLive.alive; simpl; states.
Qed.
(** *** [skip(m).take(n)] and [range(m, m + n - 1)] on an integer range *)

#[local] Abbreviation integers := Integers.source.

(** C7: for every integer range (any [start], [step] and [end]) and all
    integers [m >= 0] and [n >= 0], whatever the order in which the program
    reads and the tasks and events of the iterators come, the items read
    from [range.skip(m).take(n)] and those read from [range(m, m + n - 1)]
    on an identical range are, position by position, the items that the
    range yields from its position [m] on, fewer than [n] positions far;
    once both iterators have ended, the two sequences of items are equal;
    and wherever the two programs are, they can go on until both iterators
    have ended. *)
Theorem skip_take_is_range (start step end_ : option number) (m n : Z)
  (l1 : list (Move (stage (stage integers)))) (l2 : list (Move (stage integers))) :
  0 <= m -> 0 <= n ->
  let numbers := Integers.new_IntegerIterator start step end_ in
  let c1 := moves (stage (stage integers)) l1
              (take (stage integers) (Finite (inject_Z n))
                 (skip integers (Finite (inject_Z m)) numbers)) in
  let c2 := moves (stage integers) l2
              (range integers (Finite (inject_Z m))
                 (Finite (inject_Z (m + n - 1))) numbers) in
  (forall i v, snd c1 !! i = Some v ->
     Z.of_nat i < n /\ Integers.rest numbers (Z.to_nat m + i) = Some v)
  /\ (forall i v, snd c2 !! i = Some v ->
        Z.of_nat i < n /\ Integers.rest numbers (Z.to_nat m + i) = Some v)
  /\ (stage_ended (stage integers) (fst c1) = true ->
      stage_ended integers (fst c2) = true ->
      snd c1 = snd c2)
  /\ (exists l1' l2',
        stage_ended (stage integers)
          (fst (moves (stage (stage integers)) (l1 ++ l1')
                  (take (stage integers) (Finite (inject_Z n))
                     (skip integers (Finite (inject_Z m)) numbers)))) = true
        /\ stage_ended integers
             (fst (moves (stage integers) (l2 ++ l2')
                     (range integers (Finite (inject_Z m))
                        (Finite (inject_Z (m + n - 1))) numbers))) = true).
Proof.
  intros Hm Hn numbers c1 c2.
  set (D0 := IntegerFacts.delivers).
  set (D1 := stage_delivers D0).
  set (D2 := stage_delivers D1).
  set (f := fun k : nat =>
    if Z.of_nat k <? n then Integers.rest numbers (Z.to_nat m + k) else None).
  assert (V0 : valid D0 numbers) by done.
  destruct (skip_rest D0 m numbers O Hm V0) as [V1 _].
  assert (R1 : forall k,
    valid D2 (take (stage integers) (Finite (inject_Z n))
                (skip integers (Finite (inject_Z m)) numbers))
    /\ rest D2 (take (stage integers) (Finite (inject_Z n))
                  (skip integers (Finite (inject_Z m)) numbers)) k = f k).
  { intros k. destruct (take_rest D1 n _ k Hn V1) as [V2 R].
    split; [done|]. etrans; [exact R|]. unfold f.
    destruct (_ <? _); [|done]. apply (skip_rest D0 m numbers k Hm V0). }
  assert (R2 : forall k,
    valid D1 (range integers (Finite (inject_Z m))
                (Finite (inject_Z (m + n - 1))) numbers)
    /\ rest D1 (range integers (Finite (inject_Z m))
                  (Finite (inject_Z (m + n - 1))) numbers) k = f k).
  { intros k. apply (range_rest D0 m n numbers k Hm Hn V0). }
  destruct (moves_read D2 l1 _ (proj1 (R1 O))) as [P1 E1].
  destruct (moves_read D1 l2 _ (proj1 (R2 O))) as [P2 E2].
  fold c1 in P1, E1. fold c2 in P2, E2.
  assert (F : forall i v, f i = Some v ->
    Z.of_nat i < n /\ Integers.rest numbers (Z.to_nat m + i) = Some v).
  { intros i v. unfold f. destruct (Z.ltb_spec (Z.of_nat i) n); [done|].
    discriminate. }
  split; [|split; [|split]].
  - intros i v H. apply F. rewrite <- (proj2 (R1 i)). by apply P1.
  - intros i v H. apply F. rewrite <- (proj2 (R2 i)). by apply P2.
  - intros H1 H2. apply (same_sequence f).
    + intros i v H. rewrite <- (proj2 (R1 i)). by apply P1.
    + rewrite <- (proj2 (R1 _)). by apply E1.
    + intros i v H. rewrite <- (proj2 (R2 i)). by apply P2.
    + rewrite <- (proj2 (R2 _)). by apply E2.
  - set (L0 := IntegerLive.live).
    set (L1 := stage_live L0).
    set (L2 := stage_live L1).
    assert (A0 : alive L0 numbers) by apply new_IntegerIterator_alive.
    assert (f (Z.to_nat n) = None) as Fn.
    { unfold f. destruct (Z.ltb_spec (Z.of_nat (Z.to_nat n)) n); [lia | done]. }
    destruct (can_complete L2 (Z.to_nat n) l1 _ (proj1 (R1 O))) as [l1' H1].
    { apply (transform_alive L1). by apply (transform_alive L0). }
    { by rewrite (proj2 (R1 _)). }
    destruct (can_complete L1 (Z.to_nat n) l2 _ (proj1 (R2 O))) as [l2' H2].
    { by apply (transform_alive L0). }
    { by rewrite (proj2 (R2 _)). }
    by exists l1', l2'.
Qed.

End PipelineFacts.

(** The range 0, 1, ..., 20, with [m = 3] and [n = 2]: the tasks of the
    iterators in the order of their creation, then two reads, then the end
    of the iterator that is read. *)
#[local] Abbreviation numbers_source := Pipelines.Integers.source.
#[local] Abbreviation one_stage := (Pipelines.stage numbers_source).
#[local] Abbreviation two_stages := (Pipelines.stage one_stage).

Definition in_row (a : Pipelines.StageAction one_stage)
  : Pipelines.Move two_stages :=
  @Pipelines.Act _ two_stages a.

Definition in_stage (a : Pipelines.StageAction numbers_source)
  : Pipelines.Move one_stage :=
  @Pipelines.Act _ one_stage a.

Definition in_source (a : Pipelines.StageAction numbers_source)
  : Pipelines.StageAction one_stage :=
  @Pipelines.Source_action _ one_stage a.

Definition skip_take_reader : list (Pipelines.Move two_stages) :=
  [in_row (in_source Pipelines.Init);
   in_row (in_source Pipelines.FillBuffer_task);
   in_row Pipelines.Init; in_row Pipelines.FillBuffer_task;
   Pipelines.Read; Pipelines.Read; in_row Pipelines.End_task].

Definition range_reader : list (Pipelines.Move one_stage) :=
  [in_stage Pipelines.Init; in_stage Pipelines.FillBuffer_task;
   Pipelines.Read; Pipelines.Read; in_stage Pipelines.End_task].

Lemma skip_take_is_range_witness :
  let numbers :=
    Pipelines.Integers.new_IntegerIterator None None (Some (Finite 20)) in
  let c1 := Pipelines.moves two_stages skip_take_reader
              (Pipelines.take one_stage (Finite (inject_Z 2))
                 (Pipelines.skip numbers_source (Finite (inject_Z 3)) numbers)) in
  let c2 := Pipelines.moves one_stage range_reader
              (Pipelines.range numbers_source (Finite (inject_Z 3))
                 (Finite (inject_Z (3 + 2 - 1))) numbers) in
  snd c1 = [Int 3; Int 4] /\ snd c1 = snd c2.
Proof.
  intros numbers c1 c2. split; [vm_compute; reflexivity|].
  apply (proj1 (proj2 (proj2
    (PipelineFacts.skip_take_is_range None None (Some (Finite 20)) 3 2
       skip_take_reader range_reader ltac:(lia) ltac:(lia)))));
    vm_compute; reflexivity.
Defined.

(** The same two rows in the event loop, with a listener for [data] and
    [end] on the iterator that is read. *)
Definition offset_limit (o l : option number) : TransformOptions :=
  {| maxBufferSize := None; autoStart := None; optional := false;
     destroySource := None; offset := o; limit := l;
     filter_ := None; map_ := None; prepend := None; append := None |}.

Definition skip_take_program (m n : Z) : list Cmd :=
  [New_IntegerIterator None None (Some (Finite 20));
   New_SimpleTransformIterator (Some 0%nat)
     (offset_limit (Some (Finite (inject_Z m))) None);
   New_SimpleTransformIterator (Some 1%nat)
     (offset_limit None (Some (Finite (inject_Z n))));
   On 2%nat ev_data (consumer 0);
   On 2%nat ev_end (consumer 0)].

Definition range_program (m n : Z) : list Cmd :=
  [New_IntegerIterator None None (Some (Finite 20));
   New_SimpleTransformIterator (Some 0%nat)
     (offset_limit (Some (Finite (inject_Z m)))
        (Some (Pipelines.Math_max
                 (Pipelines.addN
                    (Pipelines.subN (Finite (inject_Z (m + n - 1)))
                                    (Finite (inject_Z m)))
                    (Finite 1))
                 (Finite 0))));
   On 1%nat ev_data (consumer 0);
   On 1%nat ev_end (consumer 0)].

Example skip_take_and_range_in_the_event_loop :
  exists w1 w2,
    run 500 (skip_take_program 3 2) empty_world = Some (Returned w1)
    /\ run 500 (range_program 3 2) empty_world = Some (Returned w2)
    /\ map snd (received_by 0 (log w1))
       = [arg_item (Int 3); arg_item (Int 4); no_arg]
    /\ map snd (received_by 0 (log w2))
       = [arg_item (Int 3); arg_item (Int 4); no_arg].
Proof.
  eexists _, _. split; [vm_compute; reflexivity|].
  split; [vm_compute; reflexivity|]. by split.
Qed.

(** * Further properties of the iterators *)

(** ** The items of an integer range *)

Module IntegerRange.
Import Pipelines Pipelines.Integers PipelineFacts.

(** Whether [x] has not passed [last] in the direction of [step]. *)
Definition within (step : Z) (last : integer) (x : Z) : bool :=
  if 0 <=? step then negb (gtI (Int x) last) else negb (ltI (Int x) last).

Lemma within_next step last x :
  within step last (x + step) = true -> within step last x = true.
Proof.
  unfold within. destruct (Z.leb_spec 0 step), last as [e| | |];
    simpl; try done; rewrite !negb_true_iff, ?Z.ltb_ge; lia.
Qed.

Lemma within_far step last x (k : nat) :
  within step last x = false -> within step last (x + Z.of_nat k * step) = false.
Proof.
  unfold within. destruct (Z.leb_spec 0 step), last as [e| | |];
    simpl; try done; rewrite !negb_false_iff, ?Z.ltb_lt; nia.
Qed.

(** [Number.MAX_SAFE_INTEGER]: up to it, sums of integers are exact. *)
Definition MAX_SAFE_INTEGER : Z := 2 ^ 53 - 1.

Lemma round_double_safe z : Z.abs z <= MAX_SAFE_INTEGER -> round_double z = Int z.
Proof.
  unfold MAX_SAFE_INTEGER. intros H. unfold round_double.
  assert (Z.log2 (Z.abs z) - 52 <= 0) as L.
  { destruct (Z.eq_dec (Z.abs z) 0) as [->|N]; [by vm_compute|].
    assert (Z.log2 (Z.abs z) < 53); [|lia].
    apply Z.log2_lt_pow2; lia. }
  by destruct (Z.leb_spec (Z.log2 (Z.abs z) - 52) 0); [|lia].
Qed.

(** Beyond the safe integers a rounded number stays beyond them. *)
Lemma round_double_large z :
  2 ^ 53 <= z ->
  round_double z = IInfinity \/ exists v, round_double z = Int v /\ 2 ^ 53 <= v.
Proof.
  intros H. unfold round_double.
  assert (0 < 2 ^ 53) as P by by vm_compute.
  rewrite (Z.abs_eq z) by lia.
  set (k := Z.log2 z - 52).
  assert (1 <= k) as K.
  { unfold k. assert (53 <= Z.log2 z); [|lia]. apply Z.log2_le_pow2; lia. }
  destruct (Z.leb_spec k 0); [lia|].
  assert (2 ^ 52 * 2 ^ k <= z) as B.
  { rewrite <- Z.pow_add_r by lia. replace (52 + k) with (Z.log2 z) by (unfold k; lia).
    apply Z.log2_spec. lia. }
  assert (0 < 2 ^ k) as Pk by (apply Z.pow_pos_nonneg; lia).
  assert (2 ^ 52 <= z / 2 ^ k) as Hq.
  { apply Z.div_le_lower_bound; [done|]. lia. }
  match goal with |- context [if ?b then z / 2 ^ k + 1 else _] =>
    set (q := if b then z / 2 ^ k + 1 else z / 2 ^ k) end.
  assert (2 ^ 52 <= q) as Hq' by (unfold q; destruct (_ || _); lia).
  assert (2 ^ 1 <= 2 ^ k) as K2 by (apply Z.pow_le_mono_r; lia).
  assert (2 ^ 53 <= q * 2 ^ k) as V.
  { change (2 ^ 53) with (2 ^ 52 * 2 ^ 1). change (2 ^ 1) with 2 in *.
    assert (0 < 2 ^ 52) by by vm_compute. nia. }
  destruct (2 ^ 1024 <=? q * 2 ^ k).
  - left. by destruct (Z.ltb_spec z 0); [lia|].
  - right. eexists. split; [done|]. rewrite Z.sgn_pos by lia. lia.
Qed.

Lemma round_double_opp z : round_double (- z) = negI (round_double z).
Proof.
  unfold round_double. rewrite Z.abs_opp.
  destruct (_ <=? 0); [done|].
  destruct (Z.eq_dec z 0) as [->|N]; [by vm_compute|].
  destruct (_ <=? _ * _).
  - destruct (Z.ltb_spec (- z) 0), (Z.ltb_spec z 0); try done; lia.
  - cbn [negI]. f_equal. rewrite Z.sgn_opp. lia.
Qed.

Lemma round_double_small z :
  z <= - 2 ^ 53 ->
  round_double z = INegInfinity \/ exists v, round_double z = Int v /\ v <= - 2 ^ 53.
Proof.
  intros H. rewrite <- (Z.opp_involutive z), round_double_opp.
  destruct (round_double_large (- z)) as [-> | (v & -> & V)]; [lia | by left |].
  right. exists (- v). split; [done | lia].
Qed.

(** A sum that has passed a safe bound has passed it after rounding too. *)
Lemma passed_rounded step e x :
  Z.abs e <= MAX_SAFE_INTEGER -> within step (Int e) x = false ->
  (if 0 <=? step then gtI (round_double x) (Int e)
   else ltI (round_double x) (Int e)) = true.
Proof.
  unfold MAX_SAFE_INTEGER, within. intros E W.
  destruct (Z_le_gt_dec (Z.abs x) (2 ^ 53 - 1)) as [S|S].
  { rewrite round_double_safe by done.
    destruct (0 <=? step); by apply negb_false_iff in W. }
  destruct (0 <=? step); apply negb_false_iff in W; cbn [gtI ltI] in W.
  - apply Z.ltb_lt in W.
    destruct (round_double_large x) as [-> | (v & -> & V)]; [lia | done |].
    cbn [gtI ltI]. apply Z.ltb_lt. lia.
  - apply Z.ltb_lt in W.
    destruct (round_double_small x) as [-> | (v & -> & V)]; [lia | done |].
    cbn [ltI]. apply Z.ltb_lt. lia.
Qed.

Lemma within_between step e a :
  Z.abs a <= MAX_SAFE_INTEGER -> Z.abs e <= MAX_SAFE_INTEGER ->
  within step (Int e) (a + step) = true ->
  Z.abs (a + step) <= MAX_SAFE_INTEGER.
Proof.
  unfold within. intros A E.
  destruct (Z.leb_spec 0 step); cbn [gtI ltI]; rewrite negb_true_iff, Z.ltb_ge;
    lia.
Qed.

(** An open range whose next number is within its bound yields the
    arithmetic progression from that number, up to the bound, when the
    number and the bound are safe integers. *)
Lemma rest_open state a step e (k : nat) :
  state < CLOSING -> within step (Int e) a = true ->
  Z.abs a <= MAX_SAFE_INTEGER -> Z.abs e <= MAX_SAFE_INTEGER ->
  rest {| _state := state; _next := Int a; _step := Int step; _last := Int e |} k
  = if within step (Int e) (a + Z.of_nat k * step)
    then Some (Int (a + Z.of_nat k * step)) else None.
Proof.
  revert a. induction k as [|k IH]; intros a Hs W A E.
  - cbn [rest]. unfold read, closed. cbn [_state _next fst].
    destruct (Z.leb_spec CLOSING state); [lia|]. cbn [fst].
    replace (a + Z.of_nat 0 * step) with a by lia. by rewrite W.
  - cbn [rest]. unfold read, closed. cbn [_state _next _step _last].
    destruct (Z.leb_spec CLOSING state); [lia|]. cbn [fst snd geI addD].
    replace (a + Z.of_nat (S k) * step) with (a + step + Z.of_nat k * step)
      by lia.
    destruct (within step (Int e) (a + step)) eqn:W'.
    + rewrite round_double_safe by by apply (within_between step e).
      assert ((if 0 <=? step then gtI (Int (a + step)) (Int e)
               else ltI (Int (a + step)) (Int e)) = false) as ->.
      { unfold within in W'.
        destruct (0 <=? step); by apply negb_true_iff in W'. }
      apply IH; [done | done | by apply (within_between step e) | done].
    + rewrite passed_rounded by done.
      rewrite within_far by done.
      apply IntegerFacts.rest_of_closed.
      unfold close, _changeState, closed. cbn [_state].
      destruct (Z.ltb_spec state CLOSED), (Z.ltb_spec state ENDED);
        cbn [andb _state]; states.
Qed.

(** The bound of a range that has none: infinity, in the direction of its
    step. *)
Definition unbounded (step : Z) : integer :=
  if 0 <=? step then IInfinity else INegInfinity.

Lemma never_passed step x :
  (if 0 <=? step then gtI x (unbounded step) else ltI x (unbounded step)) = false.
Proof. unfold unbounded. destruct (0 <=? step), x; done. Qed.

(** One read of an open range without a bound. *)
Lemma read_unbounded state next step :
  state < CLOSING ->
  read {| _state := state; _next := next; _step := Int step;
          _last := unbounded step |}
  = (Some next, {| _state := state; _next := addD next (Int step);
                   _step := Int step; _last := unbounded step |}).
Proof.
  intros Hs. unfold read, closed. cbn [_state _next _step _last].
  destruct (Z.leb_spec CLOSING state); [lia|]. cbn [geI].
  by rewrite never_passed.
Qed.

Lemma rest_unbounded state next step (k : nat) :
  state < CLOSING ->
  rest {| _state := state; _next := next; _step := Int step;
          _last := unbounded step |} k <> None.
Proof.
  revert next. induction k as [|k IH]; intros next Hs; cbn [rest];
    rewrite read_unbounded by done; cbn [fst snd]; [done | by apply IH].
Qed.

Lemma rest_unbounded_safe state a step (k : nat) :
  state < CLOSING ->
  Z.abs a <= MAX_SAFE_INTEGER ->
  Z.abs (a + Z.of_nat k * step) <= MAX_SAFE_INTEGER ->
  rest {| _state := state; _next := Int a; _step := Int step;
          _last := unbounded step |} k
  = Some (Int (a + Z.of_nat k * step)).
Proof.
  revert a. induction k as [|k IH]; intros a Hs A B; cbn [rest];
    rewrite read_unbounded by done; cbn [fst snd].
  - do 2 f_equal. lia.
  - cbn [addD].
    assert (Z.abs (a + step) <= MAX_SAFE_INTEGER) as C by nia.
    rewrite round_double_safe by done. rewrite IH; [|done|done|].
    + do 2 f_equal. lia.
    + replace (a + step + Z.of_nat k * step) with (a + Z.of_nat (S k) * step)
        by lia. done.
Qed.

(** A range whose sum rounds back to its number repeats that number. *)
Lemma rest_unbounded_stuck state a step (k : nat) :
  state < CLOSING ->
  round_double (a + step) = Int a ->
  rest {| _state := state; _next := Int a; _step := Int step;
          _last := unbounded step |} k
  = Some (Int a).
Proof.
  intros Hs R. induction k as [|k IH]; cbn [rest];
    rewrite read_unbounded by done; cbn [fst snd addD]; [done|].
  by rewrite R.
Qed.

Lemma rest_new start step e (k : nat) :
  Z.abs start <= MAX_SAFE_INTEGER -> Z.abs e <= MAX_SAFE_INTEGER ->
  rest (let it := {| _state := OPEN; _next := Int start; _step := Int step;
                     _last := Int e |} in
        if negb (within step (Int e) start) then close it else it) k
  = if within step (Int e) (start + Z.of_nat k * step)
    then Some (Int (start + Z.of_nat k * step)) else None.
Proof.
  intros A E. cbv zeta. destruct (within step (Int e) start) eqn:W; cbn [negb].
  - apply rest_open; [states | done | done | done].
  - rewrite within_far by done. apply IntegerFacts.rest_of_closed.
    by vm_compute.
Qed.

Lemma new_finite start step last :
  new_IntegerIterator (Some (Finite start)) (Some (Finite step)) last
  = let end_ :=
      match last with
      | Some (Finite q) => Int (Math_trunc q)
      | Some Infinity => IInfinity
      | Some NegInfinity => INegInfinity
      | _ => if 0 <=? Math_trunc step then IInfinity else INegInfinity
      end in
    let it := {| _state := OPEN; _next := Int (Math_trunc start);
                 _step := Int (Math_trunc step); _last := end_ |} in
    if negb (within (Math_trunc step) end_ (Math_trunc start)) then close it
    else it.
Proof.
  unfold new_IntegerIterator, within.
  cbv beta iota zeta delta [default from_option id truncIfFinite isFiniteI geI].
  destruct (0 <=? Math_trunc step), last as [[q| | |]|];
    cbn [negb orb eqI negI truncIfFinite gtI]; rewrite ?negb_involutive; done.
Qed.

(** X1: [new IntegerIterator({start, step, end})] with finite numbers, of
    which [start] and [end] (truncated) are safe integers, at most 2^53 - 1
    in absolute value: read after read it yields [start], [start + step],
    [start + 2 step], ... (each truncated to an integer first) as long as
    the number has not passed [end] in the direction of the step, and
    [null] from then on; a range whose start has passed its end yields
    nothing.  The sums are those of doubles. *)
Theorem integer_range_progression (start step end_ : Q) (k : nat) :
  let s := Math_trunc start in
  let d := Math_trunc step in
  let e := Math_trunc end_ in
  Z.abs s <= MAX_SAFE_INTEGER -> Z.abs e <= MAX_SAFE_INTEGER ->
  rest (new_IntegerIterator (Some (Finite start)) (Some (Finite step))
                            (Some (Finite end_))) k
  = if (if 0 <=? d then s + Z.of_nat k * d <=? e else e <=? s + Z.of_nat k * d)
    then Some (Int (s + Z.of_nat k * d)) else None.
Proof.
  intros s d e Hs He. rewrite new_finite. rewrite rest_new by done. fold s d e.
  unfold within. cbn [gtI ltI].
  destruct (0 <=? d); by rewrite <- Z.leb_antisym.
Qed.

Lemma new_unbounded start step end_ :
  end_ = None \/ end_ = Some NaN ->
  new_IntegerIterator (Some (Finite start)) (Some (Finite step)) end_
  = {| _state := OPEN; _next := Int (Math_trunc start);
       _step := Int (Math_trunc step); _last := unbounded (Math_trunc step) |}.
Proof.
  intros H. rewrite new_finite.
  assert (match end_ with
          | Some (Finite q) => Int (Math_trunc q)
          | Some Infinity => IInfinity
          | Some NegInfinity => INegInfinity
          | _ => if 0 <=? Math_trunc step then IInfinity else INegInfinity
          end = unbounded (Math_trunc step)) as ->.
  { by destruct H as [-> | ->]. }
  cbv zeta. unfold within, unbounded. by destruct (0 <=? Math_trunc step).
Qed.

(** X2: a range without [end] (or whose [end] is not a number) never ends:
    every read returns a number.  As long as the numbers are safe integers,
    the [k]-th read returns [start + k step]; beyond them the sums are
    rounded as doubles are, and a range whose sum rounds back to its number
    repeats that number for ever.  A range whose [start] is not finite
    yields nothing, whatever its other options. *)
Theorem integer_range_unbounded_or_empty (start step : Q) (k : nat) :
  let s := Math_trunc start in
  let d := Math_trunc step in
  (forall end_, end_ = None \/ end_ = Some NaN ->
     let range := new_IntegerIterator (Some (Finite start)) (Some (Finite step))
                    end_ in
     rest range k <> None
     /\ (Z.abs s <= MAX_SAFE_INTEGER ->
         Z.abs (s + Z.of_nat k * d) <= MAX_SAFE_INTEGER ->
         rest range k = Some (Int (s + Z.of_nat k * d)))
     /\ (round_double (s + d) = Int s -> rest range k = Some (Int s)))
  /\ (forall x step' end_, Number_isFinite x = false ->
        rest (new_IntegerIterator (Some x) step' end_) k = None).
Proof.
  intros s d. split.
  - intros end_ H range. unfold range. rewrite new_unbounded by done.
    fold s d. split; [|split].
    + apply rest_unbounded. states.
    + intros A B. apply rest_unbounded_safe; [states | done | done].
    + intros R. apply rest_unbounded_stuck; [states | done].
  - intros x step' end_ H. apply IntegerFacts.rest_of_closed.
    unfold new_IntegerIterator. cbv zeta.
    assert (isFiniteI (truncIfFinite (default (Finite 0) (Some x))) = false)
      as ->.
    { by destruct x. }
    by vm_compute.
Qed.

End IntegerRange.

Lemma integer_range_progression_witness :
  Pipelines.Integers.rest
    (Pipelines.Integers.new_IntegerIterator (Some (Finite 5)) (Some (Finite 3))
       (Some (Finite 12))) 2
  = Some (Int 11)
  /\ Pipelines.Integers.rest
       (Pipelines.Integers.new_IntegerIterator (Some (Finite 5)) (Some (Finite 3))
          (Some (Finite 12))) 3
     = None.
Proof.
  split.
  - apply (IntegerRange.integer_range_progression 5 3 12 2); by vm_compute.
  - apply (IntegerRange.integer_range_progression 5 3 12 3); by vm_compute.
Defined.

(** A range that goes down from 5, and one that starts at 2^53: the sum
    2^53 + 1 is no double and rounds to 2^53, so the range stays there. *)
Lemma integer_range_unbounded_or_empty_witness :
  Pipelines.Integers.rest
    (Pipelines.Integers.new_IntegerIterator (Some (Finite 5))
       (Some (Finite (-2))) None) 3
  = Some (Int (-1))
  /\ Pipelines.Integers.rest
       (Pipelines.Integers.new_IntegerIterator
          (Some (Finite (inject_Z (2 ^ 53)))) (Some (Finite 1)) None) 7
     = Some (Int (2 ^ 53))
  /\ Pipelines.Integers.rest
       (Pipelines.Integers.new_IntegerIterator (Some Infinity) None
          (Some (Finite 3))) 0
     = None.
Proof.
  split; [|split].
  - apply (proj1 (IntegerRange.integer_range_unbounded_or_empty 5 (-2) 3) None);
      [by left | by vm_compute | by vm_compute].
  - apply (proj1 (IntegerRange.integer_range_unbounded_or_empty
                    (inject_Z (2 ^ 53)) 1 7) None); [by left | by vm_compute].
  - by apply (proj2 (IntegerRange.integer_range_unbounded_or_empty 0 0 0)).
Defined.

(** The range from 2^53 - 2 to 2^53 + 2 never gets past 2^53: it yields
    2^53 - 2, 2^53 - 1, and then 2^53 again and again, and stays open. *)
Example integer_range_stalls :
  let range := Pipelines.Integers.new_IntegerIterator
                 (Some (Finite (inject_Z (2 ^ 53 - 2)))) None
                 (Some (Finite (inject_Z (2 ^ 53 + 2)))) in
  Pipelines.Integers.rest range 0 = Some (Int (2 ^ 53 - 2))
  /\ Pipelines.Integers.rest range 1 = Some (Int (2 ^ 53 - 1))
  /\ Pipelines.Integers.rest range 2 = Some (Int (2 ^ 53))
  /\ Pipelines.Integers.rest range 3 = Some (Int (2 ^ 53))
  /\ Pipelines.Integers.rest range 50 = Some (Int (2 ^ 53)).
Proof. by vm_compute. Qed.

(** ** Offsets and limits *)

Module Windows.
Import Pipelines PipelineFacts.

(** The offset and the limit that the constructor takes from its options. *)
Definition unreachable (options : Options) : bool :=
  match offset options with Some Infinity => true | _ => false end
  || match limit options with Some NegInfinity => true | _ => false end.

Definition offset_of (options : Options) : Z :=
  if unreachable options then 0
  else match offset options with
       | Some (Finite q) => Z.max (Math_trunc q) 0
       | _ => 0
       end.

Definition limit_of (options : Options) : integer :=
  if unreachable options then Int 0
  else match limit options with
       | Some (Finite q) => Int (Z.max (Math_trunc q) 0)
       | _ => IInfinity
       end.

(** The items of a sequence after [offset] items, [limit] of them at most. *)
Definition window {T : Type} (offset : Z) (limit : integer)
  (f : nat -> option T) (k : nat) : option T :=
  match limit with
  | Int n => if Z.of_nat k <? n then f (Z.to_nat offset + k)%nat else None
  | IInfinity => f (Z.to_nat offset + k)%nat
  | _ => None
  end.

(** What a program has read is the beginning of the sequence [f], and all
    of it once the iterator has ended. *)
Definition reads {T : Type} {X : Source T} (f : nat -> option T)
  (c : state X * list T) : Prop :=
  (forall i v, snd c !! i = Some v -> f i = Some v)
  /\ (ended X (fst c) = true -> f (length (snd c)) = None).

(** Two programs have read the same items so far, and the same sequence
    once both iterators have ended. *)
Definition agree {T : Type} {X1 X2 : Source T}
  (c1 : state X1 * list T) (c2 : state X2 * list T) : Prop :=
  (forall i v1 v2, snd c1 !! i = Some v1 -> snd c2 !! i = Some v2 -> v1 = v2)
  /\ (ended X1 (fst c1) = true -> ended X2 (fst c2) = true -> snd c1 = snd c2).

Lemma reads_ext {T : Type} {X : Source T} (f g : nat -> option T)
  (c : state X * list T) :
  (forall k, f k = g k) -> reads f c -> reads g c.
Proof.
  intros E [H1 H2]. split.
  - intros i v H. rewrite <- E. auto.
  - intros H. rewrite <- E. auto.
Qed.

Lemma reads_agree {T : Type} {X1 X2 : Source T} (f : nat -> option T)
  (c1 : state X1 * list T) (c2 : state X2 * list T) :
  reads f c1 -> reads f c2 -> agree c1 c2.
Proof.
  intros [H1 E1] [H2 E2]. split.
  - intros i v1 v2 A B. apply H1 in A. apply H2 in B. congruence.
  - intros A B. apply (same_sequence f); auto.
Qed.

Lemma moves_reads {T : Type} {X : Source T} (D : Delivers X) l x :
  valid D x -> reads (rest D x) (moves X l x).
Proof. intros V. by apply moves_read. Qed.

Section Transform.

Context {T : Type} {X : Source T}.
Variable D : Delivers X.

Lemma transform_fields options x :
  _offset X (transform X options x) = offset_of options
  /\ _limit X (transform X options x) = limit_of options.
Proof.
  rewrite transform_steps.
  destruct (plain_fields options x) as (_ & _ & _ & Of & L & _).
  unfold SimpleTransformIterator_steps, offset_of, limit_of, unreachable.
  destruct (_ || _); [by split|].
  destruct (offset options) as [[q| | |]|], (limit options) as [[q'| | |]|];
    by split.
Qed.

(** A new transform iterator stands for the window of its source's
    sequence that its options give. *)
Lemma transform_window options x :
  valid D x ->
  valid (stage_delivers D) (transform X options x)
  /\ forall k, rest (stage_delivers D) (transform X options x) k
               = window (offset_of options) (limit_of options) (rest D x) k.
Proof.
  intros V. split; [apply (transform_rest D options x 0%nat V)|].
  intros k. destruct (transform_rest D options x k V) as [_ R].
  destruct (transform_fields options x) as [<- <-]. exact R.
Qed.

Lemma transform_reads options x l :
  valid D x ->
  reads (window (offset_of options) (limit_of options) (rest D x))
        (moves (stage X) l (transform X options x)).
Proof.
  intros V. destruct (transform_window options x V) as [V' R].
  eapply reads_ext; [exact R|]. by apply (moves_reads (stage_delivers D)).
Qed.

End Transform.

Lemma reads_nothing {T : Type} {X : Source T} (f : nat -> option T)
  (c : state X * list T) :
  (forall k, f k = None) -> reads f c -> snd c = [].
Proof.
  intros N [H _]. destruct (snd c) as [|v l] eqn:E; [done|].
  specialize (H 0%nat v eq_refl). congruence.
Qed.

Lemma skip_options_offset (o : number) :
  offset_of {| maxBufferSize := None; autoStart := None; destroySource := None;
               offset := Some o; limit := None |}
  = match o with Finite q => Z.max (Math_trunc q) 0 | _ => 0 end
  /\ limit_of {| maxBufferSize := None; autoStart := None;
                 destroySource := None; offset := Some o; limit := None |}
     = match o with Infinity => Int 0 | _ => IInfinity end.
Proof. by destruct o. Qed.

Lemma take_options_limit (o : number) :
  offset_of {| maxBufferSize := None; autoStart := None; destroySource := None;
               offset := None; limit := Some o |} = 0
  /\ limit_of {| maxBufferSize := None; autoStart := None;
                 destroySource := None; offset := None; limit := Some o |}
     = match o with
       | Finite q => Int (Z.max (Math_trunc q) 0)
       | NegInfinity => Int 0
       | _ => IInfinity
       end.
Proof. by destruct o. Qed.

Lemma skip_reads {T : Type} {X : Source T} (D : Delivers X) (o : number) x l :
  valid D x ->
  reads (window (match o with Finite q => Z.max (Math_trunc q) 0 | _ => 0 end)
                (match o with Infinity => Int 0 | _ => IInfinity end)
                (rest D x))
        (moves (stage X) l (skip X o x)).
Proof.
  intros V. destruct (skip_options_offset o) as [<- <-].
  by apply transform_reads.
Qed.

Lemma take_reads {T : Type} {X : Source T} (D : Delivers X) (o : number) x l :
  valid D x ->
  reads (window 0 (match o with
                   | Finite q => Int (Z.max (Math_trunc q) 0)
                   | NegInfinity => Int 0
                   | _ => IInfinity
                   end) (rest D x))
        (moves (stage X) l (take X o x)).
Proof.
  intros V. destruct (take_options_limit o) as [E <-].
  rewrite <- E at 1. by apply transform_reads.
Qed.

Lemma skip_window {T : Type} {X : Source T} (D : Delivers X) (o : number) x :
  valid D x ->
  valid (stage_delivers D) (skip X o x)
  /\ forall k, rest (stage_delivers D) (skip X o x) k
       = window (match o with Finite q => Z.max (Math_trunc q) 0 | _ => 0 end)
                (match o with Infinity => Int 0 | _ => IInfinity end)
                (rest D x) k.
Proof.
  intros V. destruct (skip_options_offset o) as [<- <-].
  by apply transform_window.
Qed.

Lemma take_window {T : Type} {X : Source T} (D : Delivers X) (o : number) x :
  valid D x ->
  valid (stage_delivers D) (take X o x)
  /\ forall k, rest (stage_delivers D) (take X o x) k
       = window 0 (match o with
                   | Finite q => Int (Z.max (Math_trunc q) 0)
                   | NegInfinity => Int 0
                   | _ => IInfinity
                   end) (rest D x) k.
Proof.
  intros V. destruct (take_options_limit o) as [E <-].
  destruct (transform_window D
    {| maxBufferSize := None; autoStart := None; destroySource := None;
       offset := None; limit := Some o |} x V) as [V' R].
  split; [done|]. intros k. rewrite <- E at 1. apply R.
Qed.

(** X3: skipping [a] items and then [b] items is skipping [a + b] items:
    whatever the source and the order of reads, tasks and events, the items
    read from [x.skip(a).skip(b)] and from [x.skip(a + b)] are the same. *)
Theorem skip_skip {T : Type} {X : Source T} (D : Delivers X)
  (x : state X) (a b : Z) l1 l2 :
  valid D x -> 0 <= a -> 0 <= b ->
  agree (moves (stage (stage X)) l1
           (skip (stage X) (Finite (inject_Z b))
              (skip X (Finite (inject_Z a)) x)))
        (moves (stage X) l2 (skip X (Finite (inject_Z (a + b))) x)).
Proof.
  intros V Ha Hb.
  destruct (skip_window D (Finite (inject_Z a)) x V) as [V1 R1].
  apply (reads_agree (fun k => rest D x (Z.to_nat (a + b) + k))).
  - eapply reads_ext; [|by apply (skip_reads (stage_delivers D))].
    intros k. unfold window. rewrite R1. unfold window.
    rewrite !Math_trunc_inject_Z. f_equal. lia.
  - eapply reads_ext; [|by apply skip_reads].
    intros k. unfold window. by rewrite Math_trunc_inject_Z, Z.max_l by lia.
Qed.

(** X4: taking at most [a] items and then at most [b] items is taking at
    most [min(a, b)] items, for all integers [a] and [b] (a negative limit
    counts as 0). *)
Theorem take_take {T : Type} {X : Source T} (D : Delivers X)
  (x : state X) (a b : Z) l1 l2 :
  valid D x ->
  agree (moves (stage (stage X)) l1
           (take (stage X) (Finite (inject_Z b))
              (take X (Finite (inject_Z a)) x)))
        (moves (stage X) l2 (take X (Finite (inject_Z (Z.min a b))) x)).
Proof.
  intros V.
  destruct (take_window D (Finite (inject_Z a)) x V) as [V1 R1].
  apply (reads_agree
    (fun k => if Z.of_nat k <? Z.max (Z.min a b) 0 then rest D x k else None)).
  - eapply reads_ext; [|by apply (take_reads (stage_delivers D))].
    intros k. unfold window. rewrite R1. unfold window.
    rewrite !Math_trunc_inject_Z. simpl.
    destruct (Z.ltb_spec (Z.of_nat k) (Z.max b 0)),
             (Z.ltb_spec (Z.of_nat k) (Z.max a 0)),
             (Z.ltb_spec (Z.of_nat k) (Z.max (Z.min a b) 0)); try done; lia.
  - eapply reads_ext; [|by apply take_reads].
    intros k. unfold window. by rewrite Math_trunc_inject_Z.
Qed.

(** X5: an offset that is not a number, is negative, or is smaller than 1
    skips nothing, and a limit that is not a number or is [Infinity] cuts
    nothing: what is read from [x.skip(o)] and from [x.take(o)] is then the
    sequence of [x] itself. *)
Theorem skip_and_take_that_change_nothing {T : Type} {X : Source T}
  (D : Delivers X) (x : state X) :
  valid D x ->
  (forall o l,
     match o with
     | Finite q => Math_trunc q <= 0
     | Infinity => False
     | _ => True
     end ->
     reads (rest D x) (moves (stage X) l (skip X o x)))
  /\ (forall o l, o = Infinity \/ o = NaN ->
        reads (rest D x) (moves (stage X) l (take X o x))).
Proof.
  intros V. split.
  - intros o l H. eapply reads_ext; [|by apply skip_reads].
    intros k. unfold window. destruct o as [q| | |]; try done.
    by rewrite Z.max_r by done.
  - intros o l H. eapply reads_ext; [|by apply take_reads].
    intros k. unfold window. by destruct H as [-> | ->].
Qed.

(** X6: nothing is ever read from [x.skip(Infinity)], nor from [x.take(o)]
    when [o] is [-Infinity] or smaller than 1, whatever [x] has to give. *)
Theorem skip_and_take_that_leave_nothing {T : Type} {X : Source T}
  (D : Delivers X) (x : state X) :
  valid D x ->
  (forall l, snd (moves (stage X) l (skip X Infinity x)) = [])
  /\ (forall o l,
        match o with
        | Finite q => Math_trunc q <= 0
        | NegInfinity => True
        | _ => False
        end ->
        snd (moves (stage X) l (take X o x)) = []).
Proof.
  intros V. split.
  - intros l. eapply reads_nothing; [|by apply (skip_reads D Infinity)].
    intros k. unfold window.
    destruct (Z.ltb_spec (Z.of_nat k) 0); [lia | done].
  - intros o l H. eapply reads_nothing; [|by apply (take_reads D o)].
    intros k. unfold window. destruct o as [q| | |]; try done.
    + rewrite Z.max_r by done. destruct (Z.ltb_spec (Z.of_nat k) 0); [lia|done].
    + destruct (Z.ltb_spec (Z.of_nat k) 0); [lia | done].
Qed.


End Windows.

(** The range 0, 1, ..., 20 again; the tasks of the iterators in the order
    of their creation, then one read. *)
Definition one_read_in_row : list (Pipelines.Move two_stages) :=
  [in_row (in_source Pipelines.Init);
   in_row (in_source Pipelines.FillBuffer_task);
   in_row Pipelines.Init; in_row Pipelines.FillBuffer_task; Pipelines.Read].

Definition one_read_in_stage : list (Pipelines.Move one_stage) :=
  [in_stage Pipelines.Init; in_stage Pipelines.FillBuffer_task; Pipelines.Read].

Definition up_to_20 : Pipelines.Integers.IntegerIterator :=
  Pipelines.Integers.new_IntegerIterator None None (Some (Finite 20)).

Lemma skip_skip_witness :
  let c1 := Pipelines.moves two_stages one_read_in_row
              (Pipelines.skip one_stage (Finite (inject_Z 2))
                 (Pipelines.skip numbers_source (Finite (inject_Z 1)) up_to_20)) in
  let c2 := Pipelines.moves one_stage one_read_in_stage
              (Pipelines.skip numbers_source (Finite (inject_Z (1 + 2))) up_to_20) in
  snd c1 = [Int 3] /\ snd c2 = [Int 3] /\ Windows.agree c1 c2.
Proof.
  intros c1 c2. split; [vm_compute; reflexivity|].
  split; [vm_compute; reflexivity|].
  apply (Windows.skip_skip PipelineFacts.IntegerFacts.delivers up_to_20 1 2
           one_read_in_row one_read_in_stage I); lia.
Defined.

Lemma take_take_witness :
  let c1 := Pipelines.moves two_stages one_read_in_row
              (Pipelines.take one_stage (Finite (inject_Z 2))
                 (Pipelines.take numbers_source (Finite (inject_Z 5)) up_to_20)) in
  let c2 := Pipelines.moves one_stage one_read_in_stage
              (Pipelines.take numbers_source (Finite (inject_Z (Z.min 5 2)))
                 up_to_20) in
  snd c1 = [Int 0] /\ Windows.agree c1 c2.
Proof.
  intros c1 c2. split; [vm_compute; reflexivity|].
  exact (Windows.take_take PipelineFacts.IntegerFacts.delivers up_to_20 5 2
           one_read_in_row one_read_in_stage I).
Defined.

Lemma skip_and_take_that_change_nothing_witness :
  let c := Pipelines.moves one_stage one_read_in_stage
             (Pipelines.skip numbers_source NaN up_to_20) in
  snd c = [Int 0] /\ Windows.reads (Pipelines.Integers.rest up_to_20) c.
Proof.
  intros c. split; [vm_compute; reflexivity|].
  exact (proj1 (Windows.skip_and_take_that_change_nothing
                  PipelineFacts.IntegerFacts.delivers up_to_20 I)
               NaN one_read_in_stage I).
Defined.

Lemma skip_and_take_that_leave_nothing_witness :
  snd (Pipelines.moves one_stage one_read_in_stage
         (Pipelines.take numbers_source (Finite 0) up_to_20)) = [].
Proof.
  apply (proj2 (Windows.skip_and_take_that_leave_nothing
                  PipelineFacts.IntegerFacts.delivers up_to_20 I)
               (Finite 0) one_read_in_stage).
  vm_compute. discriminate.
Defined.


(** ** The size of the buffer *)

Module BufferSize.
Import Pipelines PipelineFacts.

Lemma moves_invariant {T : Type} (X : Source T) (P : state X -> Prop) l x :
  (forall x, P x -> P (snd (read X x))) ->
  (forall a x, P x -> P (act X a x)) ->
  P x -> P (fst (moves X l x)).
Proof.
  intros R A. unfold moves. generalize (@nil T).
  revert x. induction l as [|m l IH]; intros x out H; [done|].
  simpl. destruct m as [|a]; simpl.
  - specialize (R x H). destruct (read X x) as [[v|] x']; by apply IH.
  - apply IH. by apply A.
Qed.

Section Stage.

Context {T : Type} {X : Source T}.

#[local] Abbreviation Stage := (SimpleTransformIterator X).
#[local] Abbreviation _buffer := (_buffer X).
#[local] Abbreviation _maxBufferSize := (_maxBufferSize X).
#[local] Abbreviation _pushedCount := (_pushedCount X).

(** The buffer holds no more than [maxBufferSize] items. *)
Definition fits (it : Stage) : Prop :=
  match _maxBufferSize it with
  | Int m => lengthZ (_buffer it) <= m
  | _ => True
  end.

(** [it'] has the buffer and the [maxBufferSize] of [it]. *)
Definition same_buffer (it it' : Stage) : Prop :=
  _buffer it' = _buffer it /\ _maxBufferSize it' = _maxBufferSize it.

Lemma same_buffer_fits it it' : same_buffer it it' -> fits it -> fits it'.
Proof. unfold fits. by intros [-> ->]. Qed.

Lemma same_buffer_trans it1 it2 it3 :
  same_buffer it1 it2 -> same_buffer it2 it3 -> same_buffer it1 it3.
Proof. intros [] []. split; congruence. Qed.

Lemma changeState_same_buffer s it :
  same_buffer it (snd (_changeState X s it)).
Proof. unfold Pipelines._changeState. by destruct (_ && _). Qed.

Lemma _completeClose_same_buffer it : same_buffer it (_completeClose X it).
Proof. unfold Pipelines._completeClose, Pipelines._changeState. by destruct (_ && _). Qed.

Lemma close_same_buffer it : same_buffer it (close X it).
Proof.
  unfold Pipelines.close.
  destruct (negb _);
    [apply _completeClose_same_buffer | apply changeState_same_buffer].
Qed.

Lemma _fillBufferAsync_same_buffer it : same_buffer it (_fillBufferAsync X it).
Proof. unfold Pipelines._fillBufferAsync. by destruct (negb _). Qed.

Lemma fillBuffer_done_same_buffer it : same_buffer it (fillBuffer_done X it).
Proof.
  unfold Pipelines.fillBuffer_done.
  destruct (closed X _).
  - destruct (_completeClose_same_buffer (set_reading X false it)). by split.
  - destruct (negb _); [|done]. destruct (ltI _ _); [|done].
    apply (_fillBufferAsync_same_buffer (set_reading X false it)).
Qed.

Lemma pushed_max item s it :
  _maxBufferSize (pushed item s it) = _maxBufferSize it.
Proof.
  unfold pushed. cbv zeta.
  destruct (eqI _ _); rewrite ?(proj2 (close_same_buffer _));
    unfold Pipelines._push; by destruct (negb _).
Qed.

Lemma loop_max fuel count it :
  _maxBufferSize (loop X fuel count it) = _maxBufferSize it.
Proof.
  revert it. induction fuel as [|fuel IH]; intros it; [done|].
  rewrite loop_S. destruct (_ && _); [|done].
  destruct (read X _) as [[item|] s]; [|done].
  destruct (negb _); rewrite IH; [done | apply pushed_max].
Qed.

(** The loop pushes no more items than it was asked for. *)
Lemma loop_pushes fuel c it :
  let it' := loop X fuel (Int c) it in
  _maxBufferSize it' = _maxBufferSize it
  /\ lengthZ (_buffer it') - _pushedCount it'
     = lengthZ (_buffer it) - _pushedCount it
  /\ _pushedCount it <= _pushedCount it'
  /\ (_pushedCount it <= c -> _pushedCount it' <= c).
Proof.
  revert it. induction fuel as [|fuel IH]; intros it; [by repeat split|].
  cbv zeta. rewrite loop_S.
  destruct (closed X it) eqn:C; cbn [negb andb ltI]; [by repeat split|].
  destruct (Z.ltb_spec (_pushedCount it) c) as [P|P]; [|by repeat split].
  destruct (read X (Pipelines._source X it)) as [[item|] s];
    [|by repeat split].
  destruct (Z.eqb_spec (Pipelines._offset X it) 0) as [Z0|Z0]; cbn [negb].
  - destruct (pushed_shape item s it C) as (B & _ & _).
    destruct (pushed_count item s it C) as [Pc _].
    pose proof (pushed_max item s it) as M.
    destruct (IH (pushed item s it)) as (H1 & H2 & H3 & H4).
    rewrite H1, H2, M, B, Pc. unfold lengthZ. rewrite length_app. simpl.
    repeat split; lia.
  - apply (IH (set_offset X _ (set_source X s it))).
Qed.

Lemma _fillBuffer_fits it : fits it -> fits (_fillBuffer X it).
Proof.
  intros F. unfold Pipelines._fillBuffer.
  destruct (_reading X it); [done|].
  destruct (closed X it);
    [eapply same_buffer_fits; [apply _completeClose_same_buffer | done]|].
  destruct (gtI _ _) eqn:G; [|done].
  eapply same_buffer_fits; [apply fillBuffer_done_same_buffer|].
  set (it1 := set_reading X true _).
  unfold Pipelines._readAndTransformSimple.
  destruct (ended X _); [done|].
  set (it2 := if eqI _ _ then _ else _).
  assert (same_buffer it it2 /\ _pushedCount it2 = 0) as [[B2 M2] P2].
  { unfold it2. destruct (eqI _ _); [|done].
    split; [apply (close_same_buffer it1)|].
    unfold Pipelines.close, Pipelines._completeClose, Pipelines._changeState.
    destruct (negb _); by destruct (_ && _). }
  change (Pipelines._maxBufferSize X it1) with (_maxBufferSize it) in *.
  change (Pipelines._buffer X it1) with (_buffer it) in *.
  unfold fits in *.
  destruct (_maxBufferSize it) as [m| | |] eqn:EM.
  - cbn [subI addI negI minI ltI] in *.
    set (c := if 128 <? _ then _ else _) in *.
    assert (exists c', c = Int c' /\ c' <= m - lengthZ (_buffer it)) as (c' & -> & Hc).
    { unfold c. destruct (Z.ltb_spec 128 (m + - lengthZ (_buffer it)));
        eexists; split; try done; lia. }
    cbn [loop_fuel].
    destruct (loop_pushes
      (S (Z.to_nat (Pipelines._offset X it2 + (c' - _pushedCount it2))))
      c' it2) as (H1 & H2 & H3 & H4).
    rewrite H1, M2. cbn [gtI ltI] in G. apply Z.ltb_lt in G.
    rewrite B2, P2 in *. lia.
  - by rewrite loop_max, M2.
  - by rewrite loop_max, M2.
  - by rewrite loop_max, M2.
Qed.

Lemma _fillBuffer_max it : _maxBufferSize (_fillBuffer X it) = _maxBufferSize it.
Proof.
  unfold Pipelines._fillBuffer.
  destruct (_reading X it); [done|].
  destruct (closed X it); [apply _completeClose_same_buffer|].
  destruct (gtI _ _); [|done].
  rewrite (proj2 (fillBuffer_done_same_buffer _)).
  unfold Pipelines._readAndTransformSimple.
  destruct (ended X _); [done|]. rewrite loop_max.
  destruct (eqI _ _); [|done]. by rewrite (proj2 (close_same_buffer _)).
Qed.

Lemma _init_same_buffer it : same_buffer it (_init X it).
Proof.
  unfold Pipelines._init. cbv zeta.
  set (it1 := snd _).
  assert (same_buffer it it1) as B.
  { unfold it1, Pipelines._changeState. by destruct (_ && _). }
  destruct (_autoStart X it1); [|done].
  eapply same_buffer_trans; [exact B | apply _fillBufferAsync_same_buffer].
Qed.

Lemma _end_same_buffer d it : same_buffer it (_end X d it).
Proof.
  unfold Pipelines._end, Pipelines._changeState.
  destruct (_destroySource X it); by destruct (_ && _).
Qed.

(** The invariant: the buffer fits, and [maxBufferSize] is what it was. *)
Definition bounded (max : integer) (it : Stage) : Prop :=
  _maxBufferSize it = max /\ fits it.

Lemma same_buffer_bounded max it it' :
  same_buffer it it' -> bounded max it -> bounded max it'.
Proof.
  intros B [M F]. split; [by rewrite (proj2 B) | by apply (same_buffer_fits it)].
Qed.

Lemma stage_act_bounded max a it :
  bounded max it -> bounded max (stage_act X a it).
Proof.
  intros H. destruct a; simpl.
  - apply (same_buffer_bounded max it); [apply _init_same_buffer | done].
  - destruct H as [M F].
    split; [by rewrite _fillBuffer_max | by apply _fillBuffer_fits].
  - destruct H as [M F].
    split; [by rewrite _fillBuffer_max | by apply _fillBuffer_fits].
  - destruct (ended X _); [|done].
    apply (same_buffer_bounded max it); [apply close_same_buffer | done].
  - destruct (_ && _); [|done].
    apply (same_buffer_bounded max it); [apply _end_same_buffer | done].
  - done.
Qed.

Lemma stage_read_bounded max it :
  bounded max it -> bounded max (snd (stage_read X it)).
Proof.
  intros [M F]. unfold stage_read. destruct (done X it); [done|].
  cbn [snd]. set (it1 := set_buffer X _ it).
  assert (bounded max it1) as B1.
  { split; [done|]. unfold fits in *.
    change (Pipelines._maxBufferSize X it1) with (_maxBufferSize it).
    destruct (_maxBufferSize it); try done.
    change (Pipelines._buffer X it1) with (tail (_buffer it)).
    unfold lengthZ in *. destruct (_buffer it); simpl in *; lia. }
  destruct (_ && _); [|done]. destruct (negb _); [|done].
  apply (same_buffer_bounded max it1); [apply _fillBufferAsync_same_buffer | done].
Qed.

Lemma transform_bounded options x :
  bounded (coerce_maxBufferSize (default (Finite 4) (maxBufferSize options)))
          (transform X options x).
Proof.
  rewrite transform_steps.
  assert (bounded
            (coerce_maxBufferSize (default (Finite 4) (maxBufferSize options)))
            (transform X (plain options) x)) as B.
  { unfold transform. cbn [plain maxBufferSize].
    match goal with |- context [close X ?i] => set (it0 := i) end.
    assert (bounded
              (coerce_maxBufferSize (default (Finite 4) (maxBufferSize options)))
              it0) as B0.
    { split; [done|]. unfold fits. cbn.
      pose proof (coerce_maxBufferSize_positive
                    (default (Finite 4) (maxBufferSize options))) as P.
      destruct (coerce_maxBufferSize _); try done. unfold lengthZ. simpl. lia. }
    cbv zeta. fold it0.
    destruct (ended X x);
      [apply (same_buffer_bounded _ it0); [apply close_same_buffer | done] | done]. }
  unfold SimpleTransformIterator_steps.
  destruct (_ || _); [done|].
  by destruct (offset options) as [[]|], (limit options) as [[]|].
Qed.

End Stage.

(** X8: the buffer of a transform iterator never holds more than
    [maxBufferSize] items, and [maxBufferSize] stays what the constructor
    made of its option, whatever the source and the order of reads, tasks
    and events. *)
Theorem buffer_never_exceeds_maxBufferSize {T : Type} (X : Source T)
  (options : Options) (x : state X) (l : list (Move (stage X))) :
  let it := fst (moves (stage X) l (transform X options x)) in
  _maxBufferSize X it
  = coerce_maxBufferSize (default (Finite 4) (maxBufferSize options))
  /\ match _maxBufferSize X it with
     | Int m => 1 <= m /\ lengthZ (_buffer X it) <= m
     | IInfinity => True
     | _ => False
     end.
Proof.
  intros it.
  assert (bounded
            (coerce_maxBufferSize (default (Finite 4) (maxBufferSize options)))
            it) as [M F].
  { apply (moves_invariant (stage X)).
    - apply stage_read_bounded.
    - intros a. apply stage_act_bounded.
    - apply transform_bounded. }
  split; [done|]. unfold fits in F. rewrite M in *.
  pose proof (coerce_maxBufferSize_positive
                (default (Finite 4) (maxBufferSize options))) as P.
  by destruct (coerce_maxBufferSize _).
Qed.

End BufferSize.

(** ** How much a transform iterator reads from its source *)

Module SourceReads.
Import Pipelines PipelineFacts Sources BufferSize.

Section Counted.

Context {T : Type} {X : Source T}.

#[local] Abbreviation Stage := (SimpleTransformIterator (counted X)).

(** The items read from the source so far, the items still to skip and the
    items still to push are [total] at most. *)
Definition within_total (total : Z) (it : Stage) : Prop :=
  0 <= _offset (counted X) it
  /\ exists n, _limit (counted X) it = Int n /\ 0 <= n
     /\ Z.of_nat (snd (_source (counted X) it)) + _offset (counted X) it + n
        <= total.

(** The source of [it'] has returned as many items as that of [it], and
    the offset and the limit are the same. *)
Definition same_steps (it it' : Stage) : Prop :=
  snd (_source (counted X) it') = snd (_source (counted X) it)
  /\ _offset (counted X) it' = _offset (counted X) it
  /\ _limit (counted X) it' = _limit (counted X) it.

Lemma same_steps_within total it it' :
  same_steps it it' -> within_total total it -> within_total total it'.
Proof. unfold within_total. by intros (-> & -> & ->). Qed.

Lemma same_steps_trans it1 it2 it3 :
  same_steps it1 it2 -> same_steps it2 it3 -> same_steps it1 it3.
Proof. intros (? & ? & ?) (? & ? & ?). repeat split; congruence. Qed.

Lemma close_same_steps it : same_steps it (close (counted X) it).
Proof.
  destruct (close_closes it) as []. split; [by f_equal | by split].
Qed.

Lemma _completeClose_same_steps it :
  same_steps it (_completeClose (counted X) it).
Proof.
  destruct (_completeClose_closes it) as []. split; [by f_equal | by split].
Qed.

Lemma pushed_limit item s it :
  closed (counted X) (pushed item s it) = true
  \/ _limit (counted X) (pushed item s it) <> Int 0.
Proof.
  unfold pushed. cbv zeta. destruct (eqI _ _) eqn:E.
  - left. apply close_closes.
  - right. by apply eqI_Int_0.
Qed.

Lemma loop_within total fuel count it :
  within_total total it ->
  closed (counted X) it = true \/ _limit (counted X) it <> Int 0 ->
  within_total total (loop (counted X) fuel count it).
Proof.
  revert it. induction fuel as [|fuel IH]; intros it W N; [done|].
  rewrite loop_S.
  destruct (closed (counted X) it) eqn:C; cbn [negb andb]; [done|].
  destruct N as [|N]; [done|].
  destruct (ltI _ _); [|done].
  destruct W as (O & n & EL & Hn & Hs).
  assert (n <> 0) as Hn0 by congruence.
  destruct (_source (counted X) it) as [x k] eqn:ES. cbn [snd] in Hs.
  unfold read, counted at 1. cbn [fst snd].
  destruct (Pipelines.read X x) as [[item|] x'].
  - destruct (Z.eqb_spec (_offset (counted X) it) 0) as [Z0|Z0]; cbn [negb].
    + apply IH.
      * unfold pushed, Pipelines._push.
        change (done (counted X) (set_source (counted X) (x', S k) it))
          with (done (counted X) it).
        rewrite (not_closed_not_done it C). cbn [negb]. cbv zeta.
        set (it3 := set_limit (counted X) _ _).
        assert (within_total total it3) as W3.
        { split; [done|]. exists (n + - (1)). unfold it3. cbn.
          rewrite EL. cbn. split; [done|]. split; lia. }
        destruct (eqI _ _); [|done].
        apply (same_steps_within total it3); [apply close_same_steps | done].
      * by apply pushed_limit.
    + apply IH; [|by right].
      split; [cbn; lia|]. exists n. cbn. split; [done|]. split; lia.
  - split; [done|]. exists n. cbn. split; [done|]. split; lia.
Qed.

Lemma _fillBufferAsync_same_steps it :
  same_steps it (_fillBufferAsync (counted X) it).
Proof. unfold Pipelines._fillBufferAsync. by destruct (negb _). Qed.

Lemma fillBuffer_done_same_steps it :
  same_steps it (fillBuffer_done (counted X) it).
Proof.
  unfold Pipelines.fillBuffer_done.
  destruct (closed (counted X) _).
  - apply (_completeClose_same_steps (set_reading (counted X) false it)).
  - destruct (negb _); [|done]. destruct (ltI _ _); [|done].
    apply (_fillBufferAsync_same_steps (set_reading (counted X) false it)).
Qed.

Lemma _fillBuffer_within total it :
  within_total total it -> within_total total (_fillBuffer (counted X) it).
Proof.
  intros W. unfold Pipelines._fillBuffer.
  destruct (_reading (counted X) it); [done|].
  destruct (closed (counted X) it);
    [apply (same_steps_within total it); [apply _completeClose_same_steps | done]|].
  destruct (gtI _ _); [|done].
  eapply same_steps_within; [apply fillBuffer_done_same_steps|].
  unfold Pipelines._readAndTransformSimple.
  destruct (ended (counted X) _); [done|].
  set (it1 := set_reading (counted X) true _).
  destruct (eqI (_limit (counted X) it1) (Int 0)) eqn:E.
  - apply loop_within; [|left; apply close_closes].
    apply (same_steps_within total it1); [apply close_same_steps | done].
  - apply loop_within; [done | right; by apply eqI_Int_0].
Qed.

Lemma _init_same_steps it : same_steps it (_init (counted X) it).
Proof.
  unfold Pipelines._init. cbv zeta.
  set (it1 := snd _).
  assert (same_steps it it1) as B.
  { unfold it1, Pipelines._changeState. by destruct (_ && _). }
  destruct (_autoStart (counted X) it1); [|done].
  eapply same_steps_trans; [exact B | apply _fillBufferAsync_same_steps].
Qed.

Lemma _end_same_steps d it : same_steps it (_end (counted X) d it).
Proof.
  unfold Pipelines._end, Pipelines._changeState.
  destruct (_destroySource (counted X) it); by destruct (_ && _).
Qed.

Lemma stage_act_within total a it :
  within_total total it -> within_total total (stage_act (counted X) a it).
Proof.
  intros W. destruct a; cbn [stage_act].
  - apply (same_steps_within total it); [apply _init_same_steps | done].
  - by apply _fillBuffer_within.
  - by apply _fillBuffer_within.
  - destruct (ended (counted X) _); [|done].
    apply (same_steps_within total it); [apply close_same_steps | done].
  - destruct (_ && _); [|done].
    apply (same_steps_within total it); [apply _end_same_steps | done].
  - done.
Qed.

Lemma stage_read_within total it :
  within_total total it -> within_total total (snd (stage_read (counted X) it)).
Proof.
  intros W. unfold stage_read. destruct (done (counted X) it); [done|].
  cbn [snd]. destruct (_ && _); [|done]. destruct (negb _); [|done].
  apply (same_steps_within total
           (set_buffer (counted X) (tail (_buffer (counted X) it)) it));
    [apply _fillBufferAsync_same_steps | done].
Qed.

End Counted.

(** X9: an iterator that [transform] makes with an offset and a limit as
    its only transformation options (what [skip], [take] and [range] make;
    no [filter], [map] or [transform]), the limit finite, never reads more
    items from its source than its offset and its limit together: the
    number of items that the source's [read()] has returned never exceeds
    that sum, whatever the order of reads, tasks and events. *)
Theorem reads_at_most_offset_plus_limit {T : Type} (X : Source T)
  (options : Options) (q : Q) (x : state X)
  (l : list (Move (stage (counted X)))) :
  limit options = Some (Finite q) ->
  let it := fst (moves (stage (counted X)) l
                   (transform (counted X) options (x, 0%nat))) in
  Z.of_nat (snd (_source (counted X) it))
  <= match offset options with
     | Some (Finite p) => Z.max (Math_trunc p) 0
     | _ => 0
     end + Z.max (Math_trunc q) 0.
Proof.
  intros Hl it.
  set (total := _ + _).
  assert (within_total total it) as (O & n & _ & Hn & H); [|lia].
  apply (moves_invariant (stage (counted X))).
  - apply stage_read_within.
  - intros a. apply stage_act_within.
  - rewrite transform_steps.
    destruct (plain_fields (X := counted X) options (x, 0%nat))
      as (_ & Sx & _ & Of & L & _).
    set (it1 := transform (counted X) (plain options) (x, 0%nat)) in *.
    clearbody it1.
    unfold SimpleTransformIterator_steps, within_total. rewrite Hl.
    destruct (offset options) as [[p| | |]|]; simpl; rewrite ?Of, ?Sx;
      (split; [lia|]); eexists; (split; [reflexivity|]); simpl;
      unfold total; lia.
Qed.

Lemma reads_at_most_offset_plus_limit_witness :
  let options := {| Pipelines.maxBufferSize := None;
                    Pipelines.autoStart := None;
                    Pipelines.destroySource := None;
                    Pipelines.offset := Some (Finite 3);
                    Pipelines.limit := Some (Finite 2) |} in
  let X := counted numbers_source in
  let it := fst (Pipelines.moves (Pipelines.stage X)
                   [@Pipelines.Act _ (Pipelines.stage X) Pipelines.Init;
                    @Pipelines.Act _ (Pipelines.stage X)
                      Pipelines.FillBuffer_task;
                    Pipelines.Read; Pipelines.Read]
                   (Pipelines.transform X options (up_to_20, 0%nat))) in
  Z.of_nat (snd (Pipelines._source X it)) = 5
  /\ Z.of_nat (snd (Pipelines._source X it)) <= 3 + 2.
Proof.
  intros options X it. split; [vm_compute; reflexivity|].
  exact (reads_at_most_offset_plus_limit numbers_source options 2 up_to_20
           _ eq_refl).
Defined.

End SourceReads.

(** ** A single item *)

Module SingletonFacts.
Import Pipelines PipelineFacts Sources Sources.Singleton Windows.

Section Items.

Context {T : Type}.

#[local] Abbreviation Single := (SingletonIterator T).

(** A closed iterator that was not destroyed has given its item. *)
Definition valid_single (it : Single) : Prop :=
  closed it = true -> destroyed it = false -> _item it = None.

(** An iterator that was not destroyed; while open, it has an item. *)
Definition alive_single (it : Single) : Prop :=
  _state it <= ENDED /\ (closed it = false -> is_Some (_item it)).

Lemma changeState_item s (it : Single) : _item (_changeState s it) = _item it.
Proof. unfold _changeState. by destruct (_ && _). Qed.

Lemma read_closes (it : Single) : closed (snd (read it)) = true.
Proof.
  unfold read, close, _changeState, closed. cbn [snd _state].
  destruct (Z.ltb_spec (_state it) CLOSED), (Z.ltb_spec (_state it) ENDED);
    cbn [andb _state]; states.
Qed.

Lemma read_valid_single (it : Single) : valid_single (snd (read it)).
Proof. intros _ _. unfold read, close. cbn [snd]. by rewrite changeState_item. Qed.

Lemma act_valid_single a (it : Single) :
  valid_single it -> valid_single (act a it).
Proof.
  intros V. destruct a. cbn [act]. destruct (closed it) eqn:C; [|done].
  intros _ Hd. unfold _end in *. rewrite changeState_item. apply V; [done|].
  unfold _changeState, destroyed in *.
  destruct (Z.ltb_spec (_state it) ENDED); cbn [andb] in Hd; [states | done].
Qed.

Lemma destroy_valid_single (it : Single) :
  valid_single it -> valid_single (destroy it).
Proof.
  intros V. unfold destroy. destruct (done it) eqn:Dn; [done|].
  cbn [negb]. intros _ Hd. exfalso. revert Hd.
  unfold _end, _changeState, destroyed, done in *.
  destruct (Z.ltb_spec (_state it) DESTROYED),
           (Z.ltb_spec (_state it) ENDED); cbn [andb _state]; states.
Qed.

Lemma ended_rest_single (it : Single) :
  valid_single it -> ended it = true -> rest it O = None.
Proof.
  intros V E. apply V; unfold ended, closed, destroyed in *; states.
Qed.

Lemma read_item_single (it : Single) v :
  fst (read it) = Some v ->
  rest it O = Some v /\ forall k, rest (snd (read it)) k = rest it (S k).
Proof.
  intros H. split; [done|]. intros [|k]; [|done].
  unfold read, close. cbn [snd rest]. by rewrite changeState_item.
Qed.

Lemma read_null_single (it : Single) :
  fst (read it) = None -> forall k, rest (snd (read it)) k = rest it k.
Proof.
  intros H [|k]; [|done].
  unfold read, close in *. cbn [fst snd rest] in *.
  by rewrite changeState_item.
Qed.

Lemma act_rest_single a (it : Single) k : rest (act a it) k = rest it k.
Proof.
  destruct a, k as [|k]; [|done]. cbn [act rest].
  destruct (closed it); [|done]. apply changeState_item.
Qed.

(** A singleton delivers its item, once. *)
Definition delivers : Delivers (source T) :=
  @Build_Delivers T (source T) valid_single rest
    (fun x _ => read_valid_single x)
    act_valid_single
    destroy_valid_single
    (fun x v _ => read_item_single x v)
    (fun x _ => read_null_single x)
    (fun a x _ => act_rest_single a x)
    ended_rest_single
    (fun x k _ _ => eq_refl).

Lemma read_alive_single (it : Single) :
  alive_single it -> alive_single (snd (read it)).
Proof.
  intros [A _]. split; [|by rewrite read_closes].
  unfold read, close, _changeState. cbn [snd _state].
  destruct (_ && _); cbn [_state]; states.
Qed.

Lemma act_alive_single a (it : Single) :
  alive_single it -> alive_single (act a it).
Proof.
  intros [A B]. destruct a. cbn [act].
  destruct (closed it) eqn:C; [|split; [done | by rewrite C]].
  split.
  - unfold _end, _changeState. destruct (_ && _); cbn [_state]; states.
  - intros C'. exfalso. revert C'.
    unfold _end, _changeState, closed in *.
    destruct (_ && _); cbn [_state]; states.
Qed.

Lemma progress_single (it : Single) :
  alive_single it ->
  exists l, fst (read (acts (source T) l it)) <> None
            \/ ended (acts (source T) l it) = true.
Proof.
  intros [A B]. destruct (closed it) eqn:C.
  - exists [End_task]. right. cbn. rewrite C.
    unfold ended, _end, _changeState.
    destruct (Z.ltb_spec (_state it) ENDED); cbn [andb _state];
      unfold closed in C; states.
  - exists []. left. cbn. destruct (B eq_refl) as [v ->]. done.
Qed.

Definition live : Live delivers :=
  @Build_Live T (source T) delivers alive_single
    (fun x _ => read_alive_single x) (fun a x _ => act_alive_single a x)
    (fun x _ => progress_single x).

Lemma new_valid_alive (item : option T) :
  valid_single (new_SingletonIterator item)
  /\ alive_single (new_SingletonIterator item).
Proof.
  destruct item as [v|]; (split; [|split]); try by vm_compute.
  intros _. by eexists.
Qed.

End Items.

(** X10: a [SingletonIterator] yields its item exactly once: whatever the
    order of reads and tasks, the program has read nothing or just the item;
    once the iterator has ended, it has read the item (nothing for [null]);
    the iterator can always be brought to its end; and since [read()] does
    not look at the state, a first [read()] after [destroy()] still returns
    the item. *)
Theorem singleton_yields_its_item_once {T : Type} (item : option T)
  (l : list (Move (source T))) :
  let c := moves (source T) l (new_SingletonIterator item) in
  (snd c = [] \/ snd c = option_list item)
  /\ (ended (fst c) = true -> snd c = option_list item)
  /\ (exists l', ended (fst (moves (source T) (l ++ l')
                              (new_SingletonIterator item))) = true)
  /\ fst (read (destroy (new_SingletonIterator item))) = item.
Proof.
  intros c. destruct (new_valid_alive item) as [V A].
  destruct (moves_reads delivers l _ V) as [H E]. fold c in H, E.
  assert (snd c = [] \/ snd c = option_list item) as HA.
  { destruct (snd c) as [|v [|w l1]] eqn:Ec; [by left| |].
    - right. specialize (H 0%nat v eq_refl). cbn in H.
      replace (_item (new_SingletonIterator item)) with item in H
        by by destruct item.
      by subst.
    - specialize (H 1%nat w eq_refl). done. }
  split; [done|]. split; [|split].
  - intros En. specialize (E En). destruct HA as [HA|HA]; [|done].
    rewrite HA in *. cbn in E.
    replace (_item (new_SingletonIterator item)) with item in E
      by by destruct item.
    by subst.
  - by apply (can_complete live 1%nat l _ V A).
  - by destruct item.
Qed.

End SingletonFacts.


(** ** The items of an array, read one by one *)

(** [n] calls of [read()] in a row: what they return, and the world
    afterwards. *)
Fixpoint read_times (n : nat) (r : Ref) (w : World) : list (option Item) * World :=
  match n with
  | O => ([], w)
  | S n =>
      let '(item, w) := read r w in
      let '(items, w) := read_times n r w in
      (item :: items, w)
  end.

Section ArrayReads.

Variable r : Ref.

(** An open [ArrayIterator] that holds [buffer]. *)
Definition holds (buffer : list Item) (w : World) : Prop :=
  allocated r w
  /\ kind (obj r w) = ArrayIterator (Some buffer)
  /\ _state (base (obj r w)) = OPEN.

(** The iterator after its last item: closed, with its [_end] queued. *)
Definition drained (w : World) : Prop :=
  allocated r w
  /\ kind (obj r w) = ArrayIterator None
  /\ _state (base (obj r w)) = CLOSED
  /\ last (microtasks w) = Some (End r false).

Lemma read_array buffer w :
  holds buffer w -> read r w = ArrayIterator_read r w.
Proof. intros (_ & K & _). unfold read. by rewrite K. Qed.

Lemma read_more x y buffer w :
  holds (x :: y :: buffer) w ->
  fst (read r w) = Some x /\ holds (y :: buffer) (snd (read r w))
  /\ (forall r', r' <> r -> obj r' (snd (read r w)) = obj r' w).
Proof.
  intros H. rewrite (read_array _ _ H). destruct H as (A & K & S).
  unfold ArrayIterator_read. rewrite K. cbn [head tail length Nat.eqb fst snd].
  split; [done|]. split.
  - split; [by apply allocated_upd|].
    rewrite obj_upd_eq by done. unfold on_array. cbn [kind base]. by rewrite K.
  - intros r' Hr. by apply obj_upd_ne.
Qed.

Lemma read_last x w :
  holds [x] w ->
  fst (read r w) = Some x /\ drained (snd (read r w))
  /\ (forall r', r' <> r -> obj r' (snd (read r w)) = obj r' w).
Proof.
  intros H. rewrite (read_array _ _ H). destruct H as (A & K & S).
  unfold ArrayIterator_read. rewrite K. cbn [head tail length Nat.eqb fst snd].
  split; [done|].
  set (w1 := upd r (on_array (fun _ => None)) w).
  assert (A1 : allocated r w1) by by apply allocated_upd.
  assert (O1 : obj r w1 = on_array (fun _ => None) (obj r w))
    by by apply obj_upd_eq.
  unfold AsyncIterator_close, _changeState.
  rewrite O1. cbn [on_array base]. rewrite S.
  change ((OPEN <? CLOSED) && (OPEN <? ENDED)) with true.
  change (CLOSED =? ENDED) with false. cbn iota.
  unfold _endAsync. split; [split; [|split; [|split]]|].
  - unfold queueMicrotask, allocated. cbn [heap]. by apply allocated_upd.
  - unfold queueMicrotask, obj at 1. cbn [heap].
    fold (obj r (upd r (on_base (set_state CLOSED)) w1)).
    rewrite obj_upd_eq, O1 by done. cbn. by rewrite K.
  - unfold queueMicrotask, obj at 1. cbn [heap].
    fold (obj r (upd r (on_base (set_state CLOSED)) w1)).
    by rewrite obj_upd_eq by done.
  - cbn. by rewrite last_snoc.
  - intros r' Hr. unfold queueMicrotask, obj at 1. cbn [heap].
    fold (obj r' (upd r (on_base (set_state CLOSED)) w1)).
    rewrite obj_upd_ne by done. by apply obj_upd_ne.
Qed.

Lemma read_drained w :
  drained w -> read r w = (None, w).
Proof.
  intros (_ & K & _). unfold read, ArrayIterator_read. by rewrite K.
Qed.

Lemma read_times_holds x buffer w :
  holds (x :: buffer) w ->
  fst (read_times (S (length buffer)) r w) = Some <$> (x :: buffer)
  /\ drained (snd (read_times (S (length buffer)) r w))
  /\ (forall r', r' <> r ->
        obj r' (snd (read_times (S (length buffer)) r w)) = obj r' w).
Proof.
  revert x w. induction buffer as [|y buffer IH]; intros x w H.
  - destruct (read_last x w H) as (E & D & O).
    cbn. destruct (read r w) as [item w']. cbn in *. by subst.
  - destruct (read_more x y buffer w H) as (E & H' & O).
    change (read_times (S (length (y :: buffer))) r w)
      with (let '(item, w) := read r w in
            let '(items, w) := read_times (S (length buffer)) r w in
            (item :: items, w)).
    destruct (read r w) as [item w']. cbn [fst snd] in *.
    destruct (IH y w' H') as (E' & D' & O').
    destruct (read_times (S (length buffer)) r w') as [items w''].
    cbn [fst snd] in *. split; [by rewrite E, E'|]. split; [done|].
    intros r' Hr. rewrite O' by done. by apply O.
Qed.

End ArrayReads.

Lemma new_ArrayIterator_ref items w :
  fst (new_ArrayIterator items w) = length (heap w).
Proof. unfold new_ArrayIterator. cbn. by destruct (_ =? _)%nat. Qed.

Lemma new_ArrayIterator_holds x items w :
  holds (length (heap w)) (x :: items) (snd (new_ArrayIterator (x :: items) w))
  /\ (forall r', allocated r' w ->
        obj r' (snd (new_ArrayIterator (x :: items) w)) = obj r' w).
Proof.
  unfold new_ArrayIterator. cbn [alloc length Nat.eqb snd].
  set (it := new_iter OPEN (ArrayIterator None)).
  set (r := length (heap w)).
  set (w0 := {| heap := heap w ++ [it]; microtasks := microtasks w;
                log := log w |}).
  assert (A0 : allocated r w0).
  { unfold allocated, w0, r. cbn. rewrite length_app. cbn. lia. }
  assert (O0 : obj r w0 = it) by apply (obj_alloc_new it w).
  set (w1 := upd r (on_array (fun _ => Some (x :: items))) w0).
  assert (A1 : allocated r w1) by by apply allocated_upd.
  assert (O1 : obj r w1 = on_array (fun _ => Some (x :: items)) it).
  { unfold w1. by rewrite obj_upd_eq, O0. }
  unfold readable_set. rewrite O1.
  change (negb (Bool.eqb _ _)) with true. cbn iota.
  change (true && negb (done (base (on_array (fun _ => Some (x :: items)) it))))
    with true. cbn iota.
  split; [split; [|split]|].
  - unfold queueMicrotask, allocated. cbn [heap]. by apply allocated_upd.
  - unfold queueMicrotask, obj at 1. cbn [heap].
    fold (obj r (upd r (on_base (set__readable true)) w1)).
    by rewrite obj_upd_eq, O1.
  - unfold queueMicrotask, obj at 1. cbn [heap].
    fold (obj r (upd r (on_base (set__readable true)) w1)).
    by rewrite obj_upd_eq, O1.
  - intros r' Hr. unfold queueMicrotask, obj at 1. cbn [heap].
    fold (obj r' (upd r (on_base (set__readable true)) w1)).
    assert (r <> r') by (unfold allocated, r in *; lia).
    rewrite obj_upd_ne by done. unfold w1. rewrite obj_upd_ne by done.
    exact (obj_alloc_old it w r' Hr).
Qed.

Lemma new_ArrayIterator_empty w :
  drained (length (heap w)) (snd (new_ArrayIterator [] w))
  /\ (forall r', allocated r' w ->
        obj r' (snd (new_ArrayIterator [] w)) = obj r' w).
Proof.
  unfold new_ArrayIterator. cbn [alloc length Nat.eqb snd].
  set (it := new_iter OPEN (ArrayIterator None)).
  set (r := length (heap w)).
  set (w0 := {| heap := heap w ++ [it]; microtasks := microtasks w;
                log := log w |}).
  assert (A0 : allocated r w0).
  { unfold allocated, w0, r. cbn. rewrite length_app. cbn. lia. }
  assert (O0 : obj r w0 = it) by apply (obj_alloc_new it w).
  unfold AsyncIterator_close, _changeState. rewrite O0.
  change ((_state (base it) <? CLOSED) && (_state (base it) <? ENDED)) with true.
  change (CLOSED =? ENDED) with false. cbn iota. unfold _endAsync.
  split; [split; [|split; [|split]]|].
  - unfold queueMicrotask, allocated. cbn [heap]. by apply allocated_upd.
  - unfold queueMicrotask, obj at 1. cbn [heap].
    fold (obj r (upd r (on_base (set_state CLOSED)) w0)).
    by rewrite obj_upd_eq, O0.
  - unfold queueMicrotask, obj at 1. cbn [heap].
    fold (obj r (upd r (on_base (set_state CLOSED)) w0)).
    by rewrite obj_upd_eq, O0.
  - cbn. by rewrite last_snoc.
  - intros r' Hr. unfold queueMicrotask, obj at 1. cbn [heap].
    fold (obj r' (upd r (on_base (set_state CLOSED)) w0)).
    assert (r <> r') by (unfold allocated, r in *; lia).
    rewrite obj_upd_ne by done. apply (obj_alloc_old it w r' Hr).
Qed.

(** X11: [fromArray(items)] read with [read()]: as many reads as there are
    items return the items in order; the iterator is then closed, its
    buffer is gone and its [_end] is queued, so that every further read
    returns [null]; the other objects of the world are untouched.  An empty
    array gives an iterator that is closed from the start. *)
Theorem array_items_are_read_in_order (items : list Item) (w : World) :
  let r := fst (new_ArrayIterator items w) in
  let w0 := snd (new_ArrayIterator items w) in
  let w1 := snd (read_times (length items) r w0) in
  fst (read_times (length items) r w0) = Some <$> items
  /\ kind (obj r w1) = ArrayIterator None
  /\ _state (base (obj r w1)) = CLOSED
  /\ last (microtasks w1) = Some (End r false)
  /\ read r w1 = (None, w1)
  /\ (forall r', allocated r' w -> obj r' w1 = obj r' w).
Proof.
  intros r w0 w1. subst r w0 w1. rewrite new_ArrayIterator_ref.
  destruct items as [|x items].
  - destruct (new_ArrayIterator_empty w) as [D O].
    cbn [length read_times fst snd].
    split; [done|]. split; [apply D|]. split; [apply D|].
    split; [apply D|]. split; [by apply read_drained | done].
  - destruct (new_ArrayIterator_holds x items w) as [H O].
    destruct (read_times_holds _ x items _ H) as (E & D & O').
    cbn [length].
    split; [done|]. split; [apply D|]. split; [apply D|].
    split; [apply D|]. split; [by apply read_drained|].
    intros r' Hr. rewrite O'; [by apply O|].
    unfold allocated in Hr. lia.
Qed.

(** ** Closing and destroying a transform iterator *)

Module Closing.
Import Pipelines PipelineFacts Windows Sources BufferSize.

Section Stage.

Context {T : Type} {X : Source T}.

#[local] Abbreviation Stage := (SimpleTransformIterator X).

Lemma changeState_stays_closed s (it : Stage) :
  closed X it = true -> closed X (snd (_changeState X s it)) = true.
Proof.
  intros C. unfold _changeState, closed in *. cbn [snd].
  destruct (_ && _) eqn:E; [|done].
  apply andb_true_iff in E as [E1 E2]. cbn [_state set_state]. states.
Qed.

Lemma changeState_same_source s (it : Stage) :
  _source X (snd (_changeState X s it)) = _source X it.
Proof. unfold _changeState. cbn [snd]. by destruct (_ && _). Qed.

Lemma _fillBufferAsync_stays_closed (it : Stage) :
  closed X it = true -> closed X (_fillBufferAsync X it) = true.
Proof. unfold _fillBufferAsync. by destruct (negb _). Qed.

Lemma _fillBufferAsync_same_source (it : Stage) :
  _source X (_fillBufferAsync X it) = _source X it.
Proof. unfold _fillBufferAsync. by destruct (negb _). Qed.

(** A closed iterator does not call [_read]. *)
Lemma _fillBuffer_closed (it : Stage) :
  closed X it = true ->
  closed X (_fillBuffer X it) = true
  /\ _source X (_fillBuffer X it) = _source X it.
Proof.
  intros C. unfold _fillBuffer. destruct (_reading X it); [done|].
  rewrite C. destruct (_completeClose_closes it) as []. by split.
Qed.

Lemma _init_closed (it : Stage) :
  closed X it = true ->
  closed X (_init X it) = true /\ _source X (_init X it) = _source X it.
Proof.
  intros C. unfold _init. cbv zeta.
  set (it1 := snd _).
  assert (closed X it1 = true /\ _source X it1 = _source X it) as [C1 S1].
  { split; [by apply changeState_stays_closed|].
    unfold it1. by rewrite changeState_same_source. }
  destruct (_autoStart X it1); [|done].
  split; [by apply _fillBufferAsync_stays_closed|].
  by rewrite _fillBufferAsync_same_source.
Qed.

Lemma stage_read_closed (it : Stage) :
  closed X it = true ->
  closed X (snd (stage_read X it)) = true
  /\ _source X (snd (stage_read X it)) = _source X it.
Proof.
  intros C. unfold stage_read. destruct (done X it); [done|]. cbn [snd].
  destruct (_ && _); [|done].
  change (closed X (set_buffer X (tail (_buffer X it)) it)) with (closed X it).
  by rewrite C.
Qed.












End Stage.


(** X13: a [SimpleTransformIterator] with an offset and a limit as its
    only transformation options (what [skip], [take] and [range] make) that
    is closed takes nothing more from its source: the loop of
    [_readAndTransformSimple] looks at [closed] before every [read()] of the
    source, so the number of items that the source's [read()] has returned
    stays what it was, whatever the order of reads, tasks and events. *)
Theorem closed_iterator_reads_no_more {T : Type} (X : Source T)
  (it : SimpleTransformIterator (counted X))
  (l : list (Move (stage (counted X)))) :
  closed (counted X) it = true ->
  snd (_source (counted X) (fst (moves (stage (counted X)) l it)))
  = snd (_source (counted X) it).
Proof.
  intros C.
  apply (moves_invariant (stage (counted X))
           (fun it' => closed (counted X) it' = true
                       /\ snd (_source (counted X) it')
                          = snd (_source (counted X) it))); [| |done].
  - intros it' [C' S']. destruct (stage_read_closed it' C') as [C2 S2].
    split; [exact C2 | exact (eq_trans (f_equal snd S2) S')].
  - intros a it' [C' S']. destruct a.
    + destruct (_init_closed it' C') as [C2 S2].
      split; [exact C2 | exact (eq_trans (f_equal snd S2) S')].
    + destruct (_fillBuffer_closed (set_reading (counted X) false it') C')
        as [C2 S2].
      split; [exact C2 | exact (eq_trans (f_equal snd S2) S')].
    + destruct (_fillBuffer_closed it' C') as [C2 S2].
      split; [exact C2 | exact (eq_trans (f_equal snd S2) S')].
    + cbn [act stage stage_act].
      destruct (ended (counted X) _); [|done].
      destruct (close_closes it') as []. split; [done|].
      by rewrite closes_source0.
    + cbn [act stage stage_act].
      destruct (_ && _); [|done]. split.
      * unfold _end. apply changeState_stays_closed.
        by destruct (_destroySource (counted X) it').
      * unfold _end. rewrite changeState_same_source.
        by destruct (_destroySource (counted X) it').
    + done.
Qed.


End Closing.




Lemma closed_iterator_reads_no_more_witness :
  let X := Sources.counted numbers_source in
  let it := Pipelines.close X
              (fst (Pipelines.moves (Pipelines.stage X)
                      [@Pipelines.Act _ (Pipelines.stage X) Pipelines.Init;
                       @Pipelines.Act _ (Pipelines.stage X)
                         Pipelines.FillBuffer_task]
                      (Pipelines.skip X (Finite 1) (up_to_20, 0%nat)))) in
  let l := [Pipelines.Read;
            @Pipelines.Act _ (Pipelines.stage X) Pipelines.FillBuffer_task;
            @Pipelines.Act _ (Pipelines.stage X) Pipelines.Source_readable;
            Pipelines.Read] in
  snd (Pipelines._source X it) = 5%nat
  /\ snd (Pipelines._source X (fst (Pipelines.moves (Pipelines.stage X) l it)))
     = snd (Pipelines._source X it).
Proof.
  intros X it l. split; [vm_compute; reflexivity|].
  apply (Closing.closed_iterator_reads_no_more numbers_source it l).
  vm_compute. reflexivity.
Defined.


(** ** Properties over a whole program *)

Module PropertyStoreFacts.
Import Properties PropertyFacts PropertyStore.

(** *** What the calls so far say *)

(** The value that the calls [h] have given to [propertyName] last. *)
Definition last_set (propertyName : string) (h : list Op) : option value :=
  foldl (fun found op =>
           match op with
           | Set_ name v => if decide (name = propertyName) then Some v else found
           | Get _ _ => found
           end) None h.

(** The callbacks that the calls [h] have passed for [propertyName]. *)
Definition asked (propertyName : string) (h : list Op) : list Callback :=
  flat_map (fun op =>
              match op with
              | Get name callback =>
                  if decide (name = propertyName) then [callback] else []
              | Set_ _ _ => []
              end) h.

(** The calls of callbacks that the call [op] brings about, after the calls
    [h]; [at_the_end] is the value a property has when the tasks run. *)
Definition answer (at_the_end : string -> value) (h : list Op) (op : Op)
  : list (Callback * value) :=
  match op with
  | Get name callback =>
      match last_set name h with
      | Some _ => [(callback, at_the_end name)]
      | None => []
      end
  | Set_ name v =>
      match last_set name h with
      | Some _ => []
      | None => (fun callback => (callback, v)) <$> asked name h
      end
  end.

Fixpoint answers (at_the_end : string -> value) (h ops : list Op)
  : list (Callback * value) :=
  match ops with
  | [] => []
  | op :: ops => answer at_the_end h op ++ answers at_the_end (h ++ [op]) ops
  end.

Fixpoint expected (h : list Op) (turns : list (list Op))
  : list (Callback * value) :=
  match turns with
  | [] => []
  | ops :: turns =>
      answers (fun name => default undefined (last_set name (h ++ ops))) h ops
      ++ expected (h ++ ops) turns
  end.

(** *** The store and the calls so far *)

(** The properties that the iterator holds. *)
Definition stored (s : State) : gmap string value := default ∅ (_properties s).

Record agrees (h : list Op) (s : State) : Prop := {
  agrees_properties name : stored s !! name = last_set name h;
  agrees_pending name :
    pending name s = match last_set name h with
                     | Some _ => []
                     | None => asked name h
                     end
}.

(** The calls that a task makes. *)
Definition out (at_the_end : string -> value) (t : Task) : list (Callback * value) :=
  match t with
  | deliver callback name => [(callback, at_the_end name)]
  | fire callbacks v => (fun callback => (callback, v)) <$> callbacks
  | fire_not_iterable => []
  end.

Lemma last_set_snoc name h op :
  last_set name (h ++ [op])
  = match op with
    | Set_ name' v => if decide (name' = name) then Some v else last_set name h
    | Get _ _ => last_set name h
    end.
Proof. unfold last_set. by rewrite foldl_app. Qed.

Lemma asked_snoc name h op :
  asked name (h ++ [op])
  = asked name h ++ match op with
                    | Get name' callback =>
                        if decide (name' = name) then [callback] else []
                    | Set_ _ _ => []
                    end.
Proof. unfold asked. rewrite flat_map_app. cbn. by rewrite app_nil_r. Qed.

Lemma getProperty_stored name s :
  getProperty name s = default undefined (stored s !! name).
Proof.
  unfold getProperty, stored. by destruct (_properties s).
Qed.

Lemma stored_setProperty name v s :
  stored (setProperty name v s) = <[name := v]> (stored s).
Proof.
  unfold setProperty, stored.
  destruct (_propertyCallbacks s) as [m|]; [|done].
  by destruct (m !! name).
Qed.

Lemma stored_getProperty_callback name callback s :
  stored (getProperty_callback name callback s) = stored s.
Proof.
  unfold getProperty_callback, stored.
  destruct (_properties s) as [p|]; [|done]. by case_bool_decide.
Qed.

(** [setProperty] detaches the callbacks of its name, and no others. *)
Lemma pending_setProperty name v s other :
  pending other (setProperty name v s)
  = if decide (other = name) then [] else pending other s.
Proof.
  unfold setProperty, pending.
  destruct (_propertyCallbacks s) as [m|] eqn:Em; cbn.
  - destruct (m !! name) as [callbacks|] eqn:E; cbn.
    + case_bool_decide as Hd; cbn.
      * destruct (decide (other = name)) as [->|Hne]; [done|].
        rewrite <- (lookup_delete_ne m name other) by done.
        by rewrite Hd, lookup_empty.
      * destruct (decide (other = name)) as [->|Hne].
        -- by rewrite lookup_delete_eq.
        -- by rewrite lookup_delete_ne.
    + destruct (decide (other = name)) as [->|Hne]; [by rewrite E | done].
  - by destruct (decide (other = name)).
Qed.

Lemma tasks_setProperty name v s :
  exists ts, tasks (setProperty name v s) = tasks s ++ ts
    /\ called (setProperty name v s) = called s
    /\ forall f, flat_map (out f) ts
                 = (fun callback => (callback, v)) <$> pending name s.
Proof.
  unfold setProperty, pending.
  destruct (_propertyCallbacks s) as [m|] eqn:Em; cbn.
  - destruct (m !! name) as [callbacks|] eqn:E; cbn.
    + exists [fire callbacks v]. split; [done|]. split; [done|].
      intros f. cbn. by rewrite app_nil_r.
    + exists []. by rewrite app_nil_r.
  - case_bool_decide.
    + by exists [fire_not_iterable].
    + exists []. by rewrite app_nil_r.
Qed.

Lemma agrees_unset h s name :
  agrees h s -> last_set name h = None -> unset name s.
Proof.
  intros [A _] H. specialize (A name). rewrite H in A.
  unfold unset, stored in *. by destruct (_properties s).
Qed.

Lemma agrees_exec h s op :
  agrees h s ->
  agrees (h ++ [op]) (exec_op s op)
  /\ called (exec_op s op) = called s
  /\ exists ts, tasks (exec_op s op) = tasks s ++ ts
       /\ forall f, flat_map (out f) ts = answer f h op.
Proof.
  intros A. destruct op as [name callback|name v]; cbn [exec_op answer].
  - destruct (last_set name h) as [v|] eqn:E.
    + (* the property is set: the callback is deferred *)
      pose proof (agrees_properties h s A name) as P. rewrite E in P.
      unfold stored in P.
      destruct (_properties s) as [p|] eqn:Ep; [|done]. cbn in P.
      assert (getProperty_callback name callback s
              = {| _properties := _properties s;
                   _propertyCallbacks := _propertyCallbacks s;
                   tasks := tasks s ++ [deliver callback name];
                   called := called s; uncaught := uncaught s |}) as ->.
      { unfold getProperty_callback. rewrite Ep.
        by rewrite bool_decide_true by by rewrite P. }
      split; [|split; [done|]].
      * split; intros n; rewrite last_set_snoc.
        -- apply A.
        -- rewrite asked_snoc. unfold pending. cbn [_propertyCallbacks].
           fold (pending n s). rewrite (agrees_pending h s A n).
           destruct (last_set n h) eqn:E'; [done|].
           destruct (decide (name = n)) as [->|]; [congruence|].
           by rewrite app_nil_r.
      * exists [deliver callback name]. split; [done|]. by intros f.
    + (* the property is not set: the callback waits *)
      destruct (pending_getProperty_callback name callback s
                  (agrees_unset h s name A E)) as (H1 & H2 & H3 & H4 & H5).
      split; [|split; [done|]].
      * split; intros n; rewrite last_set_snoc.
        -- rewrite stored_getProperty_callback. apply A.
        -- rewrite asked_snoc. destruct (decide (name = n)) as [->|Hne].
           ++ rewrite H1, E, (agrees_pending h s A n). by rewrite E.
           ++ rewrite H2 by done. rewrite (agrees_pending h s A n).
              destruct (last_set n h); [done|]. by rewrite app_nil_r.
      * exists []. rewrite app_nil_r. by split.
  - destruct (tasks_setProperty name v s) as (ts & H1 & H2 & H3).
    split; [|split; [done|]].
    + split; intros n; rewrite last_set_snoc.
      * rewrite stored_setProperty.
        destruct (decide (name = n)) as [->|Hne].
        -- by rewrite lookup_insert_eq.
        -- rewrite lookup_insert_ne by done. apply A.
      * rewrite asked_snoc, app_nil_r, pending_setProperty.
        destruct (decide (n = name)) as [->|Hne].
        -- by rewrite decide_True.
        -- rewrite decide_False by done. apply A.
    + exists ts. split; [done|]. intros f. rewrite H3.
      rewrite (agrees_pending h s A name).
      by destruct (last_set name h).
Qed.

Lemma agrees_calls ops h s :
  agrees h s ->
  agrees (h ++ ops) (foldl exec_op s ops)
  /\ called (foldl exec_op s ops) = called s
  /\ exists ts, tasks (foldl exec_op s ops) = tasks s ++ ts
       /\ forall f, flat_map (out f) ts = answers f h ops.
Proof.
  revert h s. induction ops as [|op ops IH]; intros h s A.
  - rewrite app_nil_r. split; [done|]. split; [done|].
    exists []. by rewrite app_nil_r.
  - destruct (agrees_exec h s op A) as (A1 & C1 & ts1 & T1 & O1).
    destruct (IH _ _ A1) as (A2 & C2 & ts2 & T2 & O2).
    cbn [foldl answers]. rewrite <- app_assoc in A2.
    split; [done|]. split; [congruence|].
    exists (ts1 ++ ts2). split.
    + by rewrite T2, T1, app_assoc.
    + intros f. by rewrite flat_map_app, O1, O2.
Qed.

(** The tasks change neither the properties nor the callbacks that wait. *)
Lemma run_task_store t s :
  _properties (run_task t s) = _properties s
  /\ _propertyCallbacks (run_task t s) = _propertyCallbacks s
  /\ tasks (run_task t s) = tasks s
  /\ called (run_task t s)
     = called s ++ out (fun name => getProperty name s) t.
Proof. destruct t; cbn; by rewrite ?app_nil_r. Qed.

Lemma foldl_run_task ts s :
  _properties (foldl (fun s t => run_task t s) s ts) = _properties s
  /\ _propertyCallbacks (foldl (fun s t => run_task t s) s ts)
     = _propertyCallbacks s
  /\ tasks (foldl (fun s t => run_task t s) s ts) = tasks s
  /\ called (foldl (fun s t => run_task t s) s ts)
     = called s ++ flat_map (out (fun name => getProperty name s)) ts.
Proof.
  revert s. induction ts as [|t ts IH]; intros s.
  - cbn. by rewrite app_nil_r.
  - cbn [foldl flat_map].
    destruct (run_task_store t s) as (P1 & C1 & Q1 & L1).
    destruct (IH (run_task t s)) as (P2 & C2 & Q2 & L2).
    split; [congruence|]. split; [congruence|]. split; [congruence|].
    rewrite L2, L1, <- app_assoc. do 2 f_equal.
    apply flat_map_ext. intros t'. unfold getProperty.
    by rewrite P1.
Qed.

Lemma run_tasks_store s :
  _properties (run_tasks s) = _properties s
  /\ _propertyCallbacks (run_tasks s) = _propertyCallbacks s
  /\ tasks (run_tasks s) = []
  /\ called (run_tasks s)
     = called s ++ flat_map (out (fun name => getProperty name s)) (tasks s).
Proof.
  unfold run_tasks.
  set (s0 := {| _properties := _properties s;
                _propertyCallbacks := _propertyCallbacks s;
                tasks := []; called := called s; uncaught := uncaught s |}).
  destruct (foldl_run_task (tasks s) s0) as (P & C & Q & L).
  split; [done|]. split; [done|]. split; [done|].
  rewrite L. done.
Qed.

Lemma agrees_turn ops h s :
  agrees h s -> tasks s = [] ->
  agrees (h ++ ops) (turn s ops)
  /\ tasks (turn s ops) = []
  /\ called (turn s ops)
     = called s
       ++ answers (fun name => default undefined (last_set name (h ++ ops)))
            h ops.
Proof.
  intros A Q. unfold turn.
  destruct (agrees_calls ops h s A) as (A1 & C1 & ts & T1 & O1).
  destruct (run_tasks_store (foldl exec_op s ops)) as (P2 & C2 & Q2 & L2).
  split; [|split; [done|]].
  - split; intros name.
    + unfold stored. rewrite P2. apply A1.
    + unfold pending. rewrite C2. apply A1.
  - rewrite L2, C1, T1, Q. cbn [app]. f_equal. rewrite <- O1.
    apply flat_map_ext. intros t. destruct t; cbn; [|done|done].
    rewrite getProperty_stored. by rewrite (agrees_properties _ _ A1).
Qed.

Lemma agrees_program turns h s :
  agrees h s -> tasks s = [] ->
  agrees (h ++ concat turns) (program turns s)
  /\ called (program turns s) = called s ++ expected h turns.
Proof.
  revert h s. induction turns as [|ops turns IH]; intros h s A Q.
  - cbn. by rewrite !app_nil_r.
  - destruct (agrees_turn ops h s A Q) as (A1 & Q1 & C1).
    destruct (IH _ _ A1 Q1) as (A2 & C2).
    cbn [concat program foldl expected]. rewrite app_assoc.
    split; [exact A2|].
    unfold program in C2. by rewrite C2, C1, <- app_assoc.
Qed.

(** X15: a program that gets and sets properties, turn after turn, starting
    with a new iterator.  [getProperty(name, callback)] on a property that
    has been set brings one call of [callback], with the value that the
    property has when the tasks of that turn run, which is the last one set
    in the turn, not the one it had at the time of the call;
    [setProperty(name, value)] on a property that has not been set before
    brings one call with [value] for every callback passed for [name] so
    far, in their order; nothing else is ever called.  In the end,
    [getProperty(name)] is the value set last, or [undefined]. *)
Theorem property_callbacks_of_a_program (turns : list (list Op)) :
  called (program turns new_state) = expected [] turns
  /\ forall name,
       getProperty name (program turns new_state)
       = default undefined (last_set name (concat turns)).
Proof.
  assert (agrees [] new_state) as A by by split.
  destruct (agrees_program turns [] new_state A eq_refl) as (A1 & C1).
  split; [exact C1|].
  intros name. rewrite getProperty_stored.
  by rewrite (agrees_properties _ _ A1).
Qed.

(** [getProperties()] returns the stored properties but [__proto__]. *)
Lemma getProperties_stored s : getProperties s = delete "__proto__" (stored s).
Proof.
  unfold getProperties. fold (stored s).
  apply (map_fold_weak_ind (fun copy m => copy = delete "__proto__" m)).
  - by rewrite delete_empty.
  - intros name v m copy Hm ->. unfold assign. case_bool_decide as E.
    + subst name. by rewrite delete_insert_eq.
    + by rewrite delete_insert_ne.
Qed.

Lemma stored_setProperties (properties : list (string * value)) s :
  NoDup (fst <$> properties) ->
  stored (setProperties properties s) = list_to_map properties ∪ stored s.
Proof.
  revert s. induction properties as [|[name v] properties IH]; intros s ND.
  - cbn. by rewrite (left_id_L ∅ (∪)).
  - cbn [setProperties foldl fst snd]. apply NoDup_cons in ND as [Hn ND].
    unfold setProperties in IH. rewrite (IH _ ND).
    rewrite stored_setProperty.
    change (list_to_map ((name, v) :: properties))
      with (<[name := v]> (list_to_map properties : gmap string value)).
    rewrite <- insert_union_l. symmetry. apply insert_union_r.
    by apply not_elem_of_list_to_map_1.
Qed.

(** X16: after [setProperties(properties)], [getProperties()] returns the
    given properties together with those that [getProperties()] returned
    before and that were not given, except a property named [__proto__]:
    the iterator stores it, and [getProperty('__proto__')] returns it, but
    the copy that [getProperties()] makes never has it.  [getProperty(name)]
    returns the value given for [name], and for a name that was not given
    what it returned before. *)
Theorem setProperties_then_getProperties (properties : list (string * value))
  (s : State) :
  NoDup (fst <$> properties) ->
  getProperties (setProperties properties s)
  = delete "__proto__" (list_to_map properties) ∪ getProperties s
  /\ getProperties (setProperties properties s) !! "__proto__" = None
  /\ (forall name v, (name, v) ∈ properties -> name <> "__proto__" ->
        getProperties (setProperties properties s) !! name = Some v)
  /\ (forall name v, (name, v) ∈ properties ->
        getProperty name (setProperties properties s) = v)
  /\ (forall name, name ∉ (fst <$> properties) ->
        getProperty name (setProperties properties s) = getProperty name s).
Proof.
  intros ND. pose proof (stored_setProperties properties s ND) as E.
  assert (getProperties (setProperties properties s)
          = delete "__proto__" (list_to_map properties) ∪ getProperties s) as G.
  { by rewrite !getProperties_stored, E, delete_union. }
  split; [done|]. split; [|split; [|split]].
  - rewrite getProperties_stored. apply lookup_delete_eq.
  - intros name v Hin Hne. rewrite G.
    apply lookup_union_Some_l. rewrite lookup_delete_ne by done.
    by apply elem_of_list_to_map_1.
  - intros name v Hin. rewrite getProperty_stored, E.
    erewrite lookup_union_Some_l; [done|].
    by apply elem_of_list_to_map_1.
  - intros name Hn. rewrite !getProperty_stored, E.
    rewrite lookup_union_r; [done|]. by apply not_elem_of_list_to_map_1.
Qed.

End PropertyStoreFacts.

(** Two properties are given to an iterator that has two, one of them under
    the name [__proto__]. *)
Definition two_properties : Properties.State :=
  Properties.setProperty "c" (Properties.val 3)
    (Properties.setProperty "b" (Properties.val 7) Properties.new_state).

Lemma setProperties_then_getProperties_witness :
  let given := [("b", Properties.val 1); ("__proto__", Properties.val 2)] in
  let s := PropertyStore.setProperties given two_properties in
  Properties.getProperty "__proto__" s = Properties.val 2
  /\ Properties.getProperty "c" s = Properties.val 3
  /\ PropertyStore.getProperties s !! "__proto__" = None
  /\ PropertyStore.getProperties s !! "b" = Some (Properties.val 1)
  /\ PropertyStore.getProperties s
     = delete "__proto__" (list_to_map given)
       ∪ PropertyStore.getProperties two_properties.
Proof.
  intros given s.
  destruct (PropertyStoreFacts.setProperties_then_getProperties given
              two_properties) as (G & P & V & _).
  { apply (bool_decide_unpack _). vm_compute. reflexivity. }
  split; [vm_compute; reflexivity|]. split; [vm_compute; reflexivity|].
  split; [exact P|]. split; [|exact G].
  apply V; [apply list_elem_of_here | discriminate].
Defined.

(** ** The items of an array, sent to a listener *)

Module Flow.

(** A call stack that returns, and a program that runs until no task is
    left. *)
Definition calls (stack : list Cmd) (w w' : World) : Prop :=
  exists fuel, call fuel stack w = Some (Returned w').

Definition runs (stack : list Cmd) (w w' : World) : Prop :=
  exists fuel, run fuel stack w = Some (Returned w').

(** The world with the object [it] at [r]. *)
Definition around (h : list Iter) (r : Ref) (it : Iter) (q : list Cmd)
  (l : list Obs) : World :=
  {| heap := <[r := it]> h; microtasks := q; log := l |}.

Lemma calls_nil w : calls [] w w.
Proof. by exists 1%nat. Qed.

Lemma calls_step c stack w w' :
  (forall msg, c <> Throw msg) ->
  calls ((step c w).2 ++ stack) (step c w).1 w' -> calls (c :: stack) w w'.
Proof.
  intros Hc [fuel H]. exists (S fuel). by rewrite call_step.
Qed.

Lemma calls_app s1 s2 w w1 w2 :
  calls s1 w w1 -> calls s2 w1 w2 -> calls (s1 ++ s2) w w2.
Proof.
  intros [f1 H1] [f2 H2]. exists (f1 + f2)%nat. by apply (call_app f1 f2 s1 s2 w w1).
Qed.

Lemma run_mono fuel fuel' stack w o :
  run fuel stack w = Some o -> (fuel <= fuel')%nat -> run fuel' stack w = Some o.
Proof.
  revert fuel' stack w. induction fuel as [|fuel IH]; intros fuel' stack w; [done|].
  destruct fuel' as [|fuel']; [lia|]. intros H Hle. cbn [run] in *.
  destruct (call fuel stack w) as [o'|] eqn:E; [|done].
  rewrite (call_mono fuel fuel' stack w o' E) by lia.
  destruct o' as [w1|]; [|done].
  destruct (microtasks w1); [done|]. apply IH; [done | lia].
Qed.

Lemma runs_done stack w w' :
  calls stack w w' -> microtasks w' = [] -> runs stack w w'.
Proof.
  intros [fuel H] Q. exists (S fuel). cbn [run]. by rewrite H, Q.
Qed.

Lemma runs_task stack w w1 task q w' :
  calls stack w w1 -> microtasks w1 = task :: q ->
  runs [task] (dequeue w1) w' -> runs stack w w'.
Proof.
  intros [f1 H1] Q [f2 H2]. exists (S (f1 + f2)). cbn [run].
  rewrite (call_mono f1 (f1 + f2) stack w _ H1) by lia. rewrite Q.
  apply (run_mono f2); [done | lia].
Qed.

#[local] Arguments around : simpl never.

Lemma observe_around o h r it q l :
  observe o (around h r it q l) = around h r it q (l ++ [o]).
Proof. done. Qed.

Lemma queueMicrotask_around task h r it q l :
  queueMicrotask task (around h r it q l) = around h r it (q ++ [task]) l.
Proof. done. Qed.

Lemma calls_next c stack w w1 k w' :
  step c w = (w1, k) -> (forall msg, c <> Throw msg) ->
  calls (k ++ stack) w1 w' -> calls (c :: stack) w w'.
Proof. intros E Hc H. apply calls_step; [done|]. by rewrite E. Qed.

(** One call of the stack, worked out with [tac]. *)
Ltac next_call tac :=
  eapply calls_next;
  [ unfold step; tac; reflexivity
  | discriminate
  | rewrite ?observe_around, ?queueMicrotask_around; simpl ].

Lemma runs_step c stack w w' :
  (forall msg, c <> Throw msg) ->
  runs ((step c w).2 ++ stack) (step c w).1 w' -> runs (c :: stack) w w'.
Proof.
  intros Hc [fuel H]. exists (S fuel).
  destruct fuel as [|fuel]; [done|].
  change (run (S (S fuel)) (c :: stack) w)
    with (match call (S fuel) (c :: stack) w with
          | Some (Returned w1) =>
              match microtasks w1 with
              | [] => Some (Returned w1)
              | task :: _ => run (S fuel) [task] (dequeue w1)
              end
          | o => o
          end).
  rewrite call_step by done. cbn [run] in H.
  destruct (call fuel _ _) as [[w1|]|]; [|done|done].
  destruct (microtasks w1) as [|task q]; [done|].
  apply (run_mono fuel); [done | lia].
Qed.

Lemma runs_next stack w h r it task q l w' :
  calls stack w (around h r it (task :: q) l) ->
  runs [task] (around h r it q l) w' -> runs stack w w'.
Proof. intros H1 H2. by eapply runs_task. Qed.

Section Around.

Variables (h : list Iter) (r : Ref).
Hypothesis allocated_r : (r < length h)%nat.

Lemma obj_around it q l : obj r (around h r it q l) = it.
Proof. unfold obj, around. cbn. by rewrite list_lookup_insert_eq. Qed.

Lemma upd_around f it q l :
  upd r f (around h r it q l) = around h r (f it) q l.
Proof.
  unfold upd, around. cbn. f_equal. apply list_eq. intros i.
  destruct (decide (i = r)) as [->|Hne].
  - rewrite list_lookup_alter_eq, !list_lookup_insert_eq by done. done.
  - rewrite list_lookup_alter_ne, !list_lookup_insert_ne by done. done.
Qed.

(** An [ArrayIterator] *)
Definition array_iter (state : Z) (readable : bool)
  (events : list (Event * Listener)) (buffer : option (list Item)) : Iter :=
  {| base := {| _state := state; _readable := readable; _events := events;
                _destination := None |};
     kind := ArrayIterator buffer |}.

(** The listeners of an iterator in flow mode with the [data] listener
    [id]. *)
Definition flowing (id : nat) : list (Event * Listener) :=
  [(ev_readable, emitData); (ev_data, consumer id)].

(** What the log shows of the items sent. *)
Definition sent (id : nat) (items : list Item) : list Obs :=
  flat_map (fun item => [emitted r ev_data (arg_item item);
                         received id r (arg_item item)]) items.

Lemma read_around_more state readable events x y buffer q l :
  read r (around h r (array_iter state readable events (Some (x :: y :: buffer))) q l)
  = (Some x, around h r (array_iter state readable events (Some (y :: buffer))) q l).
Proof.
  unfold read, ArrayIterator_read. rewrite !obj_around.
  cbn [kind array_iter head tail length Nat.eqb]. by rewrite upd_around.
Qed.

Lemma read_around_last readable events x q l :
  read r (around h r (array_iter OPEN readable events (Some [x])) q l)
  = (Some x, around h r (array_iter CLOSED readable events None)
               (q ++ [End r false]) l).
Proof.
  unfold read, ArrayIterator_read. rewrite !obj_around.
  cbn [kind array_iter head tail length Nat.eqb]. rewrite upd_around.
  unfold AsyncIterator_close, _changeState. rewrite obj_around, upd_around.
  done.
Qed.

Lemma read_around_none state readable events q l :
  read r (around h r (array_iter state readable events None) q l)
  = (None, around h r (array_iter state readable events None) q l).
Proof. unfold read, ArrayIterator_read. by rewrite !obj_around. Qed.

#[local] Arguments array_iter : simpl never.
#[local] Arguments sent : simpl never.

Lemma emitData_loop id readable x buffer q l :
  calls [EmitData_loop r]
    (around h r (array_iter OPEN readable (flowing id) (Some (x :: buffer))) q l)
    (around h r (array_iter CLOSED readable (flowing id) None)
       (q ++ [End r false]) (l ++ sent id (x :: buffer))).
Proof.
  revert x l. induction buffer as [|y buffer IH]; intros x l.
  - next_call ltac:(rewrite obj_around, read_around_last).
    next_call ltac:(rewrite obj_around).
    next_call idtac.
    next_call ltac:(rewrite obj_around, read_around_none).
    next_call ltac:(rewrite obj_around).
    cbn [sent flat_map]. rewrite <- app_assoc. apply calls_nil.
  - next_call ltac:(rewrite obj_around, read_around_more).
    next_call ltac:(rewrite obj_around).
    next_call idtac.
    replace (l ++ sent id (x :: y :: buffer))
      with ((l ++ [emitted r ev_data (arg_item x)]
               ++ [received id r (arg_item x)]) ++ sent id (y :: buffer))
      by by rewrite <- !app_assoc.
    rewrite app_assoc. apply IH.
Qed.

(** The call of [on('data', listener)] on an iterator that was just
    created. *)
Lemma on_data id (readable : bool) buffer q l :
  calls [On r ev_data (consumer id)]
    (around h r (array_iter (if readable then OPEN else CLOSED) readable
                   [(ev_newListener, waitForDataListener)] buffer) q l)
    (around h r (array_iter (if readable then OPEN else CLOSED) readable
                   (flowing id) buffer)
       (if readable then q ++ [Call emitData r no_arg] else q)
       (l ++ [emitted r ev_newListener (arg_event ev_data)])).
Proof.
  destruct readable.
  - next_call ltac:(rewrite obj_around).
    next_call ltac:(rewrite obj_around).
    next_call ltac:(unfold step_Call; rewrite upd_around).
    next_call ltac:(rewrite obj_around).
    next_call ltac:(rewrite obj_around, upd_around).
    next_call ltac:(rewrite obj_around).
    next_call ltac:(rewrite upd_around). apply calls_nil.
  - next_call ltac:(rewrite obj_around).
    next_call ltac:(rewrite obj_around).
    next_call ltac:(unfold step_Call; rewrite upd_around).
    next_call ltac:(rewrite obj_around).
    next_call ltac:(rewrite obj_around, upd_around).
    next_call ltac:(rewrite obj_around).
    next_call ltac:(rewrite upd_around). apply calls_nil.
Qed.

(** The task of [_endAsync], on an iterator without listeners for [end]. *)
Lemma end_task id readable buffer q l :
  calls [End r false]
    (around h r (array_iter CLOSED readable (flowing id) buffer) q l)
    (around h r (array_iter ENDED false [] buffer) q
       (l ++ [emitted r ev_end no_arg])).
Proof.
  next_call ltac:(unfold the_transform; rewrite obj_around).
  next_call ltac:(unfold _changeState; rewrite obj_around, upd_around).
  next_call ltac:(rewrite obj_around).
  next_call ltac:(rewrite !upd_around). apply calls_nil.
Qed.

End Around.

(** The world that [new ArrayIterator(items)] leaves. *)
Lemma new_ArrayIterator_around items w :
  snd (new_ArrayIterator items w)
  = around (heap w ++ [null_iter]) (length (heap w))
      (match items with
       | [] => array_iter CLOSED false [(ev_newListener, waitForDataListener)] None
       | _ => array_iter OPEN true [(ev_newListener, waitForDataListener)]
                (Some items)
       end)
      (microtasks w ++ [match items with
                        | [] => End (length (heap w)) false
                        | _ => Emit (length (heap w)) ev_readable no_arg
                        end])
      (log w).
Proof.
  assert (length (heap w) < length (heap w ++ [null_iter]))%nat as A
    by (rewrite length_app; cbn; lia).
  assert (forall it, (alloc it w).2
                     = around (heap w ++ [null_iter]) (length (heap w)) it
                         (microtasks w) (log w)) as E.
  { intros it. unfold alloc, around. cbn [snd]. f_equal.
    rewrite insert_app_r_alt by done. by rewrite Nat.sub_diag. }
  unfold new_ArrayIterator.
  destruct (alloc (new_iter OPEN (ArrayIterator None)) w) as [r' w'] eqn:Ea.
  assert (r' = length (heap w)) as -> by by inversion Ea.
  assert (w' = (alloc (new_iter OPEN (ArrayIterator None)) w).2) as ->
    by by rewrite Ea.
  rewrite E. destruct items as [|x items]; cbn [length Nat.eqb snd].
  - unfold AsyncIterator_close, _changeState.
    rewrite obj_around, upd_around by done. done.
  - rewrite upd_around by done. unfold readable_set.
    rewrite obj_around, upd_around by done. done.
Qed.

Lemma obj_around_other h r it q l r' :
  r' <> r -> obj r' (around h r it q l) = default null_iter (h !! r').
Proof. intros Hne. unfold obj, around. cbn. by rewrite list_lookup_insert_ne. Qed.

(** X17: a program creates [fromArray(items)] and attaches a [data]
    listener.  It runs to its end; the listener has then received every
    item once, in the order of the array, each right after the [data] event
    that carries it; [readable] was emitted once before them, if there are
    items, and [end] once after them, and nothing else; the iterator has
    ended with no listener left, no task is pending, and the objects that
    existed before are as they were. *)
Theorem array_items_flow_to_the_listener (items : list Item) (id : nat)
  (w : World) :
  microtasks w = [] ->
  let r := length (heap w) in
  exists fuel w',
    run fuel [New_ArrayIterator items; On r ev_data (consumer id)] w
    = Some (Returned w')
    /\ log w'
       = log w ++ [emitted r ev_newListener (arg_event ev_data)]
         ++ match items with [] => [] | _ => [emitted r ev_readable no_arg] end
         ++ sent r id items ++ [emitted r ev_end no_arg]
    /\ _state (base (obj r w')) = ENDED
    /\ _events (base (obj r w')) = []
    /\ microtasks w' = []
    /\ forall r', allocated r' w -> obj r' w' = obj r' w.
Proof.
  intros Q r.
  set (h := heap w ++ [null_iter]).
  assert (r < length h)%nat as A by (unfold h; rewrite length_app; cbn; lia).
  assert (forall it q l r', allocated r' w ->
            obj r' (around h r it q l) = obj r' w) as O.
  { intros it q l r' Hr. unfold allocated in Hr.
    rewrite obj_around_other by (unfold r; lia).
    unfold obj, h. by rewrite lookup_app_l. }
  pose proof (new_ArrayIterator_around items w) as N. rewrite Q in N.
  fold r h in N. cbn [app] in N.
  destruct items as [|x items].
  - enough (runs [New_ArrayIterator []; On r ev_data (consumer id)] w
              (around h r (array_iter ENDED false [] None) []
                 (log w ++ [emitted r ev_newListener (arg_event ev_data)]
                  ++ [emitted r ev_end no_arg]))) as [fuel H].
    { exists fuel, (around h r (array_iter ENDED false [] None) []
                     (log w ++ [emitted r ev_newListener (arg_event ev_data)]
                      ++ [emitted r ev_end no_arg])).
      split; [done|]. split; [done|]. rewrite obj_around by done.
      split; [done|]. split; [done|]. split; [done|]. apply O. }
    eapply runs_next.
    { eapply calls_next; [cbn [step]; by rewrite N | discriminate|].
      apply (on_data h r A id false). }
    apply runs_done; [|done].
    rewrite app_assoc. apply (end_task h r A id false None).
  - enough (runs [New_ArrayIterator (x :: items); On r ev_data (consumer id)] w
              (around h r (array_iter ENDED false [] None) []
                 (((log w ++ [emitted r ev_newListener (arg_event ev_data)])
                   ++ [emitted r ev_readable no_arg])
                  ++ sent r id (x :: items) ++ [emitted r ev_end no_arg])))
      as [fuel H].
    { eexists fuel, _. split; [exact H|]. split; [by rewrite <- !app_assoc|].
      rewrite obj_around by done.
      split; [done|]. split; [done|]. split; [done|]. apply O. }
    eapply (runs_next _ _ h r _ (Emit r ev_readable no_arg)
              [Call emitData r no_arg]).
    { eapply calls_next; [cbn [step]; by rewrite N | discriminate|].
      apply (on_data h r A id true). }
    eapply (runs_next _ _ h r _ (Call emitData r no_arg) [End r false]).
    { next_call ltac:(rewrite obj_around by done).
      next_call idtac.
      apply (emitData_loop h r A id true). }
    eapply (runs_next _ _ h r _ (End r false) []).
    { next_call idtac.
      next_call ltac:(rewrite obj_around, read_around_none by done).
      next_call ltac:(rewrite obj_around by done).
      apply calls_nil. }
    apply runs_done; [|done].
    rewrite app_assoc. apply (end_task h r A id true None).
Qed.

End Flow.

Lemma array_items_flow_to_the_listener_witness :
  exists fuel w',
    run fuel [New_ArrayIterator [Int 1; Int 2]; On 0%nat ev_data (consumer 7)]
      empty_world = Some (Returned w')
    /\ received_by 7 (log w')
       = [(0%nat, arg_item (Int 1)); (0%nat, arg_item (Int 2))]
    /\ count_emitted 0 ev_end (log w') = 1%nat.
Proof.
  destruct (Flow.array_items_flow_to_the_listener [Int 1; Int 2] 7 empty_world
              eq_refl) as (fuel & w' & H & L & _).
  exists fuel, w'. split; [exact H|]. rewrite L.
  split; vm_compute; reflexivity.
Defined.

(** ** Closing and destroying an [ArrayIterator] *)

Module ArrayEnd.
Import Flow.

Lemma world_around r w :
  allocated r w ->
  w = around (heap w) r (obj r w) (microtasks w) (log w).
Proof.
  intros A. pose proof (obj_allocated r w A) as H.
  unfold around. destruct w as [h q l]. cbn in *. f_equal.
  symmetry. by apply list_insert_id.
Qed.

(** X18: [destroy()] on an [ArrayIterator] that has not ended discards its
    items: the call returns with the buffer deleted and the state
    [DESTROYED], without an event, a call of a listener or a task; the
    listeners for [readable], [data] and [end] are gone; and a [read()]
    right after it returns [null]. *)
Theorem destroy_discards_the_items (r : Ref) (buffer : option (list Item))
  (w : World) :
  allocated r w -> kind (obj r w) = ArrayIterator buffer ->
  done (base (obj r w)) = false ->
  exists w',
    call 7 [Destroy r None; Read r] w = Some (Returned w')
    /\ log w' = log w ++ [returned r None]
    /\ microtasks w' = microtasks w
    /\ kind (obj r w') = ArrayIterator None
    /\ _state (base (obj r w')) = DESTROYED
    /\ listeners ev_readable (base (obj r w')) = []
    /\ listeners ev_data (base (obj r w')) = []
    /\ listeners ev_end (base (obj r w')) = []
    /\ forall r', r' <> r -> obj r' w' = obj r' w.
Proof.
  intros A K Dn.
  pose proof (world_around r w A) as W.
  set (h := heap w) in *. set (q := microtasks w) in *. set (l := log w) in *.
  assert (r < length h)%nat as Ah by done.
  destruct (obj r w) as [b k] eqn:E. cbn [kind base] in K, Dn. subst k.
  assert (_state b < ENDED) as Hs by (unfold done in Dn; by apply Z.leb_gt).
  set (b' := removeAllListeners ev_end
               (removeAllListeners ev_data
                  (removeAllListeners ev_readable
                     (set__readable false (set_state DESTROYED b))))).
  exists (around h r {| base := b'; kind := ArrayIterator None |} q
            (l ++ [returned r None])).
  split.
  { rewrite W. rewrite call_step by discriminate.
    assert (step (Destroy r None)
              (around h r {| base := b; kind := ArrayIterator buffer |} q l)
            = (around h r {| base := b; kind := ArrayIterator None |} q l,
               [Destroy_k r None None])) as ->.
    { unfold step. rewrite obj_around by done. cbn [base kind]. rewrite Dn.
      cbn [negb]. by rewrite upd_around. }
    cbn [fst snd app]. rewrite call_step by discriminate. cbn [step fst snd app].
    rewrite call_step by discriminate.
    assert (step (End r true)
              (around h r {| base := b; kind := ArrayIterator None |} q l)
            = (around h r {| base := b; kind := ArrayIterator None |} q l,
               [AsyncIterator_end r true])) as ->.
    { unfold step, the_transform. by rewrite obj_around. }
    cbn [fst snd app]. rewrite call_step by discriminate.
    assert (step (AsyncIterator_end r true)
              (around h r {| base := b; kind := ArrayIterator None |} q l)
            = (around h r {| base := set_state DESTROYED b;
                             kind := ArrayIterator None |} q l,
               [AsyncIterator_end_k r])) as ->.
    { unfold step, _changeState. rewrite obj_around by done. cbn [base].
      rewrite (proj2 (Z.ltb_lt _ ENDED) Hs).
      assert ((_state b <? DESTROYED) = true) as ->.
      { apply Z.ltb_lt. pose proof state_numbers. lia. }
      cbn [andb]. rewrite upd_around by done.
      change (DESTROYED =? ENDED) with false. done. }
    cbn [fst snd app]. rewrite call_step by discriminate.
    assert (step (AsyncIterator_end_k r)
              (around h r {| base := set_state DESTROYED b;
                             kind := ArrayIterator None |} q l)
            = (around h r {| base := b'; kind := ArrayIterator None |} q l, []))
      as ->.
    { unfold step. by rewrite !upd_around. }
    cbn [fst snd app]. rewrite call_step by discriminate.
    assert (step (Read r)
              (around h r {| base := b'; kind := ArrayIterator None |} q l)
            = (around h r {| base := b'; kind := ArrayIterator None |} q
                 (l ++ [returned r None]), [])) as ->.
    { unfold step, read, ArrayIterator_read. by rewrite !obj_around. }
    done. }
  split; [done|]. split; [done|]. rewrite obj_around by done.
  split; [done|]. split; [done|].
  split; [|split; [|split]].
  - unfold b'. do 2 apply listeners_removeAll_none.
    apply listeners_removeAll_same.
  - unfold b'. apply listeners_removeAll_none, listeners_removeAll_same.
  - apply listeners_removeAll_same.
  - intros r' Hr. rewrite obj_around_other by done. done.
Qed.

Section Ended.

Variables (h : list Iter) (r : Ref).
Hypothesis allocated_r : (r < length h)%nat.

Lemma read_around_ended readable events x q l :
  read r (around h r (array_iter ENDED readable events (Some [x])) q l)
  = (Some x, around h r (array_iter ENDED readable events None) q l).
Proof.
  unfold read, ArrayIterator_read. rewrite !obj_around by done.
  cbn [kind array_iter head tail length Nat.eqb]. rewrite upd_around by done.
  unfold AsyncIterator_close, _changeState. by rewrite obj_around.
Qed.

Lemma read_times_ended readable events x items q l :
  read_times (S (length items)) r
    (around h r (array_iter ENDED readable events (Some (x :: items))) q l)
  = (Some <$> (x :: items),
     around h r (array_iter ENDED readable events None) q l).
Proof.
  revert x. induction items as [|y items IH]; intros x.
  - cbn [length read_times]. by rewrite read_around_ended.
  - change (read_times (S (length (y :: items))) r ?w)
      with (let '(item, w1) := read r w in
            let '(got, w2) := read_times (S (length items)) r w1 in
            (item :: got, w2)).
    rewrite read_around_more by done. by rewrite IH.
Qed.

(** [close()], and the tasks it leaves, on an iterator that was just
    created. *)
Lemma close_new items l :
  runs [Close r]
    (around h r (array_iter OPEN true [(ev_newListener, waitForDataListener)]
                   (Some items))
       [Emit r ev_readable no_arg] l)
    (around h r (array_iter ENDED false [(ev_newListener, waitForDataListener)]
                   (Some items))
       [] (l ++ [emitted r ev_readable no_arg; emitted r ev_end no_arg])).
Proof.
  eapply (runs_next _ _ h r _ (Emit r ev_readable no_arg) [End r false]).
  { next_call ltac:(unfold AsyncIterator_close, _changeState;
                    rewrite !obj_around by done).
    unfold _endAsync. rewrite upd_around, queueMicrotask_around by done.
    apply calls_nil. }
  eapply (runs_next _ _ h r _ (End r false) []).
  { next_call ltac:(rewrite obj_around by done). apply calls_nil. }
  apply runs_done; [|done].
  next_call ltac:(unfold the_transform; rewrite obj_around by done).
  next_call ltac:(unfold _changeState; rewrite obj_around, upd_around by done).
  next_call ltac:(rewrite obj_around by done).
  next_call ltac:(rewrite !upd_around by done).
  rewrite <- app_assoc. apply calls_nil.
Qed.

End Ended.

(** X19: [close()] on an [ArrayIterator] discards nothing, and [read()]
    does not look at the state: a program creates [fromArray(items)] and
    closes it at once; when it has run to its end the iterator has ended and
    [end] has been emitted, yet the next calls of [read()] still return all
    the items, in order, and only then [null]. *)
Theorem close_keeps_the_items (x : Item) (items : list Item) (w : World) :
  microtasks w = [] ->
  let r := length (heap w) in
  exists fuel w',
    run fuel [New_ArrayIterator (x :: items); Close r] w = Some (Returned w')
    /\ log w' = log w ++ [emitted r ev_readable no_arg; emitted r ev_end no_arg]
    /\ _state (base (obj r w')) = ENDED
    /\ fst (read_times (S (length items)) r w') = Some <$> (x :: items)
    /\ fst (read r (snd (read_times (S (length items)) r w'))) = None.
Proof.
  intros Q r.
  set (h := heap w ++ [null_iter]).
  assert (r < length h)%nat as A by (unfold h; rewrite length_app; cbn; lia).
  pose proof (new_ArrayIterator_around (x :: items) w) as N. rewrite Q in N.
  fold r h in N. cbn [app] in N.
  assert (runs [New_ArrayIterator (x :: items); Close r] w
            (around h r
               (array_iter ENDED false [(ev_newListener, waitForDataListener)]
                  (Some (x :: items)))
               [] (log w ++ [emitted r ev_readable no_arg;
                             emitted r ev_end no_arg]))) as [fuel H].
  { apply runs_step; [discriminate|]. cbn [step fst snd app]. rewrite N.
    apply (close_new h r A). }
  exists fuel, (around h r
            (array_iter ENDED false [(ev_newListener, waitForDataListener)]
               (Some (x :: items)))
            [] (log w ++ [emitted r ev_readable no_arg; emitted r ev_end no_arg])).
  split; [exact H|].
  split; [done|]. rewrite obj_around by done. split; [done|].
  rewrite read_times_ended by done. cbn [fst snd].
  split; [done|]. by rewrite read_around_none.
Qed.

End ArrayEnd.

(** An array of two items, destroyed or closed before it is read. *)
Definition two_items : World :=
  snd (new_ArrayIterator [Int 1; Int 2] empty_world).

Lemma destroy_discards_the_items_witness :
  fst (read 0%nat two_items) = Some (Int 1)
  /\ exists w',
       call 7 [Destroy 0%nat None; Read 0%nat] two_items = Some (Returned w')
       /\ log w' = [returned 0%nat None].
Proof.
  split; [vm_compute; reflexivity|].
  destruct (ArrayEnd.destroy_discards_the_items 0%nat (Some [Int 1; Int 2])
              two_items) as (w' & H & L & _).
  - vm_compute. lia.
  - vm_compute. reflexivity.
  - vm_compute. reflexivity.
  - exists w'. split; [exact H | exact L].
Defined.

Lemma close_keeps_the_items_witness :
  exists fuel w',
    run fuel [New_ArrayIterator [Int 1; Int 2]; Close 0%nat] empty_world
    = Some (Returned w')
    /\ _state (base (obj 0%nat w')) = ENDED
    /\ fst (read_times 2 0%nat w') = [Some (Int 1); Some (Int 2)].
Proof.
  destruct (ArrayEnd.close_keeps_the_items (Int 1) [Int 2] empty_world eq_refl)
    as (fuel & w' & H & _ & E & R & _).
  exists fuel, w'. split; [exact H|]. split; [exact E | exact R].
Defined.

(** ** What the clones take from their source *)

Module CloneHistory.
Import Clones CloneFacts.

Section Logged.

Context {Src T : Type}.
Variable read_source : Src -> option T * Src.
Variable ended_source : Src -> bool.
Variable task_source : nat -> Src -> Src.

(** The source together with the items that its [read()] has returned so
    far. *)
Definition logged_read (s : Src * list T) : option T * (Src * list T) :=
  let '(x, s') := read_source (fst s) in
  (x, (s', match x with Some v => snd s ++ [v] | None => snd s end)).

Definition logged_ended (s : Src * list T) : bool := ended_source (fst s).

Definition logged_task (k : nat) (s : Src * list T) : Src * list T :=
  (task_source k (fst s), snd s).

#[local] Abbreviation System := (@System (Src * list T) T).
#[local] Abbreviation history := (@history (Src * list T) T logged_ended).
#[local] Abbreviation readAt := (readAt logged_read logged_ended).

(** The history holds the items that the source has returned, in their
    order. *)
Definition recorded (sys : System) : Prop :=
  history sys = item <$> snd (source sys).

Lemma recorded_on_clone i f (sys : System) :
  recorded sys -> recorded (on_clone i f sys).
Proof. done. Qed.

Lemma recorded_on_history f (sys : System) :
  (forall h, _history (f h) = _history h) ->
  recorded sys -> recorded (on_history logged_ended f sys).
Proof.
  intros Hf R. unfold recorded, CloneFacts.history in *.
  unfold on_history, the_history at 1. cbn. by rewrite Hf.
Qed.

Lemma recorded_readAt pos (sys : System) :
  (pos <= length (history sys))%nat ->
  recorded sys -> recorded (readAt pos sys).2.
Proof.
  intros Hle R. unfold Clones.readAt.
  fold (the_history logged_ended sys). fold (history sys).
  destruct (pos <? length (history sys))%nat eqn:Hlt; [done|].
  apply Nat.ltb_ge in Hlt. assert (pos = length (history sys)) as -> by lia.
  destruct (logged_ended (source sys)); [done|]. cbn [negb].
  unfold logged_read.
  destruct (read_source (source sys).1) as [[x|] s']; cbn [fst snd].
  - unfold recorded, CloneFacts.history, the_history. cbn.
    fold (the_history logged_ended sys). fold (history sys).
    rewrite array_set_end, fmap_app. by rewrite R.
  - unfold recorded, CloneFacts.history, the_history in *. cbn.
    by destruct (_destination sys).
Qed.

Lemma recorded_foldl_on_clone (g : System -> nat -> System) cs (sys : System) :
  (forall sys i, recorded sys -> recorded (g sys i)) ->
  recorded sys -> recorded (foldl g sys cs).
Proof.
  intros Hg. revert sys. induction cs as [|c cs IH]; intros sys R; [done|].
  cbn. apply IH. by apply Hg.
Qed.

Lemma recorded_act a (sys : System) :
  replayed logged_ended sys -> recorded sys ->
  recorded (act logged_read logged_ended logged_task a sys).
Proof.
  intros Hr R. destruct a; cbn [act].
  - (* clone() *)
    unfold clone.
    set (sys0 := {| source := source sys;
                    _destination := Some (the_history logged_ended sys);
                    clones := _ |}).
    assert (R0 : recorded sys0) by done.
    clearbody sys0. cbv zeta.
    destruct (endsAt logged_ended 0 sys0); [done|].
    assert (R1 : recorded (on_history logged_ended
                             (register (length (clones sys))) sys0))
      by by apply recorded_on_history.
    pose proof (recorded_readAt 0 _ ltac:(lia) R1) as R2.
    by destruct (readAt 0 _) as [[x|] sys2].
  - (* read() *)
    unfold read. destruct (negb _); [|done].
    destruct (the_clone_position logged_ended i sys Hr) as [Hle _].
    pose proof (recorded_readAt _ _ Hle R) as R1.
    destruct (readAt (_readPosition (the_clone i sys)) sys) as [x sys1].
    cbn [fst snd] in *. unfold close_at_end.
    destruct (endsAt _ _ _); [apply recorded_on_clone|]; by destruct x.
  - done.
  - destruct (negb _); [|done]. unfold _end.
    destruct (_destination sys) eqn:E; [|done].
    apply recorded_on_clone. by apply recorded_on_history.
  - destruct (_ <=? _); [|done]. unfold _end.
    destruct (_destination sys) eqn:E; [|done].
    apply recorded_on_clone. by apply recorded_on_history.
  - unfold recorded, CloneFacts.history, the_history in *. cbn.
    by destruct (_destination sys).
  - destruct (_clones _); [|done].
    apply recorded_foldl_on_clone; [|done]. intros; by apply recorded_on_clone.
  - destruct (_destination sys) as [h|] eqn:Ed; [|done].
    destruct (_clones h) as [cs|]; [|done].
    destruct (logged_ended (source sys)); [|done].
    apply recorded_on_history; [done|].
    apply recorded_foldl_on_clone; [|done].
    intros sys' i R'. by destruct (_ =? _)%nat.
Qed.

Lemma recorded_acts l (sys : System) :
  replayed logged_ended sys -> recorded sys ->
  replayed logged_ended (acts logged_read logged_ended logged_task l sys)
  /\ recorded (acts logged_read logged_ended logged_task l sys).
Proof.
  revert sys. induction l as [|a l IH]; intros sys Hr R; [done|].
  cbn [acts foldl]. apply IH; [by apply replayed_act | by apply recorded_act].
Qed.

End Logged.

(** X20: however many clones a source has and whatever they do, the source
    is read once for each item: the history that the clones share is exactly
    the list of the items that the source's [read()] has returned, in their
    order and without a gap, and what a clone has returned is the beginning
    of that list, up to the position of the clone. *)
Theorem clones_read_the_source_once {Src T : Type}
  (read_source : Src -> option T * Src) (ended_source : Src -> bool)
  (task_source : nat -> Src -> Src) (s : Src) (l : list Action) :
  let sys := acts (logged_read read_source) (logged_ended ended_source)
               (logged_task task_source) l (start (s, [])) in
  history (logged_ended ended_source) sys = item <$> snd (source sys)
  /\ forall i c, clones sys !! i = Some c ->
       returned c = item <$> take (_readPosition c) (snd (source sys)).
Proof.
  intros sys.
  destruct (recorded_acts read_source ended_source task_source l
              (start (s, []))) as [Hr R]; [apply replayed_start | done |].
  fold sys in Hr, R.
  split; [exact R|].
  intros i c Hc. destruct (Hr i c Hc) as [_ ->].
  rewrite R. by rewrite fmap_take.
Qed.

End CloneHistory.

(** ** Ranges, and reading to the end *)

Module Delivery.
Import Pipelines PipelineFacts Windows.

(** The options that [range(start, end)] passes on. *)
Definition range_options (start end_ : number) : Options :=
  {| maxBufferSize := None; autoStart := None; destroySource := None;
     offset := Some start;
     limit := Some (Math_max (addN (subN end_ start) (Finite 1)) (Finite 0)) |}.

Lemma range_options_integers (s e : Z) :
  offset_of (range_options (Finite (inject_Z s)) (Finite (inject_Z e)))
  = Z.max s 0
  /\ limit_of (range_options (Finite (inject_Z s)) (Finite (inject_Z e)))
     = Int (Z.max (e - s + 1) 0).
Proof.
  unfold offset_of, limit_of, unreachable, range_options.
  cbn [offset limit orb]. rewrite Math_trunc_inject_Z.
  unfold Math_max, subN, addN, negN, ltN.
  destruct (Qle_bool 0 (inject_Z e + - inject_Z s + 1)) eqn:E; cbn [negb orb].
  - split; [done|]. f_equal.
    apply Qle_bool_iff in E. unfold Qle in E. cbn in E.
    unfold Math_trunc. cbn. rewrite Z.quot_1_r. lia.
  - split; [done|]. f_equal.
    assert (~ (0 <= inject_Z e + - inject_Z s + 1)%Q) as N.
    { intros H. apply Qle_bool_iff in H. congruence. }
    unfold Qle in N. cbn in N.
    change (Z.pos (1 * 1 * 1)) with 1 in N. change (Z.pos (1 * 1)) with 1 in N.
    change (Math_trunc 0) with 0. lia.
Qed.

Lemma range_options_unbounded (s : Z) :
  offset_of (range_options (Finite (inject_Z s)) Infinity) = Z.max s 0
  /\ limit_of (range_options (Finite (inject_Z s)) Infinity) = IInfinity.
Proof.
  unfold offset_of, limit_of, unreachable, range_options.
  cbn. by rewrite Math_trunc_inject_Z.
Qed.

(** X21: [x.range(start, end)] with integers, over any source: the items
    read are those of [x] from position [max(start, 0)] on, and
    [max(end - start + 1, 0)] of them at most, so that a negative [start]
    is raised to 0 for the position but not for the count; nothing is read
    when [end < start]; and with [end = Infinity] the items are those of
    [x.skip(start)]. *)
Theorem range_over_any_source {T : Type} {X : Source T} (D : Delivers X)
  (x : state X) :
  valid D x ->
  (forall s e l,
     reads (window (Z.max s 0) (Int (Z.max (e - s + 1) 0)) (rest D x))
           (moves (stage X) l
              (range X (Finite (inject_Z s)) (Finite (inject_Z e)) x)))
  /\ (forall s e l, e < s ->
        snd (moves (stage X) l
               (range X (Finite (inject_Z s)) (Finite (inject_Z e)) x)) = [])
  /\ (forall s l1 l2,
        agree (moves (stage X) l1 (range X (Finite (inject_Z s)) Infinity x))
              (moves (stage X) l2 (skip X (Finite (inject_Z s)) x))).
Proof.
  intros V.
  assert (forall s e l,
     reads (window (Z.max s 0) (Int (Z.max (e - s + 1) 0)) (rest D x))
           (moves (stage X) l
              (range X (Finite (inject_Z s)) (Finite (inject_Z e)) x))) as R.
  { intros s e l.
    destruct (range_options_integers s e) as [<- <-].
    by apply transform_reads. }
  split; [exact R|]. split.
  - intros s e l Hlt. eapply reads_nothing; [|apply (R s e l)].
    intros k. unfold window. rewrite Z.max_r by lia.
    destruct (Z.ltb_spec (Z.of_nat k) 0); [lia | done].
  - intros s l1 l2.
    apply (reads_agree (window (Z.max s 0) IInfinity (rest D x))).
    + destruct (range_options_unbounded s) as [<- <-].
      by apply transform_reads.
    + pose proof (skip_reads D (Finite (inject_Z s)) x l2 V) as H.
      cbv beta iota in H. by rewrite Math_trunc_inject_Z in H.
Qed.




End Delivery.

Lemma range_over_any_source_witness :
  snd (Pipelines.moves one_stage one_read_in_stage
         (Pipelines.range numbers_source (Finite (inject_Z 5))
            (Finite (inject_Z 3)) up_to_20)) = [].
Proof.
  apply (proj1 (proj2 (Delivery.range_over_any_source
                         PipelineFacts.IntegerFacts.delivers up_to_20 I))).
  lia.
Defined.


(** ** What a transform iterator makes of the items of its source *)

Module MappingFacts.
Import Pipelines PipelineFacts Windows Mapping.

(** What [transform] makes of one item: the mapped item, or the item itself
    when there is no mapping, or when the mapping gives [null] and is
    optional. *)
Definition mapped {T : Type} (map : option (T -> option T)) (optional : bool)
  (item : T) : list T :=
  match map with
  | None => [item]
  | Some f => match f item with
              | Some mappedItem => [mappedItem]
              | None => if optional then [item] else []
              end
  end.

(** The items made so far, the items still to skip and the items still to
    let through, after one more item of the source: an item that the filter
    rejects changes nothing; an accepted item is skipped while the offset
    lasts; after that it is mapped and counts against the limit, whether or
    not its mapping gave an item. *)
Definition after_item {T : Type} (filter : T -> bool)
  (map : option (T -> option T)) (optional : bool)
  (made : list T * Z * integer) (item : T) : list T * Z * integer :=
  let '(out, offset, limit) := made in
  if negb (filter item) then made
  else if negb (offset =? 0) then (out, offset - 1, limit)
  else (out ++ mapped map optional item, offset, subI limit (Int 1)).

Definition made_of {T : Type} (filter : T -> bool)
  (map : option (T -> option T)) (optional : bool) (offset : Z)
  (limit : integer) (items : list T) : list T * Z * integer :=
  fold_left (after_item filter map optional) items ([], offset, limit).

Section Logged.

Context {T : Type} {X : Source T}.
Implicit Types (F : T -> bool) (M : option (T -> option T)) (P : bool).
Implicit Types (start : Z) (bound : integer).

#[local] Abbreviation Stage := (SimpleTransformIterator (logged X)).
#[local] Abbreviation Mapped := (MappedIterator (logged X)).
#[local] Abbreviation _buffer := (_buffer (logged X)).
#[local] Abbreviation _offset := (_offset (logged X)).
#[local] Abbreviation _limit := (_limit (logged X)).
#[local] Abbreviation _source := (_source (logged X)).
#[local] Abbreviation closed := (closed (logged X)).

(** [b'] has the buffer, the offset and the limit of [b], and its source
    has returned the same items. *)
Definition settled (b b' : Stage) : Prop :=
  _buffer b' = _buffer b /\ _offset b' = _offset b /\ _limit b' = _limit b
  /\ snd (_source b') = snd (_source b).

Lemma settled_trans b1 b2 b3 : settled b1 b2 -> settled b2 b3 -> settled b1 b3.
Proof. intros (?&?&?&?) (?&?&?&?). repeat split; congruence. Qed.

Lemma changeState_settled s b : settled b (snd (_changeState (logged X) s b)).
Proof. unfold _changeState. by destruct (_ && _). Qed.

Lemma _completeClose_settled b : settled b (_completeClose (logged X) b).
Proof. unfold _completeClose, _changeState. by destruct (_ && _). Qed.

Lemma close_settled b : settled b (close (logged X) b).
Proof.
  unfold close.
  destruct (negb _); [apply _completeClose_settled | apply changeState_settled].
Qed.

Lemma _fillBufferAsync_settled b : settled b (_fillBufferAsync (logged X) b).
Proof. unfold _fillBufferAsync. by destruct (negb _). Qed.

Lemma fillBuffer_done_settled b : settled b (fillBuffer_done (logged X) b).
Proof.
  unfold fillBuffer_done. destruct (Pipelines.closed (logged X) _).
  - apply (_completeClose_settled (set_reading (logged X) false b)).
  - destruct (negb _); [|done]. destruct (ltI _ _); [|done].
    apply (_fillBufferAsync_settled (set_reading (logged X) false b)).
Qed.

Lemma _init_settled b : settled b (_init (logged X) b).
Proof.
  unfold _init. cbv zeta. set (b1 := snd _).
  assert (settled b b1) as B
    by apply (changeState_settled OPEN
                (set_reading (logged X) false (set_reading (logged X) true b))).
  destruct (_autoStart (logged X) b1); [|done].
  eapply settled_trans; [exact B | apply _fillBufferAsync_settled].
Qed.

Lemma _end_settled d b : settled b (_end (logged X) d b).
Proof.
  unfold _end, _changeState.
  destruct (_destroySource (logged X) b); by destruct (_ && _).
Qed.

(** The items read so far, and then those of the buffer, are what the
    filter, the offset, the mapping and the limit make of the items that the
    source has returned. *)
Definition transformed F M P start bound (it : Mapped) (out : list T)
  : Prop :=
  _filter (logged X) it = F /\ _map (logged X) it = M
  /\ _optional (logged X) it = P
  /\ made_of F M P start bound (snd (_source (buffered (logged X) it)))
     = (out ++ _buffer (buffered (logged X) it),
        _offset (buffered (logged X) it), _limit (buffered (logged X) it)).

Lemma settled_transformed F M P start bound f it out :
  (forall b, settled b (f b)) ->
  transformed F M P start bound it out ->
  transformed F M P start bound (on_buffered (logged X) f it) out.
Proof.
  intros Hf (H1 & H2 & H3 & H4). destruct (Hf (buffered (logged X) it))
    as (E1 & E2 & E3 & E4).
  unfold transformed. cbn [buffered on_buffered _filter _map _optional].
  by rewrite E1, E2, E3, E4.
Qed.

Lemma made_of_snoc F M P start bound items item :
  made_of F M P start bound (items ++ [item])
  = after_item F M P (made_of F M P start bound items) item.
Proof. unfold made_of. by rewrite fold_left_app. Qed.

Lemma loop_transformed F M P start bound fuel count it it' out :
  loop (logged X) fuel count it = Some it' ->
  transformed F M P start bound it out ->
  closed (buffered (logged X) it) = true
  \/ _limit (buffered (logged X) it) <> Int 0 ->
  transformed F M P start bound it' out.
Proof.
  revert it. induction fuel as [|fuel IH]; intros it E H L; [done|].
  cbn [loop] in E.
  destruct (closed (buffered (logged X) it)) eqn:C; cbn [negb andb] in E;
    [by injection E as <-|].
  destruct L as [L|L]; [done|].
  destruct (ltI _ count); [|by injection E as <-].
  destruct H as (H1 & H2 & H3 & H4).
  change (read (logged X) (_source (buffered (logged X) it)))
    with (let '(item, x) := read X (fst (_source (buffered (logged X) it))) in
          (item, (x, match item with
                     | Some v => snd (_source (buffered (logged X) it)) ++ [v]
                     | None => snd (_source (buffered (logged X) it))
                     end))) in E.
  destruct (read X (fst (_source (buffered (logged X) it)))) as [[item|] x].
  - cbn [on_buffered _filter buffered set_source Pipelines._offset] in E.
    rewrite H1 in E.
    assert (made_of F M P start bound
              (snd (_source (buffered (logged X) it)) ++ [item])
            = after_item F M P
                (out ++ _buffer (buffered (logged X) it),
                 _offset (buffered (logged X) it),
                 _limit (buffered (logged X) it)) item) as A
      by by rewrite made_of_snoc, H4.
    unfold after_item in A.
    destruct (negb (F item)).
    { apply (IH _ E); [|by right]. by repeat split. }
    destruct (negb (_offset (buffered (logged X) it) =? 0)).
    { apply (IH _ E); [|by right]. by repeat split. }
    cbv zeta in E. cbn [_map _optional on_buffered buffered] in E.
    rewrite H2, H3 in E.
    set (b0 := set_source (logged X)
                 (x, snd (_source (buffered (logged X) it)) ++ [item])
                 (buffered (logged X) it)) in *.
    assert (done (logged X) b0 = false) as Dn
      by (apply not_closed_not_done; exact C).
    assert (forall y, _push (logged X) y b0
              = set_buffer (logged X) (_buffer b0 ++ [y])
                  (set_pushedCount (logged X)
                     (_pushedCount (logged X) b0 + 1) b0)) as Pu.
    { intros y. unfold _push. by rewrite Dn. }
    destruct M as [f|]; [destruct (f item) as [y|] eqn:Ef; [|destruct P]|];
      (apply (IH _ E);
       [ match goal with
         | |- transformed _ _ _ _ _ (if ?c then _ else _) out =>
             destruct c;
             [apply (settled_transformed _ _ _ _ _ (close (logged X)) _ out
                       close_settled)|]
         end;
         (split; [exact H1|]; split; [exact H2|]; split; [exact H3|];
          cbn [buffered on_buffered]; fold b0; rewrite ?Pu;
          cbn [Pipelines._buffer Pipelines._offset Pipelines._limit
               Pipelines._source set_limit set_buffer set_pushedCount];
          unfold b0;
          cbn [Pipelines._buffer Pipelines._offset Pipelines._limit
               Pipelines._source set_source snd];
          rewrite A; unfold mapped; rewrite ?Ef, ?app_nil_r, ?app_assoc;
          reflexivity)
       | match goal with
         | |- context [eqI ?l (Int 0)] =>
             destruct (eqI l (Int 0)) eqn:El;
             [left; apply close_closes | right; by apply eqI_Int_0]
         end ]).
  - injection E as <-. repeat split; try done.
Qed.

Lemma _readAndTransformSimple_transformed F M P start bound fuel count it it' out :
  _readAndTransformSimple (logged X) fuel count it = Some it' ->
  transformed F M P start bound it out -> transformed F M P start bound it' out.
Proof.
  unfold _readAndTransformSimple. intros E H.
  destruct (ended (logged X) _); [by injection E as <-|].
  destruct (eqI (_limit (buffered (logged X) it)) (Int 0)) eqn:El.
  - apply (loop_transformed _ _ _ _ _ _ _ _ _ _ E).
    + by apply settled_transformed; [apply close_settled|].
    + left. apply close_closes.
  - apply (loop_transformed _ _ _ _ _ _ _ _ _ _ E H).
    right. by apply eqI_Int_0.
Qed.

Lemma _fillBuffer_transformed F M P start bound fuel it it' out :
  _fillBuffer (logged X) fuel it = Some it' ->
  transformed F M P start bound it out -> transformed F M P start bound it' out.
Proof.
  unfold _fillBuffer. intros E H.
  destruct (_reading (logged X) _); [by injection E as <-|].
  destruct (closed _).
  { injection E as <-. by apply settled_transformed;
      [apply _completeClose_settled|]. }
  destruct (gtI _ _); [|by injection E as <-].
  destruct (_readAndTransformSimple (logged X) fuel _ _) as [it1|] eqn:E1;
    [|done].
  injection E as <-.
  apply settled_transformed; [apply fillBuffer_done_settled|].
  apply (_readAndTransformSimple_transformed _ _ _ _ _ _ _ _ _ _ E1).
  apply settled_transformed; [done|]. by apply settled_transformed.
Qed.

Lemma mapped_act_transformed F M P start bound fuel a it it' out :
  mapped_act (logged X) fuel a it = Some it' ->
  transformed F M P start bound it out -> transformed F M P start bound it' out.
Proof.
  intros E H. destruct a; cbn [mapped_act] in E.
  - injection E as <-. by apply settled_transformed; [apply _init_settled|].
  - apply (_fillBuffer_transformed _ _ _ _ _ _ _ _ _ E).
    by apply settled_transformed.
  - by apply (_fillBuffer_transformed _ _ _ _ _ _ _ _ _ E).
  - injection E as <-. apply settled_transformed; [|done].
    intros b. cbn [stage_act]. destruct (ended (logged X) _); [|done].
    apply close_settled.
  - injection E as <-. apply settled_transformed; [|done].
    intros b. cbn [stage_act]. destruct (_ && _); [|done].
    apply _end_settled.
  - injection E as <-. by apply settled_transformed.
Qed.

Lemma stage_read_parts b :
  _buffer b = match fst (stage_read (logged X) b) with
              | Some item => [item]
              | None => []
              end ++ _buffer (snd (stage_read (logged X) b))
  /\ _offset (snd (stage_read (logged X) b)) = _offset b
  /\ _limit (snd (stage_read (logged X) b)) = _limit b
  /\ snd (_source (snd (stage_read (logged X) b))) = snd (_source b).
Proof.
  unfold stage_read. destruct (done (logged X) b); [done|]. cbn [fst snd].
  set (b1 := set_buffer (logged X) _ b).
  assert (settled b1 (if negb (_reading (logged X) b1)
                         && ltI (Int (lengthZ (_buffer b1)))
                                (_maxBufferSize (logged X) b1)
                      then if negb (closed b1)
                           then _fillBufferAsync (logged X) b1 else b1
                      else b1)) as (E1 & E2 & E3 & E4).
  { destruct (_ && _); [|done]. destruct (negb (closed b1)); [|done].
    apply _fillBufferAsync_settled. }
  rewrite E1, E2, E3, E4. unfold b1.
  cbn [Pipelines._buffer Pipelines._offset Pipelines._limit Pipelines._source
       set_buffer].
  split; [|done]. by destruct (_buffer b).
Qed.

Lemma mapped_read_transformed F M P start bound it out :
  transformed F M P start bound it out ->
  transformed F M P start bound (snd (mapped_read (logged X) it))
    (out ++ match fst (mapped_read (logged X) it) with
            | Some item => [item]
            | None => []
            end).
Proof.
  intros (H1 & H2 & H3 & H4). unfold mapped_read.
  destruct (stage_read_parts (buffered (logged X) it)) as (E1 & E2 & E3 & E4).
  destruct (stage_read (logged X) (buffered (logged X) it)) as [item b1].
  cbn [fst snd] in *.
  split; [done|]. split; [done|]. split; [done|].
  cbn [buffered]. by rewrite E2, E3, E4, H4, E1, app_assoc.
Qed.

Lemma mapped_moves_transformed F M P start bound fuel l it out c :
  fold_left (mapped_move (logged X) fuel) l (Some (it, out)) = Some c ->
  transformed F M P start bound it out ->
  transformed F M P start bound (fst c) (snd c).
Proof.
  revert it out. induction l as [|m l IH]; intros it out E H.
  - by injection E as <-.
  - cbn [fold_left] in E. destruct m as [|a]; cbn [mapped_move] in E.
    + pose proof (mapped_read_transformed _ _ _ _ _ _ _ H) as H'.
      destruct (mapped_read (logged X) it) as [[item|] it1];
        cbn [fst snd] in H'.
      * by apply (IH _ _ E).
      * rewrite app_nil_r in H'. by apply (IH _ _ E).
    + destruct (mapped_act (logged X) fuel a it) as [it1|] eqn:Ea.
      * apply (IH _ _ E). by apply (mapped_act_transformed _ _ _ _ _ _ _ _ _ _ Ea).
      * clear -E. exfalso. induction l as [|m l IH]; [done|]. by apply IH.
Qed.

End Logged.

Lemma transform_new {T : Type} (X : Source T) options x :
  _buffer X (Pipelines.transform X options x) = []
  /\ _source X (Pipelines.transform X options x) = x.
Proof.
  rewrite transform_steps.
  destruct (plain_fields (X := X) options x) as (B & S & _).
  unfold SimpleTransformIterator_steps.
  destruct (_ || _); [done|].
  destruct (offset options) as [[q| | |]|], (limit options) as [[q'| | |]|];
    done.
Qed.

(** The filter and the mapping that the constructor takes from its
    options. *)
Definition filter_of {T : Type} (o : TransformOptions T) : T -> bool :=
  if unreachable (options o) then fun _ => true
  else default (fun _ => true) (filter o).

Definition map_of {T : Type} (o : TransformOptions T) : option (T -> option T) :=
  if unreachable (options o) then None else map o.

(** What the options make of a list of items. *)
Definition made {T : Type} (o : TransformOptions T) (items : list T) : list T :=
  fst (fst (made_of (filter_of o) (map_of o) (optional o)
              (offset_of (options o)) (limit_of (options o)) items)).

Lemma made_of_filter {T : Type} (f : T -> bool) items out :
  fold_left (after_item f None false) items (out, 0, IInfinity)
  = (out ++ List.filter f items, 0, IInfinity).
Proof.
  revert out. induction items as [|item items IH]; intros out.
  - by rewrite app_nil_r.
  - cbn [fold_left after_item List.filter]. destruct (f item); cbn [negb].
    + change (0 =? 0) with true. cbn [negb mapped]. rewrite IH.
      by rewrite <- app_assoc.
    + apply IH.
Qed.

Lemma made_of_map {T : Type} (f : T -> option T) items out :
  fold_left (after_item (fun _ => true) (Some f) false) items
    (out, 0, IInfinity)
  = (out ++ omap f items, 0, IInfinity).
Proof.
  revert out. induction items as [|item items IH]; intros out.
  - by rewrite app_nil_r.
  - cbn [fold_left after_item omap list_omap negb].
    change (0 =? 0) with true. cbn [negb mapped]. rewrite IH.
    destruct (f item); cbn; by rewrite <- ?app_assoc, ?app_nil_r.
Qed.

Lemma moves_made {T : Type} (X : Source T) (o : TransformOptions T)
  (x : state X) (fuel : nat) (l : list (Move (stage (logged X)))) c :
  mapped_moves (logged X) fuel l (transform (logged X) o (x, [])) = Some c ->
  snd c ++ _buffer (logged X) (buffered (logged X) (fst c))
  = made o (snd (_source (logged X) (buffered (logged X) (fst c)))).
Proof.
  intros E.
  assert (transformed (filter_of o) (map_of o) (optional o)
            (offset_of (options o)) (limit_of (options o))
            (transform (logged X) o (x, [])) []) as H.
  { split; [done|]. split; [done|]. split; [done|].
    unfold transform. cbn [buffered].
    destruct (transform_new (logged X) (options o) (x, [])) as [-> ->].
    destruct (transform_fields (X := logged X) (options o) (x, []))
      as [-> ->].
    done. }
  destruct (mapped_moves_transformed _ _ _ _ _ _ _ _ _ _ E H)
    as (_ & _ & _ & R).
  unfold made. by rewrite R.
Qed.

(** X23: what a program reads from [x.transform(options)], with a filter,
    a mapping, an offset and a limit.  Whatever the order of reads, tasks
    and events, as far as the loops return: the items read so far, followed
    by those in the buffer, are what the options make of the items that the
    source has returned so far, taken in their order: an item that the
    filter rejects is dropped; of the others the first [offset] are dropped;
    each further one gives its mapping, or itself when there is no mapping
    or when an optional mapping gives [null], and counts against the limit
    even when it gives nothing.  So for [x.filter(f)] they are the items
    that [f] accepts, and for [x.map(f)] the mappings of the items, without
    those mapped to [null]. *)
Theorem transform_makes_of_the_source {T : Type} (X : Source T)
  (x : state X) (fuel : nat) (l : list (Move (stage (logged X)))) c :
  let read_and_buffered :=
    snd c ++ _buffer (logged X) (buffered (logged X) (fst c)) in
  let returned := snd (_source (logged X) (buffered (logged X) (fst c))) in
  (forall o,
     mapped_moves (logged X) fuel l (transform (logged X) o (x, [])) = Some c ->
     read_and_buffered = made o returned)
  /\ (forall f,
       mapped_moves (logged X) fuel l (filter_ (logged X) f (x, [])) = Some c ->
       read_and_buffered = List.filter f returned)
  /\ (forall f,
       mapped_moves (logged X) fuel l (map_ (logged X) f (x, [])) = Some c ->
       read_and_buffered = omap f returned).
Proof.
  intros read_and_buffered returned. split; [|split].
  - intros o E. exact (moves_made X o x fuel l c E).
  - intros f E. unfold read_and_buffered, returned.
    rewrite (moves_made X _ x fuel l c E).
    unfold made, made_of. cbn. by rewrite made_of_filter.
  - intros f E. unfold read_and_buffered, returned.
    rewrite (moves_made X _ x fuel l c E).
    unfold made, made_of. cbn. by rewrite made_of_map.
Qed.

(** *** Loops that return *)

Section Finite.

Context {T : Type} {X : Source T}.
Variable D : Delivers X.
Variable K : nat.

#[local] Abbreviation Stage := (SimpleTransformIterator X).
#[local] Abbreviation Mapped := (MappedIterator X).

(** [b'] is closed, or it is closed if [b] is and has the source of [b]. *)
Definition calm (b b' : Stage) : Prop :=
  closed X b' = true
  \/ (closed X b' = closed X b /\ _source X b' = _source X b).

Lemma calm_trans b1 b2 b3 : calm b1 b2 -> calm b2 b3 -> calm b1 b3.
Proof.
  intros [C1|[C1 S1]] [C2|[C2 S2]]; try by left.
  - left. congruence.
  - right. split; congruence.
Qed.

Lemma changeState_calm s b : calm b (snd (_changeState X s b)).
Proof.
  unfold _changeState. cbn [snd]. destruct (_ && _) eqn:E; [|by right].
  apply andb_true_iff in E as [E1 E2].
  destruct (closed X (set_state X s b)) eqn:C; [by left|]. right.
  split; [|done]. unfold closed in *. cbn [_state set_state] in C. states.
Qed.

Lemma close_calm b : calm b (close X b).
Proof. left. apply close_closes. Qed.

Lemma _completeClose_calm b : calm b (_completeClose X b).
Proof. left. apply _completeClose_closes. Qed.

Lemma _fillBufferAsync_calm b : calm b (_fillBufferAsync X b).
Proof. right. unfold _fillBufferAsync. by destruct (negb _). Qed.

Lemma fillBuffer_done_calm b : calm b (fillBuffer_done X b).
Proof.
  unfold fillBuffer_done. destruct (closed X (set_reading X false b)).
  - apply (_completeClose_calm (set_reading X false b)).
  - destruct (negb _); [|by right]. destruct (ltI _ _); [|by right].
    apply (_fillBufferAsync_calm (set_reading X false b)).
Qed.

Lemma _init_calm b : calm b (_init X b).
Proof.
  unfold _init. cbv zeta. set (b1 := snd _).
  assert (calm b b1) as B
    by apply (changeState_calm OPEN
                (set_reading X false (set_reading X true b))).
  destruct (_autoStart X b1); [|done].
  eapply calm_trans; [exact B | apply _fillBufferAsync_calm].
Qed.

Lemma _end_calm d b : calm b (_end X d b).
Proof. left. apply done_closed, _end_done. Qed.

Lemma stage_read_calm b : calm b (snd (stage_read X b)).
Proof.
  unfold stage_read. destruct (done X b); [by right|]. cbn [snd].
  destruct (_ && _); [|by right]. destruct (negb _); [|by right].
  apply (_fillBufferAsync_calm (set_buffer X (tail (_buffer X b)) b)).
Qed.

(** The source of an iterator that is not closed has [K] items left at
    most. *)
Definition short (it : Mapped) : Prop :=
  closed X (buffered X it) = true
  \/ (valid D (_source X (buffered X it))
      /\ rest D (_source X (buffered X it)) K = None).

Lemma calm_short f it :
  (forall b, calm b (f b)) -> short it -> short (on_buffered X f it).
Proof.
  intros Hf H. destruct (Hf (buffered X it)) as [C|[C S]]; [by left|].
  unfold short. cbn [buffered on_buffered]. rewrite C, S. exact H.
Qed.

Lemma loop_returns fuel k count it :
  (k < fuel)%nat ->
  valid D (_source X (buffered X it)) ->
  rest D (_source X (buffered X it)) k = None ->
  exists it',
    loop X fuel count it = Some it'
    /\ valid D (_source X (buffered X it'))
    /\ rest D (_source X (buffered X it')) k = None.
Proof.
  revert k it. induction fuel as [|fuel IH]; intros k it Hk V R; [lia|].
  cbn [loop]. destruct (_ && _); [|by exists it].
  pose proof (read_valid X D _ V) as V1.
  pose proof (read_item X D (_source X (buffered X it))) as RI.
  pose proof (read_null X D (_source X (buffered X it)) V) as RN.
  destruct (read X (_source X (buffered X it))) as [[item|] s];
    cbn [fst snd] in *.
  - destruct (RI item V eq_refl) as [R0 RS].
    destruct k as [|k]; [congruence|].
    assert (rest D s k = None) as R1 by by rewrite RS.
    assert (forall it2,
              _source X (buffered X it2) = s ->
              exists it', loop X fuel count it2 = Some it'
                /\ valid D (_source X (buffered X it'))
                /\ rest D (_source X (buffered X it')) (S k) = None) as Go.
    { intros it2 E2. destruct (IH k it2) as (it' & E & V' & R');
        [lia | by rewrite E2 | by rewrite E2|].
      exists it'. split; [done|]. split; [done|].
      by apply (rest_closed X D). }
    cbv zeta. cbn [on_buffered buffered _filter _map _optional].
    destruct (negb (_filter X it item)); [by apply Go|].
    destruct (negb (_ =? 0)); [by apply Go|].
    apply Go.
    assert (forall y b, _source X (_push X y b) = _source X b) as Pu.
    { intros y b. unfold _push. by destruct (negb _). }
    assert (forall b, _source X (close X b) = _source X b) as Cl.
    { intros b. by destruct (close_closes b). }
    destruct (_map X it) as [f|]; [destruct (f item); [|destruct (_optional X it)]|];
      cbn [on_buffered buffered];
      match goal with
      | |- context [if ?c then _ else _] => destruct c
      end; cbn [on_buffered buffered Pipelines._source set_limit];
      rewrite ?Cl; cbn [Pipelines._source set_limit]; rewrite ?Pu; done.
  - exists (on_buffered X (set_source X s) it). split; [done|].
    split; [done|]. cbn [on_buffered buffered Pipelines._source set_source].
    by rewrite RN.
Qed.

Lemma _fillBuffer_returns it :
  short it ->
  exists it', _fillBuffer X (S K) it = Some it' /\ short it'.
Proof.
  intros H. unfold _fillBuffer.
  destruct (_reading X (buffered X it)); [by exists it|].
  destruct (closed X (buffered X it)) eqn:C.
  { eexists. split; [done|]. left. apply _completeClose_closes. }
  destruct H as [H|[V R]]; [congruence|].
  destruct (gtI _ _); [|exists it; split; [done|by right]].
  unfold _readAndTransformSimple.
  cbn [on_buffered buffered Pipelines._source set_reading set_pushedCount
       Pipelines._limit].
  destruct (ended X (_source X (buffered X it))).
  { eexists. split; [done|]. apply calm_short; [apply fillBuffer_done_calm|].
    right. by split. }
  match goal with
  | |- context [loop X (S K) ?n ?i] =>
      destruct (loop_returns (S K) K n i) as (it' & E & V' & R')
  end.
  - lia.
  - destruct (eqI _ _); [|done]. cbn [on_buffered buffered].
    by destruct (close_closes (set_reading X true
                   (set_pushedCount X 0 (buffered X it)))) as [_ _ _ _ _ ->].
  - destruct (eqI _ _); [|done]. cbn [on_buffered buffered].
    by destruct (close_closes (set_reading X true
                   (set_pushedCount X 0 (buffered X it)))) as [_ _ _ _ _ ->].
  - rewrite E. eexists. split; [done|].
    apply calm_short; [apply fillBuffer_done_calm|]. right. by split.
Qed.

Lemma mapped_act_returns a it :
  short it ->
  exists it', mapped_act X (S K) a it = Some it' /\ short it'.
Proof.
  intros H. destruct a; cbn [mapped_act].
  - eexists. split; [done|]. by apply calm_short; [apply _init_calm|].
  - apply _fillBuffer_returns. apply calm_short; [|done]. by right.
  - by apply _fillBuffer_returns.
  - eexists. split; [done|]. apply calm_short; [|done].
    intros b. cbn [stage_act]. destruct (ended X _); [|by right].
    apply close_calm.
  - eexists. split; [done|]. apply calm_short; [|done].
    intros b. cbn [stage_act]. destruct (_ && _); [|by right].
    apply _end_calm.
  - eexists. split; [done|]. destruct H as [H|[V R]]; [by left|]. right.
    cbn [on_buffered buffered stage_act Pipelines._source set_source].
    split; [by apply (act_valid X D)|]. by rewrite (act_rest X D).
Qed.

Lemma mapped_moves_return l it out :
  short it ->
  exists c, fold_left (mapped_move X (S K)) l (Some (it, out)) = Some c.
Proof.
  revert it out. induction l as [|m l IH]; intros it out H; [by eexists|].
  cbn [fold_left]. destruct m as [|a]; cbn [mapped_move].
  - assert (short (snd (mapped_read X it))) as H'.
    { unfold mapped_read.
      pose proof (stage_read_calm (buffered X it)) as Cm.
      destruct (stage_read X (buffered X it)) as [item b1]. cbn [snd] in *.
      destruct Cm as [C|[C S]]; [by left|].
      unfold short. cbn [buffered]. rewrite C, S. exact H. }
    destruct (mapped_read X it) as [[item|] it1]; by apply IH.
  - destruct (mapped_act_returns a it H) as (it1 & -> & H1). by apply IH.
Qed.

End Finite.

(** X24: when the source has finitely many items, the loops of
    [x.transform(options)] return: with [K] items at most to come from the
    source, no loop takes more than [K + 1] turns, whatever the filter
    rejects and whatever the order of reads, tasks and events. *)
Theorem transform_loops_return {T : Type} {X : Source T} (D : Delivers X)
  (o : TransformOptions T) (x : state X) (K : nat)
  (l : list (Move (stage X))) :
  valid D x -> rest D x K = None ->
  exists c, mapped_moves X (S K) l (transform X o x) = Some c.
Proof.
  intros V R. apply (mapped_moves_return D K).
  right. unfold transform. cbn [buffered].
  destruct (transform_new X (options o) x) as [_ ->]. by split.
Qed.

End MappingFacts.

(** The even numbers of the range 0, 1, ..., 20: the buffer is filled, and
    two items are read. *)
Definition even_item (item : Item) : bool :=
  match item with
  | Int z => Z.even z
  | _ => false
  end.

Definition two_reads_of (X : Pipelines.Source Item)
  : list (Pipelines.Move (Pipelines.stage X)) :=
  [@Pipelines.Act _ (Pipelines.stage X) Pipelines.Init;
   @Pipelines.Act _ (Pipelines.stage X) Pipelines.FillBuffer_task;
   Pipelines.Read; Pipelines.Read].

Lemma transform_makes_of_the_source_witness :
  exists c,
    Mapping.mapped_moves (Mapping.logged numbers_source) 8
      (two_reads_of (Mapping.logged numbers_source))
      (Mapping.filter_ (Mapping.logged numbers_source) even_item (up_to_20, []))
    = Some c
    /\ snd c = [Int 0; Int 2]
    /\ snd (Pipelines._source _ (Mapping.buffered _ (fst c)))
       = [Int 0; Int 1; Int 2; Int 3; Int 4; Int 5; Int 6]
    /\ snd c ++ Pipelines._buffer _ (Mapping.buffered _ (fst c))
       = List.filter even_item
           (snd (Pipelines._source _ (Mapping.buffered _ (fst c)))).
Proof.
  assert (match Mapping.mapped_moves (Mapping.logged numbers_source) 8
                  (two_reads_of (Mapping.logged numbers_source))
                  (Mapping.filter_ (Mapping.logged numbers_source) even_item
                     (up_to_20, [])) with
          | Some c => Some (snd c,
                            snd (Pipelines._source _ (Mapping.buffered _ (fst c))))
          | None => None
          end
          = Some ([Int 0; Int 2],
                  [Int 0; Int 1; Int 2; Int 3; Int 4; Int 5; Int 6])) as S
    by (vm_compute; reflexivity).
  destruct (Mapping.mapped_moves (Mapping.logged numbers_source) 8
              (two_reads_of (Mapping.logged numbers_source))
              (Mapping.filter_ (Mapping.logged numbers_source) even_item
                 (up_to_20, []))) as [c|] eqn:E; [|discriminate S].
  injection S as S1 S2.
  exists c. split; [done|]. split; [done|]. split; [done|].
  exact (proj1 (proj2 (MappingFacts.transform_makes_of_the_source
                         numbers_source up_to_20 8
                         (two_reads_of (Mapping.logged numbers_source)) c))
               even_item E).
Defined.

Lemma transform_loops_return_witness :
  exists c,
    Mapping.mapped_moves numbers_source 22 (two_reads_of numbers_source)
      (Mapping.filter_ numbers_source even_item up_to_20) = Some c.
Proof.
  apply (MappingFacts.transform_loops_return PipelineFacts.IntegerFacts.delivers
           {| Mapping.options := Mapping.no_options; Mapping.optional := false;
              Mapping.filter := Some even_item; Mapping.map := None |}
           up_to_20 21 (two_reads_of numbers_source) I).
  vm_compute. reflexivity.
Defined.

(** ** What [wrap] makes of the items of its source *)

Module WrappingFacts.
Import Pipelines PipelineFacts Mapping MappingFacts Wrapping.

Section Logged.

Context {T : Type} {X : Source T}.

#[local] Abbreviation Stage := (SimpleTransformIterator (logged X)).
#[local] Abbreviation Wrapped := (TransformIterator (logged X)).
#[local] Abbreviation _buffer := (_buffer (logged X)).
#[local] Abbreviation _source := (_source (logged X)).
#[local] Abbreviation done := (Pipelines.done (logged X)).

(** The state of [b'] is not before that of [b]. *)
Definition later (b b' : Stage) : Prop :=
  _state (logged X) b <= _state (logged X) b'.

Lemma later_done b b' : later b b' -> done b = true -> done b' = true.
Proof. unfold later, Pipelines.done. intros L H. states. Qed.

Lemma changeState_later s b : later b (snd (_changeState (logged X) s b)).
Proof.
  unfold later, _changeState. cbn [snd]. destruct (_ && _) eqn:E; [|done].
  apply andb_true_iff in E as [E1 E2]. cbn [_state set_state]. states.
Qed.

Lemma _completeClose_later b : later b (_completeClose (logged X) b).
Proof.
  unfold _completeClose.
  pose proof (changeState_later CLOSED b) as L.
  destruct (_changeState (logged X) CLOSED b) as [[] b1]; exact L.
Qed.

Lemma close_later b : later b (close (logged X) b).
Proof.
  unfold close.
  destruct (negb _); [apply _completeClose_later | apply changeState_later].
Qed.

Lemma _fillBufferAsync_later b : later b (_fillBufferAsync (logged X) b).
Proof. unfold later, _fillBufferAsync. by destruct (negb _). Qed.

Lemma fillBuffer_done_later b : later b (fillBuffer_done (logged X) b).
Proof.
  unfold fillBuffer_done. destruct (closed (logged X) _).
  - apply (_completeClose_later (set_reading (logged X) false b)).
  - destruct (negb _); [|by unfold later].
    destruct (ltI _ _); [|by unfold later].
    apply (_fillBufferAsync_later (set_reading (logged X) false b)).
Qed.

Lemma _init_later b : later b (_init (logged X) b).
Proof.
  unfold _init. cbv zeta. set (b1 := snd _).
  assert (later b b1) as B
    by apply (changeState_later OPEN
                (set_reading (logged X) false (set_reading (logged X) true b))).
  destruct (_autoStart (logged X) b1); [|done].
  pose proof (_fillBufferAsync_later b1) as B'.
  unfold later in *. by etrans.
Qed.

Lemma _end_later d b : later b (_end (logged X) d b).
Proof.
  unfold _end.
  destruct (_destroySource (logged X) b);
    [apply (changeState_later _ (set_source (logged X) _ b))
    | apply changeState_later].
Qed.

(** The items read so far, those of the buffer, and those dropped since the
    iterator was done, are the items that the source has returned. *)
Definition kept (it : Wrapped) (out : list T) : Prop :=
  exists dropped,
    snd (_source (buffered (logged X) it))
    = out ++ _buffer (buffered (logged X) it) ++ dropped
    /\ (done (buffered (logged X) it) = false -> dropped = []).

Lemma settled_kept f it out :
  (forall b, settled b (f b)) -> (forall b, later b (f b)) ->
  kept it out -> kept (Wrapping.on_buffered (logged X) f it) out.
Proof.
  intros Hs Hl (dropped & E & Dn).
  destruct (Hs (buffered (logged X) it)) as (E1 & _ & _ & E4).
  exists dropped. cbn [Wrapping.buffered Wrapping.on_buffered].
  rewrite E1, E4. split; [done|]. intros H. apply Dn.
  destruct (done (buffered (logged X) it)) eqn:D0; [|done].
  by rewrite (later_done _ _ (Hl _) D0) in H.
Qed.

Lemma done_reading_kept it out : kept it out -> kept (done_reading (logged X) it) out.
Proof.
  apply settled_kept; [apply fillBuffer_done_settled | apply fillBuffer_done_later].
Qed.

Lemma next_kept count it out : kept it out -> kept (next (logged X) count it) out.
Proof.
  intros H. unfold next. destruct (_ && _); [done|]. by apply done_reading_kept.
Qed.

Lemma push_parts item b :
  (done b = false ->
   _buffer (_push (logged X) item b) = _buffer b ++ [item]
   /\ _source (_push (logged X) item b) = _source b
   /\ done (_push (logged X) item b) = false
   /\ _pushedCount (logged X) (_push (logged X) item b)
      = _pushedCount (logged X) b + 1)
  /\ (done b = true -> _push (logged X) item b = b).
Proof.
  unfold _push. split; intros H; rewrite H; [|done]. cbn [negb].
  split; [done|]. split; [done|]. split; [exact H | done].
Qed.

(** One more item of the source, pushed. *)
Lemma pushed_kept item x it out :
  kept it out ->
  kept (Wrapping.on_buffered (logged X) (_push (logged X) item)
          (Wrapping.on_buffered (logged X)
             (set_source (logged X)
                (x, snd (_source (buffered (logged X) it)) ++ [item])) it)) out.
Proof.
  intros (dropped & E & Dn). unfold kept.
  cbn [Wrapping.buffered Wrapping.on_buffered].
  set (b0 := set_source (logged X) _ (Wrapping.buffered (logged X) it)).
  assert (done b0 = done (Wrapping.buffered (logged X) it)) as D0 by done.
  destruct (push_parts item b0) as [Open Done].
  destruct (done (Wrapping.buffered (logged X) it)) eqn:D1.
  - rewrite (Done D0). exists (dropped ++ [item]).
    split; [|by rewrite D0]. unfold b0.
    cbn [Pipelines._buffer Pipelines._source set_source snd].
    rewrite E. by rewrite <- !app_assoc.
  - destruct (Open D0) as (-> & -> & -> & _). exists [].
    split; [|done]. unfold b0.
    cbn [Pipelines._buffer Pipelines._source set_source snd].
    rewrite E, (Dn eq_refl), !app_nil_r. by rewrite <- app_assoc.
Qed.

Lemma _readAndTransform_kept count it out :
  kept it out -> kept (_readAndTransform (logged X) count it) out.
Proof.
  intros H. unfold _readAndTransform.
  destruct (negb (ended (logged X) _)); [|by apply done_reading_kept].
  change (read (logged X) (_source (Wrapping.buffered (logged X) it)))
    with (let '(item, x) :=
            read X (fst (_source (Wrapping.buffered (logged X) it))) in
          (item, (x, match item with
                     | Some v =>
                         snd (_source (Wrapping.buffered (logged X) it)) ++ [v]
                     | None => snd (_source (Wrapping.buffered (logged X) it))
                     end))).
  destruct (read X (fst (_source (Wrapping.buffered (logged X) it))))
    as [[item|] x].
  - pose proof (pushed_kept item x it out H) as K1.
    cbv zeta. cbn [Wrapping._optional Wrapping.on_buffered Wrapping.buffered].
    destruct (negb (Wrapping._optional (logged X) it)); [by apply next_kept|].
    apply next_kept.
    set (b0 := set_source (logged X) _ (Wrapping.buffered (logged X) it)) in *.
    destruct (push_parts item b0) as [Open Done].
    destruct (done b0) eqn:D0.
    + pose proof (Done eq_refl) as Same. destruct (_ =? _); [|exact K1].
      unfold kept in *. cbn [Wrapping.buffered Wrapping.on_buffered] in *.
      fold b0 in K1 |- *. rewrite Same in K1 |- *. by rewrite Same.
    + destruct (Open eq_refl) as (_ & _ & _ & Pc).
      destruct (Z.eqb_spec (_pushedCount (logged X) b0)
                  (_pushedCount (logged X) (_push (logged X) item b0)));
        [lia | exact K1].
  - apply done_reading_kept. destruct H as (dropped & E & Dn).
    by exists dropped.
Qed.

Lemma _fillBuffer_kept it out :
  kept it out -> kept (Wrapping._fillBuffer (logged X) it) out.
Proof.
  intros H. unfold Wrapping._fillBuffer.
  destruct (_reading (logged X) _); [done|].
  destruct (closed (logged X) _).
  { apply settled_kept;
      [apply _completeClose_settled | apply _completeClose_later | done]. }
  destruct (gtI _ _); [|done].
  apply _readAndTransform_kept.
  apply settled_kept; [done | by intros b; unfold later|].
  by apply settled_kept; [done | by intros b; unfold later|].
Qed.

Lemma wrapped_act_kept a it out :
  kept it out -> kept (wrapped_act (logged X) a it) out.
Proof.
  intros H. destruct a as [[| | | | |a]|]; cbn [wrapped_act].
  - apply settled_kept; [apply _init_settled | apply _init_later | done].
  - apply _fillBuffer_kept. by apply settled_kept; [done | by intros b; unfold later|].
  - by apply _fillBuffer_kept.
  - apply settled_kept; [| |done]; intros b; cbn [stage_act];
      (destruct (ended (logged X) _); [|by unfold later]);
      [apply close_settled | apply close_later].
  - apply settled_kept; [| |done]; intros b; cbn [stage_act];
      (destruct (_ && _); [|by unfold later]);
      [apply _end_settled | apply _end_later].
  - apply settled_kept; [done | by intros b; unfold later | done].
  - destruct (deferred (logged X) it); [|done].
    apply _readAndTransform_kept. destruct H as (dropped & E & Dn).
    by exists dropped.
Qed.

Lemma wrapped_read_kept it out :
  kept it out ->
  kept (snd (wrapped_read (logged X) it))
    (out ++ match fst (wrapped_read (logged X) it) with
            | Some item => [item]
            | None => []
            end).
Proof.
  intros (dropped & E & Dn). unfold wrapped_read.
  destruct (stage_read_parts (buffered (logged X) it)) as (E1 & _ & _ & E4).
  assert (done (snd (stage_read (logged X) (buffered (logged X) it)))
          = done (buffered (logged X) it)) as E5.
  { unfold stage_read. destruct (done (buffered (logged X) it)) eqn:D0;
      [done|]. cbn [snd].
    destruct (_ && _); [|done]. destruct (negb _); [|done].
    unfold _fillBufferAsync. by destruct (negb _). }
  destruct (stage_read (logged X) (buffered (logged X) it)) as [item b1].
  cbn [fst snd] in *. exists dropped. cbn [Wrapping.buffered].
  rewrite E4, E5, E, E1. split; [by rewrite <- !app_assoc | done].
Qed.

Lemma moves_kept l it out :
  kept it out ->
  kept (fst (fold_left (move (wrapped (logged X))) l (it, out)))
       (snd (fold_left (move (wrapped (logged X))) l (it, out))).
Proof.
  revert it out. induction l as [|m l IH]; intros it out H; [done|].
  cbn [fold_left]. destruct m as [|a]; cbn [move fst snd].
  - pose proof (wrapped_read_kept it out H) as H'.
    change (read (wrapped (logged X)) it) with (wrapped_read (logged X) it).
    destruct (wrapped_read (logged X) it) as [[item|] it1];
      cbn [fst snd] in H'; [by apply IH|].
    rewrite app_nil_r in H'. by apply IH.
  - apply IH. by apply wrapped_act_kept.
Qed.

End Logged.

(** X25: [wrap(x)] (a [TransformIterator] with the default [_transform],
    optional or not) loses no item while it works: whatever the order of
    reads, tasks and events, the items that [x] has returned are the items
    read from the iterator so far, then those in its buffer, and then the
    items that were taken from [x] once the iterator was done, which are
    dropped; as long as the iterator is not done nothing is dropped. *)
Theorem wrap_keeps_the_items {T : Type} (X : Source T)
  (options : TransformIteratorOptions) (x : state X)
  (l : list (Move (wrapped (logged X)))) :
  let c := moves (wrapped (logged X)) l (wrap (logged X) options (x, [])) in
  exists dropped,
    snd (_source (logged X) (Wrapping.buffered (logged X) (fst c)))
    = snd c ++ _buffer (logged X) (Wrapping.buffered (logged X) (fst c))
      ++ dropped
    /\ (Pipelines.done (logged X) (Wrapping.buffered (logged X) (fst c)) = false ->
        dropped = []).
Proof.
  intros c. apply (moves_kept l). exists []. split; [|done].
  unfold wrap, new_TransformIterator. cbn [Wrapping.buffered].
  destruct (ended (logged X) (x, [])); [|done].
  match goal with
  | |- context [close (logged X) ?b] => by destruct (close_closes b) as [_ _ -> _ _ ->]
  end.
Qed.

End WrappingFacts.
(** ** Which listeners the end of an iterator releases *)

Module ListenerRelease.
Import Flow.

(** The calls of the listeners of the program, one after the other: each
    records its call and returns. *)
Lemma call_consumers (ids : list nat) r a stack fuel w :
  call (length ids + fuel) (((fun id => Call (consumer id) r a) <$> ids) ++ stack) w
  = call fuel stack
      {| heap := heap w; microtasks := microtasks w;
         log := log w ++ ((fun id => received id r a) <$> ids) |}.
Proof.
  revert w. induction ids as [|id ids IH]; intros w.
  - cbn. rewrite app_nil_r. by destruct w.
  - cbn [length fmap list_fmap app Nat.add]. rewrite call_step by done.
    cbn [step step_Call fst snd app]. rewrite IH. cbn. by rewrite <- app_assoc.
Qed.

(** [_end(true)] calls no listener, so it returns. *)
Lemma call_AsyncIterator_end_destroy r w :
  state_of r w < ENDED ->
  exists w',
    call 3 [AsyncIterator_end r true] w = Some (Returned w')
    /\ state_of r w' = DESTROYED
    /\ released r w'.
Proof.
  intros Hlt. eexists. split.
  - rewrite call_step by done. rewrite step_AsyncIterator_end.
    pose proof Hlt as Hlt'. apply Z.ltb_lt in Hlt'. rewrite Hlt'.
    cbn [fst snd app]. rewrite call_step by done. reflexivity.
  - assert (Ha : allocated r w).
    { apply (valid_allocated r ENDED). apply Z.ltb_lt in Hlt. by rewrite Hlt. }
    split; [|apply step_AsyncIterator_end_k_released].
    rewrite state_of_AsyncIterator_end_k. by apply state_of_set_state.
Qed.

(** [_end()] calls the listeners of [end]; when they are listeners of the
    program, they return, and [_end()] then removes them. *)
Lemma call_AsyncIterator_end_consumers r (ids : list nat) w :
  state_of r w < ENDED ->
  listeners ev_end (base (obj r w)) = consumer <$> ids ->
  exists w',
    call (length ids + 4) [AsyncIterator_end r false] w = Some (Returned w')
    /\ state_of r w' = ENDED
    /\ released r w'
    /\ log w' = log w ++ emitted r ev_end no_arg
                         :: ((fun id => received id r no_arg) <$> ids).
Proof.
  intros Hlt Hl.
  assert (Ha : allocated r w).
  { apply (valid_allocated r ENDED). apply Z.ltb_lt in Hlt. by rewrite Hlt. }
  set (w1 := upd r (on_base (set_state ENDED)) w).
  set (w2 := {| heap := heap w1; microtasks := microtasks w1;
                log := (log w1 ++ [emitted r ev_end no_arg])
                       ++ ((fun id => received id r no_arg) <$> ids) |}).
  exists (step (AsyncIterator_end_k r) w2).1.
  split; [|split; [|split]].
  - replace (length ids + 4)%nat with (S (S (length ids + 2))) by lia.
    rewrite call_step by done. rewrite step_AsyncIterator_end.
    pose proof Hlt as Hlt'. apply Z.ltb_lt in Hlt'. rewrite Hlt'.
    cbn [fst snd app]. fold w1. rewrite call_step by done.
    assert (step (Emit r ev_end no_arg) w1
            = (observe (emitted r ev_end no_arg) w1,
               (fun id => Call (consumer id) r no_arg) <$> ids)) as ->.
    { unfold step. cbn [bool_decide decide_rel andb].
      assert (listeners ev_end (base (obj r w1)) = consumer <$> ids) as ->.
      { unfold w1. rewrite obj_upd_eq by done. exact Hl. }
      rewrite <- list_fmap_compose.
      destruct (bool_decide (ev_end = ev_error)) eqn:B; [|done].
      by apply bool_decide_eq_true in B. }
    cbn [fst snd]. rewrite call_consumers.
    rewrite call_step by done. reflexivity.
  - rewrite state_of_AsyncIterator_end_k. unfold state_of, w2, obj. cbn [heap].
    fold (obj r w1). fold (state_of r w1). by apply state_of_set_state.
  - apply step_AsyncIterator_end_k_released.
  - cbn. by rewrite <- app_assoc.
Qed.

(** The object [new EmptyIterator()] makes, with the listeners [events]. *)
Definition empty_iter (events : list (Event * Listener)) : Iter :=
  {| base := {| _state := ENDED; _readable := false; _events := events;
                _destination := None |};
     kind := EmptyIterator |}.

(** The constructor enters ENDED and defers the [end] event; it calls
    nothing else. *)
Lemma new_EmptyIterator_around w :
  step New_EmptyIterator w
  = (around (heap w ++ [null_iter]) (length (heap w))
       (empty_iter [(ev_newListener, waitForDataListener)])
       (microtasks w ++ [Emit (length (heap w)) ev_end no_arg]) (log w), []).
Proof.
  assert (length (heap w) < length (heap w ++ [null_iter]))%nat as A
    by (rewrite length_app; cbn; lia).
  rewrite step_New_EmptyIterator. f_equal.
  assert ((alloc (new_iter OPEN EmptyIterator) w).2
          = around (heap w ++ [null_iter]) (length (heap w))
              (new_iter OPEN EmptyIterator) (microtasks w) (log w)) as ->.
  { unfold alloc, around. cbn [snd]. f_equal.
    rewrite insert_app_r_alt by done. by rewrite Nat.sub_diag. }
  by rewrite upd_around, queueMicrotask_around.
Qed.

(** Listeners attached to a new [EmptyIterator] stay: the program runs to
    its end, the [end] event is delivered, and the listeners are where they
    were put. *)
Lemma empty_iterator_keeps_listeners (d e : nat) (w : World) :
  microtasks w = [] ->
  let r := length (heap w) in
  exists fuel w',
    run fuel [New_EmptyIterator; On r ev_data (consumer d);
              On r ev_end (consumer e)] w = Some (Returned w')
    /\ state_of r w' = ENDED
    /\ microtasks w' = []
    /\ log w' = log w ++ [emitted r ev_newListener (arg_event ev_data);
                          emitted r ev_end no_arg; received e r no_arg]
    /\ _events (base (obj r w'))
       = [(ev_readable, emitData); (ev_data, consumer d); (ev_end, consumer e)].
Proof.
  intros Q r.
  set (h := heap w ++ [null_iter]).
  assert (r < length h)%nat as A by (unfold h; rewrite length_app; cbn; lia).
  pose proof (new_EmptyIterator_around w) as N. rewrite Q in N.
  fold r h in N. cbn [app] in N.
  set (events := [(ev_readable, emitData); (ev_data, consumer d);
                  (ev_end, consumer e)]).
  enough (runs [New_EmptyIterator; On r ev_data (consumer d);
                On r ev_end (consumer e)] w
            (around h r (empty_iter events) []
               (((log w ++ [emitted r ev_newListener (arg_event ev_data)])
                 ++ [emitted r ev_end no_arg]) ++ [received e r no_arg])))
    as [fuel H].
  { eexists fuel, _. split; [exact H|]. unfold state_of.
    rewrite obj_around by done. split; [done|]. split; [done|].
    split; [by rewrite <- !app_assoc | done]. }
  eapply (runs_next _ _ h r (empty_iter events) (Emit r ev_end no_arg) []).
  { eapply calls_next; [exact N | discriminate|]. cbn [app].
    next_call ltac:(rewrite obj_around by done).
    next_call ltac:(rewrite obj_around by done).
    next_call ltac:(unfold step_Call; rewrite upd_around by done).
    next_call ltac:(rewrite obj_around by done).
    next_call ltac:(rewrite obj_around, upd_around by done).
    next_call ltac:(rewrite obj_around by done).
    next_call ltac:(rewrite upd_around by done).
    next_call ltac:(rewrite obj_around, upd_around by done).
    apply calls_nil. }
  apply runs_done; [|done].
  next_call ltac:(rewrite obj_around by done).
  next_call idtac.
  apply calls_nil.
Qed.

(** C8, as the code has it: an iterator enters a terminal state (ENDED or
    DESTROYED) in two ways only.  One is [_end] of [AsyncIterator]: when
    [_end] returns, the iterator has no listener for [readable], [data] or
    [end] (the listeners of [end] are called first, in the ENDED state);
    [_end(true)] always returns, and [_end()] returns when the listeners of
    [end] are those of the program.  The other is the constructor of
    [EmptyIterator], which enters ENDED without [_end] and only defers the
    [end] event: nothing releases the listeners that are attached to an
    [EmptyIterator], since [_end] does nothing on an iterator that is done;
    they are still attached when the [end] event has been delivered and the
    program has run to its end. *)
Theorem listeners_released_at_the_end :
  (forall c w r,
      allocated r w -> state_of r w < ENDED -> ENDED <= state_of r (step c w).1 ->
      exists destroy k,
        c = AsyncIterator_end r destroy
        /\ (step c w).2 = k ++ [AsyncIterator_end_k r]
        /\ state_of r (step c w).1 = (if destroy then DESTROYED else ENDED))
  /\ (forall c w r,
         ~ allocated r w -> allocated r (step c w).1 -> ENDED <= state_of r (step c w).1 ->
         c = New_EmptyIterator /\ kind (obj r (step c w).1) = EmptyIterator
         /\ state_of r (step c w).1 = ENDED
         /\ (step c w).2 = []
         /\ microtasks (step c w).1 = microtasks w ++ [Emit r ev_end no_arg])
  /\ (forall fuel r destroy w w',
         state_of r w < ENDED ->
         call fuel [AsyncIterator_end r destroy] w = Some (Returned w') ->
         state_of r w' = (if destroy then DESTROYED else ENDED)
         /\ released r w'
         /\ _readable (base (obj r w')) = false)
  /\ (forall r w,
         state_of r w < ENDED ->
         exists w',
           call 3 [AsyncIterator_end r true] w = Some (Returned w')
           /\ state_of r w' = DESTROYED
           /\ released r w')
  /\ (forall r (ids : list nat) w,
         state_of r w < ENDED ->
         listeners ev_end (base (obj r w)) = consumer <$> ids ->
         exists w',
           call (length ids + 4) [AsyncIterator_end r false] w = Some (Returned w')
           /\ state_of r w' = ENDED
           /\ released r w'
           /\ log w' = log w ++ emitted r ev_end no_arg
                                :: ((fun id => received id r no_arg) <$> ids))
  /\ (forall r destroy w,
         ENDED <= state_of r w -> step (AsyncIterator_end r destroy) w = (w, []))
  /\ (forall (d e : nat) w,
         microtasks w = [] ->
         let r := length (heap w) in
         exists fuel w',
           run fuel [New_EmptyIterator; On r ev_data (consumer d);
                     On r ev_end (consumer e)] w = Some (Returned w')
           /\ state_of r w' = ENDED
           /\ microtasks w' = []
           /\ log w' = log w ++ [emitted r ev_newListener (arg_event ev_data);
                                 emitted r ev_end no_arg; received e r no_arg]
           /\ _events (base (obj r w'))
              = [(ev_readable, emitData); (ev_data, consumer d);
                 (ev_end, consumer e)]).
Proof.
  destruct state_numbers as (Hi&Ho&Hc1&Hc2&He&Hd).
  split; [|split; [|split; [|split; [|split; [|split]]]]].
  - intros c w r Ha Hlt Hge.
    destruct (decide (regular c)) as [Hreg|Hspecial].
    { destruct (step_quiet c w Hreg) as [[_ _ Hs _ _ _] _].
      destruct (Hs r Ha) as [E|(_&_&E)]; lia. }
    destruct c; try (exfalso; apply Hspecial; exact I).
    + destruct ev; try (exfalso; apply Hspecial; exact I).
      simpl in Hge. change (state_of r (observe _ w)) with (state_of r w) in Hge. lia.
    + rewrite step_AsyncIterator_end in *.
      destruct (state_of r0 w <? ENDED) eqn:Hv; simpl in *; [|lia].
      destruct (decide (r0 = r)) as [->|Hne].
      * exists destroy. eexists. split; [done|]. split; [done|].
        by apply state_of_set_state.
      * rewrite state_of_set_state_ne in Hge by done. lia.
    + destruct (step_forward New_EmptyIterator w r Ha) as [_ Hf].
      rewrite step_New_EmptyIterator in *. cbn [fst] in *.
      assert (Hne : length (heap w) <> r) by (unfold allocated in Ha; lia).
      change (state_of r (queueMicrotask ?t ?x)) with (state_of r x) in Hge.
      rewrite state_of_set_state_ne in Hge by done.
      unfold state_of in Hge.
      rewrite (obj_alloc_old (new_iter OPEN EmptyIterator) w r Ha) in Hge.
      fold (state_of r w) in Hge. lia.
  - intros c w r Hn Ha Hge.
    destruct (decide (regular c)) as [Hreg|Hspecial].
    { destruct (step_quiet c w Hreg) as [[_ _ _ Hb _ _] _].
      specialize (Hb r Hn Ha). unfold born in Hb. lia. }
    destruct c; try (exfalso; apply Hspecial; exact I).
    + destruct ev; try (exfalso; apply Hspecial; exact I). by destruct Hn.
    + rewrite step_AsyncIterator_end in Ha.
      destruct (_ <? _); simpl in Ha; [apply allocated_upd in Ha|]; by destruct Hn.
    + split; [done|]. rewrite new_EmptyIterator_around in *. cbn [fst snd] in *.
      assert (r = length (heap w)) as ->.
      { unfold allocated, around in *. cbn [heap] in Ha.
        rewrite length_insert, length_app in Ha. simpl in Ha. lia. }
      unfold state_of. rewrite obj_around by (rewrite length_app; cbn; lia).
      done.
  - apply call_AsyncIterator_end.
  - apply call_AsyncIterator_end_destroy.
  - apply call_AsyncIterator_end_consumers.
  - intros r destroy w Hge. rewrite step_AsyncIterator_end.
    destruct (Z.ltb_spec (state_of r w) ENDED); [lia | done].
  - apply empty_iterator_keeps_listeners.
Qed.

End ListenerRelease.

(** An iterator with listeners for [data] and [end], then ended. *)
Definition listened : list Cmd :=
  [New_AsyncIterator; On 0%nat ev_data (consumer 0); On 0%nat ev_end (consumer 0)].

Lemma listeners_released_at_the_end_witness :
  exists w w',
    run 20 listened empty_world = Some (Returned w)
    /\ listeners ev_end (base (obj 0%nat w)) = [consumer 0]
    /\ call 5 [AsyncIterator_end 0%nat false] w = Some (Returned w')
    /\ state_of 0%nat w' = ENDED
    /\ released 0%nat w'
    /\ received_by 0 (log w') = [(0%nat, no_arg)].
Proof.
  eexists.
  match goal with |- exists w', ?R /\ ?L /\ call _ _ ?w = _ /\ _ =>
    assert (R) as HR by (vm_compute; reflexivity);
    destruct (proj1 (proj2 (proj2 (proj2 (proj2
                ListenerRelease.listeners_released_at_the_end))))
                0%nat [0%nat] w)
      as (w' & H1 & H2 & H3 & H4) end.
  - vm_compute. reflexivity.
  - reflexivity.
  - exists w'. split; [exact HR|]. split; [reflexivity|].
    split; [exact H1|]. split; [exact H2|]. split; [exact H3|].
    rewrite H4. vm_compute. reflexivity.
Defined.

(** An [EmptyIterator] with the same listeners: when the program has run to
    its end the iterator is ENDED and the listener has received [end], and
    the iterator still has its listeners for [readable], [data] and
    [end]. *)
Lemma empty_iterator_releases_no_listener :
  exists w,
    run 20 [New_EmptyIterator; On 0%nat ev_data (consumer 0);
            On 0%nat ev_end (consumer 0)] empty_world = Some (Returned w)
    /\ kind (obj 0%nat w) = EmptyIterator
    /\ state_of 0%nat w = ENDED
    /\ microtasks w = []
    /\ received_by 0 (log w) = [(0%nat, no_arg)]
    /\ listeners ev_readable (base (obj 0%nat w)) = [emitData]
    /\ listeners ev_data (base (obj 0%nat w)) = [consumer 0]
    /\ listeners ev_end (base (obj 0%nat w)) = [consumer 0].
Proof.
  eexists. split; [vm_compute; reflexivity|]. by vm_compute.
Qed.
